(** * Carousel controllers of kanatal-homestay.js

    A shallow embedding of the two carousel classes of
    [src/kanatal-homestay.js] ([RoomsCarousel], [AmenitiesCarousel]) and of
    the part of [App.initializeModules] that creates them, followed by the
    properties of the synchronisation logic.

    Modelling conventions.
    - JavaScript numbers are modelled by their exact values: integers as
      [Z], the values that may be fractional (scroll offsets, touch
      coordinates, bounding boxes) as rationals [Q].  The quotient and the
      product of [syncWithScroll] are rounded to doubles as IEEE-754
      arithmetic rounds them ([Double.fl]); sums, differences and products
      of integers and the comparisons of the touch listeners are taken
      exactly.  [Math.round] is [floor (x + 1/2)].
    - A method is a computation over the instance's fields which may throw
      (a [TypeError] on a property read of [null]/[undefined]) and which
      emits the commands it sends outward.  A throw keeps the field writes
      and the commands made before it, as in JavaScript.
    - The DOM elements an instance holds are fields: [None] is [null].
    - Time is a clock in milliseconds on the page; a [setTimeout] becomes a
      pending timer with its due time, run when the clock reaches it. *)

From Stdlib Require Import ZArith QArith Qround Qabs Qpower List Bool Lia.
From Stdlib Require Import Lqa.
From Stdlib Require String.
Import ListNotations.
Open Scope Z_scope.

(* ------------------------------------------------------------------ *)
(** ** Numbers *)

Module Math.
Definition round (x : Q) : Z := Qfloor (x + (1 # 2)).
Definition max (a b : Z) : Z := Z.max a b.
Definition min (a b : Z) : Z := Z.min a b.
Definition abs (x : Q) : Q := Qabs x.
End Math.

(** [a > b] on possibly fractional numbers. *)
Definition Qgtb (a b : Q) : bool := negb (Qle_bool a b).
(** [a < b] on possibly fractional numbers. *)
Definition Qltb (a b : Q) : bool := negb (Qle_bool b a).

(* ------------------------------------------------------------------ *)
(** ** Double-precision arithmetic

    A JavaScript number is an IEEE-754 binary64 value; a finite one is
    modelled by the rational it stands for.  [fl x] is what an arithmetic
    operation returns whose exact result is [x].  [Infinity] is modelled by
    [2^1024], which [Math.round], [Math.min] and [Math.max] treat as they
    treat [Infinity].  [NaN] and the sign of zero are not modelled:
    [syncWithScroll] divides a finite number by [cardWidth + gap] or by a
    positive [maxScroll], neither of which is zero for a card width the
    DOM can report, and multiplies the finite quotient by an integer. *)

Module Double.

(** [2^k], for any integer [k]. *)
Definition pow2 (k : Z) : Q := Qpower 2 k.

(** [floor (log2 x)] of a positive number. *)
Definition ilog2 (x : Q) : Z :=
  let k := Z.log2 (Qnum x) - Z.log2 (Zpos (Qden x)) in
  if Qle_bool (pow2 k) x then k else k - 1.

(** The nearest integer, the even one of two that are equally near. *)
Definition rne (t : Q) : Z :=
  let f := Qfloor t in
  match (t - inject_Z f ?= 1 # 2)%Q with
  | Lt => f
  | Gt => f + 1
  | Eq => if Z.even f then f else f + 1
  end.

(** The exponent of the unit in the last place of the double that holds
    [x]: 53 significant bits, subnormal below [2^-1022]. *)
Definition ulp_exp (x : Q) : Z := Z.max (ilog2 (Qabs x) - 52) (-1074).

(** A value beyond every double; it stands for [Infinity]. *)
Definition infinity : Q := pow2 1024.

(** [x] rounded to the nearest double, ties to the even significand, and
    to [Infinity] from [2^1024 - 2^970] on. *)
Definition fl (x : Q) : Q :=
  if Qeq_bool x 0 then 0
  else
    let q := ulp_exp x in
    let r := (inject_Z (rne (x / pow2 q)) * pow2 q)%Q in
    if Qle_bool infinity (Qabs r)
    then (if Qle_bool 0 x then infinity else - infinity)%Q
    else r.

(** The finite doubles: [m * 2^e] with [|m| < 2^53] and
    [-1074 <= e <= 971]. *)
Definition representable (d : Q) : Prop :=
  exists m e : Z,
    Z.abs m < 2 ^ 53 /\ -1074 <= e <= 971 /\ (d == inject_Z m * pow2 e)%Q.

(** [d] is a double, and no double is nearer to [y]. *)
Definition nearest (y d : Q) : Prop :=
  representable d /\
  forall d', representable d' -> (Qabs (d - y) <= Qabs (d' - y))%Q.

(** [d] has an even significand: it is [m * 2^e] in normal form (the
    least exponent, or a significand of 53 bits) with [m] even. *)
Definition even_double (d : Q) : Prop :=
  exists m e : Z,
    Z.abs m < 2 ^ 53 /\ -1074 <= e <= 971 /\ (e = -1074 \/ 2 ^ 52 <= Z.abs m) /\
    Z.even m = true /\ (d == inject_Z m * pow2 e)%Q.

(** The largest double plus half a unit in its last place. *)
Definition overflow_threshold : Q := (pow2 1024 - pow2 970)%Q.

(** What IEEE-754 asks of the result [d] of an operation whose exact value
    is [y], rounding to nearest with ties to even: below the threshold [d]
    is a nearest double, and the one with the even significand when another
    double is as near; from the threshold on it is an infinity. *)
Definition rounds (y d : Q) : Prop :=
  ((Qabs y < overflow_threshold)%Q ->
   nearest y d /\
   forall d', nearest y d' -> ~ (d' == d)%Q -> even_double d) /\
  ((overflow_threshold <= y)%Q -> (d == infinity)%Q) /\
  ((y <= - overflow_threshold)%Q -> (d == - infinity)%Q).

End Double.

(* ------------------------------------------------------------------ *)
(** ** Completions, outward commands and the method monad *)

Inductive JsError := TypeError.

Inductive Completion (A : Type) :=
| Normal (a : A)
| Throw (e : JsError).
Arguments Normal {A} a.
Arguments Throw {A} e.

Inductive Owner := OwnerRooms | OwnerAmenities.

(** The elements listeners are registered on; [RoomsDot j] is the [j]-th
    button of the rooms carousel's dots container. *)
Inductive Target :=
| RoomsLeftArrow | RoomsRightArrow | RoomsCarouselEl | RoomsDot (j : nat)
| AmenitiesLeftArrow | AmenitiesRightArrow | AmenitiesCarouselEl
| Document | WindowObj.

Inductive EventType :=
| TClick | TScroll | TTouchStart | TTouchMove | TTouchEnd | TKeyDown | TResize.

(** What a method does to the outside, in program order:
    [carousel.scrollTo], the writes of [updateUI] (the written values are in
    the fields; the command records when the render ran and for which
    index), [setTimeout], [addEventListener], [e.preventDefault]. *)
Inductive Effect :=
| ScrollTo (left : Z)
| UpdateUI (index : Z)
| SetTimeout (ms : Z)
| AddEventListener (tgt : Target) (ty : EventType)
| PreventDefault.

Definition M (S A : Type) : Type := S -> Completion A * S * list Effect.

Section MethodMonad.
Context {S : Type}.

Definition ret {A} (a : A) : M S A := fun s => (Normal a, s, []).

Definition bind {A B} (m : M S A) (k : A -> M S B) : M S B := fun s =>
  match m s with
  | (Normal a, s1, e1) =>
      match k a s1 with (r, s2, e2) => (r, s2, e1 ++ e2) end
  | (Throw e, s1, e1) => (Throw e, s1, e1)
  end.

Definition get : M S S := fun s => (Normal s, s, []).
Definition modify (f : S -> S) : M S unit := fun s => (Normal tt, f s, []).
Definition throw {A} (e : JsError) : M S A := fun s => (Throw e, s, []).
Definition emit (e : Effect) : M S unit := fun s => (Normal tt, s, [e]).
Definition when (b : bool) (m : M S unit) : M S unit :=
  if b then m else ret tt.
(** The commands of a loop, one after the other. *)
Definition emit_each (es : list Effect) : M S unit := fun s => (Normal tt, s, es).
End MethodMonad.

Declare Scope method_scope.
Delimit Scope method_scope with method.
Notation "x <- m ;; k" := (bind m (fun x => k))
  (at level 61, m at next level, right associativity) : method_scope.
Notation "m ;; k" := (bind m (fun _ => k))
  (at level 61, right associativity) : method_scope.
Open Scope method_scope.

Definition completion {S A} (r : Completion A * S * list Effect) : Completion A :=
  fst (fst r).
Definition state_of {S A} (r : Completion A * S * list Effect) : S :=
  snd (fst r).
Definition effects {S A} (r : Completion A * S * list Effect) : list Effect :=
  snd r.

(* ------------------------------------------------------------------ *)
(** ** What the layout supplies *)

(** The carousel container element: the [offsetWidth] of each card it
    contains, in document order, its scroll geometry and its bounding box.
    [scrollLeft] and the bounding box may be fractional; they hold the
    value of a finite double. *)
Record Layout := {
  cards : list Z;
  scrollLeft : Q;
  scrollWidth : Z;
  clientWidth : Z;
  rectTop : Q;
  rectBottom : Q
}.

Record Window := { innerWidth : Z; innerHeight : Z }.

Inductive Key := ArrowLeft | ArrowRight | OtherKey.

Inductive Event :=
| Click
| Scroll
| TouchStart (clientX clientY : Q)
| TouchMove (clientX clientY : Q) (cancelable : bool)
| TouchEnd (clientX : Q)
| KeyDown (key : Key)
| Resize.

Definition type_of (e : Event) : EventType :=
  match e with
  | Click => TClick
  | Scroll => TScroll
  | TouchStart _ _ => TTouchStart
  | TouchMove _ _ _ => TTouchMove
  | TouchEnd _ => TTouchEnd
  | KeyDown _ => TKeyDown
  | Resize => TResize
  end.

(** [querySelectorAll(sel).length] *)
Definition count_cards (l : Layout) : Z := Z.of_nat (length (cards l)).

(** [cards[0].offsetWidth] and [querySelector(sel).offsetWidth]: with no
    card the receiver is [undefined] (resp. [null]) and the read throws. *)
Definition first_offsetWidth {S} (l : Layout) : M S Z :=
  match cards l with
  | w :: _ => ret w
  | [] => throw TypeError
  end.

(** [if (element)]: the element is not [null]. *)
Definition present {A} (o : option A) : bool :=
  match o with Some _ => true | None => false end.

(** A property read on [this.carousel]. *)
Definition the_carousel {S} (c : option Layout) : M S Layout :=
  match c with
  | Some l => ret l
  | None => throw TypeError
  end.

(* ------------------------------------------------------------------ *)
(** ** The swipe gesture (the closure variables of [addSwipeSupport]) *)

Record Swipe := {
  startX : Q; startY : Q;
  currentX : Q; currentY : Q;
  isDragging : bool;
  isHorizontalSwipe : bool
}.

Definition swipe_init : Swipe :=
  {| startX := 0; startY := 0; currentX := 0; currentY := 0;
     isDragging := false; isHorizontalSwipe := false |}.

Definition touchstart (x y : Q) (g : Swipe) : Swipe :=
  {| startX := x; startY := y;
     currentX := currentX g; currentY := currentY g;
     isDragging := true; isHorizontalSwipe := false |}.

(** The [touchmove] listener; the boolean says whether [e.preventDefault()]
    was called. *)
Definition touchmove (x y : Q) (cancelable : bool) (g : Swipe) : Swipe * bool :=
  if negb (isDragging g) then (g, false)
  else
    let diffX := Math.abs (x - startX g) in
    let diffY := Math.abs (y - startY g) in
    if Qgtb diffX 10 || Qgtb diffY 10 then
      if Qgtb diffX (diffY * (3 # 2)) then
        ({| startX := startX g; startY := startY g;
            currentX := x; currentY := y;
            isDragging := isDragging g; isHorizontalSwipe := true |},
         cancelable)
      else
        ({| startX := startX g; startY := startY g;
            currentX := x; currentY := y;
            isDragging := false; isHorizontalSwipe := isHorizontalSwipe g |},
         false)
    else
      ({| startX := startX g; startY := startY g;
          currentX := x; currentY := y;
          isDragging := isDragging g; isHorizontalSwipe := isHorizontalSwipe g |},
       false).

Inductive SwipeVerdict := SwipeNext | SwipePrevious | NoSwipe.

(** The decision of the [touchend] listener. *)
Definition touchend_verdict (endX : Q) (g : Swipe) : SwipeVerdict :=
  if negb (isDragging g) || negb (isHorizontalSwipe g) then NoSwipe
  else
    let diff := (startX g - endX)%Q in
    if Qgtb (Math.abs diff) 50 then
      if Qgtb diff 0 then SwipeNext else SwipePrevious
    else NoSwipe.

(** Both flags are cleared on every path of the [touchend] listener. *)
Definition touchend_reset (g : Swipe) : Swipe :=
  {| startX := startX g; startY := startY g;
     currentX := currentX g; currentY := currentY g;
     isDragging := false; isHorizontalSwipe := false |}.

(* ------------------------------------------------------------------ *)
(** ** class RoomsCarousel *)

Module RoomsCarousel.

(** An indicator button made by [createDots]: its [active] class and the
    index its click listener passes to [goToSlide]. *)
Record Dot := { active : bool; slide : Z }.

Record t := {
  carousel : option Layout;
  leftArrow : option bool;          (* the element's [disabled] property *)
  rightArrow : option bool;
  dotsContainer : option (list Dot);
  currentIndex : Z;
  totalRooms : Z;
  isScrolling : bool;
  isMobile : bool;
  swipe : Swipe
}.

Definition set_leftArrow (v : option bool) (s : t) : t :=
  {| carousel := carousel s; leftArrow := v; rightArrow := rightArrow s;
     dotsContainer := dotsContainer s; currentIndex := currentIndex s;
     totalRooms := totalRooms s; isScrolling := isScrolling s;
     isMobile := isMobile s; swipe := swipe s |}.
Definition set_rightArrow (v : option bool) (s : t) : t :=
  {| carousel := carousel s; leftArrow := leftArrow s; rightArrow := v;
     dotsContainer := dotsContainer s; currentIndex := currentIndex s;
     totalRooms := totalRooms s; isScrolling := isScrolling s;
     isMobile := isMobile s; swipe := swipe s |}.
Definition set_dotsContainer (v : option (list Dot)) (s : t) : t :=
  {| carousel := carousel s; leftArrow := leftArrow s; rightArrow := rightArrow s;
     dotsContainer := v; currentIndex := currentIndex s;
     totalRooms := totalRooms s; isScrolling := isScrolling s;
     isMobile := isMobile s; swipe := swipe s |}.
Definition set_currentIndex (v : Z) (s : t) : t :=
  {| carousel := carousel s; leftArrow := leftArrow s; rightArrow := rightArrow s;
     dotsContainer := dotsContainer s; currentIndex := v;
     totalRooms := totalRooms s; isScrolling := isScrolling s;
     isMobile := isMobile s; swipe := swipe s |}.
Definition set_totalRooms (v : Z) (s : t) : t :=
  {| carousel := carousel s; leftArrow := leftArrow s; rightArrow := rightArrow s;
     dotsContainer := dotsContainer s; currentIndex := currentIndex s;
     totalRooms := v; isScrolling := isScrolling s;
     isMobile := isMobile s; swipe := swipe s |}.
Definition set_isScrolling (v : bool) (s : t) : t :=
  {| carousel := carousel s; leftArrow := leftArrow s; rightArrow := rightArrow s;
     dotsContainer := dotsContainer s; currentIndex := currentIndex s;
     totalRooms := totalRooms s; isScrolling := v;
     isMobile := isMobile s; swipe := swipe s |}.
Definition set_isMobile (v : bool) (s : t) : t :=
  {| carousel := carousel s; leftArrow := leftArrow s; rightArrow := rightArrow s;
     dotsContainer := dotsContainer s; currentIndex := currentIndex s;
     totalRooms := totalRooms s; isScrolling := isScrolling s;
     isMobile := v; swipe := swipe s |}.
Definition set_swipe (v : Swipe) (s : t) : t :=
  {| carousel := carousel s; leftArrow := leftArrow s; rightArrow := rightArrow s;
     dotsContainer := dotsContainer s; currentIndex := currentIndex s;
     totalRooms := totalRooms s; isScrolling := isScrolling s;
     isMobile := isMobile s; swipe := v |}.
(** The layout engine changes the container's geometry; the element, and
    so whether the field is [null], stays. *)
Definition relayout (l : Layout) (s : t) : t :=
  {| carousel := option_map (fun _ => l) (carousel s);
     leftArrow := leftArrow s; rightArrow := rightArrow s;
     dotsContainer := dotsContainer s; currentIndex := currentIndex s;
     totalRooms := totalRooms s; isScrolling := isScrolling s;
     isMobile := isMobile s; swipe := swipe s |}.

Definition gap : Z := 30.

(** The fields as the constructor leaves them before it calls [init]. *)
Definition fields (c : option Layout) (la ra : option bool)
    (dc : option (list Dot)) (w : Window) : t :=
  {| carousel := c; leftArrow := la; rightArrow := ra; dotsContainer := dc;
     currentIndex := 0; totalRooms := 0; isScrolling := false;
     isMobile := innerWidth w <=? 768; swipe := swipe_init |}.

(** [const maxIndex = this.isMobile ? this.totalRooms - 1 : this.totalRooms - 2],
    recomputed in [goToPrevious], [goToNext] and [updateUI]. *)
Definition maxIndex (s : t) : Z :=
  if isMobile s then totalRooms s - 1 else totalRooms s - 2.

Definition numDots (s : t) : Z :=
  if isMobile s then totalRooms s else Math.max 1 (totalRooms s - 1).

(** The buttons the loop [for (let i = 0; i < numDots; i++)] appends. *)
Definition new_dots (n : Z) : list Dot :=
  map (fun i => {| active := Z.of_nat i =? 0; slide := Z.of_nat i |})
      (seq 0 (Z.to_nat n)).

(** The click listeners the loop registers, one on each button it appends;
    the first new button is the [from]-th of the container. *)
Definition dot_listeners (from : nat) (n : Z) : list Effect :=
  map (fun i => AddEventListener (RoomsDot (from + i)) TClick)
      (seq 0 (Z.to_nat n)).

Definition createDots : M t unit :=
  s <- get ;;
  match dotsContainer s with
  | None => ret tt
  | Some ds =>
      modify (set_dotsContainer (Some (ds ++ new_dots (numDots s)))) ;;
      emit_each (dot_listeners (length ds) (numDots s))
  end.

(** [dots.forEach((dot, index) => ...)], [index] counted from [from]. *)
Fixpoint forEach_dot (cur : Z) (from : Z) (dots : list Dot) : list Dot :=
  match dots with
  | [] => []
  | d :: rest =>
      {| active := from =? cur; slide := slide d |}
        :: forEach_dot cur (from + 1) rest
  end.

Definition updateUI : M t unit :=
  s <- get ;;
  emit (UpdateUI (currentIndex s)) ;;
  match dotsContainer s with
  | Some dots =>
      modify (set_dotsContainer (Some (forEach_dot (currentIndex s) 0 dots)))
  | None => ret tt
  end ;;
  let maxIndex := maxIndex s in
  match leftArrow s with
  | Some _ => modify (set_leftArrow (Some (currentIndex s =? 0)))
  | None => ret tt
  end ;;
  match rightArrow s with
  | Some _ => modify (set_rightArrow (Some (maxIndex <=? currentIndex s)))
  | None => ret tt
  end.

(** The fields once [updateUI] has run (closed form of the method above). *)
Definition rendered (s : t) : t :=
  {| carousel := carousel s;
     leftArrow := option_map (fun _ => currentIndex s =? 0) (leftArrow s);
     rightArrow := option_map (fun _ => maxIndex s <=? currentIndex s) (rightArrow s);
     dotsContainer := option_map (forEach_dot (currentIndex s) 0) (dotsContainer s);
     currentIndex := currentIndex s; totalRooms := totalRooms s;
     isScrolling := isScrolling s; isMobile := isMobile s; swipe := swipe s |}.

(** The index [syncWithScroll] derives from the container's geometry. *)
Definition scrollIndex (s : t) (c : Layout) (cardWidth : Z) : Z :=
  if isMobile s then
    let newIndex :=
      Math.round (Double.fl (scrollLeft c / inject_Z (cardWidth + gap))) in
    Math.max 0 (Math.min newIndex (totalRooms s - 1))
  else
    let maxScroll := scrollWidth c - clientWidth c in
    if maxScroll >? 0 then
      let scrollPercentage := Double.fl (scrollLeft c / inject_Z maxScroll) in
      let newIndex :=
        Math.round (Double.fl (scrollPercentage * inject_Z (totalRooms s - 2))) in
      Math.max 0 (Math.min newIndex (totalRooms s - 2))
    else 0.

Definition syncWithScroll : M t unit :=
  s <- get ;;
  if isScrolling s then ret tt
  else
    c <- the_carousel (carousel s) ;;
    cardWidth <- first_offsetWidth c ;;
    let newIndex := scrollIndex s c cardWidth in
    if negb (newIndex =? currentIndex s) then
      modify (set_currentIndex newIndex) ;;
      updateUI
    else ret tt.

Definition updateCarousel : M t unit :=
  modify (set_isScrolling true) ;;
  s <- get ;;
  c <- the_carousel (carousel s) ;;
  cardWidth <- first_offsetWidth c ;;
  let scrollPosition :=
    if isMobile s then (cardWidth + gap) * currentIndex s
    else (cardWidth + gap) * currentIndex s in
  emit (ScrollTo scrollPosition) ;;
  updateUI ;;
  emit (SetTimeout 500).

Definition goToPrevious : M t unit :=
  s <- get ;;
  if currentIndex s >? 0 then
    modify (set_currentIndex (currentIndex s - 1)) ;;
    updateCarousel
  else ret tt.

Definition goToNext : M t unit :=
  s <- get ;;
  let maxIndex := maxIndex s in
  if currentIndex s <? maxIndex then
    modify (set_currentIndex (currentIndex s + 1)) ;;
    updateCarousel
  else ret tt.

Definition goToSlide (index : Z) : M t unit :=
  modify (set_currentIndex index) ;;
  updateCarousel.

(** The [setTimeout] callback of [updateCarousel]. *)
Definition settle : M t unit := modify (set_isScrolling false).

Definition addSwipeSupport : M t unit :=
  s <- get ;;
  _ <- the_carousel (carousel s) ;;
  emit (AddEventListener RoomsCarouselEl TTouchStart) ;;
  emit (AddEventListener RoomsCarouselEl TTouchMove) ;;
  emit (AddEventListener RoomsCarouselEl TTouchEnd).

Definition on_touchstart (x y : Q) : M t unit :=
  s <- get ;; modify (set_swipe (touchstart x y (swipe s))).

Definition on_touchmove (x y : Q) (cancelable : bool) : M t unit :=
  s <- get ;;
  let '(g, prevented) := touchmove x y cancelable (swipe s) in
  modify (set_swipe g) ;;
  when prevented (emit PreventDefault).

Definition on_touchend (endX : Q) : M t unit :=
  s <- get ;;
  match touchend_verdict endX (swipe s) with
  | SwipeNext => goToNext
  | SwipePrevious => goToPrevious
  | NoSwipe => ret tt
  end ;;
  s' <- get ;;
  modify (set_swipe (touchend_reset (swipe s'))).

Definition addKeyboardSupport : M t unit :=
  emit (AddEventListener Document TKeyDown).

Definition on_keydown (w : Window) (key : Key) : M t unit :=
  s <- get ;;
  carouselRect <- the_carousel (carousel s) ;;
  let isInView :=
    Qltb (rectTop carouselRect) (inject_Z (innerHeight w))
    && Qgtb (rectBottom carouselRect) 0 in
  if negb isInView then ret tt
  else
    match key with
    | ArrowLeft => emit PreventDefault ;; goToPrevious
    | ArrowRight => emit PreventDefault ;; goToNext
    | OtherKey => ret tt
    end.

(** The debounced [resize] listener of [init]. *)
Definition on_resize (w : Window) : M t unit :=
  s <- get ;;
  let wasMobile := isMobile s in
  modify (set_isMobile (innerWidth w <=? 768)) ;;
  s1 <- get ;;
  if negb (Bool.eqb wasMobile (isMobile s1)) then
    match dotsContainer s1 with
    | Some _ => modify (set_dotsContainer (Some []))
    | None => throw TypeError
    end ;;
    createDots ;;
    modify (set_currentIndex 0) ;;
    updateCarousel
  else ret tt.

(** The fields after a resize that changes the layout mode, when the dots
    container and a first card are there. *)
Definition remade (mobile : bool) (s : t) : t :=
  rendered
    {| carousel := carousel s; leftArrow := leftArrow s; rightArrow := rightArrow s;
       dotsContainer :=
         Some (new_dots (if mobile then totalRooms s
                         else Math.max 1 (totalRooms s - 1)));
       currentIndex := 0; totalRooms := totalRooms s; isScrolling := true;
       isMobile := mobile; swipe := swipe s |}.

Definition init : M t unit :=
  s <- get ;;
  match carousel s with
  | None => ret tt
  | Some c =>
      modify (set_totalRooms (count_cards c)) ;;
      createDots ;;
      when (present (leftArrow s))
           (emit (AddEventListener RoomsLeftArrow TClick)) ;;
      when (present (rightArrow s))
           (emit (AddEventListener RoomsRightArrow TClick)) ;;
      emit (AddEventListener RoomsCarouselEl TScroll) ;;
      addSwipeSupport ;;
      addKeyboardSupport ;;
      emit (AddEventListener WindowObj TResize) ;;
      updateCarousel
  end.

(** [new RoomsCarousel()] *)
Definition new (c : option Layout) (la ra : option bool)
    (dc : option (list Dot)) (w : Window) : Completion unit * t * list Effect :=
  init (fields c la ra dc w).

(** The click listener of the [j]-th button of the dots container, when
    there is such a button. *)
Definition dot_click (j : nat) : M t unit :=
  s <- get ;;
  match dotsContainer s with
  | Some ds =>
      match nth_error ds j with
      | Some d => goToSlide (slide d)
      | None => ret tt
      end
  | None => ret tt
  end.

(** The listener this instance registers on [tgt] for events like [e].
    The scroll listener is wrapped in [throttle] and the resize listener in
    [debounce]: a [Scroll] or [Resize] event here is one the wrapper lets
    through to the wrapped function. *)
Definition listener (w : Window) (tgt : Target) (e : Event) : M t unit :=
  match tgt, e with
  | RoomsLeftArrow, Click => goToPrevious
  | RoomsRightArrow, Click => goToNext
  | RoomsCarouselEl, Scroll => syncWithScroll
  | RoomsCarouselEl, TouchStart x y => on_touchstart x y
  | RoomsCarouselEl, TouchMove x y c => on_touchmove x y c
  | RoomsCarouselEl, TouchEnd x => on_touchend x
  | RoomsDot j, Click => dot_click j
  | Document, KeyDown k => on_keydown w k
  | WindowObj, Resize => on_resize w
  | _, _ => ret tt
  end.

End RoomsCarousel.

(* ------------------------------------------------------------------ *)
(** ** class AmenitiesCarousel *)

Module AmenitiesCarousel.

Record t := {
  carousel : option Layout;
  leftArrow : option bool;
  rightArrow : option bool;
  currentIndex : Z;
  totalCards : Z;
  isScrolling : bool;
  isMobile : bool;
  swipe : Swipe
}.

Definition set_leftArrow (v : option bool) (s : t) : t :=
  {| carousel := carousel s; leftArrow := v; rightArrow := rightArrow s;
     currentIndex := currentIndex s; totalCards := totalCards s;
     isScrolling := isScrolling s; isMobile := isMobile s; swipe := swipe s |}.
Definition set_rightArrow (v : option bool) (s : t) : t :=
  {| carousel := carousel s; leftArrow := leftArrow s; rightArrow := v;
     currentIndex := currentIndex s; totalCards := totalCards s;
     isScrolling := isScrolling s; isMobile := isMobile s; swipe := swipe s |}.
Definition set_currentIndex (v : Z) (s : t) : t :=
  {| carousel := carousel s; leftArrow := leftArrow s; rightArrow := rightArrow s;
     currentIndex := v; totalCards := totalCards s;
     isScrolling := isScrolling s; isMobile := isMobile s; swipe := swipe s |}.
Definition set_totalCards (v : Z) (s : t) : t :=
  {| carousel := carousel s; leftArrow := leftArrow s; rightArrow := rightArrow s;
     currentIndex := currentIndex s; totalCards := v;
     isScrolling := isScrolling s; isMobile := isMobile s; swipe := swipe s |}.
Definition set_isScrolling (v : bool) (s : t) : t :=
  {| carousel := carousel s; leftArrow := leftArrow s; rightArrow := rightArrow s;
     currentIndex := currentIndex s; totalCards := totalCards s;
     isScrolling := v; isMobile := isMobile s; swipe := swipe s |}.
Definition set_isMobile (v : bool) (s : t) : t :=
  {| carousel := carousel s; leftArrow := leftArrow s; rightArrow := rightArrow s;
     currentIndex := currentIndex s; totalCards := totalCards s;
     isScrolling := isScrolling s; isMobile := v; swipe := swipe s |}.
Definition set_swipe (v : Swipe) (s : t) : t :=
  {| carousel := carousel s; leftArrow := leftArrow s; rightArrow := rightArrow s;
     currentIndex := currentIndex s; totalCards := totalCards s;
     isScrolling := isScrolling s; isMobile := isMobile s; swipe := v |}.
Definition relayout (l : Layout) (s : t) : t :=
  {| carousel := option_map (fun _ => l) (carousel s);
     leftArrow := leftArrow s; rightArrow := rightArrow s;
     currentIndex := currentIndex s; totalCards := totalCards s;
     isScrolling := isScrolling s; isMobile := isMobile s; swipe := swipe s |}.

Definition gap : Z := 20.

Definition fields (c : option Layout) (la ra : option bool) (w : Window) : t :=
  {| carousel := c; leftArrow := la; rightArrow := ra;
     currentIndex := 0; totalCards := 0; isScrolling := false;
     isMobile := innerWidth w <=? 768; swipe := swipe_init |}.

(** [const maxIndex = this.isMobile ? this.totalCards - 1
                                   : Math.max(0, this.totalCards - 4)],
    recomputed in [goToPrevious], [goToNext] and [updateUI]. *)
Definition maxIndex (s : t) : Z :=
  if isMobile s then totalCards s - 1 else Math.max 0 (totalCards s - 4).


Definition updateUI : M t unit :=
  s <- get ;;
  emit (UpdateUI (currentIndex s)) ;;
  let maxIndex := maxIndex s in
  match leftArrow s with
  | Some _ => modify (set_leftArrow (Some (currentIndex s =? 0)))
  | None => ret tt
  end ;;
  match rightArrow s with
  | Some _ => modify (set_rightArrow (Some (maxIndex <=? currentIndex s)))
  | None => ret tt
  end.

(** The fields once [updateUI] has run (closed form of the method above). *)
Definition rendered (s : t) : t :=
  {| carousel := carousel s;
     leftArrow := option_map (fun _ => currentIndex s =? 0) (leftArrow s);
     rightArrow := option_map (fun _ => maxIndex s <=? currentIndex s) (rightArrow s);
     currentIndex := currentIndex s; totalCards := totalCards s;
     isScrolling := isScrolling s; isMobile := isMobile s; swipe := swipe s |}.

(** The index [syncWithScroll] derives in the narrow layout, where it
    reads the first card's width. *)
Definition scrollIndex_mobile (s : t) (c : Layout) (cardWidth : Z) : Z :=
  let newIndex :=
    Math.round (Double.fl (scrollLeft c / inject_Z (cardWidth + gap))) in
  Math.max 0 (Math.min newIndex (totalCards s - 1)).

(** The index [syncWithScroll] derives in the wide layout. *)
Definition scrollIndex_desktop (s : t) (c : Layout) : Z :=
  let maxScroll := scrollWidth c - clientWidth c in
  if maxScroll >? 0 then
    let scrollPercentage := Double.fl (scrollLeft c / inject_Z maxScroll) in
    let maxIndex := Math.max 0 (totalCards s - 4) in
    let newIndex := Math.round (Double.fl (scrollPercentage * inject_Z maxIndex)) in
    Math.max 0 (Math.min newIndex maxIndex)
  else 0.

Definition syncWithScroll : M t unit :=
  s <- get ;;
  if isScrolling s then ret tt
  else
    c <- the_carousel (carousel s) ;;
    newIndex <-
      (if isMobile s then
         cardWidth <- first_offsetWidth c ;;
         ret (scrollIndex_mobile s c cardWidth)
       else ret (scrollIndex_desktop s c)) ;;
    if negb (newIndex =? currentIndex s) then
      modify (set_currentIndex newIndex) ;;
      updateUI
    else ret tt.

Definition updateCarousel : M t unit :=
  modify (set_isScrolling true) ;;
  s <- get ;;
  c <- the_carousel (carousel s) ;;
  cardWidth <- first_offsetWidth c ;;
  let scrollPosition :=
    if isMobile s then (cardWidth + gap) * currentIndex s
    else (cardWidth + gap) * currentIndex s in
  emit (ScrollTo scrollPosition) ;;
  updateUI ;;
  emit (SetTimeout 500).

Definition goToPrevious : M t unit :=
  s <- get ;;
  if currentIndex s >? 0 then
    modify (set_currentIndex (currentIndex s - 1)) ;;
    updateCarousel
  else ret tt.

Definition goToNext : M t unit :=
  s <- get ;;
  let maxIndex := maxIndex s in
  if currentIndex s <? maxIndex then
    modify (set_currentIndex (currentIndex s + 1)) ;;
    updateCarousel
  else ret tt.

Definition settle : M t unit := modify (set_isScrolling false).

Definition addSwipeSupport : M t unit :=
  s <- get ;;
  _ <- the_carousel (carousel s) ;;
  emit (AddEventListener AmenitiesCarouselEl TTouchStart) ;;
  emit (AddEventListener AmenitiesCarouselEl TTouchMove) ;;
  emit (AddEventListener AmenitiesCarouselEl TTouchEnd).

Definition on_touchstart (x y : Q) : M t unit :=
  s <- get ;; modify (set_swipe (touchstart x y (swipe s))).

Definition on_touchmove (x y : Q) (cancelable : bool) : M t unit :=
  s <- get ;;
  let '(g, prevented) := touchmove x y cancelable (swipe s) in
  modify (set_swipe g) ;;
  when prevented (emit PreventDefault).

Definition on_touchend (endX : Q) : M t unit :=
  s <- get ;;
  match touchend_verdict endX (swipe s) with
  | SwipeNext => goToNext
  | SwipePrevious => goToPrevious
  | NoSwipe => ret tt
  end ;;
  s' <- get ;;
  modify (set_swipe (touchend_reset (swipe s'))).

(** The debounced [resize] listener of [init]. *)
Definition on_resize (w : Window) : M t unit :=
  s <- get ;;
  let wasMobile := isMobile s in
  modify (set_isMobile (innerWidth w <=? 768)) ;;
  s1 <- get ;;
  if negb (Bool.eqb wasMobile (isMobile s1)) then
    modify (set_currentIndex 0) ;;
    updateCarousel
  else ret tt.

Definition init : M t unit :=
  s <- get ;;
  match carousel s with
  | None => ret tt
  | Some c =>
      modify (set_totalCards (count_cards c)) ;;
      when (present (leftArrow s))
           (emit (AddEventListener AmenitiesLeftArrow TClick)) ;;
      when (present (rightArrow s))
           (emit (AddEventListener AmenitiesRightArrow TClick)) ;;
      emit (AddEventListener AmenitiesCarouselEl TScroll) ;;
      addSwipeSupport ;;
      emit (AddEventListener WindowObj TResize) ;;
      updateCarousel
  end.

(** [new AmenitiesCarousel()] *)
Definition new (c : option Layout) (la ra : option bool) (w : Window)
    : Completion unit * t * list Effect :=
  init (fields c la ra w).

(** The listener this instance registers on [tgt] for events like [e]
    (scroll and resize as let through by [throttle] and [debounce]). *)
Definition listener (w : Window) (tgt : Target) (e : Event) : M t unit :=
  match tgt, e with
  | AmenitiesLeftArrow, Click => goToPrevious
  | AmenitiesRightArrow, Click => goToNext
  | AmenitiesCarouselEl, Scroll => syncWithScroll
  | AmenitiesCarouselEl, TouchStart x y => on_touchstart x y
  | AmenitiesCarouselEl, TouchMove x y c => on_touchmove x y c
  | AmenitiesCarouselEl, TouchEnd x => on_touchend x
  | WindowObj, Resize => on_resize w
  | _, _ => ret tt
  end.

End AmenitiesCarousel.

(* ------------------------------------------------------------------ *)
(** ** The page: both instances, their listeners and their timers *)

Scheme Equality for Owner.
Scheme Equality for Target.
Scheme Equality for EventType.

Module App.

(** What the document holds when the modules are created: the two
    containers, their arrow buttons, the rooms' dots container, and the
    viewport. *)
Record Markup := {
  roomsCarousel : option Layout;
  carousel_arrow_left : option bool;
  carousel_arrow_right : option bool;
  carouselDots : option (list RoomsCarousel.Dot);
  amenitiesCarousel : option Layout;
  amenities_arrow_left : option bool;
  amenities_arrow_right : option bool;
  viewport : Window
}.

(** The running page.  [timers] are the pending [setTimeout] callbacks of
    the two [updateCarousel] methods with the time they are due;
    [listeners] are the registrations made so far, those on indicator
    buttons that a resize has since removed included (a click on the
    [j]-th button finds the listener of the button that is there now).
    [amenities] is [None] when [new AmenitiesCarousel()] was never
    reached. *)
Record Page := {
  window : Window;
  clock : Z;
  timers : list (Z * Owner);
  listeners : list (Owner * Target * EventType);
  rooms : RoomsCarousel.t;
  amenities : option AmenitiesCarousel.t
}.

Definition new_timers (o : Owner) (now : Z) (es : list Effect) : list (Z * Owner) :=
  flat_map (fun e => match e with
                     | SetTimeout ms => [(now + ms, o)]
                     | _ => []
                     end) es.

Definition new_listeners (o : Owner) (es : list Effect)
    : list (Owner * Target * EventType) :=
  flat_map (fun e => match e with
                     | AddEventListener tgt ty => [(o, tgt, ty)]
                     | _ => []
                     end) es.

Definition registered (o : Owner) (tgt : Target) (ty : EventType)
    (ls : list (Owner * Target * EventType)) : bool :=
  existsb (fun r => match r with
                    | (o', tgt', ty') =>
                        Owner_beq o o' && Target_beq tgt tgt' && EventType_beq ty ty'
                    end) ls.

(** The two carousel lines of [initializeModules]: a throw of the first
    constructor is caught by the enclosing [try] and the second
    constructor never runs; the listeners already registered keep the
    first instance alive. *)
Definition initializeModules (m : Markup) : Page :=
  match RoomsCarousel.new (roomsCarousel m) (carousel_arrow_left m)
          (carousel_arrow_right m) (carouselDots m) (viewport m) with
  | (Normal _, r, er) =>
      match AmenitiesCarousel.new (amenitiesCarousel m)
              (amenities_arrow_left m) (amenities_arrow_right m) (viewport m) with
      | (_, a, ea) =>
          {| window := viewport m; clock := 0;
             timers := new_timers OwnerRooms 0 er ++ new_timers OwnerAmenities 0 ea;
             listeners := new_listeners OwnerRooms er
                            ++ new_listeners OwnerAmenities ea;
             rooms := r; amenities := Some a |}
      end
  | (Throw _, r, er) =>
      {| window := viewport m; clock := 0;
         timers := new_timers OwnerRooms 0 er;
         listeners := new_listeners OwnerRooms er;
         rooms := r; amenities := None |}
  end.

(** Run a computation of the rooms instance inside the page. *)
Definition run_rooms (m : M RoomsCarousel.t unit) (p : Page) : Page :=
  match m (rooms p) with
  | (_, r, es) =>
      {| window := window p; clock := clock p;
         timers := timers p ++ new_timers OwnerRooms (clock p) es;
         listeners := listeners p ++ new_listeners OwnerRooms es;
         rooms := r; amenities := amenities p |}
  end.

Definition run_amenities (m : M AmenitiesCarousel.t unit) (p : Page) : Page :=
  match amenities p with
  | None => p
  | Some a0 =>
      match m a0 with
      | (_, a, es) =>
          {| window := window p; clock := clock p;
             timers := timers p ++ new_timers OwnerAmenities (clock p) es;
             listeners := listeners p ++ new_listeners OwnerAmenities es;
             rooms := rooms p; amenities := Some a |}
      end
  end.

(** An event [e] fired at [tgt]: every listener registered for it runs,
    the rooms instance's first (it registered first). *)
Definition dispatch (tgt : Target) (e : Event) (p : Page) : Page :=
  let p1 :=
    if registered OwnerRooms tgt (type_of e) (listeners p)
    then run_rooms (RoomsCarousel.listener (window p) tgt e) p
    else p in
  if registered OwnerAmenities tgt (type_of e) (listeners p)
  then run_amenities (AmenitiesCarousel.listener (window p) tgt e) p1
  else p1.

Definition fire (p : Page) (tm : Z * Owner) : Page :=
  match snd tm with
  | OwnerRooms => run_rooms RoomsCarousel.settle p
  | OwnerAmenities => run_amenities AmenitiesCarousel.settle p
  end.

Definition due (now : Z) (tm : Z * Owner) : bool := fst tm <=? now.

(** Time passes: the clock moves to [now] and the timers due by then run,
    in the order they were armed. *)
Definition elapse_to (now : Z) (p : Page) : Page :=
  let fired := filter (due now) (timers p) in
  let kept := filter (fun tm => negb (due now tm)) (timers p) in
  fold_left fire fired
    {| window := window p; clock := now; timers := kept;
       listeners := listeners p; rooms := rooms p; amenities := amenities p |}.

Definition set_window (w : Window) (p : Page) : Page :=
  {| window := w; clock := clock p; timers := timers p;
     listeners := listeners p; rooms := rooms p; amenities := amenities p |}.

Definition set_rooms (r : RoomsCarousel.t) (p : Page) : Page :=
  {| window := window p; clock := clock p; timers := timers p;
     listeners := listeners p; rooms := r; amenities := amenities p |}.

Definition set_amenities (a : option AmenitiesCarousel.t) (p : Page) : Page :=
  {| window := window p; clock := clock p; timers := timers p;
     listeners := listeners p; rooms := rooms p; amenities := a |}.

(** What can happen to the page.  [Fire tgt e] is a call of the listeners
    registered on [tgt]: for a click, a touch or a key the event itself,
    for [Scroll] the call the [throttle] wrapper lets through, and for
    [Resize] the call the [debounce] wrapper makes 250 ms after the last
    resize event. *)
Inductive Input :=
| Fire (tgt : Target) (e : Event)      (* the listeners on [tgt] are called *)
| DotClick (j : nat)                   (* a click on the [j]-th indicator:
                                          [Fire (RoomsDot j) Click] *)
| Elapse (dt : Z)                      (* [dt] milliseconds pass *)
| Viewport (w : Window)                (* the viewport changes size *)
| RoomsLayout (l : Layout)             (* the rooms container is laid out anew *)
| AmenitiesLayout (l : Layout).

Definition step (p : Page) (i : Input) : Page :=
  match i with
  | Fire tgt e => dispatch tgt e p
  | DotClick j => dispatch (RoomsDot j) Click p
  | Elapse dt => elapse_to (clock p + Z.max 0 dt) p
  | Viewport w => set_window w p
  | RoomsLayout l => set_rooms (RoomsCarousel.relayout l (rooms p)) p
  | AmenitiesLayout l =>
      set_amenities (option_map (AmenitiesCarousel.relayout l) (amenities p)) p
  end.

Definition run (p : Page) (inputs : list Input) : Page := fold_left step inputs p.

(** The layout always shows at least one card of each carousel. *)
Definition shows_a_card (i : Input) : Prop :=
  match i with
  | RoomsLayout l | AmenitiesLayout l => cards l <> []
  | _ => True
  end.

End App.

(* ------------------------------------------------------------------ *)
(** ** The words of the specification *)

Module Spec.

(** [clamp(i, lo, hi)] *)
Definition clamp (i lo hi : Z) : Z := Z.max lo (Z.min i hi).

(** "maxIndex = itemCount - visibleCount when itemCount >= visibleCount,
    else 0" *)
Definition maxIndex (itemCount visibleCount : Z) : Z :=
  if visibleCount <=? itemCount then itemCount - visibleCount else 0.

(** "visibleCount is 1 in Narrow mode and the instance's fixed wide count
    in Wide mode" *)
Definition visibleCount (narrow : bool) (wideCount : Z) : Z :=
  if narrow then 1 else wideCount.

(** "round": [n] is the integer nearest to [v], the larger one of two that
    are equally near. *)
Definition rounds_to (v : Q) (n : Z) : Prop :=
  (inject_Z n - (1 # 2) <= v /\ v < inject_Z n + (1 # 2))%Q.

(** The value that is rounded: the quotient of the narrow mode, the
    product of the wide mode, every operation carried out in
    double-precision arithmetic. *)
Definition scroll_value (narrow : bool) (scrollOffset : Q)
    (cardWidth gap maxScroll maxIndex : Z) : Q :=
  if narrow then Double.fl (scrollOffset / inject_Z (cardWidth + gap))
  else Double.fl (Double.fl (scrollOffset / inject_Z maxScroll) * inject_Z maxIndex).

(** The index for the rounded value [n]. *)
Definition scroll_index_of (narrow : bool) (n maxScroll maxIndex itemCount : Z) : Z :=
  if narrow then clamp n 0 (itemCount - 1)
  else if 0 <? maxScroll then clamp n 0 maxIndex
  else 0.

(** The index [onContainerScroll] recomputes, as the specification words
    it for the two modes, in exact arithmetic. *)
Definition scroll_index (narrow : bool) (scrollOffset : Q)
    (cardWidth gap maxScroll maxIndex itemCount : Z) : Z :=
  if narrow then
    clamp (Math.round (scrollOffset / inject_Z (cardWidth + gap))) 0 (itemCount - 1)
  else if 0 <? maxScroll then
    clamp (Math.round ((scrollOffset / inject_Z maxScroll) * inject_Z maxIndex))
          0 maxIndex
  else 0.

End Spec.

(* ------------------------------------------------------------------ *)
(** ** Concrete pages used in the examples *)

Module Examples.

Definition layout (n : nat) (cardWidth : Z) (offset : Q) (sw cw : Z) : Layout :=
  {| cards := repeat cardWidth n; scrollLeft := offset;
     scrollWidth := sw; clientWidth := cw; rectTop := 0; rectBottom := 400 |}.

Definition desktop : Window := {| innerWidth := 1280; innerHeight := 800 |}.
Definition phone : Window := {| innerWidth := 375; innerHeight := 667 |}.

(** Five room cards of 300px (three fit the 960px container), eight
    amenity cards of 200px (four fit the 860px container). *)
Definition markup (w : Window) : App.Markup :=
  {| App.roomsCarousel := Some (layout 5 300 0 1620 960);
     App.carousel_arrow_left := Some false;
     App.carousel_arrow_right := Some false;
     App.carouselDots := Some [];
     App.amenitiesCarousel := Some (layout 8 200 0 1740 860);
     App.amenities_arrow_left := Some false;
     App.amenities_arrow_right := Some false;
     App.viewport := w |}.

(** The same page with both containers present and empty. *)
Definition empty_markup (w : Window) : App.Markup :=
  {| App.roomsCarousel := Some (layout 0 300 0 960 960);
     App.carousel_arrow_left := Some false;
     App.carousel_arrow_right := Some false;
     App.carouselDots := Some [];
     App.amenitiesCarousel := Some (layout 0 200 0 860 860);
     App.amenities_arrow_left := Some false;
     App.amenities_arrow_right := Some false;
     App.viewport := w |}.

Definition page_desktop : App.Page := App.initializeModules (markup desktop).
Definition page_phone : App.Page := App.initializeModules (markup phone).

Definition rooms_desktop : RoomsCarousel.t := App.rooms page_desktop.
Definition rooms_phone : RoomsCarousel.t := App.rooms page_phone.

Definition amenities_desktop : AmenitiesCarousel.t :=
  state_of (AmenitiesCarousel.new (Some (layout 8 200 0 1740 860))
              (Some false) (Some false) desktop).

Definition rooms_empty : RoomsCarousel.t :=
  RoomsCarousel.fields (Some (layout 0 300 0 960 960)) (Some false) (Some false)
    (Some []) desktop.

End Examples.

(* ------------------------------------------------------------------ *)
(** ** Well-formed pages *)

Module Invariants.

(** The rooms container exists and holds a card to measure. *)
Definition rooms_attached (s : RoomsCarousel.t) : Prop :=
  exists l, RoomsCarousel.carousel s = Some l /\ cards l <> [].

(** The dots container holds exactly the buttons [createDots] makes for
    the current layout mode: button [j] passes [j] to [goToSlide]. *)
Definition dots_built (s : RoomsCarousel.t) : Prop :=
  exists ds, RoomsCarousel.dotsContainer s = Some ds /\
    map RoomsCarousel.slide ds
    = map Z.of_nat (seq 0 (Z.to_nat (RoomsCarousel.numDots s))).

Definition rooms_in_range (s : RoomsCarousel.t) : Prop :=
  0 <= RoomsCarousel.currentIndex s <= RoomsCarousel.maxIndex s.

Definition rooms_ok (s : RoomsCarousel.t) : Prop :=
  rooms_attached s /\ 2 <= RoomsCarousel.totalRooms s /\ dots_built s
  /\ rooms_in_range s.

Definition amenities_attached (s : AmenitiesCarousel.t) : Prop :=
  exists l, AmenitiesCarousel.carousel s = Some l /\ cards l <> [].

Definition amenities_in_range (s : AmenitiesCarousel.t) : Prop :=
  0 <= AmenitiesCarousel.currentIndex s <= AmenitiesCarousel.maxIndex s.

Definition amenities_ok (s : AmenitiesCarousel.t) : Prop :=
  amenities_attached s /\ 1 <= AmenitiesCarousel.totalCards s
  /\ amenities_in_range s.

Definition page_ok (p : App.Page) : Prop :=
  rooms_ok (App.rooms p) /\
  exists a, App.amenities p = Some a /\ amenities_ok a.

(** Both containers are in the document, the rooms one with at least two
    cards and the amenities one with at least one, and the dots container
    is there and empty. *)
Definition markup_ok (m : App.Markup) : Prop :=
  (exists l, App.roomsCarousel m = Some l /\ (2 <= length (cards l))%nat) /\
  App.carouselDots m = Some [] /\
  (exists l, App.amenitiesCarousel m = Some l /\ cards l <> []).

(** A method keeps a property of the fields, however it completes. *)
Definition keeps {S} (I : S -> Prop) (m : M S unit) : Prop :=
  forall s, I s -> I (state_of (m s)).

End Invariants.

(* ------------------------------------------------------------------ *)
(** ** Notions used to state the properties *)

Module Notions.

(** The container once its scroll offset is [off]. *)
Definition scrolled_to (off : Z) (l : Layout) : Layout :=
  {| cards := cards l; scrollLeft := inject_Z off;
     scrollWidth := scrollWidth l; clientWidth := clientWidth l;
     rectTop := rectTop l; rectBottom := rectBottom l |}.


(** Every scroll command of the list comes after a render of the same
    list. *)
Fixpoint render_precedes_scroll (seen : bool) (es : list Effect) : bool :=
  match es with
  | [] => true
  | ScrollTo _ :: rest => seen && render_precedes_scroll seen rest
  | UpdateUI _ :: rest => render_precedes_scroll true rest
  | _ :: rest => render_precedes_scroll seen rest
  end.

(** What [updateCarousel] sends out for index [i], in program order:
    the scroll command, the render, the settle timer. *)
Definition commands (cardWidth gap i : Z) : list Effect :=
  [ScrollTo ((cardWidth + gap) * i); UpdateUI i; SetTimeout 500].

Definition is_listener (e : Effect) : Prop :=
  match e with AddEventListener _ _ => True | _ => False end.

Definition is_keydown_listener (e : Effect) : Prop :=
  match e with AddEventListener _ TKeyDown => True | _ => False end.

Definition quiet (e : Effect) : Prop := ~ is_listener e.
Definition no_keydown (e : Effect) : Prop := ~ is_keydown_listener e.

(** The only listeners the command registers are click listeners on
    indicator buttons. *)
Definition dots_only (e : Effect) : Prop :=
  match e with
  | AddEventListener (RoomsDot _) TClick => True
  | AddEventListener _ _ => False
  | _ => True
  end.

(** The registration of a click listener on an indicator button of the
    rooms carousel. *)
Definition dot_registration (r : Owner * Target * EventType) : Prop :=
  match r with
  | (OwnerRooms, RoomsDot _, TClick) => True
  | _ => False
  end.

(** The registrations an input adds: none, but for a resize event that
    reaches the rooms instance. *)
Definition added (p : App.Page) (i : App.Input) : list (Owner * Target * EventType) :=
  match i with
  | App.Fire WindowObj Resize =>
      if App.registered OwnerRooms WindowObj TResize (App.listeners p)
      then App.new_listeners OwnerRooms
             (effects (RoomsCarousel.on_resize (App.window p) (App.rooms p)))
      else []
  | _ => []
  end.

(** The layout mode and the room count: the number of indicator buttons
    depends on nothing else. *)
Definition mode_of (s : RoomsCarousel.t) : bool * Z :=
  (RoomsCarousel.isMobile s, RoomsCarousel.totalRooms s).

(** The computation leaves the layout mode and the room count alone,
    however it completes. *)
Definition same_mode {A} (m : M RoomsCarousel.t A) : Prop :=
  forall s, mode_of (state_of (m s)) = mode_of s.

(** Every indicator button the current mode asks for has its click
    listener. *)
Definition dots_registered (p : App.Page) : Prop :=
  forall j : nat, Z.of_nat j < RoomsCarousel.numDots (App.rooms p) ->
    App.registered OwnerRooms (RoomsDot j) TClick (App.listeners p) = true.

(** The registrations on the [n] buttons from the [from]-th on. *)
Definition dot_registrations (from : nat) (n : Z)
    : list (Owner * Target * EventType) :=
  map (fun i => (OwnerRooms, RoomsDot (from + i), TClick)) (seq 0 (Z.to_nat n)).

(** Whatever the fields and however it completes, the computation emits
    only commands that satisfy [P]. *)
Definition emits_only {S A} (P : Effect -> Prop) (m : M S A) : Prop :=
  forall s, Forall P (effects (m s)).

(** A timer of the rooms instance that is due at [now]. *)
Definition rooms_due (now : Z) (tm : Z * Owner) : bool :=
  App.due now tm && Owner_beq OwnerRooms (snd tm).

(** The due times of the timers [o] has pending. *)
Definition pending (o : Owner) (tms : list (Z * Owner)) : list Z :=
  map fst (filter (fun tm => Owner_beq o (snd tm)) tms).


End Notions.

(* ------------------------------------------------------------------ *)
(** ** Repeated and scripted use *)

Module Script.

(** The fields after [n] calls of a method, one after the other. *)
Definition presses {S} (m : M S unit) (n : nat) (s : S) : S :=
  Nat.iter n (fun s0 => state_of (m s0)) s.




End Script.

(* ------------------------------------------------------------------ *)
(** ** Flags and their timers *)

Module Settle.

(** Every pending timer is due within the next 500 ms. *)
Definition timers_fresh (p : App.Page) : Prop :=
  forall due o, In (due, o) (App.timers p) ->
    App.clock p < due <= App.clock p + 500.

(** An instance whose [isScrolling] flag is set has a timer pending. *)
Definition rooms_armed (p : App.Page) : Prop :=
  RoomsCarousel.isScrolling (App.rooms p) = true ->
  exists due, In (due, OwnerRooms) (App.timers p).

Definition amenities_armed (p : App.Page) : Prop :=
  forall a, App.amenities p = Some a -> AmenitiesCarousel.isScrolling a = true ->
  exists due, In (due, OwnerAmenities) (App.timers p).

Definition settles (p : App.Page) : Prop :=
  timers_fresh p /\ rooms_armed p /\ amenities_armed p.

(** What a listener may do to the flag: leave it and arm nothing, or arm
    exactly one 500 ms timer. *)
Definition arms {S} (flag : S -> bool) (I : S -> Prop) (m : M S unit) : Prop :=
  forall s o now, I s ->
    (flag (state_of (m s)) = flag s /\ App.new_timers o now (effects (m s)) = []) \/
    App.new_timers o now (effects (m s)) = [(now + 500, o)].

(** A timer of the amenities instance that is due at [now]. *)
Definition amenities_due (now : Z) (tm : Z * Owner) : bool :=
  App.due now tm && Owner_beq OwnerAmenities (snd tm).

End Settle.

(* ------------------------------------------------------------------ *)
(** ** The utility functions [throttle] and [debounce]

    A wrapped function is modelled with its closure variables, the timers
    it has pending and a clock, next to the fields [target] its callee
    works on.  What the callee sends outward is not looked at here. *)

Module Throttle.

(** [inThrottle] ([undefined] counts as [false]), the due times of the
    pending reset timers, the clock. *)
Record t (S : Type) := {
  inThrottle : bool;
  resets : list Z;
  now : Z;
  target : S
}.
Arguments inThrottle {S} _.
Arguments resets {S} _.
Arguments now {S} _.
Arguments target {S} _.

(** The closure right after [throttle(func, limit)] returned. *)
Definition fresh {S} (s : S) : t S :=
  {| inThrottle := false; resets := []; now := 0; target := s |}.

(** One call of the returned function: [func.apply] comes first, so a
    throw of the callee leaves [inThrottle] unset and arms no timer. *)
Definition call {S A} (func : A -> M S unit) (limit : Z) (args : A) (th : t S) : t S :=
  if negb (inThrottle th) then
    match func args (target th) with
    | (Normal _, s, _) =>
        {| inThrottle := true; resets := resets th ++ [now th + limit];
           now := now th; target := s |}
    | (Throw _, s, _) =>
        {| inThrottle := inThrottle th; resets := resets th;
           now := now th; target := s |}
    end
  else th.

(** [dt] milliseconds pass: the reset timers due by then run. *)
Definition elapse {S} (dt : Z) (th : t S) : t S :=
  let now' := now th + Z.max 0 dt in
  {| inThrottle :=
       if existsb (fun due => due <=? now') (resets th) then false else inThrottle th;
     resets := filter (fun due => negb (due <=? now')) (resets th);
     now := now';
     target := target th |}.

(** A series of calls, each [dt] milliseconds after the one before. *)
Definition run {S A} (func : A -> M S unit) (limit : Z) (calls : list (Z * A))
    (th : t S) : t S :=
  fold_left (fun th0 c => call func limit (snd c) (elapse (fst c) th0)) calls th.

(** The calls that reach the callee: the first one, and then each call
    that comes at least [limit] ms after the last one that reached it.
    [since] is the time since that one, if there was one. *)
Fixpoint passed {A} (limit : Z) (since : option Z) (calls : list (Z * A)) : list A :=
  match calls with
  | [] => []
  | (dt, a) :: rest =>
      match since with
      | None => a :: passed limit (Some 0) rest
      | Some e =>
          if e + Z.max 0 dt <? limit
          then passed limit (Some (e + Z.max 0 dt)) rest
          else a :: passed limit (Some 0) rest
      end
  end.

(** The callee's fields after it was called with each of [args] in turn. *)
Definition applied {S A} (func : A -> M S unit) (args : list A) (s : S) : S :=
  fold_left (fun s0 a => state_of (func a s0)) args s.

End Throttle.

Module Debounce.

(** A pending [setTimeout(later, wait)]: its id, its due time and the
    arguments its [later] closure captured. *)
Record Timer (A : Type) := { id : nat; due : Z; args : A }.
Arguments id {A} _.
Arguments due {A} _.
Arguments args {A} _.

(** [timeout] ([None] is [undefined]), the pending timers in the order
    they were set, the next timer id, the clock. *)
Record t (S A : Type) := {
  timeout : option nat;
  pending : list (Timer A);
  next_id : nat;
  now : Z;
  target : S
}.
Arguments timeout {S A} _.
Arguments pending {S A} _.
Arguments next_id {S A} _.
Arguments now {S A} _.
Arguments target {S A} _.

Definition fresh {S A} (s : S) : t S A :=
  {| timeout := None; pending := []; next_id := 0; now := 0; target := s |}.

(** [clearTimeout(timeout)]: nothing happens for [undefined] and for a
    timer that is no longer pending. *)
Definition clearTimeout {A} (handle : option nat) (tms : list (Timer A)) : list (Timer A) :=
  match handle with
  | None => tms
  | Some i => filter (fun tm => negb (Nat.eqb (id tm) i)) tms
  end.

(** One call of the returned function. *)
Definition call {S A} (wait : Z) (a : A) (d : t S A) : t S A :=
  {| timeout := Some (next_id d);
     pending := clearTimeout (timeout d) (pending d)
                  ++ [{| id := next_id d; due := now d + wait; args := a |}];
     next_id := Nat.succ (next_id d);
     now := now d;
     target := target d |}.

(** The closure [later] of the timer [tm], run when the timer fires. *)
Definition later {S A} (func : A -> M S unit) (tm : Timer A) (d : t S A) : t S A :=
  {| timeout := timeout d;
     pending := clearTimeout (timeout d) (pending d);
     next_id := next_id d;
     now := now d;
     target := state_of (func (args tm) (target d)) |}.

Definition is_pending {A} (tm : Timer A) (tms : list (Timer A)) : bool :=
  existsb (fun tm' => Nat.eqb (id tm') (id tm)) tms.

Definition remove {A} (tm : Timer A) (tms : list (Timer A)) : list (Timer A) :=
  filter (fun tm' => negb (Nat.eqb (id tm') (id tm))) tms.

(** A due timer that is still pending fires: it leaves the pending list
    and its closure runs. *)
Definition fire {S A} (func : A -> M S unit) (d : t S A) (tm : Timer A) : t S A :=
  if (due tm <=? now d) && is_pending tm (pending d) then
    later func tm
      {| timeout := timeout d; pending := remove tm (pending d);
         next_id := next_id d; now := now d; target := target d |}
  else d.

(** [dt] milliseconds pass: the timers due by then fire in the order they
    were set. *)
Definition elapse {S A} (func : A -> M S unit) (dt : Z) (d : t S A) : t S A :=
  fold_left (fire func) (pending d)
    {| timeout := timeout d; pending := pending d; next_id := next_id d;
       now := now d + Z.max 0 dt; target := target d |}.

(** A series of calls, each [dt] milliseconds after the one before. *)
Definition run {S A} (func : A -> M S unit) (wait : Z) (calls : list (Z * A))
    (d : t S A) : t S A :=
  fold_left (fun d0 c => call wait (snd c) (elapse func (fst c) d0)) calls d.

(** The arguments that reach the callee once everything has fired: those
    of a call that is followed by no call within [wait] ms.  [prev] is the
    call still waiting, if there is one. *)
Fixpoint flushed {A} (wait : Z) (prev : option A) (calls : list (Z * A)) : list A :=
  match calls with
  | [] => match prev with Some b => [b] | None => [] end
  | (dt, a) :: rest =>
      match prev with
      | Some b =>
          if wait <=? Z.max 0 dt
          then b :: flushed wait (Some a) rest
          else flushed wait (Some a) rest
      | None => flushed wait (Some a) rest
      end
  end.

End Debounce.

(* ------------------------------------------------------------------ *)
(** ** [RoomImageZoom] *)

Module RoomImageZoom.

(** The [zoom-active] class of each [.room-image] element, in document
    order; the pending auto-remove timers (due time, image); the clock. *)
Record t := {
  zoomed : list bool;
  timers : list (Z * nat);
  now : Z
}.

(** [classList.add] / [classList.remove] of [zoom-active] on image [i]. *)
Fixpoint set_zoom (i : nat) (b : bool) (l : list bool) {struct l} : list bool :=
  match l with
  | [] => []
  | x :: r =>
      match i with
      | O => b :: r
      | Datatypes.S j => x :: set_zoom j b r
      end
  end.

(** The click listener of image [i]; [on_content] is
    [e.target.closest('.room-content')] being found.  Only the images of
    the page have the listener. *)
Definition click (i : nat) (on_content : bool) (z : t) : t :=
  if negb (Nat.ltb i (length (zoomed z))) then z
  else if on_content then z
  else
    let isZoomed := nth i (zoomed z) false in
    let cleared := map (fun _ => false) (zoomed z) in
    if negb isZoomed then
      {| zoomed := set_zoom i true cleared;
         timers := timers z ++ [(now z + 2000, i)];
         now := now z |}
    else
      {| zoomed := cleared; timers := timers z; now := now z |}.

(** The callback of an auto-remove timer. *)
Definition fire (l : list bool) (tm : Z * nat) : list bool :=
  set_zoom (snd tm) false l.

(** [dt] milliseconds pass: the timers due by then fire in the order they
    were set. *)
Definition elapse (dt : Z) (z : t) : t :=
  let now' := now z + Z.max 0 dt in
  {| zoomed := fold_left fire (filter (fun tm => fst tm <=? now') (timers z)) (zoomed z);
     timers := filter (fun tm => negb (fst tm <=? now')) (timers z);
     now := now' |}.

Inductive Input :=
| Click (i : nat) (on_content : bool)
| Wait (dt : Z).

Definition step (z : t) (inp : Input) : t :=
  match inp with
  | Click i on_content => click i on_content z
  | Wait dt => elapse dt z
  end.

Definition run (inputs : list Input) (z : t) : t := fold_left step inputs z.

(** A page of [n] room images, none zoomed, right after [init]. *)
Definition fresh (n : nat) : t :=
  {| zoomed := repeat false n; timers := []; now := 0 |}.

(** The number of zoomed images. *)
Definition count (l : list bool) : nat := length (filter (fun b => b) l).

(** Every zoomed image has a timer pending that is due within 2 s. *)
Definition covered (z : t) : Prop :=
  forall i, nth i (zoomed z) false = true ->
    exists due, In (due, i) (timers z) /\ due <= now z + 2000.

End RoomImageZoom.

(* ------------------------------------------------------------------ *)
(** ** [LoadingScreen] *)

Module LoadingScreen.

(** What a pending timer will do: call [hide], or take the element out of
    the document. *)
Inductive Task := Hide | Remove.

(** The element [#loadingScreen]: its [hidden] class and whether it has a
    [parentNode]. *)
Record Screen := { hidden : bool; attached : bool }.

(** [this.loadingScreen] ([None] is [null]), the pending timers in the
    order they were set, the clock. *)
Record t := {
  loadingScreen : option Screen;
  timers : list (Z * Task);
  now : Z
}.

Definition hide (l : t) : t :=
  match loadingScreen l with
  | Some sc =>
      if negb (hidden sc) then
        {| loadingScreen := Some {| hidden := true; attached := attached sc |};
           timers := timers l ++ [(now l + 800, Remove)];
           now := now l |}
      else l
  | None => l
  end.

(** The callback of the 800 ms timer of [hide]; the timer is armed only
    with the element at hand. *)
Definition remove (l : t) : t :=
  match loadingScreen l with
  | Some sc =>
      if attached sc then
        {| loadingScreen := Some {| hidden := hidden sc; attached := false |};
           timers := timers l;
           now := now l |}
      else l
  | None => l
  end.

(** The constructor and [init]; time is counted from here.  The style
    written to the element is left out. *)
Definition new (sc : option Screen) : t :=
  {| loadingScreen := sc; timers := [(3500, Hide)]; now := 0 |}.

(** The [load] listener of the window. *)
Definition on_load (l : t) : t :=
  {| loadingScreen := loadingScreen l;
     timers := timers l ++ [(now l + 1200, Hide)];
     now := now l |}.

Definition run_task (tk : Task) (l : t) : t :=
  match tk with
  | Hide => hide l
  | Remove => remove l
  end.

(** The timer that fires next, the earliest one, of those due at the same
    time the one set first, and the timers left. *)
Fixpoint pick (tms : list (Z * Task)) : option ((Z * Task) * list (Z * Task)) :=
  match tms with
  | [] => None
  | tm :: rest =>
      match pick rest with
      | Some (tm', rest') =>
          if fst tm <=? fst tm' then Some (tm, rest) else Some (tm', tm :: rest')
      | None => Some (tm, rest)
      end
  end.

(** A bound on the number of callbacks the pending timers can lead to: a
    [hide] may arm one more timer. *)
Definition weight (tms : list (Z * Task)) : nat :=
  fold_right (fun tm n => (match snd tm with Hide => 2 | Remove => 1 end + n)%nat) 0%nat tms.

(** The timers due by [limit] fire one after the other, each at its due
    time, those armed on the way included. *)
Fixpoint elapse_to (fuel : nat) (limit : Z) (l : t) : t :=
  match fuel with
  | O => l
  | Datatypes.S fuel' =>
      match pick (timers l) with
      | Some (tm, rest) =>
          if fst tm <=? limit then
            elapse_to fuel' limit
              (run_task (snd tm)
                 {| loadingScreen := loadingScreen l; timers := rest;
                    now := Z.max (now l) (fst tm) |})
          else
            {| loadingScreen := loadingScreen l; timers := timers l;
               now := Z.max (now l) limit |}
      | None =>
          {| loadingScreen := loadingScreen l; timers := timers l;
             now := Z.max (now l) limit |}
      end
  end.

(** [dt] milliseconds pass. *)
Definition elapse (dt : Z) (l : t) : t :=
  elapse_to (Datatypes.S (weight (timers l))) (now l + Z.max 0 dt) l.

Inductive Input := Load | Wait (dt : Z).

Definition step (l : t) (inp : Input) : t :=
  match inp with
  | Load => on_load l
  | Wait dt => elapse dt l
  end.

Definition run (inputs : list Input) (l : t) : t := fold_left step inputs l.

(** The due times of the pending [hide] timers, and of the pending
    removals. *)
Definition pending_hides (l : t) : list Z :=
  map fst (filter (fun tm => match snd tm with Hide => true | Remove => false end) (timers l)).

Definition pending_removals (l : t) : list Z :=
  map fst (filter (fun tm => match snd tm with Hide => false | Remove => true end) (timers l)).

(** The element as the markup has it: shown and in the document. *)
Definition shown : Screen := {| hidden := false; attached := true |}.

(** The screen has nothing left to hide: there is none, or it is hidden
    already. *)
Definition nothing_to_hide (sc : option Screen) : bool :=
  match sc with
  | Some sc0 => hidden sc0
  | None => true
  end.

End LoadingScreen.

(* ------------------------------------------------------------------ *)
(** ** [Navigation] *)

Module Navigation.


(** The string literals of [updateActiveLink]. *)
Module Literals.
Import String.
Local Open Scope string_scope.
End Literals.





(** The mobile menu: the [active] class of [#hamburger] and of [#navMenu]
    ([None]: no such element), the [menu-open] class of the body, the
    number of [closeOnClickOutside] listeners on the document, the due
    times of the timers that will add one, the clock. *)
Record Menu := {
  hamburger : option bool;
  navMenu : option bool;
  menu_open : bool;
  closers : nat;
  adders : list Z;
  now : Z
}.

Definition set_hamburger (b : bool) (m : Menu) : Menu :=
  {| hamburger := Some b; navMenu := navMenu m; menu_open := menu_open m;
     closers := closers m; adders := adders m; now := now m |}.

Definition set_navMenu (b : bool) (m : Menu) : Menu :=
  {| hamburger := hamburger m; navMenu := Some b; menu_open := menu_open m;
     closers := closers m; adders := adders m; now := now m |}.

Definition set_menu_open (b : bool) (m : Menu) : Menu :=
  {| hamburger := hamburger m; navMenu := navMenu m; menu_open := b;
     closers := closers m; adders := adders m; now := now m |}.

(** [setTimeout(..., 100)] in [toggleMenu]. *)
Definition arm (m : Menu) : Menu :=
  {| hamburger := hamburger m; navMenu := navMenu m; menu_open := menu_open m;
     closers := closers m; adders := adders m ++ [now m + 100]; now := now m |}.

(** [document.removeEventListener('click', closeOnClickOutside)]. *)
Definition remove_closer (m : Menu) : Menu :=
  {| hamburger := hamburger m; navMenu := navMenu m; menu_open := menu_open m;
     closers := Nat.pred (closers m); adders := adders m; now := now m |}.

Definition toggleMenu : M Menu unit :=
  m <- get ;;
  match hamburger m with
  | None => throw TypeError
  | Some h =>
      modify (set_hamburger (negb h)) ;;
      match navMenu m with
      | None => throw TypeError
      | Some a =>
          modify (set_navMenu (negb a)) ;;
          modify (set_menu_open (negb (menu_open m))) ;;
          when (negb a) (modify arm)
      end
  end.

Definition closeMenu : M Menu unit :=
  m <- get ;;
  match hamburger m with
  | None => throw TypeError
  | Some _ =>
      modify (set_hamburger false) ;;
      match navMenu m with
      | None => throw TypeError
      | Some _ =>
          modify (set_navMenu false) ;;
          modify (set_menu_open false)
      end
  end.

(** The [keydown] listener of the document, for the Escape key. *)
Definition on_escape : M Menu unit :=
  m <- get ;;
  match navMenu m with
  | None => throw TypeError
  | Some a => when a closeMenu
  end.

(** One [closeOnClickOutside] listener; [in_menu] and [in_hamburger] are
    [navMenu.contains(e.target)] and [hamburger.contains(e.target)]. *)
Definition closeOnClickOutside (in_menu in_hamburger : bool) : M Menu unit :=
  m <- get ;;
  match navMenu m with
  | None => throw TypeError
  | Some _ =>
      if negb in_menu then
        match hamburger m with
        | None => throw TypeError
        | Some _ =>
            when (negb in_hamburger) (closeMenu ;; modify remove_closer)
        end
      else ret tt
  end.

(** A click reaches the document: the listeners registered by then run,
    each on its own. *)
Definition document_click (in_menu in_hamburger : bool) (m : Menu) : Menu :=
  Nat.iter (closers m)
    (fun m0 => state_of (closeOnClickOutside in_menu in_hamburger m0)) m.

(** [dt] milliseconds pass: each timer due by then adds its listener. *)
Definition elapse (dt : Z) (m : Menu) : Menu :=
  let now' := now m + Z.max 0 dt in
  {| hamburger := hamburger m; navMenu := navMenu m; menu_open := menu_open m;
     closers := closers m + length (filter (fun due => due <=? now') (adders m));
     adders := filter (fun due => negb (due <=? now')) (adders m);
     now := now' |}.

(** A click on the hamburger (its listener exists when the element does),
    a click anywhere else, the Escape key, time passing. *)
Inductive Input :=
| ClickHamburger
| ClickElsewhere (in_menu : bool)
| Escape
| Wait (dt : Z).

Definition step (m : Menu) (inp : Input) : Menu :=
  match inp with
  | ClickHamburger =>
      match hamburger m with
      | Some _ => document_click false true (state_of (toggleMenu m))
      | None => document_click false true m
      end
  | ClickElsewhere in_menu => document_click in_menu false m
  | Escape => state_of (on_escape m)
  | Wait dt => elapse dt m
  end.

Definition run (inputs : list Input) (m : Menu) : Menu := fold_left step inputs m.

(** The page as the markup has it: both elements, the menu closed. *)
Definition closed : Menu :=
  {| hamburger := Some false; navMenu := Some false; menu_open := false;
     closers := 0; adders := []; now := 0 |}.

(** The three classes agree. *)
Definition in_step (m : Menu) : Prop :=
  hamburger m = Some (menu_open m) /\ navMenu m = Some (menu_open m).

(** An open menu has a listener that closes it, or will have one within
    100 ms; no timer is due later than that. *)
Definition closable (m : Menu) : Prop :=
  (menu_open m = true -> (0 < closers m + length (adders m))%nat) /\
  Forall (fun due => due <= now m + 100) (adders m).

(** Open the menu, wait, close it with the Escape key. *)
Definition open_and_escape (dt : Z) : list Input := [ClickHamburger; Wait dt; Escape].

Fixpoint cycles (n : nat) (dt : Z) : list Input :=
  match n with
  | O => []
  | Datatypes.S k => open_and_escape dt ++ cycles k dt
  end.

End Navigation.

(* ================================================================== *)
(** * Properties *)

(** ** Rounding to doubles

    [Double.fl] rounds as IEEE-754 asks ([Double.rounds]): to a nearest
    double, to the one with the even significand when two are equally
    near, and to an infinity beyond the doubles.  A double is rounded to
    itself. *)

Module DoubleFacts.
Import Double.
Local Open Scope Q_scope.

Lemma pow2_pos (k : Z) : 0 < pow2 k.
Proof. apply Qpower_0_lt. reflexivity. Qed.

Lemma pow2_plus (a b : Z) : pow2 (a + b) == pow2 a * pow2 b.
Proof. apply Qpower_plus. discriminate. Qed.

Lemma pow2_le (a b : Z) : (a <= b)%Z -> pow2 a <= pow2 b.
Proof. intros H. apply Qpower_le_compat_l; [exact H|discriminate]. Qed.

Lemma pow2_lt (a b : Z) : (a < b)%Z -> pow2 a < pow2 b.
Proof. intros H. apply Qpower_lt_compat_l; [exact H|reflexivity]. Qed.

Lemma pow2_lt_inv (a b : Z) : pow2 a < pow2 b -> (a < b)%Z.
Proof. intros H. apply (Qpower_lt_compat_l_inv 2); [exact H|reflexivity]. Qed.

Lemma pow2_Z (k : Z) : (0 <= k)%Z -> pow2 k == inject_Z (2 ^ k).
Proof. intros H. unfold pow2. now rewrite Zpower_Qpower. Qed.

(** Splitting a power: [2^a == 2^b * 2^(a - b)]. *)
Lemma pow2_split (a b : Z) : pow2 a == pow2 b * pow2 (a - b).
Proof. rewrite <- pow2_plus. now replace (b + (a - b))%Z with a by lia. Qed.

Lemma ilog2_spec (x : Q) :
  0 < x -> pow2 (ilog2 x) <= x /\ x < pow2 (ilog2 x + 1).
Proof.
  intros Hx. destruct x as [n d]. unfold ilog2. cbn [Qnum Qden].
  assert (Hn : (0 < n)%Z) by (unfold Qlt in Hx; cbn in Hx; lia).
  set (a := Z.log2 n). set (b := Z.log2 (Zpos d)).
  destruct (Z.log2_spec n Hn) as [Ha1 Ha2]. fold a in Ha1, Ha2.
  destruct (Z.log2_spec (Zpos d) (Pos2Z.is_pos d)) as [Hb1 Hb2]. fold b in Hb1, Hb2.
  assert (Ha0 : (0 <= a)%Z) by apply Z.log2_nonneg.
  assert (Hb0 : (0 <= b)%Z) by apply Z.log2_nonneg.
  (* the number times its denominator is its numerator *)
  assert (Hnd : (n # d) * inject_Z (Zpos d) == inject_Z n).
  { unfold Qeq, Qmult, inject_Z. cbn. lia. }
  assert (Hd : 0 < inject_Z (Zpos d)) by (unfold Qlt; cbn; lia).
  assert (Qa1 : pow2 a <= inject_Z n)
    by (rewrite pow2_Z by exact Ha0; rewrite <- Zle_Qle; exact Ha1).
  assert (Qa2 : inject_Z n < pow2 (a + 1))
    by (rewrite pow2_Z by lia; rewrite <- Zlt_Qlt; replace (a + 1)%Z with (Z.succ a) by lia;
        exact Ha2).
  assert (Qb1 : pow2 b <= inject_Z (Zpos d))
    by (rewrite pow2_Z by exact Hb0; rewrite <- Zle_Qle; exact Hb1).
  assert (Qb2 : inject_Z (Zpos d) < pow2 (b + 1))
    by (rewrite pow2_Z by lia; rewrite <- Zlt_Qlt; replace (b + 1)%Z with (Z.succ b) by lia;
        exact Hb2).
  (* upper bound with the exponent a - b + 1, lower bound with a - b - 1 *)
  assert (Up : (n # d) < pow2 (a - b + 1)).
  { apply (Qmult_lt_r _ _ (pow2 b) (pow2_pos b)).
    rewrite <- pow2_plus. replace (a - b + 1 + b)%Z with (a + 1)%Z by lia.
    apply Qle_lt_trans with (inject_Z n); [|exact Qa2].
    rewrite <- Hnd. apply Qmult_le_l; [exact Hx|exact Qb1]. }
  assert (Lo : pow2 (a - b - 1) <= (n # d)).
  { apply (Qmult_le_r _ _ (pow2 (b + 1)) (pow2_pos (b + 1))).
    rewrite <- pow2_plus. replace (a - b - 1 + (b + 1))%Z with a by lia.
    apply Qle_trans with (inject_Z n); [exact Qa1|].
    rewrite <- Hnd. apply Qmult_le_l; [exact Hx|]. apply Qlt_le_weak. exact Qb2. }
  destruct (Qle_bool (pow2 (a - b)) (n # d)) eqn:E.
  - apply Qle_bool_iff in E. split; [exact E|exact Up].
  - assert (Hlt : (n # d) < pow2 (a - b)).
    { apply Qnot_le_lt. intros H. apply Qle_bool_iff in H. congruence. }
    split; [exact Lo|]. now replace (a - b - 1 + 1)%Z with (a - b)%Z by lia.
Qed.

(** [|a| <= |b|] from linear facts. *)
Ltac abs_le_abs :=
  match goal with
  | |- Qabs ?a <= Qabs ?b =>
      let H1 := fresh in
      let H2 := fresh in
      pose proof (Qle_Qabs b) as H1;
      pose proof (Qle_Qabs (- b)) as H2; rewrite Qabs_opp in H2;
      apply Qabs_Qle_condition; split; lra
  end.

(** [rne t] is an integer nearest to [t]. *)
Lemma rne_nearest (t : Q) (k : Z) :
  Qabs (inject_Z (rne t) - t) <= Qabs (inject_Z k - t).
Proof.
  unfold rne. set (f := Qfloor t).
  pose proof (Qfloor_le t) as F1. pose proof (Qlt_floor t) as F2.
  fold f in F1, F2. rewrite inject_Z_plus in F2. change (inject_Z 1) with 1 in F2.
  assert (Hk : inject_Z k <= inject_Z f \/ inject_Z f + 1 <= inject_Z k).
  { destruct (Z_le_gt_dec k f) as [H|H].
    - left. now rewrite <- Zle_Qle.
    - right. change 1 with (inject_Z 1). rewrite <- inject_Z_plus, <- Zle_Qle. lia. }
  destruct (Qcompare_spec (t - inject_Z f) (1 # 2)) as [E|E|E].
  - destruct (Z.even f); [|rewrite inject_Z_plus; change (inject_Z 1) with 1];
      destruct Hk; abs_le_abs.
  - destruct Hk; abs_le_abs.
  - rewrite inject_Z_plus. change (inject_Z 1) with 1. destruct Hk; abs_le_abs.
Qed.

Lemma rne_ge (t : Q) (k : Z) : inject_Z k <= t -> (k <= rne t)%Z.
Proof.
  intros H. destruct (Z_le_gt_dec k (rne t)) as [Hle|Hgt]; [exact Hle|exfalso].
  assert (Hm : inject_Z (rne t) + 1 <= inject_Z k)
    by (change 1 with (inject_Z 1); rewrite <- inject_Z_plus, <- Zle_Qle; lia).
  pose proof (rne_nearest t k) as N.
  pose proof (Qle_Qabs (inject_Z (rne t) - t)) as N1.
  pose proof (Qle_Qabs (- (inject_Z (rne t) - t))) as N2. rewrite Qabs_opp in N2.
  assert (N3 : Qabs (inject_Z k - t) == t - inject_Z k \/
               Qabs (inject_Z k - t) == inject_Z k - t).
  { destruct (Qlt_le_dec (inject_Z k - t) 0) as [L|L].
    - left. rewrite Qabs_neg by lra. ring.
    - right. now rewrite Qabs_pos. }
  destruct N3 as [N3|N3]; rewrite N3 in N; lra.
Qed.

Lemma rne_le (t : Q) (k : Z) : t <= inject_Z k -> (rne t <= k)%Z.
Proof.
  intros H. destruct (Z_le_gt_dec (rne t) k) as [Hle|Hgt]; [exact Hle|exfalso].
  assert (Hm : inject_Z k + 1 <= inject_Z (rne t))
    by (change 1 with (inject_Z 1); rewrite <- inject_Z_plus, <- Zle_Qle; lia).
  pose proof (rne_nearest t k) as N.
  pose proof (Qle_Qabs (inject_Z (rne t) - t)) as N1.
  pose proof (Qle_Qabs (- (inject_Z (rne t) - t))) as N2. rewrite Qabs_opp in N2.
  assert (N3 : Qabs (inject_Z k - t) == t - inject_Z k \/
               Qabs (inject_Z k - t) == inject_Z k - t).
  { destruct (Qlt_le_dec (inject_Z k - t) 0) as [L|L].
    - left. rewrite Qabs_neg by lra. ring.
    - right. now rewrite Qabs_pos. }
  destruct N3 as [N3|N3]; rewrite N3 in N; lra.
Qed.

Lemma abs_scaled (x z P : Q) : 0 < P -> x == z * P -> Qabs x == Qabs z * P.
Proof. intros HP E. rewrite E, Qabs_Qmult, (Qabs_pos P) by lra. reflexivity. Qed.

Lemma Qabs_inject_Z (z : Z) : Qabs (inject_Z z) = inject_Z (Z.abs z).
Proof. reflexivity. Qed.

(** Whenever it does not overflow, [fl y] is a double nearest to [y]. *)
Theorem fl_nearest (y : Q) : Qabs (fl y) < infinity -> nearest y (fl y).
Proof.
  unfold fl. destruct (Qeq_bool y 0) eqn:E0.
  { apply Qeq_bool_iff in E0. intros _. split.
    - exists 0%Z, 0%Z. split; [reflexivity|]. split; [lia|]. reflexivity.
    - intros d' _. setoid_replace (0 - y) with 0 by (rewrite E0; ring). apply Qabs_nonneg. }
  apply Qeq_bool_neq in E0.
  set (q := ulp_exp y). set (t := y / pow2 q). set (m := rne t).
  set (r := inject_Z m * pow2 q). cbv zeta.
  destruct (Qle_bool infinity (Qabs r)) eqn:Ei.
  { intros H. exfalso. assert (Hi : 0 < infinity) by apply pow2_pos.
    destruct (Qle_bool 0 y); revert H.
    - rewrite Qabs_pos by lra. apply Qlt_irrefl.
    - rewrite Qabs_opp, Qabs_pos by lra. apply Qlt_irrefl. }
  intros _.
  assert (Hr : Qabs r < infinity).
  { apply Qnot_le_lt. intros H. apply Qle_bool_iff in H. congruence. }
  pose proof (pow2_pos q) as Pq.
  assert (Ht : y == t * pow2 q) by (unfold t; field; lra).
  assert (Ha : 0 < Qabs y).
  { destruct (Qlt_le_dec 0 (Qabs y)) as [H|H]; [exact H|exfalso].
    pose proof (Qabs_nonneg y) as H0. apply E0.
    assert (Hz : Qabs y == 0) by lra.
    destruct (Qlt_le_dec y 0) as [L|L].
    - rewrite Qabs_neg in Hz by lra. lra.
    - rewrite Qabs_pos in Hz by lra. exact Hz. }
  set (e := ilog2 (Qabs y)).
  destruct (ilog2_spec (Qabs y) Ha) as [He1 He2]. fold e in He1, He2.
  assert (Hq : q = Z.max (e - 52) (-1074)) by reflexivity.
  assert (Hat : Qabs y == Qabs t * pow2 q) by (apply abs_scaled; assumption).
  (* the error of [r] is at most that of every multiple of [2^q] *)
  assert (Err : forall k : Z, Qabs (r - y) <= Qabs (inject_Z k * pow2 q - y)).
  { intros k.
    rewrite (abs_scaled (r - y) (inject_Z m - t) (pow2 q) Pq)
      by (unfold r; rewrite Ht at 1; ring).
    rewrite (abs_scaled (inject_Z k * pow2 q - y) (inject_Z k - t) (pow2 q) Pq)
      by (rewrite Ht at 1; ring).
    apply Qmult_le_compat_r; [apply rne_nearest|lra]. }
  assert (P52 : e = (q + 52)%Z -> inject_Z (2 ^ 52) * pow2 q == pow2 e).
  { intros ->. rewrite <- (pow2_Z 52) by lia. rewrite <- pow2_plus.
    now replace (52 + q)%Z with (q + 52)%Z by lia. }
  split.
  - (* [r] is a double *)
    assert (Ht53 : Qabs t < pow2 53).
    { apply (Qmult_lt_r _ _ (pow2 q) Pq). rewrite <- Hat, <- pow2_plus.
      apply Qlt_le_trans with (pow2 (e + 1)); [exact He2|]. apply pow2_le. lia. }
    rewrite (pow2_Z 53) in Ht53 by lia.
    assert (Hm1 : (- 2 ^ 53 <= m)%Z).
    { apply rne_ge. rewrite inject_Z_opp.
      pose proof (Qle_Qabs (- t)) as H. rewrite Qabs_opp in H. lra. }
    assert (Hm2 : (m <= 2 ^ 53)%Z).
    { apply rne_le. pose proof (Qle_Qabs t) as H. lra. }
    destruct (Z.eq_dec m 0) as [Em|Em].
    { exists 0%Z, 0%Z. split; [reflexivity|]. split; [lia|].
      unfold r. rewrite Em. ring. }
    assert (Hq971 : (q <= 971)%Z).
    { destruct (Z_le_gt_dec q 971) as [H|H]; [exact H|exfalso].
      assert (Eq : e = (q + 52)%Z) by lia.
      assert (Ht52 : inject_Z (2 ^ 52) <= Qabs t).
      { apply (Qmult_le_r _ _ (pow2 q) Pq). rewrite <- Hat, (P52 Eq). exact He1. }
      assert (Hm52 : (2 ^ 52 <= Z.abs m)%Z).
      { destruct (Qlt_le_dec t 0) as [L|L].
        - rewrite Qabs_neg in Ht52 by lra.
          assert (m <= - 2 ^ 52)%Z by (apply rne_le; rewrite inject_Z_opp; lra). lia.
        - rewrite Qabs_pos in Ht52 by lra.
          assert (2 ^ 52 <= m)%Z by (apply rne_ge; exact Ht52). lia. }
      apply (Qlt_irrefl infinity). apply Qle_lt_trans with (Qabs r); [|exact Hr].
      rewrite (abs_scaled r (inject_Z m) (pow2 q) Pq) by reflexivity.
      rewrite Qabs_inject_Z. unfold infinity.
      apply Qle_trans with (inject_Z (2 ^ 52) * pow2 q).
      - rewrite <- (pow2_Z 52) by lia. rewrite <- pow2_plus. apply pow2_le. lia.
      - apply Qmult_le_compat_r; [|lra]. rewrite <- Zle_Qle. exact Hm52. }
    destruct (Z_lt_ge_dec (Z.abs m) (2 ^ 53)) as [Hlt|Hge].
    { exists m, q. split; [exact Hlt|]. split; [lia|]. reflexivity. }
    assert (Hm : Z.abs m = (2 ^ 53)%Z) by lia.
    assert (Hq970 : (q <= 970)%Z).
    { assert (H : pow2 (53 + q) < pow2 1024).
      { apply Qle_lt_trans with (Qabs r); [|exact Hr].
        rewrite (abs_scaled r (inject_Z m) (pow2 q) Pq) by reflexivity.
        rewrite Qabs_inject_Z, Hm, pow2_plus, (pow2_Z 53) by lia. apply Qle_refl. }
      apply pow2_lt_inv in H. lia. }
    exists (m / 2)%Z, (q + 1)%Z.
    assert (E53 : (2 ^ 53 = 9007199254740992)%Z) by reflexivity.
    assert (Em2 : m = (2 * (m / 2))%Z).
    { assert (Hc : (m = 2 ^ 53 \/ m = - 2 ^ 53)%Z) by lia.
      destruct Hc as [Hc|Hc]; rewrite Hc; reflexivity. }
    split; [rewrite E53 in *; lia|]. split; [lia|].
    unfold r. rewrite Em2 at 1. rewrite inject_Z_mult, pow2_plus.
    change (pow2 1) with 2. change (inject_Z 2) with 2. ring.
  - (* no double is nearer *)
    intros d' (m' & e' & Hm' & He' & Hd').
    destruct (Z_le_gt_dec q e') as [Hle|Hgt].
    + rewrite Hd'.
      setoid_replace (inject_Z m' * pow2 e')
        with (inject_Z (m' * 2 ^ (e' - q)) * pow2 q); [apply Err|].
      rewrite inject_Z_mult, <- (pow2_Z (e' - q)) by lia.
      rewrite (pow2_split e' q). ring.
    + assert (Eq : e = (q + 52)%Z) by lia.
      (* [d'] is below [2^e] in absolute value, and [y] is not *)
      assert (Hd53 : Qabs d' <= pow2 e).
      { rewrite (abs_scaled d' (inject_Z m') (pow2 e') (pow2_pos e') Hd').
        rewrite Qabs_inject_Z.
        apply Qle_trans with (inject_Z (2 ^ 53) * pow2 e').
        - apply Qmult_le_compat_r; [|pose proof (pow2_pos e'); lra].
          rewrite <- Zle_Qle. lia.
        - rewrite <- (pow2_Z 53) by lia. rewrite <- pow2_plus. apply pow2_le. lia. }
      pose proof (Qabs_triangle_reverse y d') as Tr. rewrite Qabs_Qminus in Tr.
      destruct (Qlt_le_dec y 0) as [L|L].
      * apply Qle_trans with (Qabs (inject_Z (- 2 ^ 52) * pow2 q - y)); [apply Err|].
        rewrite inject_Z_opp.
        setoid_replace (- inject_Z (2 ^ 52) * pow2 q - y) with (- pow2 e - y)
          by (rewrite <- (P52 Eq); ring).
        rewrite Qabs_neg in He1 by lra. rewrite Qabs_neg in Tr by lra.
        rewrite Qabs_pos by lra. lra.
      * apply Qle_trans with (Qabs (inject_Z (2 ^ 52) * pow2 q - y)); [apply Err|].
        rewrite (P52 Eq).
        rewrite Qabs_pos in He1 by lra. rewrite Qabs_pos in Tr by lra.
        rewrite Qabs_neg by lra. lra.
Qed.


(** [rne t] is within one half of [t]. *)
Lemma rne_half (t : Q) : Qabs (inject_Z (rne t) - t) <= 1 # 2.
Proof.
  pose proof (rne_nearest t (Qfloor t)) as N1.
  pose proof (rne_nearest t (Qfloor t + 1)) as N2.
  pose proof (Qfloor_le t) as F1. pose proof (Qlt_floor t) as F2.
  rewrite inject_Z_plus in F2, N2. change (inject_Z 1) with 1 in F2, N2.
  rewrite (Qabs_neg (inject_Z (Qfloor t) - t)) in N1 by lra.
  rewrite (Qabs_pos (inject_Z (Qfloor t) + 1 - t)) in N2 by lra.
  lra.
Qed.

(** Below [2^1024 - 2^970] nothing rounds to [Infinity]. *)
Lemma fl_finite (y : Q) :
  Qabs y < pow2 1024 - pow2 970 -> Qabs (fl y) < infinity.
Proof.
  intros Hy. unfold fl. destruct (Qeq_bool y 0) eqn:E0; [apply pow2_pos|].
  apply Qeq_bool_neq in E0.
  set (q := ulp_exp y). set (t := y / pow2 q). set (m := rne t).
  set (r := inject_Z m * pow2 q). cbv zeta.
  destruct (Qle_bool infinity (Qabs r)) eqn:Ei.
  2:{ apply Qnot_le_lt. intros H. apply Qle_bool_iff in H. congruence. }
  exfalso. apply Qle_bool_iff in Ei. unfold infinity in Ei.
  pose proof (pow2_pos q) as Pq. pose proof (pow2_pos 970) as P970.
  assert (Ht : y == t * pow2 q) by (unfold t; field; lra).
  assert (Ha : 0 < Qabs y).
  { destruct (Qlt_le_dec 0 (Qabs y)) as [H|H]; [exact H|exfalso].
    pose proof (Qabs_nonneg y) as H0. apply E0.
    assert (Hz : Qabs y == 0) by lra.
    destruct (Qlt_le_dec y 0) as [L|L].
    - rewrite Qabs_neg in Hz by lra. lra.
    - rewrite Qabs_pos in Hz by lra. exact Hz. }
  destruct (ilog2_spec (Qabs y) Ha) as [He1 _].
  assert (Hq : q = Z.max (ilog2 (Qabs y) - 52) (-1074)) by reflexivity.
  assert (He : (ilog2 (Qabs y) < 1024)%Z).
  { apply pow2_lt_inv. lra. }
  assert (Hq970 : pow2 q <= 2 * pow2 970).
  { change 2 with (pow2 1). rewrite <- pow2_plus. apply pow2_le. lia. }
  assert (Err : Qabs (r - y) <= (1 # 2) * pow2 q).
  { rewrite (abs_scaled (r - y) (inject_Z m - t) (pow2 q) Pq)
      by (unfold r; rewrite Ht at 1; ring).
    apply Qmult_le_compat_r; [apply rne_half|lra]. }
  pose proof (Qabs_triangle_reverse r y) as Tr. lra.
Qed.

(** A double is rounded to itself. *)
Lemma fl_exact (y : Q) : representable y -> fl y == y.
Proof.
  intros Hy. assert (Hf : Qabs (fl y) < infinity).
  { apply fl_finite. destruct Hy as (m & e & Hm & He & Hd).
    rewrite (abs_scaled y (inject_Z m) (pow2 e) (pow2_pos e) Hd), Qabs_inject_Z.
    apply Qle_lt_trans with (inject_Z (2 ^ 53 - 1) * pow2 971).
    - apply Qle_trans with (inject_Z (2 ^ 53 - 1) * pow2 e).
      + apply Qmult_le_compat_r; [|pose proof (pow2_pos e); lra].
        rewrite <- Zle_Qle. lia.
      + apply Qmult_le_l; [reflexivity|]. apply pow2_le. lia.
    - reflexivity. }
  destruct (fl_nearest y Hf) as [_ N]. specialize (N y Hy).
  setoid_replace (y - y) with 0 in N by ring. change (Qabs 0) with 0 in N.
  pose proof (Qabs_nonneg (fl y - y)) as N0.
  pose proof (Qle_Qabs (fl y - y)) as N1.
  pose proof (Qle_Qabs (- (fl y - y))) as N2. rewrite Qabs_opp in N2. lra.
Qed.

(** An integer below [2^53] in absolute value is a double. *)
Lemma representable_Z (k : Z) : (Z.abs k < 2 ^ 53)%Z -> representable (inject_Z k).
Proof.
  intros H. exists k, 0%Z. split; [exact H|]. split; [lia|].
  change (pow2 0) with 1. ring.
Qed.

(** What is equal to a double is that double. *)
Lemma representable_Qeq (x y : Q) : x == y -> representable x -> representable y.
Proof.
  intros E (m & e & Hm & He & Hd). exists m, e. split; [exact Hm|].
  split; [exact He|]. now rewrite <- E.
Qed.


Lemma inject_Z_sub (a b : Z) : inject_Z (a - b) == inject_Z a - inject_Z b.
Proof. unfold Z.sub. rewrite inject_Z_plus, inject_Z_opp. reflexivity. Qed.

(** [rne] never goes below the floor nor above the floor plus one. *)
Lemma rne_floor (t : Q) : (Qfloor t <= rne t <= Qfloor t + 1)%Z.
Proof.
  unfold rne. destruct (t - inject_Z (Qfloor t) ?= 1 # 2); [|lia|lia].
  destruct (Z.even (Qfloor t)); lia.
Qed.

(** Half-way between two integers [rne] takes the even one. *)
Lemma rne_tie_even (t : Q) :
  Qabs (inject_Z (rne t) - t) == 1 # 2 -> Z.even (rne t) = true.
Proof.
  unfold rne. set (f := Qfloor t).
  pose proof (Qfloor_le t) as F1. pose proof (Qlt_floor t) as F2.
  fold f in F1, F2. rewrite inject_Z_plus in F2. change (inject_Z 1) with 1 in F2.
  destruct (Qcompare_spec (t - inject_Z f) (1 # 2)) as [E|E|E].
  - intros _. destruct (Z.even f) eqn:Ev; [exact Ev|].
    rewrite Z.even_add, Ev. reflexivity.
  - intros H. rewrite Qabs_neg in H by lra. lra.
  - rewrite inject_Z_plus. change (inject_Z 1) with 1.
    intros H. rewrite Qabs_pos in H by lra. lra.
Qed.

(** From half a unit below an even integer on, [rne] is at least it. *)
Lemma rne_even_ge (t : Q) (K : Z) :
  Z.even K = true -> inject_Z K - (1 # 2) <= t -> (K <= rne t)%Z.
Proof.
  intros Ev H. pose proof (rne_floor t) as Fl.
  pose proof (Qfloor_le t) as F1. pose proof (Qlt_floor t) as F2.
  rewrite inject_Z_plus in F2. change (inject_Z 1) with 1 in F2.
  assert (Hf : (K - 1 <= Qfloor t)%Z).
  { destruct (Z_le_gt_dec (K - 1) (Qfloor t)) as [L|L]; [exact L|exfalso].
    assert (inject_Z (Qfloor t) + 1 <= inject_Z K - 1).
    { change 1 with (inject_Z 1). rewrite <- inject_Z_plus, <- inject_Z_sub, <- Zle_Qle. lia. }
    lra. }
  destruct (Z.eq_dec (Qfloor t) (K - 1)) as [E|E]; [|lia].
  unfold rne. rewrite E.
  assert (Ev1 : Z.even (K - 1) = false).
  { rewrite Z.even_sub, Ev. reflexivity. }
  rewrite Ev1.
  assert (F3 : inject_Z (K - 1) == inject_Z K - 1)
    by (rewrite inject_Z_sub; reflexivity).
  destruct (Qcompare_spec (t - inject_Z (K - 1)) (1 # 2)) as [C|C|C]; [lia| |lia].
  exfalso. lra.
Qed.

(** Up to half a unit above an even integer, [rne] is at most it. *)
Lemma rne_even_le (t : Q) (K : Z) :
  Z.even K = true -> t <= inject_Z K + (1 # 2) -> (rne t <= K)%Z.
Proof.
  intros Ev H. pose proof (rne_floor t) as Fl.
  pose proof (Qfloor_le t) as F1.
  assert (Hf : (Qfloor t <= K)%Z).
  { destruct (Z_le_gt_dec (Qfloor t) K) as [L|L]; [exact L|exfalso].
    assert (inject_Z K + 1 <= inject_Z (Qfloor t)).
    { change 1 with (inject_Z 1). rewrite <- inject_Z_plus, <- Zle_Qle. lia. }
    lra. }
  destruct (Z.eq_dec (Qfloor t) K) as [E|E]; [|lia].
  unfold rne. rewrite E, Ev.
  destruct (Qcompare_spec (t - inject_Z K) (1 # 2)) as [C|C|C]; [lia|lia|].
  exfalso. lra.
Qed.

Lemma Qabs_pos_nonzero (y : Q) : ~ y == 0 -> 0 < Qabs y.
Proof.
  intros E0. destruct (Qlt_le_dec 0 (Qabs y)) as [H|H]; [exact H|exfalso].
  pose proof (Qabs_nonneg y) as H0. apply E0.
  assert (Hz : Qabs y == 0) by lra.
  destruct (Qlt_le_dec y 0) as [L|L].
  - rewrite Qabs_neg in Hz by lra. lra.
  - rewrite Qabs_pos in Hz by lra. exact Hz.
Qed.

(** From [2^1024 - 2^970] on, results round to an infinity. *)
Lemma fl_overflow (y : Q) :
  overflow_threshold <= Qabs y ->
  fl y == (if Qle_bool 0 y then infinity else - infinity).
Proof.
  intros Hy. unfold overflow_threshold in Hy.
  assert (T0 : 0 < pow2 1024 - pow2 970) by reflexivity.
  assert (Ha : 0 < Qabs y) by lra.
  unfold fl. destruct (Qeq_bool y 0) eqn:E0.
  { apply Qeq_bool_iff in E0. rewrite E0 in Ha. exfalso. apply (Qlt_irrefl 0). exact Ha. }
  set (q := ulp_exp y). set (t := y / pow2 q). set (m := rne t).
  set (r := inject_Z m * pow2 q). cbv zeta.
  assert (Hov : infinity <= Qabs r); [|apply Qle_bool_iff in Hov; rewrite Hov; reflexivity].
  pose proof (pow2_pos q) as Pq.
  assert (Ht : y == t * pow2 q) by (unfold t; field; lra).
  assert (Hat : Qabs y == Qabs t * pow2 q) by (apply abs_scaled; assumption).
  set (e := ilog2 (Qabs y)).
  destruct (ilog2_spec (Qabs y) Ha) as [He1 He2]. fold e in He1, He2.
  assert (Hq : q = Z.max (e - 52) (-1074)) by reflexivity.
  assert (He : (1023 <= e)%Z).
  { assert (H : pow2 1023 < pow2 (e + 1)).
    { apply Qle_lt_trans with (Qabs y); [|exact He2].
      apply Qle_trans with (pow2 1024 - pow2 970); [|exact Hy].
      unfold Qle; cbn; lia. }
    apply pow2_lt_inv in H. lia. }
  assert (Eq : q = (e - 52)%Z) by lia.
  rewrite (abs_scaled r (inject_Z m) (pow2 q) Pq) by reflexivity.
  rewrite Qabs_inject_Z. unfold infinity.
  destruct (Z.eq_dec e 1023) as [E|E].
  - (* the last binade: the significand rounds up to [2^53] *)
    assert (Q971 : q = 971%Z) by lia.
    assert (Ht53 : inject_Z (2 ^ 53) - (1 # 2) <= Qabs t).
    { apply (Qmult_le_r _ _ (pow2 q) Pq). rewrite <- Hat.
      apply Qle_trans with (pow2 1024 - pow2 970); [|exact Hy].
      rewrite Q971. unfold Qle; cbn; lia. }
    assert (Hm : (2 ^ 53 <= Z.abs m)%Z).
    { destruct (Qlt_le_dec t 0) as [L|L].
      - rewrite Qabs_neg in Ht53 by lra.
        assert (m <= - 2 ^ 53)%Z.
        { apply rne_even_le; [reflexivity|]. rewrite inject_Z_opp. lra. }
        lia.
      - rewrite Qabs_pos in Ht53 by lra.
        assert (2 ^ 53 <= m)%Z by (apply rne_even_ge; [reflexivity|exact Ht53]). lia. }
    apply Qle_trans with (inject_Z (2 ^ 53) * pow2 q).
    + rewrite Q971. unfold Qle; cbn; lia.
    + apply Qmult_le_compat_r; [|lra]. rewrite <- Zle_Qle. exact Hm.
  - assert (Ht52 : inject_Z (2 ^ 52) <= Qabs t).
    { apply (Qmult_le_r _ _ (pow2 q) Pq). rewrite <- Hat.
      rewrite <- (pow2_Z 52) by lia. rewrite <- pow2_plus.
      replace (52 + q)%Z with e by lia. exact He1. }
    assert (Hm : (2 ^ 52 <= Z.abs m)%Z).
    { destruct (Qlt_le_dec t 0) as [L|L].
      - rewrite Qabs_neg in Ht52 by lra.
        assert (m <= - 2 ^ 52)%Z by (apply rne_le; rewrite inject_Z_opp; lra). lia.
      - rewrite Qabs_pos in Ht52 by lra.
        assert (2 ^ 52 <= m)%Z by (apply rne_ge; exact Ht52). lia. }
    apply Qle_trans with (inject_Z (2 ^ 52) * pow2 q).
    + rewrite <- (pow2_Z 52) by lia. rewrite <- pow2_plus. apply pow2_le. lia.
    + apply Qmult_le_compat_r; [|lra]. rewrite <- Zle_Qle. exact Hm.
Qed.

(** A finite result is the rounded multiple of the unit in the last place. *)
Lemma fl_form (y : Q) :
  ~ y == 0 -> Qabs (fl y) < infinity ->
  fl y = inject_Z (rne (y / pow2 (ulp_exp y))) * pow2 (ulp_exp y).
Proof.
  intros E0 H. unfold fl in *.
  destruct (Qeq_bool y 0) eqn:E; [apply Qeq_bool_iff in E; contradiction|].
  cbv zeta in *.
  destruct (Qle_bool infinity
              (Qabs (inject_Z (rne (y / pow2 (ulp_exp y))) * pow2 (ulp_exp y)))) eqn:Ei;
    [exfalso|reflexivity].
  assert (Hi : 0 < infinity) by apply pow2_pos.
  destruct (Qle_bool 0 y); revert H.
  - rewrite Qabs_pos by lra. apply Qlt_irrefl.
  - rewrite Qabs_opp, Qabs_pos by lra. apply Qlt_irrefl.
Qed.

(** The significand of a finite result: at most [2^53], and of 53 bits
    unless the exponent is the least one. *)
Lemma fl_significand (y : Q) :
  ~ y == 0 -> Qabs (fl y) < infinity ->
  let q := ulp_exp y in
  let m := rne (y / pow2 q) in
  (-1074 <= q)%Z /\ (Z.abs m <= 2 ^ 53)%Z /\ (m <> 0%Z -> (q <= 971)%Z) /\
  (Z.abs m = (2 ^ 53)%Z -> (q <= 970)%Z) /\
  (q = (-1074)%Z \/ (2 ^ 52 <= Z.abs m)%Z).
Proof.
  intros E0 Hfin q m. rewrite (fl_form y E0 Hfin) in Hfin. fold q in Hfin. fold m in Hfin.
  set (t := y / pow2 q) in *. set (r := inject_Z m * pow2 q) in *.
  pose proof (pow2_pos q) as Pq.
  assert (Ht : y == t * pow2 q) by (unfold t; field; lra).
  pose proof (Qabs_pos_nonzero y E0) as Ha.
  set (e := ilog2 (Qabs y)).
  destruct (ilog2_spec (Qabs y) Ha) as [He1 He2]. fold e in He1, He2.
  assert (Hq : q = Z.max (e - 52) (-1074)) by reflexivity.
  assert (Hat : Qabs y == Qabs t * pow2 q) by (apply abs_scaled; assumption).
  assert (P52 : e = (q + 52)%Z -> inject_Z (2 ^ 52) * pow2 q == pow2 e).
  { intros ->. rewrite <- (pow2_Z 52) by lia. rewrite <- pow2_plus.
    now replace (52 + q)%Z with (q + 52)%Z by lia. }
  assert (Ht53 : Qabs t < pow2 53).
  { apply (Qmult_lt_r _ _ (pow2 q) Pq). rewrite <- Hat, <- pow2_plus.
    apply Qlt_le_trans with (pow2 (e + 1)); [exact He2|]. apply pow2_le. lia. }
  rewrite (pow2_Z 53) in Ht53 by lia.
  assert (Hm1 : (- 2 ^ 53 <= m)%Z).
  { apply rne_ge. rewrite inject_Z_opp.
    pose proof (Qle_Qabs (- t)) as H. rewrite Qabs_opp in H. lra. }
  assert (Hm2 : (m <= 2 ^ 53)%Z).
  { apply rne_le. pose proof (Qle_Qabs t) as H. lra. }
  assert (Hn : q = (-1074)%Z \/ (2 ^ 52 <= Z.abs m)%Z).
  { destruct (Z.eq_dec q (-1074)) as [Eq|Eq]; [left; exact Eq|right].
    assert (Ee : e = (q + 52)%Z) by lia.
    assert (Ht52 : inject_Z (2 ^ 52) <= Qabs t).
    { apply (Qmult_le_r _ _ (pow2 q) Pq). rewrite <- Hat, (P52 Ee). exact He1. }
    destruct (Qlt_le_dec t 0) as [L|L].
    - rewrite Qabs_neg in Ht52 by lra.
      assert (m <= - 2 ^ 52)%Z by (apply rne_le; rewrite inject_Z_opp; lra). lia.
    - rewrite Qabs_pos in Ht52 by lra.
      assert (2 ^ 52 <= m)%Z by (apply rne_ge; exact Ht52). lia. }
  assert (Hr : Qabs r == inject_Z (Z.abs m) * pow2 q).
  { rewrite (abs_scaled r (inject_Z m) (pow2 q) Pq) by reflexivity.
    rewrite Qabs_inject_Z. reflexivity. }
  split; [lia|]. split; [lia|]. split; [|split; [|exact Hn]].
  - intros Hm0. destruct (Z_le_gt_dec q 971) as [H|H]; [exact H|exfalso].
    assert (Hm52 : (2 ^ 52 <= Z.abs m)%Z) by (destruct Hn; [lia|assumption]).
    apply (Qlt_irrefl infinity). apply Qle_lt_trans with (Qabs r); [|exact Hfin].
    rewrite Hr. unfold infinity.
    apply Qle_trans with (inject_Z (2 ^ 52) * pow2 q).
    + rewrite <- (pow2_Z 52) by lia. rewrite <- pow2_plus. apply pow2_le. lia.
    + apply Qmult_le_compat_r; [|lra]. rewrite <- Zle_Qle. exact Hm52.
  - intros Hm. assert (H : pow2 (53 + q) < pow2 1024).
    { apply Qle_lt_trans with (Qabs r); [|exact Hfin].
      rewrite Hr, Hm, pow2_plus, (pow2_Z 53) by lia. apply Qle_refl. }
    apply pow2_lt_inv in H. lia.
Qed.

(** When another double is as near, the result has the even significand. *)
Lemma fl_tie (y d' : Q) :
  Qabs (fl y) < infinity -> nearest y d' -> ~ d' == fl y -> even_double (fl y).
Proof.
  intros Hfin [Rd Nd] Hne. destruct (fl_nearest y Hfin) as [Rr Nr].
  pose proof (Nd (fl y) Rr) as D1. pose proof (Nr d' Rd) as D2.
  destruct (Qeq_dec y 0) as [E0|E0].
  { exfalso. apply Hne.
    assert (F0 : fl y = 0).
    { unfold fl. apply Qeq_bool_iff in E0. rewrite E0. reflexivity. }
    rewrite F0 in *. revert D1. rewrite E0.
    setoid_replace (0 - 0) with 0 by ring. change (Qabs 0) with 0.
    setoid_replace (d' - 0) with d' by ring. intros D1.
    pose proof (Qabs_nonneg d') as N0. pose proof (Qle_Qabs d') as N1.
    pose proof (Qle_Qabs (- d')) as N2. rewrite Qabs_opp in N2. lra. }
  destruct (fl_significand y E0 Hfin) as (Hq0 & Hm53 & Hq971 & Hq970 & Hn).
  rewrite (fl_form y E0 Hfin) in *.
  set (q := ulp_exp y) in *. set (t := y / pow2 q) in *. set (m := rne t) in *.
  set (r := inject_Z m * pow2 q) in *.
  pose proof (pow2_pos q) as Pq.
  assert (Ht : y == t * pow2 q) by (unfold t; field; lra).
  pose proof (Qabs_pos_nonzero y E0) as Ha.
  set (e := ilog2 (Qabs y)).
  destruct (ilog2_spec (Qabs y) Ha) as [He1 He2]. fold e in He1, He2.
  assert (Hq : q = Z.max (e - 52) (-1074)) by reflexivity.
  assert (Err : forall k : Z, Qabs (r - y) <= Qabs (inject_Z k * pow2 q - y)).
  { intros k.
    rewrite (abs_scaled (r - y) (inject_Z m - t) (pow2 q) Pq)
      by (unfold r; rewrite Ht at 1; ring).
    rewrite (abs_scaled (inject_Z k * pow2 q - y) (inject_Z k - t) (pow2 q) Pq)
      by (rewrite Ht at 1; ring).
    apply Qmult_le_compat_r; [apply rne_nearest|lra]. }
  assert (P52 : e = (q + 52)%Z -> inject_Z (2 ^ 52) * pow2 q == pow2 e).
  { intros ->. rewrite <- (pow2_Z 52) by lia. rewrite <- pow2_plus.
    now replace (52 + q)%Z with (q + 52)%Z by lia. }
  destruct Rd as (m' & e' & Hm' & He' & Hd').
  destruct (Z_le_gt_dec q e') as [Hle|Hgt].
  - (* [d'] is a multiple of the unit in the last place *)
    set (k := (m' * 2 ^ (e' - q))%Z).
    assert (Hk : d' == inject_Z k * pow2 q).
    { rewrite Hd'. unfold k. rewrite inject_Z_mult, <- (pow2_Z (e' - q)) by lia.
      rewrite (pow2_split e' q). ring. }
    assert (Akt : Qabs (d' - y) == Qabs (inject_Z k - t) * pow2 q).
    { apply abs_scaled; [exact Pq|]. rewrite Hk. rewrite Ht at 1. ring. }
    assert (Amt : Qabs (r - y) == Qabs (inject_Z m - t) * pow2 q).
    { apply abs_scaled; [exact Pq|]. unfold r. rewrite Ht at 1. ring. }
    rewrite Akt, Amt in D1, D2.
    apply Qmult_le_r in D1; [|exact Pq]. apply Qmult_le_r in D2; [|exact Pq].
    assert (Hkm : k <> m).
    { intros E. apply Hne. rewrite Hk, E. reflexivity. }
    pose proof (rne_half t) as Hh. fold m in Hh.
    assert (Half : Qabs (inject_Z m - t) == 1 # 2).
    { pose proof (Qle_Qabs (inject_Z m - t)) as M1.
      pose proof (Qle_Qabs (- (inject_Z m - t))) as M2. rewrite Qabs_opp in M2.
      pose proof (Qle_Qabs (inject_Z k - t)) as K1.
      pose proof (Qle_Qabs (- (inject_Z k - t))) as K2. rewrite Qabs_opp in K2.
      assert (Hc : inject_Z k + 1 <= inject_Z m \/ inject_Z m + 1 <= inject_Z k).
      { change 1 with (inject_Z 1). rewrite <- !inject_Z_plus, <- !Zle_Qle. lia. }
      destruct Hc; lra. }
    apply rne_tie_even in Half. fold m in Half.
    destruct (Z.eq_dec m 0) as [Em|Em].
    { exists 0%Z, (-1074)%Z. split; [reflexivity|]. split; [lia|]. split; [left; reflexivity|].
      split; [reflexivity|]. unfold r. rewrite Em. ring. }
    destruct (Z_lt_ge_dec (Z.abs m) (2 ^ 53)) as [Hlt|Hge].
    { exists m, q. split; [exact Hlt|]. split; [split; [exact Hq0|exact (Hq971 Em)]|].
      split; [exact Hn|]. split; [exact Half|reflexivity]. }
    assert (Hm : Z.abs m = (2 ^ 53)%Z) by lia.
    assert (Hc : (m = 2 ^ 53 \/ m = - 2 ^ 53)%Z) by lia.
    specialize (Hq970 Hm).
    exists (m / 2)%Z, (q + 1)%Z.
    assert (Em2 : m = (2 * (m / 2))%Z) by (destruct Hc as [Hc|Hc]; rewrite Hc; reflexivity).
    split; [destruct Hc as [Hc|Hc]; rewrite Hc; reflexivity|].
    split; [lia|].
    split; [right; destruct Hc as [Hc|Hc]; rewrite Hc; discriminate|].
    split; [destruct Hc as [Hc|Hc]; rewrite Hc; reflexivity|].
    unfold r. rewrite Em2 at 1. rewrite inject_Z_mult, pow2_plus.
    change (pow2 1) with 2. change (inject_Z 2) with 2. ring.
  - (* [d'] is below [2^e] in absolute value, hence farther *)
    exfalso. assert (Eq : e = (q + 52)%Z) by lia.
    assert (Hd53 : Qabs d' < pow2 e).
    { rewrite (abs_scaled d' (inject_Z m') (pow2 e') (pow2_pos e') Hd').
      rewrite Qabs_inject_Z.
      apply Qlt_le_trans with (inject_Z (2 ^ 53) * pow2 e').
      - apply Qmult_lt_compat_r; [apply pow2_pos|]. rewrite <- Zlt_Qlt. exact Hm'.
      - rewrite <- (pow2_Z 53) by lia. rewrite <- pow2_plus. apply pow2_le. lia. }
    pose proof (Qabs_triangle_reverse y d') as Tr. rewrite Qabs_Qminus in Tr.
    destruct (Qlt_le_dec y 0) as [L|L].
    + pose proof (Err (- 2 ^ 52)%Z) as B. revert B.
      rewrite inject_Z_opp.
      setoid_replace (- inject_Z (2 ^ 52) * pow2 q - y) with (- pow2 e - y)
        by (rewrite <- (P52 Eq); ring).
      rewrite Qabs_neg in He1 by lra. rewrite Qabs_neg in Tr by lra.
      rewrite (Qabs_pos (- pow2 e - y)) by lra. intros B. lra.
    + pose proof (Err (2 ^ 52)%Z) as B. revert B.
      rewrite (P52 Eq).
      rewrite Qabs_pos in He1 by lra. rewrite Qabs_pos in Tr by lra.
      rewrite (Qabs_neg (pow2 e - y)) by lra. intros B. lra.
Qed.

(** [fl] rounds as IEEE-754 asks. *)
Theorem fl_rounds (y : Q) : rounds y (fl y).
Proof.
  assert (T0 : 0 < overflow_threshold) by reflexivity.
  split; [|split].
  - intros Hy. pose proof (fl_finite y Hy) as Hfin.
    split; [apply fl_nearest; exact Hfin|].
    intros d' Hd' Hne. apply (fl_tie y d' Hfin Hd' Hne).
  - intros Hy. rewrite fl_overflow by (rewrite Qabs_pos by lra; exact Hy).
    assert (H : Qle_bool 0 y = true) by (apply Qle_bool_iff; lra).
    rewrite H. reflexivity.
  - intros Hy. rewrite fl_overflow by (rewrite Qabs_neg by lra; lra).
    assert (H : Qle_bool 0 y = false).
    { destruct (Qle_bool 0 y) eqn:E; [|reflexivity].
      apply Qle_bool_iff in E. lra. }
    rewrite H. reflexivity.
Qed.

End DoubleFacts.

(** ** The method monad *)

Section MonadLaws.
Context {S : Type}.

Lemma bind_get {B} (k : S -> M S B) (s : S) : bind get k s = k s s.
Proof. unfold bind, get. destruct (k s s) as [[r s2] e2]. reflexivity. Qed.

Lemma bind_modify {B} (f : S -> S) (k : unit -> M S B) (s : S) :
  bind (modify f) k s = k tt (f s).
Proof. unfold bind, modify. destruct (k tt (f s)) as [[r s2] e2]. reflexivity. Qed.

Lemma bind_ret {A B} (a : A) (k : A -> M S B) (s : S) : bind (ret a) k s = k a s.
Proof. unfold bind, ret. destruct (k a s) as [[r s2] e2]. reflexivity. Qed.

Lemma bind_throw {A B} (e : JsError) (k : A -> M S B) (s : S) :
  bind (throw e) k s = (Throw e, s, []).
Proof. reflexivity. Qed.

Lemma bind_emit {B} (e : Effect) (k : unit -> M S B) (s : S) :
  bind (emit e) k s =
  (completion (k tt s), state_of (k tt s), e :: effects (k tt s)).
Proof. unfold bind, emit. destruct (k tt s) as [[r s2] e2]. reflexivity. Qed.

Lemma bind_assoc {A B C} (m : M S A) (k : A -> M S B) (h : B -> M S C) (s : S) :
  bind (bind m k) h s = bind m (fun a => bind (k a) h) s.
Proof.
  unfold bind. destruct (m s) as [[[a|e] s1] e1]; [|reflexivity].
  destruct (k a s1) as [[[b|e] s2] e2]; [|reflexivity].
  destruct (h b s2) as [[r s3] e3]. rewrite app_assoc. reflexivity.
Qed.

Lemma bind_pure {A B} (m : M S A) (k : A -> M S B) (s s1 : S) (a : A) :
  m s = (Normal a, s1, []) -> bind m k s = k a s1.
Proof. intros E. unfold bind. rewrite E. destruct (k a s1) as [[r s2] e2]. reflexivity. Qed.

Lemma bind_emit_det {B} (e : Effect) (k : unit -> M S B) (s s' : S)
    (r : Completion B) (es : list Effect) :
  k tt s = (r, s', es) -> bind (emit e) k s = (r, s', e :: es).
Proof. intros E. unfold bind, emit. rewrite E. reflexivity. Qed.

Lemma bind_det {A B} (m : M S A) (k : A -> M S B) (s s1 : S) (a : A)
    (e1 : list Effect) :
  m s = (Normal a, s1, e1) ->
  bind m k s = (completion (k a s1), state_of (k a s1), e1 ++ effects (k a s1)).
Proof.
  intros E. unfold bind. rewrite E. destruct (k a s1) as [[r s2] e2]. reflexivity.
Qed.
End MonadLaws.

(** ** Closed forms of the RoomsCarousel methods *)

Module RoomsFacts.
Import RoomsCarousel.

Lemma updateUI_eq (s : t) :
  updateUI s = (Normal tt, rendered s, [UpdateUI (currentIndex s)]).
Proof.
  destruct s as [c la ra dc ci tr sc mo sw].
  destruct la, ra, dc; reflexivity.
Qed.

Lemma updateCarousel_eq (s : t) (l : Layout) (w : Z) (tl : list Z) :
  carousel s = Some l -> cards l = w :: tl ->
  updateCarousel s =
  (Normal tt, rendered (set_isScrolling true s),
   [ScrollTo ((w + gap) * currentIndex s); UpdateUI (currentIndex s); SetTimeout 500]).
Proof.
  intros Hc Hw. unfold updateCarousel.
  rewrite bind_modify, bind_get. cbn [carousel set_isScrolling].
  rewrite Hc. cbn [the_carousel]. rewrite bind_ret.
  unfold first_offsetWidth. rewrite Hw, bind_ret.
  rewrite bind_emit. unfold bind. rewrite updateUI_eq. cbn.
  destruct (isMobile s); reflexivity.
Qed.

(** With no card to measure, [updateCarousel] has already set the flag
    when the read of [cards[0].offsetWidth] throws. *)
Lemma updateCarousel_throws (s : t) (l : Layout) :
  carousel s = Some l -> cards l = [] ->
  updateCarousel s = (Throw TypeError, set_isScrolling true s, []).
Proof.
  intros Hc Hw. unfold updateCarousel.
  rewrite bind_modify, bind_get. cbn [carousel set_isScrolling].
  rewrite Hc. cbn [the_carousel]. rewrite bind_ret.
  unfold first_offsetWidth. rewrite Hw. reflexivity.
Qed.

Lemma goToNext_eq (s : t) :
  goToNext s =
  if currentIndex s <? maxIndex s
  then updateCarousel (set_currentIndex (currentIndex s + 1) s)
  else (Normal tt, s, []).
Proof.
  unfold goToNext. rewrite bind_get.
  destruct (currentIndex s <? maxIndex s); [|reflexivity].
  apply bind_modify.
Qed.

Lemma goToPrevious_eq (s : t) :
  goToPrevious s =
  if currentIndex s >? 0
  then updateCarousel (set_currentIndex (currentIndex s - 1) s)
  else (Normal tt, s, []).
Proof.
  unfold goToPrevious. rewrite bind_get.
  destruct (currentIndex s >? 0); [|reflexivity].
  apply bind_modify.
Qed.

Lemma goToSlide_eq (i : Z) (s : t) :
  goToSlide i s = updateCarousel (set_currentIndex i s).
Proof. unfold goToSlide. apply bind_modify. Qed.

Lemma syncWithScroll_eq (s : t) (l : Layout) (w : Z) (tl : list Z) :
  carousel s = Some l -> cards l = w :: tl ->
  syncWithScroll s =
  if isScrolling s then (Normal tt, s, [])
  else if scrollIndex s l w =? currentIndex s then (Normal tt, s, [])
  else (Normal tt, rendered (set_currentIndex (scrollIndex s l w) s),
        [UpdateUI (scrollIndex s l w)]).
Proof.
  intros Hc Hw. unfold syncWithScroll. rewrite bind_get.
  destruct (isScrolling s); [reflexivity|].
  rewrite Hc. cbn [the_carousel]. rewrite bind_ret.
  unfold first_offsetWidth. rewrite Hw, bind_ret.
  destruct (scrollIndex s l w =? currentIndex s); cbn [negb]; [reflexivity|].
  rewrite bind_modify, updateUI_eq. reflexivity.
Qed.

Lemma syncWithScroll_throws (s : t) (l : Layout) :
  carousel s = Some l -> cards l = [] -> isScrolling s = false ->
  syncWithScroll s = (Throw TypeError, s, []).
Proof.
  intros Hc Hw Hs. unfold syncWithScroll. rewrite bind_get, Hs, Hc.
  cbn [the_carousel]. rewrite bind_ret.
  unfold first_offsetWidth. rewrite Hw. reflexivity.
Qed.

Lemma slide_forEach_dot (cur from : Z) (ds : list Dot) :
  map slide (forEach_dot cur from ds) = map slide ds.
Proof.
  revert from. induction ds as [|d ds IH]; intros from; cbn; [reflexivity|].
  now rewrite IH.
Qed.



Lemma slide_new_dots (n : Z) :
  map slide (new_dots n) = map Z.of_nat (seq 0 (Z.to_nat n)).
Proof. unfold new_dots. rewrite map_map. reflexivity. Qed.

End RoomsFacts.

(** ** The rooms instance stays well formed *)

Module RoomsInvariant.
Import RoomsCarousel Invariants RoomsFacts.

(** [rooms_ok] only reads the container, the count, the mode, the
    indices of the dots and the current index. *)
Lemma rooms_ok_ext (s s' : t) :
  carousel s' = carousel s -> totalRooms s' = totalRooms s ->
  isMobile s' = isMobile s ->
  option_map (map slide) (dotsContainer s') = option_map (map slide) (dotsContainer s) ->
  0 <= currentIndex s' <= maxIndex s ->
  rooms_ok s -> rooms_ok s'.
Proof.
  intros Hc Ht Hm Hd Hi (Ha & Hn & (ds & Hds & Hsl) & _).
  assert (Hmax : maxIndex s' = maxIndex s) by (unfold maxIndex; now rewrite Hm, Ht).
  assert (Hnd : numDots s' = numDots s) by (unfold numDots; now rewrite Hm, Ht).
  split; [|split; [|split]].
  - unfold rooms_attached. now rewrite Hc.
  - now rewrite Ht.
  - rewrite Hds in Hd. destruct (dotsContainer s') as [ds'|] eqn:E; [|discriminate].
    unfold dots_built. rewrite E. exists ds'. split; [reflexivity|].
    cbn in Hd. injection Hd as Hd. now rewrite Hd, Hnd.
  - unfold rooms_in_range. rewrite Hmax. lia.
Qed.

Lemma rendered_dots (s : t) :
  option_map (map slide) (dotsContainer (rendered s))
  = option_map (map slide) (dotsContainer s).
Proof.
  cbn. destruct (dotsContainer s) as [ds|]; cbn; [|reflexivity].
  now rewrite slide_forEach_dot.
Qed.

(** Moving to an index in range and running [updateCarousel]. *)
Lemma goto_ok (s : t) (i : Z) :
  rooms_ok s -> 0 <= i <= maxIndex s ->
  rooms_ok (state_of (updateCarousel (set_currentIndex i s))).
Proof.
  intros Hok Hi. pose proof Hok as ((l & Hl & Hne) & _).
  destruct (cards l) as [|w tl] eqn:Hw; [congruence|].
  rewrite (updateCarousel_eq (set_currentIndex i s) l w tl Hl Hw).
  cbn [state_of fst snd].
  apply (rooms_ok_ext s); try reflexivity;
    [rewrite rendered_dots; reflexivity | exact Hi | exact Hok].
Qed.

Lemma keeps_goToNext : keeps rooms_ok goToNext.
Proof.
  intros s Hok. rewrite goToNext_eq.
  destruct (Z.ltb_spec (currentIndex s) (maxIndex s)); [|exact Hok].
  apply goto_ok; [exact Hok|]. destruct Hok as (_ & _ & _ & Hr).
  unfold rooms_in_range in Hr. lia.
Qed.

Lemma keeps_goToPrevious : keeps rooms_ok goToPrevious.
Proof.
  intros s Hok. rewrite goToPrevious_eq.
  destruct (Z.gtb_spec (currentIndex s) 0); [|exact Hok].
  apply goto_ok; [exact Hok|]. destruct Hok as (_ & _ & _ & Hr).
  unfold rooms_in_range in Hr. lia.
Qed.

Lemma scrollIndex_range (s : t) (l : Layout) (w : Z) :
  2 <= totalRooms s -> 0 <= scrollIndex s l w <= maxIndex s.
Proof.
  intros Hn. unfold scrollIndex, maxIndex, Math.max, Math.min.
  destruct (isMobile s); [lia|].
  destruct (scrollWidth l - clientWidth l >? 0); lia.
Qed.

Lemma keeps_syncWithScroll : keeps rooms_ok syncWithScroll.
Proof.
  intros s Hok. pose proof Hok as ((l & Hl & Hne) & Hn & _).
  destruct (cards l) as [|w tl] eqn:Hw; [congruence|].
  rewrite (syncWithScroll_eq _ l w tl Hl Hw).
  destruct (isScrolling s); [exact Hok|].
  destruct (scrollIndex s l w =? currentIndex s); [exact Hok|].
  cbn [state_of fst snd].
  apply (rooms_ok_ext s); try reflexivity;
    [rewrite rendered_dots; reflexivity | apply scrollIndex_range; exact Hn | exact Hok].
Qed.

Lemma set_swipe_ok (g : Swipe) (s : t) : rooms_ok s -> rooms_ok (set_swipe g s).
Proof.
  intros Hok. apply (rooms_ok_ext s); try reflexivity; [|exact Hok].
  destruct Hok as (_ & _ & _ & Hr). exact Hr.
Qed.

Lemma keeps_on_touchstart (x y : Q) : keeps rooms_ok (on_touchstart x y).
Proof.
  intros s Hok. unfold on_touchstart. rewrite bind_get.
  cbn. now apply set_swipe_ok.
Qed.

Lemma keeps_on_touchmove (x y : Q) (c : bool) : keeps rooms_ok (on_touchmove x y c).
Proof.
  intros s Hok. unfold on_touchmove. rewrite bind_get.
  destruct (touchmove x y c (swipe s)) as [g prevented].
  rewrite bind_modify. destruct prevented; cbn; now apply set_swipe_ok.
Qed.

Lemma keeps_then_reset (m : M t unit) :
  keeps rooms_ok m ->
  keeps rooms_ok (m ;; s' <- get ;; modify (set_swipe (touchend_reset (swipe s')))).
Proof.
  intros Hm s Hok. specialize (Hm s Hok). unfold bind at 1.
  destruct (m s) as [[[[]|e] s1] e1]; cbn [state_of fst snd] in *; [|exact Hm].
  rewrite bind_get. cbn. now apply set_swipe_ok.
Qed.

Lemma keeps_ret : keeps rooms_ok (ret tt).
Proof. intros s Hok. exact Hok. Qed.

Lemma keeps_on_touchend (x : Q) : keeps rooms_ok (on_touchend x).
Proof.
  intros s Hok. unfold on_touchend. rewrite bind_get.
  apply keeps_then_reset; [|exact Hok].
  destruct (touchend_verdict x (swipe s));
    [apply keeps_goToNext | apply keeps_goToPrevious | apply keeps_ret].
Qed.

Lemma keeps_after_emit (e : Effect) (m : M t unit) :
  keeps rooms_ok m -> keeps rooms_ok (emit e ;; m).
Proof. intros Hm s Hok. rewrite bind_emit. cbn. now apply Hm. Qed.

Lemma keeps_on_keydown (w : Window) (k : Key) : keeps rooms_ok (on_keydown w k).
Proof.
  intros s Hok. pose proof Hok as ((l & Hl & _) & _).
  unfold on_keydown. rewrite bind_get, Hl. cbn [the_carousel]. rewrite bind_ret.
  destruct (negb _); [exact Hok|].
  destruct k; [apply keeps_after_emit; [apply keeps_goToPrevious|]
              | apply keeps_after_emit; [apply keeps_goToNext|] | ]; exact Hok.
Qed.

Lemma keeps_settle : keeps rooms_ok settle.
Proof.
  intros s Hok. cbn. apply (rooms_ok_ext s); try reflexivity; [|exact Hok].
  destruct Hok as (_ & _ & _ & Hr). exact Hr.
Qed.

End RoomsInvariant.

Module RoomsSetup.
Import RoomsCarousel Invariants RoomsFacts RoomsInvariant.

(** With two rooms or more there is one dot per index up to [maxIndex]. *)
Lemma numDots_maxIndex (s : t) :
  2 <= totalRooms s -> numDots s = maxIndex s + 1.
Proof.
  intros Hn. unfold numDots, maxIndex, Math.max. destruct (isMobile s); lia.
Qed.

Lemma dot_slide (s : t) (ds : list Dot) (j : nat) (d : Dot) :
  dots_built s -> dotsContainer s = Some ds -> nth_error ds j = Some d ->
  slide d = Z.of_nat j /\ Z.of_nat j < numDots s.
Proof.
  intros (ds' & Hds' & Hsl) Hds Hj. rewrite Hds in Hds'. injection Hds' as <-.
  assert (E : nth_error (map slide ds) j = Some (slide d))
    by (rewrite nth_error_map, Hj; reflexivity).
  rewrite Hsl, nth_error_map, nth_error_seq in E.
  destruct (Nat.ltb_spec j (Z.to_nat (numDots s))) as [Hlt|Hge]; [|discriminate].
  cbn in E. injection E as E. split; [now symmetry | lia].
Qed.

Lemma keeps_dot_click (j : nat) : keeps rooms_ok (dot_click j).
Proof.
  intros s Hok. unfold dot_click. rewrite bind_get.
  destruct (dotsContainer s) as [ds|] eqn:Hds; [|exact Hok].
  destruct (nth_error ds j) as [d|] eqn:Hj; [|exact Hok].
  rewrite goToSlide_eq. apply goto_ok; [exact Hok|].
  destruct Hok as (_ & Hn & Hb & _).
  destruct (dot_slide s ds j d Hb Hds Hj) as [-> Hlt].
  rewrite (numDots_maxIndex s Hn) in Hlt. lia.
Qed.

Lemma createDots_eq (s : t) :
  createDots s =
  (Normal tt,
   match dotsContainer s with
   | Some ds => set_dotsContainer (Some (ds ++ new_dots (numDots s))) s
   | None => s
   end,
   match dotsContainer s with
   | Some ds => dot_listeners (length ds) (numDots s)
   | None => []
   end).
Proof.
  unfold createDots. rewrite bind_get. destruct (dotsContainer s); reflexivity.
Qed.

Lemma on_resize_eq (w : Window) (s : t) (l : Layout) (cw : Z) (tl : list Z) (ds : list Dot) :
  carousel s = Some l -> cards l = cw :: tl -> dotsContainer s = Some ds ->
  on_resize w s =
  if Bool.eqb (isMobile s) (innerWidth w <=? 768)
  then (Normal tt, set_isMobile (innerWidth w <=? 768) s, [])
  else (Normal tt, remade (innerWidth w <=? 768) s,
        dot_listeners 0 (numDots (set_isMobile (innerWidth w <=? 768) s))
          ++ [ScrollTo ((cw + gap) * 0); UpdateUI 0; SetTimeout 500]).
Proof.
  intros Hc Hw Hd. unfold on_resize. rewrite bind_get, bind_modify, bind_get.
  cbn [isMobile set_isMobile].
  destruct (Bool.eqb (isMobile s) (innerWidth w <=? 768)); cbn [negb]; [reflexivity|].
  cbn [dotsContainer set_isMobile]. rewrite Hd, bind_modify.
  rewrite (bind_det _ _ _ _ _ _ (createDots_eq _)).
  cbn [dotsContainer set_dotsContainer app length]. rewrite bind_modify.
  erewrite updateCarousel_eq; [|exact Hc|exact Hw]. reflexivity.
Qed.

Lemma keeps_on_resize (w : Window) : keeps rooms_ok (on_resize w).
Proof.
  intros s Hok. pose proof Hok as ((l & Hl & Hne) & Hn & (ds & Hds & Hsl) & Hr).
  destruct (cards l) as [|cw tl] eqn:Hw; [congruence|].
  rewrite (on_resize_eq w s l cw tl ds Hl Hw Hds).
  destruct (Bool.eqb (isMobile s) (innerWidth w <=? 768)) eqn:E; cbn [state_of fst snd].
  - apply eqb_prop in E.
    apply (rooms_ok_ext s); try reflexivity; [now cbn | exact Hr | exact Hok].
  - split; [|split; [|split]].
    + exists l. split; [exact Hl | congruence].
    + exact Hn.
    + eexists. split; [reflexivity|]. cbn.
      rewrite slide_forEach_dot, slide_new_dots. reflexivity.
    + unfold rooms_in_range, maxIndex. cbn.
      destruct (innerWidth w <=? 768); lia.
Qed.

Lemma keeps_listener (w : Window) (tgt : Target) (e : Event) :
  keeps rooms_ok (listener w tgt e).
Proof.
  destruct tgt, e; cbn [listener];
    first [ apply keeps_ret | apply keeps_goToPrevious | apply keeps_goToNext
          | apply keeps_syncWithScroll | apply keeps_on_touchstart
          | apply keeps_on_touchmove | apply keeps_on_touchend
          | apply keeps_on_keydown | apply keeps_on_resize
          | apply keeps_dot_click ].
Qed.

Lemma relayout_ok (l : Layout) (s : t) :
  cards l <> [] -> rooms_ok s -> rooms_ok (relayout l s).
Proof.
  intros Hne ((l0 & Hl0 & _) & Hn & Hb & Hr).
  split; [|split; [|split]]; try assumption.
  exists l. cbn. rewrite Hl0. split; [reflexivity | exact Hne].
Qed.

Lemma addSwipeSupport_eq (s : t) (l : Layout) :
  carousel s = Some l ->
  addSwipeSupport s =
  (Normal tt, s, [AddEventListener RoomsCarouselEl TTouchStart;
                  AddEventListener RoomsCarouselEl TTouchMove;
                  AddEventListener RoomsCarouselEl TTouchEnd]).
Proof.
  intros Hc. unfold addSwipeSupport. rewrite bind_get, Hc. reflexivity.
Qed.

(** [init] on a container that holds a card. *)
Lemma init_eq (s : t) (l : Layout) (cw : Z) (tl : list Z) :
  carousel s = Some l -> cards l = cw :: tl ->
  let s1 := set_totalRooms (count_cards l) s in
  let s2 := match dotsContainer s1 with
            | Some ds => set_dotsContainer (Some (ds ++ new_dots (numDots s1))) s1
            | None => s1
            end in
  init s =
  (Normal tt, rendered (set_isScrolling true s2),
   match dotsContainer s with
   | Some ds => dot_listeners (length ds) (numDots s1)
   | None => []
   end
    ++ (if present (leftArrow s) then [AddEventListener RoomsLeftArrow TClick] else [])
    ++ (if present (rightArrow s) then [AddEventListener RoomsRightArrow TClick] else [])
    ++ [AddEventListener RoomsCarouselEl TScroll;
        AddEventListener RoomsCarouselEl TTouchStart;
        AddEventListener RoomsCarouselEl TTouchMove;
        AddEventListener RoomsCarouselEl TTouchEnd;
        AddEventListener Document TKeyDown;
        AddEventListener WindowObj TResize;
        ScrollTo ((cw + gap) * currentIndex s);
        UpdateUI (currentIndex s); SetTimeout 500]).
Proof.
  intros Hc Hw s1 s2. unfold init. rewrite bind_get, Hc, bind_modify.
  rewrite (bind_det _ _ _ _ _ _ (createDots_eq _)). fold s1. fold s2.
  change (dotsContainer s1) with (dotsContainer s).
  assert (Hc2 : carousel s2 = Some l)
    by (subst s2 s1; cbn; destruct (dotsContainer s); exact Hc).
  assert (Hi2 : currentIndex s2 = currentIndex s)
    by (subst s2 s1; cbn; destruct (dotsContainer s); reflexivity).
  assert (E :
    (addSwipeSupport ;; addKeyboardSupport ;;
     emit (AddEventListener WindowObj TResize) ;; updateCarousel) s2
    = (Normal tt, rendered (set_isScrolling true s2),
       [AddEventListener RoomsCarouselEl TTouchStart;
        AddEventListener RoomsCarouselEl TTouchMove;
        AddEventListener RoomsCarouselEl TTouchEnd;
        AddEventListener Document TKeyDown;
        AddEventListener WindowObj TResize;
        ScrollTo ((cw + gap) * currentIndex s);
        UpdateUI (currentIndex s); SetTimeout 500])).
  { rewrite (bind_det _ _ _ _ _ _ (addSwipeSupport_eq s2 l Hc2)).
    unfold addKeyboardSupport.
    cbn beta.
    erewrite bind_emit_det;
      [|erewrite bind_emit_det; [|exact (updateCarousel_eq s2 l cw tl Hc2 Hw)];
        reflexivity].
    rewrite Hi2. reflexivity. }
  assert (F :
    (when (present (leftArrow s)) (emit (AddEventListener RoomsLeftArrow TClick)) ;;
     when (present (rightArrow s)) (emit (AddEventListener RoomsRightArrow TClick)) ;;
     emit (AddEventListener RoomsCarouselEl TScroll) ;;
     addSwipeSupport ;; addKeyboardSupport ;;
     emit (AddEventListener WindowObj TResize) ;; updateCarousel) s2
    = (Normal tt, rendered (set_isScrolling true s2),
       (if present (leftArrow s) then [AddEventListener RoomsLeftArrow TClick] else [])
       ++ (if present (rightArrow s) then [AddEventListener RoomsRightArrow TClick] else [])
       ++ [AddEventListener RoomsCarouselEl TScroll;
           AddEventListener RoomsCarouselEl TTouchStart;
           AddEventListener RoomsCarouselEl TTouchMove;
           AddEventListener RoomsCarouselEl TTouchEnd;
           AddEventListener Document TKeyDown;
           AddEventListener WindowObj TResize;
           ScrollTo ((cw + gap) * currentIndex s);
           UpdateUI (currentIndex s); SetTimeout 500])).
  { destruct (leftArrow s), (rightArrow s); cbn [present when app];
      repeat first [apply bind_emit_det | rewrite bind_ret; cbn beta]; exact E. }
  rewrite F. reflexivity.
Qed.

End RoomsSetup.

(** ** Closed forms of the AmenitiesCarousel methods *)

Module AmenitiesFacts.
Import AmenitiesCarousel Invariants.

Lemma amenities_updateUI_eq (s : t) :
  updateUI s = (Normal tt, rendered s, [UpdateUI (currentIndex s)]).
Proof.
  destruct s as [c la ra ci tc sc mo sw]. destruct la, ra; reflexivity.
Qed.

Lemma amenities_updateCarousel_eq (s : t) (l : Layout) (w : Z) (tl : list Z) :
  carousel s = Some l -> cards l = w :: tl ->
  updateCarousel s =
  (Normal tt, rendered (set_isScrolling true s),
   [ScrollTo ((w + gap) * currentIndex s); UpdateUI (currentIndex s); SetTimeout 500]).
Proof.
  intros Hc Hw. unfold updateCarousel.
  rewrite bind_modify, bind_get. cbn [carousel set_isScrolling].
  rewrite Hc. cbn [the_carousel]. rewrite bind_ret.
  unfold first_offsetWidth. rewrite Hw, bind_ret.
  rewrite bind_emit. unfold bind. rewrite amenities_updateUI_eq. cbn.
  destruct (isMobile s); reflexivity.
Qed.

Lemma amenities_updateCarousel_throws (s : t) (l : Layout) :
  carousel s = Some l -> cards l = [] ->
  updateCarousel s = (Throw TypeError, set_isScrolling true s, []).
Proof.
  intros Hc Hw. unfold updateCarousel.
  rewrite bind_modify, bind_get. cbn [carousel set_isScrolling].
  rewrite Hc. cbn [the_carousel]. rewrite bind_ret.
  unfold first_offsetWidth. rewrite Hw. reflexivity.
Qed.

Lemma amenities_goToNext_eq (s : t) :
  goToNext s =
  if currentIndex s <? maxIndex s
  then updateCarousel (set_currentIndex (currentIndex s + 1) s)
  else (Normal tt, s, []).
Proof.
  unfold goToNext. rewrite bind_get.
  destruct (currentIndex s <? maxIndex s); [|reflexivity].
  apply bind_modify.
Qed.

Lemma amenities_goToPrevious_eq (s : t) :
  goToPrevious s =
  if currentIndex s >? 0
  then updateCarousel (set_currentIndex (currentIndex s - 1) s)
  else (Normal tt, s, []).
Proof.
  unfold goToPrevious. rewrite bind_get.
  destruct (currentIndex s >? 0); [|reflexivity].
  apply bind_modify.
Qed.

(** In the wide layout [syncWithScroll] measures no card. *)
Lemma syncWithScroll_desktop (s : t) (l : Layout) :
  carousel s = Some l -> isMobile s = false ->
  syncWithScroll s =
  if isScrolling s then (Normal tt, s, [])
  else if scrollIndex_desktop s l =? currentIndex s then (Normal tt, s, [])
  else (Normal tt, rendered (set_currentIndex (scrollIndex_desktop s l) s),
        [UpdateUI (scrollIndex_desktop s l)]).
Proof.
  intros Hc Hm. unfold syncWithScroll. rewrite bind_get.
  destruct (isScrolling s); [reflexivity|].
  rewrite Hc. cbn [the_carousel]. rewrite (bind_ret l), Hm. cbv iota.
  rewrite bind_ret.
  destruct (scrollIndex_desktop s l =? currentIndex s); cbn [negb]; [reflexivity|].
  rewrite bind_modify, amenities_updateUI_eq. reflexivity.
Qed.

Lemma syncWithScroll_mobile (s : t) (l : Layout) (w : Z) (tl : list Z) :
  carousel s = Some l -> cards l = w :: tl -> isMobile s = true ->
  syncWithScroll s =
  if isScrolling s then (Normal tt, s, [])
  else if scrollIndex_mobile s l w =? currentIndex s then (Normal tt, s, [])
  else (Normal tt, rendered (set_currentIndex (scrollIndex_mobile s l w) s),
        [UpdateUI (scrollIndex_mobile s l w)]).
Proof.
  intros Hc Hw Hm. unfold syncWithScroll. rewrite bind_get.
  destruct (isScrolling s); [reflexivity|].
  rewrite Hc. cbn [the_carousel]. rewrite (bind_ret l), Hm. cbv iota.
  unfold first_offsetWidth. rewrite Hw. cbv iota.
  rewrite bind_assoc, (bind_ret w), bind_ret.
  destruct (scrollIndex_mobile s l w =? currentIndex s); cbn [negb]; [reflexivity|].
  rewrite bind_modify, amenities_updateUI_eq. reflexivity.
Qed.

Lemma amenities_syncWithScroll_throws (s : t) (l : Layout) :
  carousel s = Some l -> cards l = [] -> isMobile s = true ->
  isScrolling s = false ->
  syncWithScroll s = (Throw TypeError, s, []).
Proof.
  intros Hc Hw Hm Hs. unfold syncWithScroll. rewrite bind_get, Hs, Hc.
  cbn [the_carousel]. rewrite (bind_ret l), Hm. cbv iota.
  unfold first_offsetWidth. rewrite Hw. cbv iota.
  rewrite bind_assoc. reflexivity.
Qed.

Lemma amenities_ok_ext (s s' : t) :
  carousel s' = carousel s -> totalCards s' = totalCards s ->
  isMobile s' = isMobile s ->
  0 <= currentIndex s' <= maxIndex s ->
  amenities_ok s -> amenities_ok s'.
Proof.
  intros Hc Ht Hm Hi (Ha & Hn & _).
  assert (Hmax : maxIndex s' = maxIndex s) by (unfold maxIndex; now rewrite Hm, Ht).
  split; [|split].
  - unfold amenities_attached. now rewrite Hc.
  - now rewrite Ht.
  - unfold amenities_in_range. rewrite Hmax. lia.
Qed.

Lemma amenities_goto_ok (s : t) (i : Z) :
  amenities_ok s -> 0 <= i <= maxIndex s ->
  amenities_ok (state_of (updateCarousel (set_currentIndex i s))).
Proof.
  intros Hok Hi. pose proof Hok as ((l & Hl & Hne) & _).
  destruct (cards l) as [|w tl] eqn:Hw; [congruence|].
  rewrite (amenities_updateCarousel_eq (set_currentIndex i s) l w tl Hl Hw).
  cbn [state_of fst snd].
  apply (amenities_ok_ext s); try reflexivity; [exact Hi | exact Hok].
Qed.

Lemma amenities_keeps_goToNext : keeps amenities_ok goToNext.
Proof.
  intros s Hok. rewrite amenities_goToNext_eq.
  destruct (Z.ltb_spec (currentIndex s) (maxIndex s)); [|exact Hok].
  apply amenities_goto_ok; [exact Hok|]. destruct Hok as (_ & _ & Hr).
  unfold amenities_in_range in Hr. lia.
Qed.

Lemma amenities_keeps_goToPrevious : keeps amenities_ok goToPrevious.
Proof.
  intros s Hok. rewrite amenities_goToPrevious_eq.
  destruct (Z.gtb_spec (currentIndex s) 0); [|exact Hok].
  apply amenities_goto_ok; [exact Hok|]. destruct Hok as (_ & _ & Hr).
  unfold amenities_in_range in Hr. lia.
Qed.

Lemma amenities_keeps_syncWithScroll : keeps amenities_ok syncWithScroll.
Proof.
  intros s Hok. pose proof Hok as ((l & Hl & Hne) & Hn & _).
  destruct (cards l) as [|w tl] eqn:Hw; [congruence|].
  destruct (isMobile s) eqn:Hm.
  - rewrite (syncWithScroll_mobile _ l w tl Hl Hw Hm).
    destruct (isScrolling s); [exact Hok|].
    destruct (_ =? _); [exact Hok|]. cbn [state_of fst snd].
    apply (amenities_ok_ext s); try reflexivity; [|exact Hok].
    cbn [currentIndex rendered set_currentIndex].
    unfold scrollIndex_mobile, maxIndex, Math.max, Math.min. rewrite Hm. lia.
  - rewrite (syncWithScroll_desktop _ l Hl Hm).
    destruct (isScrolling s); [exact Hok|].
    destruct (_ =? _); [exact Hok|]. cbn [state_of fst snd].
    apply (amenities_ok_ext s); try reflexivity; [|exact Hok].
    cbn [currentIndex rendered set_currentIndex].
    unfold scrollIndex_desktop, maxIndex, Math.max, Math.min. rewrite Hm.
    destruct (_ >? 0); lia.
Qed.

Lemma amenities_set_swipe_ok (g : Swipe) (s : t) : amenities_ok s -> amenities_ok (set_swipe g s).
Proof.
  intros Hok. apply (amenities_ok_ext s); try reflexivity; [|exact Hok].
  destruct Hok as (_ & _ & Hr). exact Hr.
Qed.

Lemma amenities_keeps_on_touchstart (x y : Q) : keeps amenities_ok (on_touchstart x y).
Proof.
  intros s Hok. unfold on_touchstart. rewrite bind_get.
  cbn. now apply amenities_set_swipe_ok.
Qed.

Lemma amenities_keeps_on_touchmove (x y : Q) (c : bool) : keeps amenities_ok (on_touchmove x y c).
Proof.
  intros s Hok. unfold on_touchmove. rewrite bind_get.
  destruct (touchmove x y c (swipe s)) as [g prevented].
  rewrite bind_modify. destruct prevented; cbn; now apply amenities_set_swipe_ok.
Qed.

Lemma amenities_keeps_ret : keeps amenities_ok (ret tt).
Proof. intros s Hok. exact Hok. Qed.

Lemma amenities_keeps_on_touchend (x : Q) : keeps amenities_ok (on_touchend x).
Proof.
  intros s Hok. unfold on_touchend. rewrite bind_get.
  assert (Hm : keeps amenities_ok
                 match touchend_verdict x (swipe s) with
                 | SwipeNext => goToNext
                 | SwipePrevious => goToPrevious
                 | NoSwipe => ret tt
                 end)
    by (destruct (touchend_verdict x (swipe s));
        [apply amenities_keeps_goToNext | apply amenities_keeps_goToPrevious | apply amenities_keeps_ret]).
  specialize (Hm s Hok). unfold bind at 1.
  destruct (match touchend_verdict x (swipe s) with
            | SwipeNext => goToNext
            | SwipePrevious => goToPrevious
            | NoSwipe => ret tt
            end s) as [[[[]|e] s1] e1]; cbn [state_of fst snd] in *; [|exact Hm].
  rewrite bind_get. cbn. now apply amenities_set_swipe_ok.
Qed.

Lemma amenities_keeps_on_resize (w : Window) : keeps amenities_ok (on_resize w).
Proof.
  intros s Hok. pose proof Hok as ((l & Hl & Hne) & Hn & Hr).
  destruct (cards l) as [|cw tl] eqn:Hw; [congruence|].
  unfold on_resize. rewrite bind_get, bind_modify, bind_get.
  cbn [isMobile set_isMobile].
  destruct (Bool.eqb (isMobile s) (innerWidth w <=? 768)) eqn:E; cbn [negb].
  - apply eqb_prop in E. cbn [state_of ret fst snd].
    apply (amenities_ok_ext s); try reflexivity; [now cbn | exact Hr | exact Hok].
  - rewrite bind_modify.
    erewrite amenities_updateCarousel_eq; [|exact Hl|exact Hw]. cbn [state_of fst snd].
    split; [|split].
    + exists l. split; [exact Hl | congruence].
    + exact Hn.
    + unfold amenities_in_range, maxIndex, Math.max. cbn.
      destruct (innerWidth w <=? 768); lia.
Qed.

Lemma amenities_keeps_settle : keeps amenities_ok settle.
Proof.
  intros s Hok. cbn. apply (amenities_ok_ext s); try reflexivity; [|exact Hok].
  destruct Hok as (_ & _ & Hr). exact Hr.
Qed.

Lemma amenities_keeps_listener (w : Window) (tgt : Target) (e : Event) :
  keeps amenities_ok (listener w tgt e).
Proof.
  destruct tgt, e; cbn [listener];
    first [ apply amenities_keeps_ret | apply amenities_keeps_goToPrevious | apply amenities_keeps_goToNext
          | apply amenities_keeps_syncWithScroll | apply amenities_keeps_on_touchstart
          | apply amenities_keeps_on_touchmove | apply amenities_keeps_on_touchend
          | apply amenities_keeps_on_resize ].
Qed.

Lemma amenities_relayout_ok (l : Layout) (s : t) :
  cards l <> [] -> amenities_ok s -> amenities_ok (relayout l s).
Proof.
  intros Hne ((l0 & Hl0 & _) & Hn & Hr).
  split; [|split]; try assumption.
  exists l. cbn. rewrite Hl0. split; [reflexivity | exact Hne].
Qed.

Lemma amenities_addSwipeSupport_eq (s : t) (l : Layout) :
  carousel s = Some l ->
  addSwipeSupport s =
  (Normal tt, s, [AddEventListener AmenitiesCarouselEl TTouchStart;
                  AddEventListener AmenitiesCarouselEl TTouchMove;
                  AddEventListener AmenitiesCarouselEl TTouchEnd]).
Proof.
  intros Hc. unfold addSwipeSupport. rewrite bind_get, Hc. reflexivity.
Qed.

Lemma amenities_init_eq (s : t) (l : Layout) (cw : Z) (tl : list Z) :
  carousel s = Some l -> cards l = cw :: tl ->
  init s =
  (Normal tt, rendered (set_isScrolling true (set_totalCards (count_cards l) s)),
   (if present (leftArrow s) then [AddEventListener AmenitiesLeftArrow TClick] else [])
    ++ (if present (rightArrow s) then [AddEventListener AmenitiesRightArrow TClick] else [])
    ++ [AddEventListener AmenitiesCarouselEl TScroll;
        AddEventListener AmenitiesCarouselEl TTouchStart;
        AddEventListener AmenitiesCarouselEl TTouchMove;
        AddEventListener AmenitiesCarouselEl TTouchEnd;
        AddEventListener WindowObj TResize;
        ScrollTo ((cw + gap) * currentIndex s);
        UpdateUI (currentIndex s); SetTimeout 500]).
Proof.
  intros Hc Hw. unfold init. rewrite bind_get, Hc, bind_modify.
  set (s1 := set_totalCards (count_cards l) s).
  assert (Hc1 : carousel s1 = Some l) by exact Hc.
  assert (E :
    (addSwipeSupport ;; emit (AddEventListener WindowObj TResize) ;; updateCarousel) s1
    = (Normal tt, rendered (set_isScrolling true s1),
       [AddEventListener AmenitiesCarouselEl TTouchStart;
        AddEventListener AmenitiesCarouselEl TTouchMove;
        AddEventListener AmenitiesCarouselEl TTouchEnd;
        AddEventListener WindowObj TResize;
        ScrollTo ((cw + gap) * currentIndex s);
        UpdateUI (currentIndex s); SetTimeout 500])).
  { rewrite (bind_det _ _ _ _ _ _ (amenities_addSwipeSupport_eq s1 l Hc1)).
    cbn beta.
    erewrite bind_emit_det; [|exact (amenities_updateCarousel_eq s1 l cw tl Hc1 Hw)].
    reflexivity. }
  destruct (leftArrow s), (rightArrow s); cbn [present when app];
    repeat first [apply bind_emit_det | rewrite bind_ret; cbn beta]; exact E.
Qed.

End AmenitiesFacts.

(** ** The page stays well formed *)

Module PageInvariant.
Import App Invariants.

Lemma run_rooms_ok (m : M RoomsCarousel.t unit) (p : Page) :
  keeps rooms_ok m -> page_ok p -> page_ok (run_rooms m p).
Proof.
  intros Hm [Hr Ha]. specialize (Hm (rooms p) Hr). unfold run_rooms.
  destruct (m (rooms p)) as [[c r] es]. split; [exact Hm | exact Ha].
Qed.

Lemma run_amenities_ok (m : M AmenitiesCarousel.t unit) (p : Page) :
  keeps amenities_ok m -> page_ok p -> page_ok (run_amenities m p).
Proof.
  intros Hm [Hr (a & Ha & Hok)]. specialize (Hm a Hok). unfold run_amenities.
  rewrite Ha. destruct (m a) as [[c a'] es]. split; [exact Hr|].
  exists a'. split; [reflexivity | exact Hm].
Qed.

Lemma dispatch_ok (tgt : Target) (e : Event) (p : Page) :
  page_ok p -> page_ok (dispatch tgt e p).
Proof.
  intros Hp. unfold dispatch.
  assert (H1 : page_ok
                 (if registered OwnerRooms tgt (type_of e) (listeners p)
                  then run_rooms (RoomsCarousel.listener (window p) tgt e) p
                  else p)).
  { destruct (registered OwnerRooms _ _ _); [|exact Hp].
    apply run_rooms_ok; [apply RoomsSetup.keeps_listener | exact Hp]. }
  destruct (registered OwnerAmenities _ _ _); [|exact H1].
  apply run_amenities_ok; [apply AmenitiesFacts.amenities_keeps_listener | exact H1].
Qed.

Lemma fire_ok (p : Page) (tm : Z * Owner) : page_ok p -> page_ok (fire p tm).
Proof.
  intros Hp. unfold fire. destruct (snd tm).
  - apply run_rooms_ok; [apply RoomsInvariant.keeps_settle | exact Hp].
  - apply run_amenities_ok; [apply AmenitiesFacts.amenities_keeps_settle | exact Hp].
Qed.

Lemma fold_fire_ok (tms : list (Z * Owner)) (p : Page) :
  page_ok p -> page_ok (fold_left fire tms p).
Proof.
  revert p. induction tms as [|tm tms IH]; intros p Hp; cbn; [exact Hp|].
  apply IH, fire_ok, Hp.
Qed.

Lemma step_ok (p : Page) (i : Input) :
  shows_a_card i -> page_ok p -> page_ok (step p i).
Proof.
  intros Hi Hp. destruct i as [tgt e|j|dt|w|l|l]; cbn [step shows_a_card] in *.
  - now apply dispatch_ok.
  - now apply dispatch_ok.
  - unfold elapse_to. apply fold_fire_ok. exact Hp.
  - exact Hp.
  - destruct Hp as [Hr Ha]. split; [|exact Ha].
    now apply RoomsSetup.relayout_ok.
  - destruct Hp as [Hr (a & Ha & Hok)]. split; [exact Hr|].
    exists (AmenitiesCarousel.relayout l a). cbn. rewrite Ha. split; [reflexivity|].
    now apply AmenitiesFacts.amenities_relayout_ok.
Qed.

Lemma run_ok (inputs : list Input) (p : Page) :
  Forall shows_a_card inputs -> page_ok p -> page_ok (run p inputs).
Proof.
  revert p. induction inputs as [|i inputs IH]; intros p Hall Hp; cbn; [exact Hp|].
  inversion Hall as [|? ? Hi Hrest]; subst.
  apply IH; [exact Hrest | now apply step_ok].
Qed.

Lemma cards_cons (l : Layout) (n : nat) :
  (S n <= length (cards l))%nat -> exists w tl, cards l = w :: tl.
Proof. destruct (cards l) as [|w tl]; cbn; [lia | eauto]. Qed.

Lemma initializeModules_ok (m : Markup) :
  markup_ok m -> page_ok (initializeModules m).
Proof.
  intros ((lr & Hlr & Hn) & Hd & (la & Hla & Hne)).
  destruct (cards_cons lr 1 Hn) as (wr & tr & Hwr).
  destruct (cards la) as [|wa ta] eqn:Hwa; [congruence|].
  unfold initializeModules, RoomsCarousel.new, AmenitiesCarousel.new.
  rewrite Hlr, Hd, Hla.
  erewrite RoomsSetup.init_eq; [|reflexivity|exact Hwr].
  erewrite AmenitiesFacts.amenities_init_eq; [|reflexivity|exact Hwa].
  cbn [rooms amenities]. split.
  - split; [|split; [|split]].
    + exists lr. split; [reflexivity | congruence].
    + cbn. unfold count_cards. lia.
    + eexists. split; [reflexivity|]. cbn.
      rewrite RoomsFacts.slide_forEach_dot, RoomsFacts.slide_new_dots. reflexivity.
    + unfold rooms_in_range, RoomsCarousel.maxIndex. cbn. unfold count_cards.
      destruct (innerWidth (viewport m) <=? 768); lia.
  - eexists. split; [reflexivity|]. split; [|split].
    + exists la. split; [reflexivity | congruence].
    + cbn. unfold count_cards. rewrite Hwa. cbn [length]. lia.
    + unfold amenities_in_range, AmenitiesCarousel.maxIndex, Math.max. cbn.
      unfold count_cards. rewrite Hwa. cbn [length].
      destruct (innerWidth (viewport m) <=? 768); lia.
Qed.

End PageInvariant.

(* ================================================================== *)
(** * The claims *)

(** ** C1: goToSlide *)

(** Supporting fact for C1: the index an indicator passes to [goToSlide] is
    in range, so there the assignment and the clamp agree. *)
Lemma dot_click_in_range (s : RoomsCarousel.t) (j : nat) (ds : list RoomsCarousel.Dot)
    (d : RoomsCarousel.Dot) :
  Invariants.rooms_ok s ->
  RoomsCarousel.dotsContainer s = Some ds -> nth_error ds j = Some d ->
  RoomsCarousel.currentIndex (state_of (RoomsCarousel.dot_click j s))
  = Spec.clamp (RoomsCarousel.slide d) 0 (RoomsCarousel.maxIndex s).
Proof.
  intros Hok Hds Hj. pose proof Hok as ((l & Hl & Hne) & Hn & Hb & _).
  destruct (RoomsSetup.dot_slide s ds j d Hb Hds Hj) as [Hs Hlt].
  rewrite (RoomsSetup.numDots_maxIndex s Hn) in Hlt.
  unfold RoomsCarousel.dot_click. rewrite bind_get, Hds, Hj, RoomsFacts.goToSlide_eq.
  destruct (cards l) as [|w tl] eqn:Hw; [congruence|].
  rewrite (RoomsFacts.updateCarousel_eq
             (RoomsCarousel.set_currentIndex (RoomsCarousel.slide d) s) l w tl Hl Hw).
  cbn. unfold Spec.clamp. lia.
Qed.




(** ** C2: the index stays in range *)

(** C2, as the code has it: when both containers are in the document (the
    rooms one with at least two cards, the amenities one with at least
    one), the dots container is present and the layout keeps showing a
    card, then after every sequence of events (arrow and indicator clicks,
    scroll events, touch gestures, arrow keys, resizes, timers) both
    instances satisfy [0 <= currentIndex <= maxIndex], [maxIndex] being the
    bound the instance itself computes. *)
Theorem currentIndex_in_range (m : App.Markup) (inputs : list App.Input) :
  Invariants.markup_ok m -> Forall App.shows_a_card inputs ->
  let p := App.run (App.initializeModules m) inputs in
  0 <= RoomsCarousel.currentIndex (App.rooms p)
    <= RoomsCarousel.maxIndex (App.rooms p) /\
  exists a, App.amenities p = Some a /\
    0 <= AmenitiesCarousel.currentIndex a <= AmenitiesCarousel.maxIndex a.
Proof.
  intros Hm Hin p.
  assert (Hp : Invariants.page_ok p)
    by (apply PageInvariant.run_ok;
        [exact Hin | apply PageInvariant.initializeModules_ok, Hm]).
  destruct Hp as [(_ & _ & _ & Hr) (a & Ha & _ & _ & Hra)].
  split; [exact Hr|]. exists a. split; [exact Ha | exact Hra].
Qed.

Lemma currentIndex_in_range_witness :
  let p := App.run (App.initializeModules (Examples.markup Examples.desktop))
             [App.Fire RoomsRightArrow Click; App.DotClick 3;
              App.Fire Document (KeyDown ArrowLeft);
              App.Elapse 600;
              App.RoomsLayout (Examples.layout 5 300 (660 # 1) 1620 960);
              App.Fire RoomsCarouselEl Scroll;
              App.Viewport Examples.phone; App.Fire WindowObj Resize;
              App.Fire AmenitiesRightArrow Click] in
  0 <= RoomsCarousel.currentIndex (App.rooms p)
    <= RoomsCarousel.maxIndex (App.rooms p) /\
  exists a, App.amenities p = Some a /\
    0 <= AmenitiesCarousel.currentIndex a <= AmenitiesCarousel.maxIndex a.
Proof.
  apply currentIndex_in_range.
  - split; [|split].
    + eexists. split; [reflexivity|]. cbn. lia.
    + reflexivity.
    + eexists. split; [reflexivity|]. discriminate.
  - repeat constructor; discriminate.
Defined.

(** C2 as stated fails.  [goToSlide] takes any integer: after
    [goToSlide(7)] on five rooms the index is above every bound.  And with
    the bound of the data model ([itemCount - visibleCount], here 2) three
    clicks on the next arrow already leave the index at 3. *)
Lemma currentIndex_leaves_range :
  let p := App.run_rooms (RoomsCarousel.goToSlide 7) Examples.page_desktop in
  let q := App.run Examples.page_desktop
             [App.Fire RoomsRightArrow Click; App.Fire RoomsRightArrow Click;
              App.Fire RoomsRightArrow Click] in
  ~ (0 <= RoomsCarousel.currentIndex (App.rooms p)
       <= RoomsCarousel.maxIndex (App.rooms p)) /\
  ~ (0 <= RoomsCarousel.currentIndex (App.rooms p)
       <= Spec.maxIndex (RoomsCarousel.totalRooms (App.rooms p))
            (Spec.visibleCount (RoomsCarousel.isMobile (App.rooms p)) 3)) /\
  ~ (0 <= RoomsCarousel.currentIndex (App.rooms q)
       <= Spec.maxIndex (RoomsCarousel.totalRooms (App.rooms q))
            (Spec.visibleCount (RoomsCarousel.isMobile (App.rooms q)) 3)).
Proof.
  vm_compute. repeat split; intros [_ H]; apply H; reflexivity.
Qed.

(** ** C3: the value of maxIndex *)

Lemma scrollIndex_formula (r : RoomsCarousel.t) (l : Layout) (w : Z) :
  RoomsCarousel.scrollIndex r l w
  = Spec.scroll_index_of (RoomsCarousel.isMobile r)
      (Math.round (Spec.scroll_value (RoomsCarousel.isMobile r) (scrollLeft l) w
                     RoomsCarousel.gap (scrollWidth l - clientWidth l)
                     (RoomsCarousel.maxIndex r)))
      (scrollWidth l - clientWidth l) (RoomsCarousel.maxIndex r)
      (RoomsCarousel.totalRooms r).
Proof.
  unfold RoomsCarousel.scrollIndex, Spec.scroll_index_of, Spec.scroll_value, Spec.clamp,
    RoomsCarousel.maxIndex, Math.max, Math.min.
  rewrite Z.gtb_ltb. destruct (RoomsCarousel.isMobile r); reflexivity.
Qed.

Lemma amenities_scrollIndex_formula (a : AmenitiesCarousel.t) (l : Layout) (w : Z) :
  (if AmenitiesCarousel.isMobile a then AmenitiesCarousel.scrollIndex_mobile a l w
   else AmenitiesCarousel.scrollIndex_desktop a l)
  = Spec.scroll_index_of (AmenitiesCarousel.isMobile a)
      (Math.round (Spec.scroll_value (AmenitiesCarousel.isMobile a) (scrollLeft l) w
                     AmenitiesCarousel.gap (scrollWidth l - clientWidth l)
                     (AmenitiesCarousel.maxIndex a)))
      (scrollWidth l - clientWidth l) (AmenitiesCarousel.maxIndex a)
      (AmenitiesCarousel.totalCards a).
Proof.
  unfold AmenitiesCarousel.scrollIndex_mobile, AmenitiesCarousel.scrollIndex_desktop,
    Spec.scroll_index_of, Spec.scroll_value, Spec.clamp, AmenitiesCarousel.maxIndex,
    Math.max, Math.min.
  rewrite Z.gtb_ltb. destruct (AmenitiesCarousel.isMobile a); reflexivity.
Qed.

(** C3, as the code has it, for instances with at least one item.  In the
    narrow layout both instances use [itemCount - 1], the data model's
    value for one visible item.  In the wide layout the amenities instance
    uses [max(0, itemCount - 4)], the data model's value for four visible
    items, and the rooms instance uses [itemCount - 2]: for three rooms or
    more that is one more than the data model's value for three visible
    items, for two rooms it is that value, 0, and for a single room it is
    -1, one less than that value.  Each instance uses its value in all
    three places: the bound of [goToNext], the clamp of [syncWithScroll]
    (whose narrow bound [itemCount - 1] is the narrow value) and the
    disabling of the next arrow. *)
Theorem maxIndex_by_mode (r : RoomsCarousel.t) (a : AmenitiesCarousel.t) :
  1 <= RoomsCarousel.totalRooms r -> 1 <= AmenitiesCarousel.totalCards a ->
  (* the values *)
  RoomsCarousel.maxIndex r
  = (if RoomsCarousel.isMobile r
     then Spec.maxIndex (RoomsCarousel.totalRooms r) (Spec.visibleCount true 3)
     else RoomsCarousel.totalRooms r - 2) /\
  (RoomsCarousel.isMobile r = false ->
   RoomsCarousel.maxIndex r
   = Spec.maxIndex (RoomsCarousel.totalRooms r) (Spec.visibleCount false 3)
     + (if 3 <=? RoomsCarousel.totalRooms r then 1
        else if 2 <=? RoomsCarousel.totalRooms r then 0 else -1)) /\
  AmenitiesCarousel.maxIndex a
  = Spec.maxIndex (AmenitiesCarousel.totalCards a)
      (Spec.visibleCount (AmenitiesCarousel.isMobile a) 4) /\
  (* the bound of goToNext *)
  RoomsCarousel.goToNext r
  = (if RoomsCarousel.currentIndex r <? RoomsCarousel.maxIndex r
     then RoomsCarousel.updateCarousel
            (RoomsCarousel.set_currentIndex (RoomsCarousel.currentIndex r + 1) r)
     else (Normal tt, r, [])) /\
  AmenitiesCarousel.goToNext a
  = (if AmenitiesCarousel.currentIndex a <? AmenitiesCarousel.maxIndex a
     then AmenitiesCarousel.updateCarousel
            (AmenitiesCarousel.set_currentIndex (AmenitiesCarousel.currentIndex a + 1) a)
     else (Normal tt, a, [])) /\
  (* the clamp of syncWithScroll *)
  (forall l w,
     RoomsCarousel.scrollIndex r l w
     = Spec.scroll_index_of (RoomsCarousel.isMobile r)
         (Math.round (Spec.scroll_value (RoomsCarousel.isMobile r) (scrollLeft l) w
                        RoomsCarousel.gap (scrollWidth l - clientWidth l)
                        (RoomsCarousel.maxIndex r)))
         (scrollWidth l - clientWidth l) (RoomsCarousel.maxIndex r)
         (RoomsCarousel.maxIndex r + 1)) /\
  (forall l w,
     (if AmenitiesCarousel.isMobile a then AmenitiesCarousel.scrollIndex_mobile a l w
      else AmenitiesCarousel.scrollIndex_desktop a l)
     = Spec.scroll_index_of (AmenitiesCarousel.isMobile a)
         (Math.round (Spec.scroll_value (AmenitiesCarousel.isMobile a) (scrollLeft l) w
                        AmenitiesCarousel.gap (scrollWidth l - clientWidth l)
                        (AmenitiesCarousel.maxIndex a)))
         (scrollWidth l - clientWidth l) (AmenitiesCarousel.maxIndex a)
         (AmenitiesCarousel.maxIndex a + 1)) /\
  (* the next arrow *)
  RoomsCarousel.rightArrow (state_of (RoomsCarousel.updateUI r))
  = option_map (fun _ => RoomsCarousel.maxIndex r <=? RoomsCarousel.currentIndex r)
      (RoomsCarousel.rightArrow r) /\
  AmenitiesCarousel.rightArrow (state_of (AmenitiesCarousel.updateUI a))
  = option_map (fun _ => AmenitiesCarousel.maxIndex a <=? AmenitiesCarousel.currentIndex a)
      (AmenitiesCarousel.rightArrow a).
Proof.
  intros Hr Ha.
  assert (Er : (1 <=? RoomsCarousel.totalRooms r) = true) by (apply Z.leb_le; lia).
  split; [|split; [|split; [|split; [|split; [|split; [|split; [|split]]]]]]].
  - unfold RoomsCarousel.maxIndex, Spec.maxIndex, Spec.visibleCount.
    destruct (RoomsCarousel.isMobile r); [now rewrite Er | reflexivity].
  - intros Hm. unfold RoomsCarousel.maxIndex, Spec.maxIndex, Spec.visibleCount.
    rewrite Hm. destruct (Z.leb_spec 3 (RoomsCarousel.totalRooms r)); [lia|].
    destruct (Z.leb_spec 2 (RoomsCarousel.totalRooms r)); lia.
  - unfold AmenitiesCarousel.maxIndex, Spec.maxIndex, Spec.visibleCount, Math.max.
    destruct (AmenitiesCarousel.isMobile a).
    + destruct (Z.leb_spec 1 (AmenitiesCarousel.totalCards a)); lia.
    + destruct (Z.leb_spec 4 (AmenitiesCarousel.totalCards a)); lia.
  - apply RoomsFacts.goToNext_eq.
  - apply AmenitiesFacts.amenities_goToNext_eq.
  - intros l w. rewrite scrollIndex_formula.
    unfold Spec.scroll_index_of, RoomsCarousel.maxIndex.
    destruct (RoomsCarousel.isMobile r); [do 2 f_equal; lia | reflexivity].
  - intros l w. rewrite amenities_scrollIndex_formula.
    unfold Spec.scroll_index_of, AmenitiesCarousel.maxIndex.
    destruct (AmenitiesCarousel.isMobile a); [do 2 f_equal; lia | reflexivity].
  - rewrite RoomsFacts.updateUI_eq. reflexivity.
  - rewrite AmenitiesFacts.amenities_updateUI_eq. reflexivity.
Qed.

Lemma maxIndex_by_mode_witness :
  RoomsCarousel.maxIndex Examples.rooms_desktop = 5 - 2 /\
  AmenitiesCarousel.maxIndex Examples.amenities_desktop = 4.
Proof.
  destruct (maxIndex_by_mode Examples.rooms_desktop Examples.amenities_desktop)
    as (H1 & _ & H2 & _).
  - vm_compute. discriminate.
  - vm_compute. discriminate.
  - split; [exact H1 | reflexivity].
Defined.

(** C3 as stated fails for the rooms carousel in the wide layout: with five
    rooms the code's bound is 3 where the formula gives 5 - 3 = 2. *)
Lemma rooms_maxIndex_differs :
  RoomsCarousel.isMobile Examples.rooms_desktop = false /\
  RoomsCarousel.totalRooms Examples.rooms_desktop = 5 /\
  RoomsCarousel.maxIndex Examples.rooms_desktop = 3 /\
  Spec.maxIndex 5 (Spec.visibleCount false 3) = 2.
Proof. vm_compute. repeat split. Qed.

(** ** C4: an empty container *)

(** C4 at a container that is present and holds no card: [init] registers
    its listeners, sets [isScrolling] and then throws a [TypeError] on
    [cards[0].offsetWidth]; the flag is never cleared since no timer was
    armed.  [goToSlide] stores its argument and throws the same way, and
    [syncWithScroll] throws on a fresh instance.  Only [goToNext] and
    [goToPrevious] do nothing.  On the page, the throw in the rooms
    constructor keeps the amenities instance from being created. *)
Theorem empty_container_throws :
  let made := RoomsCarousel.new (Some (Examples.layout 0 300 0 960 960))
                (Some false) (Some false) (Some []) Examples.desktop in
  let r := state_of made in
  completion made = Throw TypeError /\
  RoomsCarousel.isScrolling r = true /\
  App.new_timers OwnerRooms 0 (effects made) = [] /\
  completion (RoomsCarousel.goToSlide 0 r) = Throw TypeError /\
  completion (RoomsCarousel.syncWithScroll Examples.rooms_empty) = Throw TypeError /\
  RoomsCarousel.goToNext r = (Normal tt, r, []) /\
  RoomsCarousel.goToPrevious r = (Normal tt, r, []) /\
  completion (AmenitiesCarousel.new (Some (Examples.layout 0 200 0 860 860))
                (Some false) (Some false) Examples.desktop) = Throw TypeError /\
  App.amenities (App.initializeModules (Examples.empty_markup Examples.desktop)) = None.
Proof. vm_compute. repeat split. Qed.

(** The same for every instance whose container holds no card. *)
Lemma no_card_throws (s : RoomsCarousel.t) (l : Layout) (i : Z) :
  RoomsCarousel.carousel s = Some l -> cards l = [] ->
  completion (RoomsCarousel.init s) = Throw TypeError /\
  completion (RoomsCarousel.goToSlide i s) = Throw TypeError /\
  (RoomsCarousel.isScrolling s = false ->
   completion (RoomsCarousel.syncWithScroll s) = Throw TypeError).
Proof.
  intros Hc Hw. split; [|split].
  - unfold RoomsCarousel.init. rewrite bind_get, Hc, bind_modify.
    rewrite (bind_det _ _ _ _ _ _ (RoomsSetup.createDots_eq _)).
    cbn [completion fst].
    set (s2 := match _ with Some ds => _ | None => _ end).
    assert (Hc2 : RoomsCarousel.carousel s2 = Some l)
      by (subst s2; cbn; destruct (RoomsCarousel.dotsContainer s); exact Hc).
    assert (E : completion
                  ((RoomsCarousel.addSwipeSupport ;; RoomsCarousel.addKeyboardSupport ;;
                    emit (AddEventListener WindowObj TResize) ;;
                    RoomsCarousel.updateCarousel) s2) = Throw TypeError).
    { rewrite (bind_det _ _ _ _ _ _
                 (RoomsSetup.addSwipeSupport_eq s2 l Hc2)).
      cbn beta. unfold RoomsCarousel.addKeyboardSupport. rewrite !bind_emit.
      rewrite (RoomsFacts.updateCarousel_throws s2 l Hc2 Hw). reflexivity. }
    destruct (RoomsCarousel.leftArrow s), (RoomsCarousel.rightArrow s);
      cbn [present when]; rewrite ?bind_ret; rewrite ?bind_emit; cbn beta;
      rewrite ?bind_ret; rewrite ?bind_emit; cbn beta;
      rewrite ?bind_ret; rewrite ?bind_emit; exact E.
  - rewrite RoomsFacts.goToSlide_eq.
    now rewrite (RoomsFacts.updateCarousel_throws
                   (RoomsCarousel.set_currentIndex i s) l Hc Hw).
  - intros Hs. now rewrite (RoomsFacts.syncWithScroll_throws s l Hc Hw Hs).
Qed.

(** ** C5: syncWithScroll *)

Lemma round_rounds_to (v : Q) : Spec.rounds_to v (Math.round v).
Proof.
  unfold Spec.rounds_to, Math.round.
  pose proof (Qfloor_le (v + (1 # 2))) as F1.
  pose proof (Qlt_floor (v + (1 # 2))) as F2.
  rewrite inject_Z_plus in F2. change (inject_Z 1) with 1%Q in F2.
  split; lra.
Qed.

(** C5, as the code has it: for every scroll offset, [syncWithScroll] does
    nothing while [isScrolling] is set.  Otherwise, on a container with a
    card to measure, it completes with [currentIndex] set to the index of
    the mode: in the narrow layout the quotient by [cardWidth + gap], in
    the wide layout the share of [maxScroll] times [maxIndex], where the
    quotient and the product are each rounded to a double; that value [v]
    is rounded to the integer [n] with [n - 1/2 <= v < n + 1/2], and [n] is
    clamped to [0, itemCount - 1] (narrow) or [0, maxIndex] (wide, 0 when
    [maxScroll <= 0]).  It renders exactly when that index differs from the
    stored one.  This holds for both classes.  Rounding to a double is
    IEEE-754's rounding to nearest, ties to even ([Double.rounds]). *)
Theorem syncWithScroll_spec
    (r : RoomsCarousel.t) (lr : Layout) (wr : Z) (tr : list Z)
    (a : AmenitiesCarousel.t) (la : Layout) (wa : Z) (ta : list Z) :
  RoomsCarousel.carousel r = Some lr -> cards lr = wr :: tr ->
  AmenitiesCarousel.carousel a = Some la -> cards la = wa :: ta ->
  (RoomsCarousel.isScrolling r = true ->
   RoomsCarousel.syncWithScroll r = (Normal tt, r, [])) /\
  (RoomsCarousel.isScrolling r = false ->
   exists n : Z,
     Spec.rounds_to
       (Spec.scroll_value (RoomsCarousel.isMobile r) (scrollLeft lr) wr 30
          (scrollWidth lr - clientWidth lr) (RoomsCarousel.maxIndex r)) n /\
     let kr := Spec.scroll_index_of (RoomsCarousel.isMobile r) n
                 (scrollWidth lr - clientWidth lr) (RoomsCarousel.maxIndex r)
                 (RoomsCarousel.totalRooms r) in
     completion (RoomsCarousel.syncWithScroll r) = Normal tt /\
     RoomsCarousel.currentIndex (state_of (RoomsCarousel.syncWithScroll r)) = kr /\
     (kr = RoomsCarousel.currentIndex r ->
      RoomsCarousel.syncWithScroll r = (Normal tt, r, [])) /\
     (kr <> RoomsCarousel.currentIndex r ->
      RoomsCarousel.syncWithScroll r
      = (Normal tt, RoomsCarousel.rendered (RoomsCarousel.set_currentIndex kr r),
         [UpdateUI kr]))) /\
  (AmenitiesCarousel.isScrolling a = true ->
   AmenitiesCarousel.syncWithScroll a = (Normal tt, a, [])) /\
  (AmenitiesCarousel.isScrolling a = false ->
   exists n : Z,
     Spec.rounds_to
       (Spec.scroll_value (AmenitiesCarousel.isMobile a) (scrollLeft la) wa 20
          (scrollWidth la - clientWidth la) (AmenitiesCarousel.maxIndex a)) n /\
     let ka := Spec.scroll_index_of (AmenitiesCarousel.isMobile a) n
                 (scrollWidth la - clientWidth la) (AmenitiesCarousel.maxIndex a)
                 (AmenitiesCarousel.totalCards a) in
     completion (AmenitiesCarousel.syncWithScroll a) = Normal tt /\
     AmenitiesCarousel.currentIndex (state_of (AmenitiesCarousel.syncWithScroll a)) = ka /\
     (ka = AmenitiesCarousel.currentIndex a ->
      AmenitiesCarousel.syncWithScroll a = (Normal tt, a, [])) /\
     (ka <> AmenitiesCarousel.currentIndex a ->
      AmenitiesCarousel.syncWithScroll a
      = (Normal tt, AmenitiesCarousel.rendered (AmenitiesCarousel.set_currentIndex ka a),
         [UpdateUI ka]))) /\
  (forall y : Q, Double.rounds y (Double.fl y)).
Proof.
  intros Hlr Hwr Hla Hwa.
  split; [|split; [|split; [|split]]].
  - intros Hs. rewrite (RoomsFacts.syncWithScroll_eq r lr wr tr Hlr Hwr), Hs. reflexivity.
  - intros Hs. eexists. split; [apply round_rounds_to|]. cbv zeta.
    change 30 with RoomsCarousel.gap. rewrite <- scrollIndex_formula.
    rewrite (RoomsFacts.syncWithScroll_eq r lr wr tr Hlr Hwr), Hs.
    destruct (Z.eqb_spec (RoomsCarousel.scrollIndex r lr wr) (RoomsCarousel.currentIndex r))
      as [E|E]; cbn; repeat split; congruence.
  - intros Hs. unfold AmenitiesCarousel.syncWithScroll. rewrite bind_get, Hs. reflexivity.
  - intros Hs. eexists. split; [apply round_rounds_to|]. cbv zeta.
    change 20 with AmenitiesCarousel.gap. rewrite <- (amenities_scrollIndex_formula a la wa).
    destruct (AmenitiesCarousel.isMobile a) eqn:Hm.
    + rewrite (AmenitiesFacts.syncWithScroll_mobile a la wa ta Hla Hwa Hm), Hs.
      destruct (Z.eqb_spec (AmenitiesCarousel.scrollIndex_mobile a la wa)
                  (AmenitiesCarousel.currentIndex a)) as [E|E]; cbn;
        repeat split; congruence.
    + rewrite (AmenitiesFacts.syncWithScroll_desktop a la Hla Hm), Hs.
      destruct (Z.eqb_spec (AmenitiesCarousel.scrollIndex_desktop a la)
                  (AmenitiesCarousel.currentIndex a)) as [E|E]; cbn;
        repeat split; congruence.
  - exact DoubleFacts.fl_rounds.
Qed.

Lemma syncWithScroll_spec_witness :
  let l := Examples.layout 5 300 (440 # 1) 1620 960 in
  let r := RoomsCarousel.set_isScrolling false
             (RoomsCarousel.relayout l Examples.rooms_desktop) in
  RoomsCarousel.isScrolling r = false /\
  exists n : Z,
    Spec.rounds_to (Spec.scroll_value false (440 # 1) 300 30 660 3) n /\
    RoomsCarousel.currentIndex (state_of (RoomsCarousel.syncWithScroll r))
    = Spec.scroll_index_of false n 660 3 5.
Proof.
  split; [reflexivity|].
  destruct (proj1 (proj2
    (syncWithScroll_spec
       (RoomsCarousel.set_isScrolling false
          (RoomsCarousel.relayout (Examples.layout 5 300 (440 # 1) 1620 960)
             Examples.rooms_desktop))
       (Examples.layout 5 300 (440 # 1) 1620 960) 300 [300; 300; 300; 300]
       Examples.amenities_desktop (Examples.layout 8 200 0 1740 860) 200
       [200; 200; 200; 200; 200; 200; 200]
       eq_refl eq_refl eq_refl eq_refl)) eq_refl)
    as (n & Hn & _ & Hk & _).
  exists n. split; [exact Hn | exact Hk].
Defined.

(** C5 as stated, with the formula taken in exact arithmetic, fails.  Five
    rooms of 300px in a container 1120px wide, in the wide layout
    ([maxScroll = 1620 - 1120 = 500]), and the scroll offset the double
    [83.33333333333333], which is [5864062014805333 / 2^46] (125 device
    pixels at a pixel ratio of 1.5): the quotient rounds to the double
    [0.16666666666666666] and its triple to [0.5], so the code stores
    index 1, where the exact value, [0.49999999999999998...], rounds
    to 0. *)
Lemma scroll_index_is_computed_in_doubles :
  let l := Examples.layout 5 300 (5864062014805333 # 70368744177664) 1620 1120 in
  let r := RoomsCarousel.set_isScrolling false
             (RoomsCarousel.relayout l Examples.rooms_desktop) in
  RoomsCarousel.isScrolling r = false /\
  RoomsCarousel.isMobile r = false /\
  RoomsCarousel.currentIndex (state_of (RoomsCarousel.syncWithScroll r)) = 1 /\
  Spec.scroll_index false (scrollLeft l) 300 30 (scrollWidth l - clientWidth l)
    (RoomsCarousel.maxIndex r) (RoomsCarousel.totalRooms r) = 0.
Proof. vm_compute. repeat split. Qed.

(** ** C6: index to offset and back *)

Lemma round_inject_Z (k : Z) : Math.round (inject_Z k) = k.
Proof.
  unfold Math.round, Qfloor, Qplus, inject_Z. cbn.
  symmetry. apply (Z.div_unique _ _ k 1); lia.
Qed.

Lemma round_Qeq (x y : Q) : (x == y)%Q -> Math.round x = Math.round y.
Proof. intros H. unfold Math.round. now rewrite H. Qed.

Lemma inject_Z_nonzero (p : Z) : p <> 0 -> ~ (inject_Z p == 0)%Q.
Proof. intros Hp H. unfold Qeq in H. cbn in H. lia. Qed.

Lemma pitch_quotient (p k : Z) :
  0 < p -> (inject_Z (p * k) / inject_Z p == inject_Z k)%Q.
Proof.
  intros Hp. rewrite inject_Z_mult. field. apply inject_Z_nonzero. lia.
Qed.

(** An exact multiple of the pitch divides without rounding. *)
Lemma fl_pitch_quotient (p k : Z) :
  0 < p -> Z.abs k < 2 ^ 53 ->
  (Double.fl (inject_Z (p * k) / inject_Z p) == inject_Z k)%Q.
Proof.
  intros Hp Hk. pose proof (pitch_quotient p k Hp) as E.
  rewrite DoubleFacts.fl_exact; [exact E|].
  apply (DoubleFacts.representable_Qeq (inject_Z k)); [symmetry; exact E|].
  apply DoubleFacts.representable_Z. exact Hk.
Qed.

Lemma fl_zero (y : Q) : (y == 0)%Q -> Double.fl y = 0%Q.
Proof. intros E. unfold Double.fl. apply Qeq_bool_iff in E. now rewrite E. Qed.

(** C6 on the code.  For every [k] in [0, maxIndex], [goToSlide(k)] asks
    for the offset [(cardWidth + gap) * k].  In the narrow layout the index
    [syncWithScroll] derives from that offset is [k] again, and so it is
    for [k = 0] in either layout.  In the wide layout it is not: with five
    cards of 300px in a container of 960px, the offsets of the indices
    0, 1, 2, 3 are read back as 0, 2, 3, 3. *)
Theorem goToSlide_offset_round_trip
    (s : RoomsCarousel.t) (l : Layout) (w : Z) (tl : list Z) (k : Z) :
  RoomsCarousel.carousel s = Some l -> cards l = w :: tl -> 0 <= w ->
  RoomsCarousel.totalRooms s < 2 ^ 53 ->
  0 <= k <= RoomsCarousel.maxIndex s ->
  let r := RoomsCarousel.goToSlide k s in
  effects r = [ScrollTo ((w + RoomsCarousel.gap) * k); UpdateUI k; SetTimeout 500] /\
  (RoomsCarousel.isMobile s = true ->
   RoomsCarousel.scrollIndex (state_of r)
     (Notions.scrolled_to ((w + RoomsCarousel.gap) * k) l) w = k) /\
  (k = 0 ->
   RoomsCarousel.scrollIndex (state_of r)
     (Notions.scrolled_to ((w + RoomsCarousel.gap) * k) l) w = k) /\
  map (fun i =>
         RoomsCarousel.scrollIndex
           (state_of (RoomsCarousel.goToSlide i Examples.rooms_desktop))
           (Notions.scrolled_to ((300 + RoomsCarousel.gap) * i)
              (Examples.layout 5 300 0 1620 960)) 300)
      [0; 1; 2; 3]
  = [0; 2; 3; 3].
Proof.
  intros Hl Hw Hw0 Hn Hk r. subst r.
  rewrite RoomsFacts.goToSlide_eq.
  rewrite (RoomsFacts.updateCarousel_eq (RoomsCarousel.set_currentIndex k s) l w tl Hl Hw).
  cbn [effects state_of fst snd RoomsCarousel.currentIndex RoomsCarousel.set_currentIndex].
  split; [reflexivity|]. split; [|split; [|vm_compute; reflexivity]].
  - intros Hm.
    unfold RoomsCarousel.scrollIndex, RoomsCarousel.maxIndex in *.
    cbn [RoomsCarousel.isMobile RoomsCarousel.totalRooms RoomsCarousel.rendered
         RoomsCarousel.set_isScrolling RoomsCarousel.set_currentIndex
         scrollLeft scrollWidth clientWidth Notions.scrolled_to].
    unfold RoomsCarousel.gap in *. rewrite Hm in *.
    rewrite (round_Qeq _ _ (fl_pitch_quotient (w + 30) k ltac:(lia) ltac:(lia))).
    rewrite round_inject_Z. unfold Math.max, Math.min. lia.
  - intros ->.
    unfold RoomsCarousel.scrollIndex, RoomsCarousel.maxIndex in *.
    cbn [RoomsCarousel.isMobile RoomsCarousel.totalRooms RoomsCarousel.rendered
         RoomsCarousel.set_isScrolling RoomsCarousel.set_currentIndex
         scrollLeft scrollWidth clientWidth Notions.scrolled_to].
    rewrite Z.mul_0_r. change (inject_Z 0) with 0%Q.
    destruct (RoomsCarousel.isMobile s).
    + match goal with
      | |- context [Double.fl (0 / ?d)] =>
          rewrite (fl_zero (0 / d)) by (unfold Qdiv; ring)
      end.
      change (Math.round 0) with 0. unfold Math.max, Math.min. lia.
    + destruct (scrollWidth l - clientWidth l >? 0); [|reflexivity].
      match goal with
      | |- context [Double.fl (0 / ?d)] =>
          rewrite (fl_zero (0 / d)) by (unfold Qdiv; ring)
      end.
      match goal with
      | |- context [Double.fl (0 * ?d)] => rewrite (fl_zero (0 * d)) by ring
      end.
      change (Math.round 0) with 0. unfold Math.max, Math.min. lia.
Qed.

Lemma goToSlide_offset_round_trip_witness :
  RoomsCarousel.scrollIndex (state_of (RoomsCarousel.goToSlide 3 Examples.rooms_phone))
    (Notions.scrolled_to ((300 + 30) * 3) (Examples.layout 5 300 0 1620 960)) 300 = 3.
Proof.
  refine (proj1 (proj2 (goToSlide_offset_round_trip Examples.rooms_phone
                          (Examples.layout 5 300 0 1620 960) 300 [300; 300; 300; 300] 3
                          _ _ _ _ _)) _).
  - reflexivity.
  - reflexivity.
  - lia.
  - reflexivity.
  - vm_compute. split; discriminate.
  - reflexivity.
Defined.

(** ** C7: the render step *)


(** On a well-formed rooms instance there is one indicator per index. *)
Lemma dots_cover_indices (s : RoomsCarousel.t) (ds : list RoomsCarousel.Dot) :
  Invariants.rooms_ok s -> RoomsCarousel.dotsContainer s = Some ds ->
  Z.of_nat (length ds) = RoomsCarousel.maxIndex s + 1.
Proof.
  intros (_ & Hn & (ds' & Hds' & Hsl) & _) Hds.
  rewrite Hds in Hds'. injection Hds' as <-.
  rewrite <- (RoomsSetup.numDots_maxIndex s Hn).
  rewrite <- (length_map RoomsCarousel.slide), Hsl, length_map, length_seq.
  unfold RoomsCarousel.numDots, Math.max. destruct (RoomsCarousel.isMobile s); lia.
Qed.




(** ** C8: the order of scroll command and render *)

(** C8, as the code has it: every programmatic index change ([goToNext],
    [goToPrevious], [goToSlide], in both classes) that changes the index
    issues the scroll command for the new index first and renders the new
    index next, in the same synchronous call, before the settle timer is
    armed; at the boundary [goToNext] and [goToPrevious] send nothing.  The
    rendered index is the stored index when the call returns. *)
Theorem scroll_command_then_render
    (r : RoomsCarousel.t) (lr : Layout) (wr : Z) (tr : list Z)
    (a : AmenitiesCarousel.t) (la : Layout) (wa : Z) (ta : list Z) (i : Z) :
  RoomsCarousel.carousel r = Some lr -> cards lr = wr :: tr ->
  AmenitiesCarousel.carousel a = Some la -> cards la = wa :: ta ->
  (effects (RoomsCarousel.goToSlide i r) = Notions.commands wr 30 i /\
   RoomsCarousel.currentIndex (state_of (RoomsCarousel.goToSlide i r)) = i) /\
  (effects (RoomsCarousel.goToNext r)
   = (if RoomsCarousel.currentIndex r <? RoomsCarousel.maxIndex r
      then Notions.commands wr 30 (RoomsCarousel.currentIndex r + 1) else []) /\
   RoomsCarousel.currentIndex (state_of (RoomsCarousel.goToNext r))
   = (if RoomsCarousel.currentIndex r <? RoomsCarousel.maxIndex r
      then RoomsCarousel.currentIndex r + 1 else RoomsCarousel.currentIndex r)) /\
  (effects (RoomsCarousel.goToPrevious r)
   = (if RoomsCarousel.currentIndex r >? 0
      then Notions.commands wr 30 (RoomsCarousel.currentIndex r - 1) else []) /\
   RoomsCarousel.currentIndex (state_of (RoomsCarousel.goToPrevious r))
   = (if RoomsCarousel.currentIndex r >? 0
      then RoomsCarousel.currentIndex r - 1 else RoomsCarousel.currentIndex r)) /\
  (effects (AmenitiesCarousel.goToNext a)
   = (if AmenitiesCarousel.currentIndex a <? AmenitiesCarousel.maxIndex a
      then Notions.commands wa 20 (AmenitiesCarousel.currentIndex a + 1) else []) /\
   AmenitiesCarousel.currentIndex (state_of (AmenitiesCarousel.goToNext a))
   = (if AmenitiesCarousel.currentIndex a <? AmenitiesCarousel.maxIndex a
      then AmenitiesCarousel.currentIndex a + 1 else AmenitiesCarousel.currentIndex a)) /\
  (effects (AmenitiesCarousel.goToPrevious a)
   = (if AmenitiesCarousel.currentIndex a >? 0
      then Notions.commands wa 20 (AmenitiesCarousel.currentIndex a - 1) else []) /\
   AmenitiesCarousel.currentIndex (state_of (AmenitiesCarousel.goToPrevious a))
   = (if AmenitiesCarousel.currentIndex a >? 0
      then AmenitiesCarousel.currentIndex a - 1 else AmenitiesCarousel.currentIndex a)).
Proof.
  intros Hlr Hwr Hla Hwa.
  rewrite RoomsFacts.goToSlide_eq, RoomsFacts.goToNext_eq, RoomsFacts.goToPrevious_eq,
    AmenitiesFacts.amenities_goToNext_eq, AmenitiesFacts.amenities_goToPrevious_eq.
  split; [|split; [|split; [|split]]].
  - rewrite (RoomsFacts.updateCarousel_eq (RoomsCarousel.set_currentIndex i r)
               lr wr tr Hlr Hwr). split; reflexivity.
  - destruct (RoomsCarousel.currentIndex r <? RoomsCarousel.maxIndex r);
      [|split; reflexivity].
    rewrite (RoomsFacts.updateCarousel_eq (RoomsCarousel.set_currentIndex _ r)
               lr wr tr Hlr Hwr). split; reflexivity.
  - destruct (RoomsCarousel.currentIndex r >? 0); [|split; reflexivity].
    rewrite (RoomsFacts.updateCarousel_eq (RoomsCarousel.set_currentIndex _ r)
               lr wr tr Hlr Hwr). split; reflexivity.
  - destruct (AmenitiesCarousel.currentIndex a <? AmenitiesCarousel.maxIndex a);
      [|split; reflexivity].
    rewrite (AmenitiesFacts.amenities_updateCarousel_eq (AmenitiesCarousel.set_currentIndex _ a)
               la wa ta Hla Hwa). split; reflexivity.
  - destruct (AmenitiesCarousel.currentIndex a >? 0); [|split; reflexivity].
    rewrite (AmenitiesFacts.amenities_updateCarousel_eq (AmenitiesCarousel.set_currentIndex _ a)
               la wa ta Hla Hwa). split; reflexivity.
Qed.

Lemma scroll_command_then_render_witness :
  effects (RoomsCarousel.goToSlide 2 Examples.rooms_desktop)
  = [ScrollTo 660; UpdateUI 2; SetTimeout 500].
Proof.
  refine (proj1 (proj1
    (scroll_command_then_render Examples.rooms_desktop
       (Examples.layout 5 300 0 1620 960) 300 [300; 300; 300; 300]
       Examples.amenities_desktop (Examples.layout 8 200 0 1740 860) 200
       [200; 200; 200; 200; 200; 200; 200] 2 _ _ _ _))); reflexivity.
Defined.

(** C8 as stated fails: in what [goToNext], [goToPrevious] and [goToSlide]
    send out, the scroll command is not preceded by a render. *)
Lemma render_follows_scroll_command :
  let r := Examples.rooms_desktop in
  let r1 := state_of (RoomsCarousel.goToNext r) in
  effects (RoomsCarousel.goToNext r) = [ScrollTo 330; UpdateUI 1; SetTimeout 500] /\
  Notions.render_precedes_scroll false (effects (RoomsCarousel.goToNext r)) = false /\
  Notions.render_precedes_scroll false (effects (RoomsCarousel.goToPrevious r1)) = false /\
  Notions.render_precedes_scroll false (effects (RoomsCarousel.goToSlide 2 r)) = false /\
  Notions.render_precedes_scroll false
    (effects (AmenitiesCarousel.goToNext Examples.amenities_desktop)) = false.
Proof. vm_compute. repeat split. Qed.

(** ** C9: overlapping scroll commands *)

Module TimerFacts.
Import App.

Lemma fire_rooms (q : Page) (tm : Z * Owner) :
  rooms (fire q tm)
  = (if Owner_beq OwnerRooms (snd tm)
     then RoomsCarousel.set_isScrolling false (rooms q) else rooms q).
Proof.
  unfold fire. destruct (snd tm); cbn; [reflexivity|].
  unfold run_amenities. destruct (amenities q); reflexivity.
Qed.

Lemma fold_fire_rooms (tms : list (Z * Owner)) (q : Page) :
  rooms (fold_left fire tms q)
  = (if existsb (fun tm => Owner_beq OwnerRooms (snd tm)) tms
     then RoomsCarousel.set_isScrolling false (rooms q) else rooms q).
Proof.
  revert q. induction tms as [|tm tms IH]; intros q; cbn [fold_left existsb];
    [reflexivity|].
  rewrite IH, fire_rooms.
  destruct (Owner_beq OwnerRooms (snd tm)); cbn [orb]; [|reflexivity].
  destruct (existsb _ tms); reflexivity.
Qed.

Lemma existsb_filter {A} (f g : A -> bool) (l : list A) :
  existsb f (filter g l) = existsb (fun x => g x && f x) l.
Proof.
  induction l as [|x l IH]; cbn; [reflexivity|].
  destruct (g x); cbn; now rewrite IH.
Qed.

(** The rooms fields after time has moved to [now]. *)
Lemma elapse_rooms (now : Z) (q : Page) :
  rooms (elapse_to now q)
  = (if existsb (Notions.rooms_due now) (timers q)
     then RoomsCarousel.set_isScrolling false (rooms q) else rooms q).
Proof.
  unfold elapse_to. rewrite fold_fire_rooms, existsb_filter. reflexivity.
Qed.

Lemma fire_timers (q : Page) (tm : Z * Owner) : timers (fire q tm) = timers q.
Proof.
  unfold fire. destruct (snd tm); cbn.
  - apply app_nil_r.
  - unfold run_amenities. destruct (amenities q); cbn; [apply app_nil_r | reflexivity].
Qed.

Lemma fire_clock (q : Page) (tm : Z * Owner) : clock (fire q tm) = clock q.
Proof.
  unfold fire. destruct (snd tm); cbn; [reflexivity|].
  unfold run_amenities. destruct (amenities q); reflexivity.
Qed.

Lemma elapse_timers (now : Z) (q : Page) :
  timers (elapse_to now q) = filter (fun tm => negb (due now tm)) (timers q).
Proof.
  unfold elapse_to.
  set (q0 := {| window := window q; clock := now;
                timers := filter (fun tm => negb (due now tm)) (timers q);
                listeners := listeners q; rooms := rooms q; amenities := amenities q |}).
  change (filter (fun tm => negb (due now tm)) (timers q)) with (timers q0).
  generalize q0. clear q0.
  induction (filter (due now) (timers q)) as [|tm tms IH]; intros q0; cbn; [reflexivity|].
  now rewrite IH, fire_timers.
Qed.

Lemma elapse_clock (now : Z) (q : Page) : clock (elapse_to now q) = now.
Proof.
  unfold elapse_to.
  set (q0 := {| window := window q; clock := now;
                timers := filter (fun tm => negb (due now tm)) (timers q);
                listeners := listeners q; rooms := rooms q; amenities := amenities q |}).
  change now with (clock q0) at 2. generalize q0. clear q0.
  induction (filter (due now) (timers q)) as [|tm tms IH]; intros q0; cbn; [reflexivity|].
  now rewrite IH, fire_clock.
Qed.

Lemma pending_app (o : Owner) (l1 l2 : list (Z * Owner)) :
  Notions.pending o (l1 ++ l2) = Notions.pending o l1 ++ Notions.pending o l2.
Proof. unfold Notions.pending. now rewrite filter_app, map_app. Qed.

Lemma pending_none_filter (o : Owner) (g : Z * Owner -> bool) (l : list (Z * Owner)) :
  Notions.pending o l = [] -> Notions.pending o (filter g l) = [].
Proof.
  unfold Notions.pending. induction l as [|x l IH]; cbn [filter map]; [reflexivity|].
  destruct (Owner_beq o (snd x)) eqn:E; cbn [filter map]; [discriminate|].
  intros H. destruct (g x); cbn [filter map]; [rewrite E|]; now apply IH.
Qed.

Lemma pending_none_due (now : Z) (l : list (Z * Owner)) :
  Notions.pending OwnerRooms l = [] -> existsb (Notions.rooms_due now) l = false.
Proof.
  unfold Notions.pending, Notions.rooms_due.
  induction l as [|x l IH]; cbn [filter map existsb]; [reflexivity|].
  destruct (Owner_beq OwnerRooms (snd x)) eqn:E; cbn [filter map]; [discriminate|].
  intros H. rewrite andb_false_r. now apply IH.
Qed.











End TimerFacts.




(** ** C10: keyboard events and the amenities instance *)

Section EmitsOnly.
Context {S : Type} (P : Effect -> Prop).
Import Notions.

Lemma emits_ret {A} (a : A) : emits_only (S := S) P (ret a).
Proof. intros s. constructor. Qed.

Lemma emits_get : emits_only (S := S) P get.
Proof. intros s. constructor. Qed.

Lemma emits_modify (f : S -> S) : emits_only P (modify f).
Proof. intros s. constructor. Qed.

Lemma emits_throw {A} (e : JsError) : emits_only (S := S) (A := A) P (throw e).
Proof. intros s. constructor. Qed.

Lemma emits_emit (e : Effect) : P e -> emits_only (S := S) P (emit e).
Proof. intros He s. repeat constructor. exact He. Qed.

Lemma emits_bind {A B} (m : M S A) (k : A -> M S B) :
  emits_only P m -> (forall a, emits_only P (k a)) -> emits_only P (bind m k).
Proof.
  intros Hm Hk s. specialize (Hm s). unfold bind.
  destruct (m s) as [[[a|e] s1] e1]; cbn in *; [|exact Hm].
  specialize (Hk a s1). destruct (k a s1) as [[r s2] e2]; cbn in *.
  apply Forall_app. split; assumption.
Qed.

Lemma emits_when (b : bool) (m : M S unit) :
  emits_only P m -> emits_only P (when b m).
Proof. intros Hm. destruct b; [exact Hm | apply emits_ret]. Qed.

Lemma emits_the_carousel (c : option Layout) : emits_only (S := S) P (the_carousel c).
Proof. destruct c; [apply emits_ret | apply emits_throw]. Qed.

Lemma emits_first_offsetWidth (l : Layout) :
  emits_only (S := S) P (first_offsetWidth l).
Proof.
  unfold first_offsetWidth. destruct (cards l); [apply emits_throw | apply emits_ret].
Qed.
End EmitsOnly.

Create HintDb emits.
#[export] Hint Resolve emits_ret emits_get emits_modify emits_throw emits_when
  emits_the_carousel emits_first_offsetWidth : emits.

Ltac emits_step :=
  first
    [ apply emits_bind; [|intros ?]
    | apply emits_when
    | apply emits_emit; unfold Notions.quiet, Notions.no_keydown, Notions.dots_only;
      cbn; tauto
    | solve [auto with emits]
    | match goal with
      | |- Notions.emits_only _ (match ?x with _ => _ end) => destruct x
      end ].

Ltac emits := cbv zeta; repeat emits_step.

Module ListenerFacts.
Import Notions.

Lemma quiet_no_keydown {S A} (m : M S A) :
  emits_only quiet m -> emits_only no_keydown m.
Proof.
  intros H s. eapply Forall_impl; [|apply H].
  intros [| | |tgt ty|]; unfold quiet, no_keydown; cbn; tauto.
Qed.

(** *** RoomsCarousel *)

Lemma rooms_updateUI : emits_only quiet RoomsCarousel.updateUI.
Proof. unfold RoomsCarousel.updateUI, quiet. emits. Qed.
#[export] Hint Resolve rooms_updateUI : emits.

Lemma rooms_updateCarousel : emits_only quiet RoomsCarousel.updateCarousel.
Proof. unfold RoomsCarousel.updateCarousel. emits. Qed.
#[export] Hint Resolve rooms_updateCarousel : emits.

Lemma rooms_goToNext : emits_only quiet RoomsCarousel.goToNext.
Proof. unfold RoomsCarousel.goToNext. emits. Qed.

Lemma rooms_goToPrevious : emits_only quiet RoomsCarousel.goToPrevious.
Proof. unfold RoomsCarousel.goToPrevious. emits. Qed.

Lemma rooms_goToSlide (i : Z) : emits_only quiet (RoomsCarousel.goToSlide i).
Proof. unfold RoomsCarousel.goToSlide. emits. Qed.
#[export] Hint Resolve rooms_goToNext rooms_goToPrevious rooms_goToSlide : emits.

Lemma quiet_dots_only {S A} (m : M S A) :
  emits_only quiet m -> emits_only dots_only m.
Proof.
  intros H s. eapply Forall_impl; [|apply H].
  intros [| | |tgt ty|]; unfold quiet, dots_only; cbn; tauto.
Qed.

Lemma dots_only_no_keydown {S A} (m : M S A) :
  emits_only dots_only m -> emits_only no_keydown m.
Proof.
  intros H s. eapply Forall_impl; [|apply H].
  intros [| | |tgt ty|]; unfold dots_only, no_keydown; cbn; try tauto.
  destruct tgt, ty; tauto.
Qed.

Lemma dot_listeners_dots_only (from : nat) (n : Z) :
  Forall dots_only (RoomsCarousel.dot_listeners from n).
Proof.
  unfold RoomsCarousel.dot_listeners. apply Forall_forall.
  intros e He. apply in_map_iff in He. destruct He as (i & <- & _). exact I.
Qed.

Lemma rooms_createDots : emits_only dots_only RoomsCarousel.createDots.
Proof.
  intros s. rewrite RoomsSetup.createDots_eq. cbn [effects snd].
  destruct (RoomsCarousel.dotsContainer s); [apply dot_listeners_dots_only | constructor].
Qed.
#[export] Hint Resolve rooms_createDots : emits.

Lemma rooms_syncWithScroll : emits_only quiet RoomsCarousel.syncWithScroll.
Proof. unfold RoomsCarousel.syncWithScroll. emits. Qed.

Lemma rooms_on_touchstart x y : emits_only quiet (RoomsCarousel.on_touchstart x y).
Proof. unfold RoomsCarousel.on_touchstart. emits. Qed.

Lemma rooms_on_touchmove x y c : emits_only quiet (RoomsCarousel.on_touchmove x y c).
Proof. unfold RoomsCarousel.on_touchmove. emits. Qed.

Lemma rooms_on_touchend x : emits_only quiet (RoomsCarousel.on_touchend x).
Proof. unfold RoomsCarousel.on_touchend. emits. Qed.

Lemma rooms_on_keydown w k : emits_only quiet (RoomsCarousel.on_keydown w k).
Proof. unfold RoomsCarousel.on_keydown. emits. Qed.

Lemma rooms_on_resize w : emits_only dots_only (RoomsCarousel.on_resize w).
Proof.
  pose proof (quiet_dots_only _ rooms_updateCarousel) as Hu.
  unfold RoomsCarousel.on_resize. emits.
  intros s. apply dot_listeners_dots_only.
Qed.

Lemma rooms_settle : emits_only quiet RoomsCarousel.settle.
Proof. unfold RoomsCarousel.settle. emits. Qed.

Lemma rooms_dot_click j : emits_only quiet (RoomsCarousel.dot_click j).
Proof. unfold RoomsCarousel.dot_click. emits. Qed.

(** Every listener of the rooms instance but the resize listener registers
    nothing. *)
Lemma rooms_listener_quiet w tgt e :
  (tgt = WindowObj -> e <> Resize) ->
  emits_only quiet (RoomsCarousel.listener w tgt e).
Proof.
  intros H. destruct tgt, e; cbn [RoomsCarousel.listener];
    first [ apply emits_ret | apply rooms_goToPrevious | apply rooms_goToNext
          | apply rooms_syncWithScroll | apply rooms_on_touchstart
          | apply rooms_on_touchmove | apply rooms_on_touchend
          | apply rooms_on_keydown | apply rooms_dot_click
          | exfalso; now apply H ].
Qed.

Lemma rooms_listener w tgt e : emits_only dots_only (RoomsCarousel.listener w tgt e).
Proof.
  destruct tgt, e; cbn [RoomsCarousel.listener];
    first [ apply rooms_on_resize
          | apply quiet_dots_only;
            first [ apply emits_ret | apply rooms_goToPrevious | apply rooms_goToNext
                  | apply rooms_syncWithScroll | apply rooms_on_touchstart
                  | apply rooms_on_touchmove | apply rooms_on_touchend
                  | apply rooms_on_keydown | apply rooms_dot_click ] ].
Qed.

(** *** AmenitiesCarousel *)

Lemma amenities_updateUI : emits_only quiet AmenitiesCarousel.updateUI.
Proof. unfold AmenitiesCarousel.updateUI, quiet. emits. Qed.
#[export] Hint Resolve amenities_updateUI : emits.

Lemma amenities_updateCarousel : emits_only quiet AmenitiesCarousel.updateCarousel.
Proof. unfold AmenitiesCarousel.updateCarousel. emits. Qed.
#[export] Hint Resolve amenities_updateCarousel : emits.

Lemma amenities_goToNext : emits_only quiet AmenitiesCarousel.goToNext.
Proof. unfold AmenitiesCarousel.goToNext. emits. Qed.

Lemma amenities_goToPrevious : emits_only quiet AmenitiesCarousel.goToPrevious.
Proof. unfold AmenitiesCarousel.goToPrevious. emits. Qed.
#[export] Hint Resolve amenities_goToNext amenities_goToPrevious : emits.

Lemma amenities_syncWithScroll : emits_only quiet AmenitiesCarousel.syncWithScroll.
Proof. unfold AmenitiesCarousel.syncWithScroll. emits. Qed.

Lemma amenities_on_touchstart x y :
  emits_only quiet (AmenitiesCarousel.on_touchstart x y).
Proof. unfold AmenitiesCarousel.on_touchstart. emits. Qed.

Lemma amenities_on_touchmove x y c :
  emits_only quiet (AmenitiesCarousel.on_touchmove x y c).
Proof. unfold AmenitiesCarousel.on_touchmove. emits. Qed.

Lemma amenities_on_touchend x : emits_only quiet (AmenitiesCarousel.on_touchend x).
Proof. unfold AmenitiesCarousel.on_touchend. emits. Qed.

Lemma amenities_on_resize w : emits_only quiet (AmenitiesCarousel.on_resize w).
Proof. unfold AmenitiesCarousel.on_resize. emits. Qed.

Lemma amenities_settle : emits_only quiet AmenitiesCarousel.settle.
Proof. unfold AmenitiesCarousel.settle. emits. Qed.

Lemma amenities_listener w tgt e :
  emits_only quiet (AmenitiesCarousel.listener w tgt e).
Proof.
  destruct tgt, e; cbn [AmenitiesCarousel.listener];
    first [ apply emits_ret | apply amenities_goToPrevious | apply amenities_goToNext
          | apply amenities_syncWithScroll | apply amenities_on_touchstart
          | apply amenities_on_touchmove | apply amenities_on_touchend
          | apply amenities_on_resize ].
Qed.

(** [init] of the amenities class registers click, scroll, touch and
    resize listeners, and none for [keydown]. *)
Lemma amenities_init : emits_only no_keydown AmenitiesCarousel.init.
Proof.
  pose proof (quiet_no_keydown _ amenities_updateCarousel) as Hu.
  unfold AmenitiesCarousel.init, AmenitiesCarousel.addSwipeSupport, no_keydown in *.
  emits.
Qed.

End ListenerFacts.

Module Registry.
Import App Notions.

Lemma quiet_registers_nothing (o : Owner) (es : list Effect) :
  Forall quiet es -> new_listeners o es = [].
Proof.
  unfold new_listeners. induction 1 as [|e es He _ IH]; [reflexivity|].
  cbn [flat_map]. rewrite IH. destruct e; try reflexivity.
  exfalso. apply He. exact I.
Qed.

Lemma run_rooms_listeners (m : M RoomsCarousel.t unit) (p : Page) :
  emits_only quiet m -> listeners (run_rooms m p) = listeners p.
Proof.
  intros Hm. specialize (Hm (rooms p)). unfold run_rooms.
  destruct (m (rooms p)) as [[c r] es]. cbn in *.
  rewrite (quiet_registers_nothing _ _ Hm). apply app_nil_r.
Qed.

Lemma run_amenities_listeners (m : M AmenitiesCarousel.t unit) (p : Page) :
  emits_only quiet m -> listeners (run_amenities m p) = listeners p.
Proof.
  intros Hm. unfold run_amenities. destruct (amenities p) as [a|]; [|reflexivity].
  specialize (Hm a). destruct (m a) as [[c a'] es]. cbn in *.
  rewrite (quiet_registers_nothing _ _ Hm). apply app_nil_r.
Qed.

Lemma run_rooms_amenities (m : M RoomsCarousel.t unit) (p : Page) :
  amenities (run_rooms m p) = amenities p.
Proof. unfold run_rooms. destruct (m (rooms p)) as [[c r] es]. reflexivity. Qed.

Lemma dots_only_registrations (es : list Effect) :
  Forall dots_only es -> Forall dot_registration (new_listeners OwnerRooms es).
Proof.
  unfold new_listeners. induction 1 as [|e es He _ IH]; [constructor|].
  cbn [flat_map]. apply Forall_app. split; [|exact IH].
  destruct e as [| | |tgt ty|]; try constructor; [|constructor].
  destruct tgt, ty; cbn in He; try contradiction. exact I.
Qed.

(** What a computation of the rooms instance adds to the registry. *)
Lemma run_rooms_grows (m : M RoomsCarousel.t unit) (p : Page) :
  listeners (run_rooms m p)
  = listeners p ++ new_listeners OwnerRooms (effects (m (rooms p))).
Proof. unfold run_rooms. destruct (m (rooms p)) as [[c r] es]. reflexivity. Qed.

Lemma dispatch_grows (tgt : Target) (e : Event) (p : Page) :
  listeners (dispatch tgt e p) = listeners p ++ added p (Fire tgt e).
Proof.
  unfold dispatch.
  assert (Hr : listeners
                 (if registered OwnerRooms tgt (type_of e) (listeners p)
                  then run_rooms (RoomsCarousel.listener (window p) tgt e) p else p)
               = listeners p ++ added p (Fire tgt e)).
  { destruct (registered OwnerRooms tgt (type_of e) (listeners p)) eqn:Er.
    - destruct tgt, e;
        try (rewrite run_rooms_listeners
               by (apply ListenerFacts.rooms_listener_quiet; congruence);
             cbn [added]; now rewrite app_nil_r).
      cbn [added type_of] in *. rewrite Er. apply run_rooms_grows.
    - destruct tgt, e; cbn [added type_of] in *; rewrite ?Er; now rewrite app_nil_r. }
  destruct (registered OwnerAmenities _ _ _); [|exact Hr].
  rewrite run_amenities_listeners by apply ListenerFacts.amenities_listener.
  exact Hr.
Qed.

Lemma fold_fire_listeners (tms : list (Z * Owner)) (p : Page) :
  listeners (fold_left fire tms p) = listeners p.
Proof.
  revert p. induction tms as [|tm tms IH]; intros p; cbn [fold_left]; [reflexivity|].
  rewrite IH. unfold fire. destruct (snd tm).
  - apply run_rooms_listeners, ListenerFacts.rooms_settle.
  - apply run_amenities_listeners, ListenerFacts.amenities_settle.
Qed.

Lemma step_grows (p : Page) (i : Input) :
  listeners (step p i) = listeners p ++ added p i.
Proof.
  destruct i as [tgt e|j|dt|w|l|l]; cbn [step].
  - apply dispatch_grows.
  - apply dispatch_grows.
  - unfold elapse_to. rewrite fold_fire_listeners. cbn [listeners added].
    now rewrite app_nil_r.
  - cbn [added]. now rewrite app_nil_r.
  - cbn [added]. now rewrite app_nil_r.
  - cbn [added]. now rewrite app_nil_r.
Qed.

Lemma added_unregistered (p : Page) (i : Input) :
  registered OwnerRooms WindowObj TResize (listeners p) = false -> added p i = [].
Proof.
  intros H. destruct i as [tgt e|j|dt|w|l|l]; cbn [added]; try reflexivity.
  destruct tgt, e; try reflexivity. now rewrite H.
Qed.

Lemma added_dots (p : Page) (i : Input) : Forall dot_registration (added p i).
Proof.
  destruct i as [tgt e|j|dt|w|l|l]; cbn [added]; try constructor.
  destruct tgt, e; try constructor.
  destruct (registered OwnerRooms WindowObj TResize (listeners p)); [|constructor].
  apply dots_only_registrations, ListenerFacts.rooms_on_resize.
Qed.

(** Once the modules are created, only click listeners on indicator
    buttons are added. *)
Lemma run_grows (inputs : list Input) (p : Page) :
  exists extra, listeners (run p inputs) = listeners p ++ extra
                /\ Forall dot_registration extra.
Proof.
  revert p. induction inputs as [|i inputs IH]; intros p; cbn [run fold_left].
  - exists []. split; [now rewrite app_nil_r | constructor].
  - destruct (IH (step p i)) as (extra & E & F). unfold run in E.
    exists (added p i ++ extra). split.
    + rewrite E, step_grows, app_assoc. reflexivity.
    + apply Forall_app. split; [apply added_dots | exact F].
Qed.

Lemma dot_registration_not_registered (o : Owner) (tgt : Target) (ty : EventType)
    (l : list (Owner * Target * EventType)) :
  Forall dot_registration l ->
  o = OwnerAmenities \/ ty <> TClick \/ (forall j, tgt <> RoomsDot j) ->
  registered o tgt ty l = false.
Proof.
  intros Hl Hc. unfold registered.
  induction Hl as [|[[o' tgt'] ty'] l Hx _ IH]; [reflexivity|].
  cbn [existsb]. rewrite IH, orb_false_r.
  destruct o', tgt', ty'; cbn in Hx; try contradiction.
  destruct Hc as [->|[Hc|Hc]]; [reflexivity| |].
  - destruct ty; try (now rewrite andb_false_r). contradiction.
  - destruct tgt; try (cbn; now rewrite ?andb_false_r). exfalso. now apply (Hc j0).
Qed.

(** What is registered for the amenities instance, and what is registered
    for events other than clicks, never changes. *)
Lemma run_registered (inputs : list Input) (p : Page) (o : Owner) (tgt : Target)
    (ty : EventType) :
  o = OwnerAmenities \/ ty <> TClick \/ (forall j, tgt <> RoomsDot j) ->
  registered o tgt ty (listeners (run p inputs)) = registered o tgt ty (listeners p).
Proof.
  intros Hc. destruct (run_grows inputs p) as (extra & E & F).
  rewrite E. unfold registered at 1. rewrite existsb_app.
  fold (registered o tgt ty (listeners p)). fold (registered o tgt ty extra).
  rewrite (dot_registration_not_registered o tgt ty extra F Hc). apply orb_false_r.
Qed.

Lemma other_owner_not_registered (o o' : Owner) (tgt : Target) (ty : EventType)
    (es : list Effect) :
  Owner_beq o o' = false -> registered o tgt ty (new_listeners o' es) = false.
Proof.
  intros Ho. unfold registered, new_listeners.
  induction es as [|e es IH]; [reflexivity|].
  cbn [flat_map]. rewrite existsb_app, IH, orb_false_r.
  destruct e; try reflexivity. cbn. now rewrite Ho.
Qed.

Lemma no_keydown_not_registered (o o' : Owner) (tgt : Target) (es : list Effect) :
  Forall no_keydown es -> registered o tgt TKeyDown (new_listeners o' es) = false.
Proof.
  unfold registered, new_listeners.
  induction 1 as [|e es He _ IH]; [reflexivity|].
  cbn [flat_map]. rewrite existsb_app, IH, orb_false_r.
  destruct e as [| | |tgt' ty|]; try reflexivity.
  destruct ty; try (cbn; now rewrite andb_false_r).
  exfalso. apply He. exact I.
Qed.

Lemma registered_app (o : Owner) (tgt : Target) (ty : EventType)
    (l1 l2 : list (Owner * Target * EventType)) :
  registered o tgt ty (l1 ++ l2) = registered o tgt ty l1 || registered o tgt ty l2.
Proof. unfold registered. apply existsb_app. Qed.

Lemma initializeModules_registry (m : Markup) (tgt : Target) :
  registered OwnerAmenities tgt TKeyDown (listeners (initializeModules m)) = false.
Proof.
  unfold initializeModules, RoomsCarousel.new, AmenitiesCarousel.new.
  destruct (RoomsCarousel.init _) as [[[[]|e] r] er].
  - pose proof (ListenerFacts.amenities_init
                  (AmenitiesCarousel.fields (amenitiesCarousel m)
                     (amenities_arrow_left m) (amenities_arrow_right m) (viewport m)))
      as Ha.
    destruct (AmenitiesCarousel.init _) as [[c a] ea].
    cbn [listeners effects snd] in *. rewrite registered_app.
    rewrite other_owner_not_registered by reflexivity.
    now rewrite no_keydown_not_registered.
  - cbn [listeners]. now apply other_owner_not_registered.
Qed.

End Registry.

(** C10: on every page the two constructors can produce and after every
    sequence of events, the amenities instance has no [keydown] listener
    registered on any target, and a [keydown] event of any key leaves the
    amenities instance, all its fields included, as it was. *)
Theorem keydown_leaves_amenities
    (m : App.Markup) (inputs : list App.Input) (key : Key) :
  let p := App.run (App.initializeModules m) inputs in
  (forall tgt, App.registered OwnerAmenities tgt TKeyDown (App.listeners p) = false) /\
  App.amenities (App.step p (App.Fire Document (KeyDown key))) = App.amenities p.
Proof.
  intros p.
  assert (H : forall tgt,
             App.registered OwnerAmenities tgt TKeyDown (App.listeners p) = false).
  { intros tgt. subst p. rewrite Registry.run_registered by (left; reflexivity).
    apply Registry.initializeModules_registry. }
  split; [exact H|].
  cbn [App.step]. unfold App.dispatch. cbn [type_of]. rewrite H.
  destruct (App.registered OwnerRooms _ _ _); [|reflexivity].
  apply Registry.run_rooms_amenities.
Qed.

(* ================================================================== *)
(** * Further properties of the carousels *)

(** ** Arrow presses *)

Lemma rooms_goToNext_step (s : RoomsCarousel.t) (l : Layout) :
  RoomsCarousel.carousel s = Some l -> cards l <> [] ->
  let s' := state_of (RoomsCarousel.goToNext s) in
  RoomsCarousel.carousel s' = Some l /\
  RoomsCarousel.maxIndex s' = RoomsCarousel.maxIndex s /\
  RoomsCarousel.currentIndex s'
  = (if RoomsCarousel.currentIndex s <? RoomsCarousel.maxIndex s
     then RoomsCarousel.currentIndex s + 1 else RoomsCarousel.currentIndex s).
Proof.
  intros Hl Hne. destruct (cards l) as [|w tl] eqn:Hw; [congruence|].
  rewrite RoomsFacts.goToNext_eq.
  destruct (RoomsCarousel.currentIndex s <? RoomsCarousel.maxIndex s).
  - rewrite (RoomsFacts.updateCarousel_eq (RoomsCarousel.set_currentIndex _ s) l w tl Hl Hw).
    repeat split; assumption.
  - repeat split; assumption.
Qed.

Lemma rooms_goToPrevious_step (s : RoomsCarousel.t) (l : Layout) :
  RoomsCarousel.carousel s = Some l -> cards l <> [] ->
  let s' := state_of (RoomsCarousel.goToPrevious s) in
  RoomsCarousel.carousel s' = Some l /\
  RoomsCarousel.maxIndex s' = RoomsCarousel.maxIndex s /\
  RoomsCarousel.currentIndex s'
  = (if RoomsCarousel.currentIndex s >? 0
     then RoomsCarousel.currentIndex s - 1 else RoomsCarousel.currentIndex s).
Proof.
  intros Hl Hne. destruct (cards l) as [|w tl] eqn:Hw; [congruence|].
  rewrite RoomsFacts.goToPrevious_eq.
  destruct (RoomsCarousel.currentIndex s >? 0).
  - rewrite (RoomsFacts.updateCarousel_eq (RoomsCarousel.set_currentIndex _ s) l w tl Hl Hw).
    repeat split; assumption.
  - repeat split; assumption.
Qed.

Lemma amenities_goToNext_step (s : AmenitiesCarousel.t) (l : Layout) :
  AmenitiesCarousel.carousel s = Some l -> cards l <> [] ->
  let s' := state_of (AmenitiesCarousel.goToNext s) in
  AmenitiesCarousel.carousel s' = Some l /\
  AmenitiesCarousel.maxIndex s' = AmenitiesCarousel.maxIndex s /\
  AmenitiesCarousel.currentIndex s'
  = (if AmenitiesCarousel.currentIndex s <? AmenitiesCarousel.maxIndex s
     then AmenitiesCarousel.currentIndex s + 1 else AmenitiesCarousel.currentIndex s).
Proof.
  intros Hl Hne. destruct (cards l) as [|w tl] eqn:Hw; [congruence|].
  rewrite AmenitiesFacts.amenities_goToNext_eq.
  destruct (AmenitiesCarousel.currentIndex s <? AmenitiesCarousel.maxIndex s).
  - rewrite (AmenitiesFacts.amenities_updateCarousel_eq
               (AmenitiesCarousel.set_currentIndex _ s) l w tl Hl Hw).
    repeat split; assumption.
  - repeat split; assumption.
Qed.

Lemma amenities_goToPrevious_step (s : AmenitiesCarousel.t) (l : Layout) :
  AmenitiesCarousel.carousel s = Some l -> cards l <> [] ->
  let s' := state_of (AmenitiesCarousel.goToPrevious s) in
  AmenitiesCarousel.carousel s' = Some l /\
  AmenitiesCarousel.maxIndex s' = AmenitiesCarousel.maxIndex s /\
  AmenitiesCarousel.currentIndex s'
  = (if AmenitiesCarousel.currentIndex s >? 0
     then AmenitiesCarousel.currentIndex s - 1 else AmenitiesCarousel.currentIndex s).
Proof.
  intros Hl Hne. destruct (cards l) as [|w tl] eqn:Hw; [congruence|].
  rewrite AmenitiesFacts.amenities_goToPrevious_eq.
  destruct (AmenitiesCarousel.currentIndex s >? 0).
  - rewrite (AmenitiesFacts.amenities_updateCarousel_eq
               (AmenitiesCarousel.set_currentIndex _ s) l w tl Hl Hw).
    repeat split; assumption.
  - repeat split; assumption.
Qed.

Lemma rooms_next_presses (n : nat) (s : RoomsCarousel.t) (l : Layout) :
  RoomsCarousel.carousel s = Some l -> cards l <> [] ->
  RoomsCarousel.currentIndex s <= RoomsCarousel.maxIndex s ->
  let s' := Script.presses RoomsCarousel.goToNext n s in
  RoomsCarousel.carousel s' = Some l /\
  RoomsCarousel.maxIndex s' = RoomsCarousel.maxIndex s /\
  RoomsCarousel.currentIndex s'
  = Z.min (RoomsCarousel.currentIndex s + Z.of_nat n) (RoomsCarousel.maxIndex s).
Proof.
  intros Hl Hne Hle. induction n as [|n (IH1 & IH2 & IH3)].
  - cbn. repeat split; [assumption | lia].
  - unfold Script.presses in *. rewrite Nat.iter_succ.
    destruct (rooms_goToNext_step _ l IH1 Hne) as (H1 & H2 & H3).
    split; [exact H1|]. split; [exact (eq_trans H2 IH2)|].
    rewrite H3, IH2, IH3.
    destruct (Z.ltb_spec (Z.min (RoomsCarousel.currentIndex s + Z.of_nat n)
                            (RoomsCarousel.maxIndex s)) (RoomsCarousel.maxIndex s)); lia.
Qed.

Lemma rooms_previous_presses (n : nat) (s : RoomsCarousel.t) (l : Layout) :
  RoomsCarousel.carousel s = Some l -> cards l <> [] ->
  0 <= RoomsCarousel.currentIndex s ->
  let s' := Script.presses RoomsCarousel.goToPrevious n s in
  RoomsCarousel.carousel s' = Some l /\
  RoomsCarousel.currentIndex s' = Z.max (RoomsCarousel.currentIndex s - Z.of_nat n) 0.
Proof.
  intros Hl Hne Hle. induction n as [|n (IH1 & IH3)].
  - cbn. repeat split; [assumption | lia].
  - unfold Script.presses in *. rewrite Nat.iter_succ.
    destruct (rooms_goToPrevious_step _ l IH1 Hne) as (H1 & _ & H3).
    split; [exact H1|]. rewrite H3, IH3.
    destruct (Z.gtb_spec (Z.max (RoomsCarousel.currentIndex s - Z.of_nat n) 0) 0); lia.
Qed.

Lemma amenities_next_presses (n : nat) (s : AmenitiesCarousel.t) (l : Layout) :
  AmenitiesCarousel.carousel s = Some l -> cards l <> [] ->
  AmenitiesCarousel.currentIndex s <= AmenitiesCarousel.maxIndex s ->
  let s' := Script.presses AmenitiesCarousel.goToNext n s in
  AmenitiesCarousel.carousel s' = Some l /\
  AmenitiesCarousel.maxIndex s' = AmenitiesCarousel.maxIndex s /\
  AmenitiesCarousel.currentIndex s'
  = Z.min (AmenitiesCarousel.currentIndex s + Z.of_nat n) (AmenitiesCarousel.maxIndex s).
Proof.
  intros Hl Hne Hle. induction n as [|n (IH1 & IH2 & IH3)].
  - cbn. repeat split; [assumption | lia].
  - unfold Script.presses in *. rewrite Nat.iter_succ.
    destruct (amenities_goToNext_step _ l IH1 Hne) as (H1 & H2 & H3).
    split; [exact H1|]. split; [exact (eq_trans H2 IH2)|].
    rewrite H3, IH2, IH3.
    destruct (Z.ltb_spec (Z.min (AmenitiesCarousel.currentIndex s + Z.of_nat n)
                            (AmenitiesCarousel.maxIndex s))
                (AmenitiesCarousel.maxIndex s)); lia.
Qed.

Lemma amenities_previous_presses (n : nat) (s : AmenitiesCarousel.t) (l : Layout) :
  AmenitiesCarousel.carousel s = Some l -> cards l <> [] ->
  0 <= AmenitiesCarousel.currentIndex s ->
  let s' := Script.presses AmenitiesCarousel.goToPrevious n s in
  AmenitiesCarousel.carousel s' = Some l /\
  AmenitiesCarousel.currentIndex s'
  = Z.max (AmenitiesCarousel.currentIndex s - Z.of_nat n) 0.
Proof.
  intros Hl Hne Hle. induction n as [|n (IH1 & IH3)].
  - cbn. repeat split; [assumption | lia].
  - unfold Script.presses in *. rewrite Nat.iter_succ.
    destruct (amenities_goToPrevious_step _ l IH1 Hne) as (H1 & _ & H3).
    split; [exact H1|]. rewrite H3, IH3.
    destruct (Z.gtb_spec (Z.max (AmenitiesCarousel.currentIndex s - Z.of_nat n) 0) 0); lia.
Qed.

(** X1: [n] presses of the next arrow move an index that is not above
    [maxIndex] to [min(currentIndex + n, maxIndex)] and [n] presses of the
    previous arrow move a non-negative index to [max(currentIndex - n, 0)]:
    the arrows saturate at the two ends, in both classes. *)
Theorem arrows_saturate
    (n : nat) (r : RoomsCarousel.t) (lr : Layout) (a : AmenitiesCarousel.t) (la : Layout) :
  RoomsCarousel.carousel r = Some lr -> cards lr <> [] ->
  AmenitiesCarousel.carousel a = Some la -> cards la <> [] ->
  (RoomsCarousel.currentIndex r <= RoomsCarousel.maxIndex r ->
   RoomsCarousel.currentIndex (Script.presses RoomsCarousel.goToNext n r)
   = Z.min (RoomsCarousel.currentIndex r + Z.of_nat n) (RoomsCarousel.maxIndex r)) /\
  (0 <= RoomsCarousel.currentIndex r ->
   RoomsCarousel.currentIndex (Script.presses RoomsCarousel.goToPrevious n r)
   = Z.max (RoomsCarousel.currentIndex r - Z.of_nat n) 0) /\
  (AmenitiesCarousel.currentIndex a <= AmenitiesCarousel.maxIndex a ->
   AmenitiesCarousel.currentIndex (Script.presses AmenitiesCarousel.goToNext n a)
   = Z.min (AmenitiesCarousel.currentIndex a + Z.of_nat n) (AmenitiesCarousel.maxIndex a)) /\
  (0 <= AmenitiesCarousel.currentIndex a ->
   AmenitiesCarousel.currentIndex (Script.presses AmenitiesCarousel.goToPrevious n a)
   = Z.max (AmenitiesCarousel.currentIndex a - Z.of_nat n) 0).
Proof.
  intros Hlr Hnr Hla Hna. repeat split; intros H.
  - apply (rooms_next_presses n r lr Hlr Hnr H).
  - apply (rooms_previous_presses n r lr Hlr Hnr H).
  - apply (amenities_next_presses n a la Hla Hna H).
  - apply (amenities_previous_presses n a la Hla Hna H).
Qed.

Lemma arrows_saturate_witness :
  RoomsCarousel.currentIndex
    (Script.presses RoomsCarousel.goToNext 5 Examples.rooms_desktop) = 3.
Proof.
  refine (proj1 (arrows_saturate 5 Examples.rooms_desktop
                   (Examples.layout 5 300 0 1620 960) Examples.amenities_desktop
                   (Examples.layout 8 200 0 1740 860) _ _ _ _) _).
  - reflexivity.
  - discriminate.
  - reflexivity.
  - discriminate.
  - vm_compute. discriminate.
Defined.

(** X2: away from the ends the two arrows undo each other: with
    [0 <= currentIndex < maxIndex], next then previous restores the index,
    and with [0 < currentIndex <= maxIndex], previous then next does. *)
Theorem arrows_undo_each_other
    (r : RoomsCarousel.t) (lr : Layout) (a : AmenitiesCarousel.t) (la : Layout) :
  RoomsCarousel.carousel r = Some lr -> cards lr <> [] ->
  AmenitiesCarousel.carousel a = Some la -> cards la <> [] ->
  (0 <= RoomsCarousel.currentIndex r < RoomsCarousel.maxIndex r ->
   RoomsCarousel.currentIndex
     (state_of (RoomsCarousel.goToPrevious (state_of (RoomsCarousel.goToNext r))))
   = RoomsCarousel.currentIndex r) /\
  (0 < RoomsCarousel.currentIndex r <= RoomsCarousel.maxIndex r ->
   RoomsCarousel.currentIndex
     (state_of (RoomsCarousel.goToNext (state_of (RoomsCarousel.goToPrevious r))))
   = RoomsCarousel.currentIndex r) /\
  (0 <= AmenitiesCarousel.currentIndex a < AmenitiesCarousel.maxIndex a ->
   AmenitiesCarousel.currentIndex
     (state_of (AmenitiesCarousel.goToPrevious (state_of (AmenitiesCarousel.goToNext a))))
   = AmenitiesCarousel.currentIndex a) /\
  (0 < AmenitiesCarousel.currentIndex a <= AmenitiesCarousel.maxIndex a ->
   AmenitiesCarousel.currentIndex
     (state_of (AmenitiesCarousel.goToNext (state_of (AmenitiesCarousel.goToPrevious a))))
   = AmenitiesCarousel.currentIndex a).
Proof.
  intros Hlr Hnr Hla Hna.
  destruct (rooms_goToNext_step r lr Hlr Hnr) as (N1 & N2 & N3).
  destruct (rooms_goToPrevious_step r lr Hlr Hnr) as (P1 & P2 & P3).
  destruct (rooms_goToPrevious_step _ lr N1 Hnr) as (_ & _ & PN).
  destruct (rooms_goToNext_step _ lr P1 Hnr) as (_ & _ & NP).
  destruct (amenities_goToNext_step a la Hla Hna) as (AN1 & AN2 & AN3).
  destruct (amenities_goToPrevious_step a la Hla Hna) as (AP1 & AP2 & AP3).
  destruct (amenities_goToPrevious_step _ la AN1 Hna) as (_ & _ & APN).
  destruct (amenities_goToNext_step _ la AP1 Hna) as (_ & _ & ANP).
  repeat split; intros H.
  - rewrite PN, N3.
    destruct (Z.ltb_spec (RoomsCarousel.currentIndex r) (RoomsCarousel.maxIndex r)); [|lia].
    destruct (Z.gtb_spec (RoomsCarousel.currentIndex r + 1) 0); lia.
  - rewrite NP, P2, P3.
    destruct (Z.gtb_spec (RoomsCarousel.currentIndex r) 0); [|lia].
    destruct (Z.ltb_spec (RoomsCarousel.currentIndex r - 1) (RoomsCarousel.maxIndex r)); lia.
  - rewrite APN, AN3.
    destruct (Z.ltb_spec (AmenitiesCarousel.currentIndex a) (AmenitiesCarousel.maxIndex a));
      [|lia].
    destruct (Z.gtb_spec (AmenitiesCarousel.currentIndex a + 1) 0); lia.
  - rewrite ANP, AP2, AP3.
    destruct (Z.gtb_spec (AmenitiesCarousel.currentIndex a) 0); [|lia].
    destruct (Z.ltb_spec (AmenitiesCarousel.currentIndex a - 1)
                (AmenitiesCarousel.maxIndex a)); lia.
Qed.

Lemma arrows_undo_each_other_witness :
  RoomsCarousel.currentIndex
    (state_of (RoomsCarousel.goToPrevious
                 (state_of (RoomsCarousel.goToNext Examples.rooms_desktop))))
  = RoomsCarousel.currentIndex Examples.rooms_desktop.
Proof.
  refine (proj1 (arrows_undo_each_other Examples.rooms_desktop
                   (Examples.layout 5 300 0 1620 960) Examples.amenities_desktop
                   (Examples.layout 8 200 0 1740 860) _ _ _ _) _).
  - reflexivity.
  - discriminate.
  - reflexivity.
  - discriminate.
  - vm_compute. split; [discriminate | reflexivity].
Defined.

(** ** Rendering twice *)

Lemma forEach_dot_again (cur from : Z) (ds : list RoomsCarousel.Dot) :
  RoomsCarousel.forEach_dot cur from (RoomsCarousel.forEach_dot cur from ds)
  = RoomsCarousel.forEach_dot cur from ds.
Proof.
  revert from. induction ds as [|d ds IH]; intros from; cbn; [reflexivity|].
  now rewrite IH.
Qed.

(** X3: [updateUI] is idempotent in both classes: a second render right
    after a render changes no field, whatever the fields were. *)
Theorem updateUI_idempotent (r : RoomsCarousel.t) (a : AmenitiesCarousel.t) :
  state_of (RoomsCarousel.updateUI (state_of (RoomsCarousel.updateUI r)))
  = state_of (RoomsCarousel.updateUI r) /\
  state_of (AmenitiesCarousel.updateUI (state_of (AmenitiesCarousel.updateUI a)))
  = state_of (AmenitiesCarousel.updateUI a).
Proof.
  rewrite !RoomsFacts.updateUI_eq, !AmenitiesFacts.amenities_updateUI_eq.
  cbn [state_of fst snd]. split.
  - destruct r as [c la ra dc ci tr sc mo sw].
    unfold RoomsCarousel.rendered, RoomsCarousel.maxIndex. cbn.
    destruct la, ra, dc; cbn; rewrite ?forEach_dot_again; reflexivity.
  - destruct a as [c la ra ci tc sc mo sw].
    unfold AmenitiesCarousel.rendered, AmenitiesCarousel.maxIndex. cbn.
    destruct la, ra; reflexivity.
Qed.

(** ** Resizing *)

Lemma forEach_dot_new_dots (n : Z) :
  RoomsCarousel.forEach_dot 0 0 (RoomsCarousel.new_dots n) = RoomsCarousel.new_dots n.
Proof.
  unfold RoomsCarousel.new_dots.
  assert (G : forall len start,
    RoomsCarousel.forEach_dot 0 (Z.of_nat start)
      (map (fun i => {| RoomsCarousel.active := Z.of_nat i =? 0;
                        RoomsCarousel.slide := Z.of_nat i |}) (seq start len))
    = map (fun i => {| RoomsCarousel.active := Z.of_nat i =? 0;
                       RoomsCarousel.slide := Z.of_nat i |}) (seq start len)).
  { induction len as [|len IH]; intros start; cbn; [reflexivity|].
    f_equal. replace (Z.of_nat start + 1) with (Z.of_nat (S start)) by lia. apply IH. }
  apply (G _ 0%nat).
Qed.

Lemma set_isMobile_same (s : RoomsCarousel.t) :
  RoomsCarousel.set_isMobile (RoomsCarousel.isMobile s) s = s.
Proof. destruct s. reflexivity. Qed.

Lemma amenities_set_isMobile_same (s : AmenitiesCarousel.t) :
  AmenitiesCarousel.set_isMobile (AmenitiesCarousel.isMobile s) s = s.
Proof. destruct s. reflexivity. Qed.

(** X4: the resize listener of the rooms carousel, with the dots container
    and a first card present.  When the viewport stays on the same side of
    768px nothing happens.  When it crosses, the listener completes with
    the new mode, [currentIndex = 0], [isScrolling] set, the dots container
    holding exactly the buttons [createDots] makes for the new mode (the
    first one active), a click listener registered on each of them, and one
    scroll command to offset 0. *)
Theorem rooms_resize
    (w : Window) (s : RoomsCarousel.t) (l : Layout) (cw : Z) (tl : list Z)
    (ds : list RoomsCarousel.Dot) :
  RoomsCarousel.carousel s = Some l -> cards l = cw :: tl ->
  RoomsCarousel.dotsContainer s = Some ds ->
  let mobile := innerWidth w <=? 768 in
  let r := RoomsCarousel.on_resize w s in
  (RoomsCarousel.isMobile s = mobile -> r = (Normal tt, s, [])) /\
  (RoomsCarousel.isMobile s <> mobile ->
   completion r = Normal tt /\
   effects r
   = RoomsCarousel.dot_listeners 0 (RoomsCarousel.numDots (state_of r))
     ++ Notions.commands cw 30 0 /\
   RoomsCarousel.isMobile (state_of r) = mobile /\
   RoomsCarousel.currentIndex (state_of r) = 0 /\
   RoomsCarousel.isScrolling (state_of r) = true /\
   RoomsCarousel.totalRooms (state_of r) = RoomsCarousel.totalRooms s /\
   RoomsCarousel.dotsContainer (state_of r)
   = Some (RoomsCarousel.new_dots (RoomsCarousel.numDots (state_of r)))).
Proof.
  intros Hl Hw Hd mobile r. subst r.
  rewrite (RoomsSetup.on_resize_eq w s l cw tl ds Hl Hw Hd). fold mobile. split.
  - intros E. rewrite <- E, eqb_reflx, set_isMobile_same. reflexivity.
  - intros E. destruct (Bool.eqb (RoomsCarousel.isMobile s) mobile) eqn:Eb.
    + apply eqb_prop in Eb. contradiction.
    + cbn. rewrite forEach_dot_new_dots. repeat split.
Qed.

Lemma rooms_resize_witness :
  RoomsCarousel.currentIndex
    (state_of (RoomsCarousel.on_resize Examples.phone
                 (state_of (RoomsCarousel.goToSlide 3 Examples.rooms_desktop)))) = 0.
Proof.
  refine (proj1 (proj2 (proj2 (proj2 (proj2
    (rooms_resize Examples.phone
       (state_of (RoomsCarousel.goToSlide 3 Examples.rooms_desktop))
       (Examples.layout 5 300 0 1620 960) 300 [300; 300; 300; 300]
       (RoomsCarousel.forEach_dot 3 0 (RoomsCarousel.new_dots 4)) _ _ _) _))))).
  - reflexivity.
  - reflexivity.
  - reflexivity.
  - vm_compute. discriminate.
Defined.

(** X5: the resize listener of the rooms carousel reads
    [this.dotsContainer.innerHTML] without the guard [createDots] has.
    With no dots container, a resize that crosses 768px throws a
    [TypeError] after [isMobile] was switched and before the index is
    reset: every other field stays, so an index at the narrow layout's last
    card is above the wide layout's [maxIndex] afterwards. *)
Theorem rooms_resize_without_dots (w : Window) (s : RoomsCarousel.t) :
  RoomsCarousel.dotsContainer s = None ->
  RoomsCarousel.isMobile s <> (innerWidth w <=? 768) ->
  RoomsCarousel.on_resize w s
  = (Throw TypeError, RoomsCarousel.set_isMobile (innerWidth w <=? 768) s, []) /\
  (RoomsCarousel.isMobile s = true ->
   RoomsCarousel.currentIndex s = RoomsCarousel.maxIndex s ->
   RoomsCarousel.maxIndex (state_of (RoomsCarousel.on_resize w s))
   < RoomsCarousel.currentIndex (state_of (RoomsCarousel.on_resize w s))).
Proof.
  intros Hd E.
  assert (R : RoomsCarousel.on_resize w s
              = (Throw TypeError,
                 RoomsCarousel.set_isMobile (innerWidth w <=? 768) s, [])).
  { unfold RoomsCarousel.on_resize. rewrite bind_get, bind_modify, bind_get.
    cbn [RoomsCarousel.isMobile RoomsCarousel.set_isMobile].
    destruct (Bool.eqb (RoomsCarousel.isMobile s) (innerWidth w <=? 768)) eqn:Eb.
    - apply eqb_prop in Eb. contradiction.
    - cbn [negb RoomsCarousel.dotsContainer RoomsCarousel.set_isMobile].
      rewrite Hd. reflexivity. }
  split; [exact R|]. intros Hm Hc. rewrite R. cbn. unfold RoomsCarousel.maxIndex in *.
  rewrite Hm in *. destruct (innerWidth w <=? 768); [congruence | cbn in *; lia].
Qed.

Lemma rooms_resize_without_dots_witness :
  let s := RoomsCarousel.set_dotsContainer None
             (state_of (RoomsCarousel.goToSlide 4 Examples.rooms_phone)) in
  completion (RoomsCarousel.on_resize Examples.desktop s) = Throw TypeError /\
  RoomsCarousel.currentIndex (state_of (RoomsCarousel.on_resize Examples.desktop s)) = 4 /\
  RoomsCarousel.maxIndex (state_of (RoomsCarousel.on_resize Examples.desktop s)) = 3.
Proof.
  intros s.
  destruct (rooms_resize_without_dots Examples.desktop s) as [R _].
  - reflexivity.
  - vm_compute. discriminate.
  - rewrite R. vm_compute. repeat split.
Defined.

(** X6: the resize listener of the amenities carousel, with a first card
    present: nothing happens while the viewport stays on the same side of
    768px; when it crosses, the index is reset to 0 and one scroll command
    to offset 0 is sent.  It never throws. *)
Theorem amenities_resize
    (w : Window) (s : AmenitiesCarousel.t) (l : Layout) (cw : Z) (tl : list Z) :
  AmenitiesCarousel.carousel s = Some l -> cards l = cw :: tl ->
  let mobile := innerWidth w <=? 768 in
  let r := AmenitiesCarousel.on_resize w s in
  (AmenitiesCarousel.isMobile s = mobile -> r = (Normal tt, s, [])) /\
  (AmenitiesCarousel.isMobile s <> mobile ->
   completion r = Normal tt /\
   effects r = Notions.commands cw 20 0 /\
   AmenitiesCarousel.isMobile (state_of r) = mobile /\
   AmenitiesCarousel.currentIndex (state_of r) = 0 /\
   AmenitiesCarousel.isScrolling (state_of r) = true /\
   AmenitiesCarousel.totalCards (state_of r) = AmenitiesCarousel.totalCards s).
Proof.
  intros Hl Hw mobile r. subst r.
  unfold AmenitiesCarousel.on_resize. rewrite bind_get, bind_modify, bind_get.
  cbn [AmenitiesCarousel.isMobile AmenitiesCarousel.set_isMobile]. fold mobile. split.
  - intros E. rewrite <- E, eqb_reflx. cbn [negb].
    rewrite amenities_set_isMobile_same. reflexivity.
  - intros E. destruct (Bool.eqb (AmenitiesCarousel.isMobile s) mobile) eqn:Eb.
    + apply eqb_prop in Eb. contradiction.
    + cbn [negb]. rewrite bind_modify.
      erewrite AmenitiesFacts.amenities_updateCarousel_eq; [|exact Hl|exact Hw].
      cbn. repeat split.
Qed.

Lemma amenities_resize_witness :
  AmenitiesCarousel.currentIndex
    (state_of (AmenitiesCarousel.on_resize Examples.phone
                 (state_of (AmenitiesCarousel.goToNext Examples.amenities_desktop)))) = 0.
Proof.
  refine (proj1 (proj2 (proj2 (proj2 (proj2
    (amenities_resize Examples.phone
       (state_of (AmenitiesCarousel.goToNext Examples.amenities_desktop))
       (Examples.layout 8 200 0 1740 860) 200 [200; 200; 200; 200; 200; 200; 200] _ _) _))))).
  - reflexivity.
  - reflexivity.
  - vm_compute. discriminate.
Defined.

(** ** Arrow keys *)

Lemma Qgtb_true (a b : Q) : (b < a)%Q -> Qgtb a b = true.
Proof.
  intros H. unfold Qgtb. destruct (Qle_bool a b) eqn:E; [|reflexivity].
  apply Qle_bool_iff in E. lra.
Qed.

Lemma Qgtb_false (a b : Q) : (a <= b)%Q -> Qgtb a b = false.
Proof. intros H. unfold Qgtb. apply Qle_bool_iff in H. now rewrite H. Qed.

Lemma Qltb_true (a b : Q) : (a < b)%Q -> Qltb a b = true.
Proof.
  intros H. unfold Qltb. destruct (Qle_bool b a) eqn:E; [|reflexivity].
  apply Qle_bool_iff in E. lra.
Qed.

Lemma Qltb_false (a b : Q) : (b <= a)%Q -> Qltb a b = false.
Proof. intros H. unfold Qltb. apply Qle_bool_iff in H. now rewrite H. Qed.

(** X7: the [keydown] listener of the rooms carousel.  While the
    container's box is outside the viewport (top at or below the viewport
    height, or bottom at or above 0) every key is ignored.  While it is
    inside, other keys are ignored, and an arrow key calls
    [preventDefault] and then does what the arrow button does; the default
    action is suppressed also at the ends, where the index does not move. *)
Theorem arrow_keys (w : Window) (s : RoomsCarousel.t) (l : Layout) :
  RoomsCarousel.carousel s = Some l ->
  ((inject_Z (innerHeight w) <= rectTop l)%Q \/ (rectBottom l <= 0)%Q ->
   forall k, RoomsCarousel.on_keydown w k s = (Normal tt, s, [])) /\
  ((rectTop l < inject_Z (innerHeight w))%Q /\ (0 < rectBottom l)%Q ->
   RoomsCarousel.on_keydown w OtherKey s = (Normal tt, s, []) /\
   RoomsCarousel.on_keydown w ArrowRight s
   = (completion (RoomsCarousel.goToNext s), state_of (RoomsCarousel.goToNext s),
      PreventDefault :: effects (RoomsCarousel.goToNext s)) /\
   RoomsCarousel.on_keydown w ArrowLeft s
   = (completion (RoomsCarousel.goToPrevious s), state_of (RoomsCarousel.goToPrevious s),
      PreventDefault :: effects (RoomsCarousel.goToPrevious s)) /\
   (RoomsCarousel.maxIndex s <= RoomsCarousel.currentIndex s ->
    RoomsCarousel.on_keydown w ArrowRight s = (Normal tt, s, [PreventDefault])) /\
   (RoomsCarousel.currentIndex s <= 0 ->
    RoomsCarousel.on_keydown w ArrowLeft s = (Normal tt, s, [PreventDefault]))).
Proof.
  intros Hl.
  assert (E : forall k, RoomsCarousel.on_keydown w k s
    = (if negb (Qltb (rectTop l) (inject_Z (innerHeight w)) && Qgtb (rectBottom l) 0)
       then (Normal tt, s, [])
       else match k with
            | ArrowLeft => (emit PreventDefault ;; RoomsCarousel.goToPrevious) s
            | ArrowRight => (emit PreventDefault ;; RoomsCarousel.goToNext) s
            | OtherKey => (Normal tt, s, [])
            end)).
  { intros k. unfold RoomsCarousel.on_keydown. rewrite bind_get, Hl.
    cbn [the_carousel]. rewrite bind_ret.
    destruct (negb _); [reflexivity|]. destruct k; reflexivity. }
  split.
  - intros Hout k. rewrite E.
    destruct Hout as [H|H].
    + rewrite (Qltb_false _ _ H). reflexivity.
    + rewrite (Qgtb_false _ _ H), andb_false_r. reflexivity.
  - intros [Ht Hb]. rewrite !E, (Qltb_true _ _ Ht), (Qgtb_true _ _ Hb). cbn [andb negb].
    rewrite !bind_emit.
    split; [reflexivity|]. split; [reflexivity|]. split; [reflexivity|]. split.
    + intros Hmax. rewrite RoomsFacts.goToNext_eq.
      destruct (Z.ltb_spec (RoomsCarousel.currentIndex s) (RoomsCarousel.maxIndex s));
        [lia | reflexivity].
    + intros Hmin. rewrite RoomsFacts.goToPrevious_eq.
      destruct (Z.gtb_spec (RoomsCarousel.currentIndex s) 0); [lia | reflexivity].
Qed.

Lemma arrow_keys_witness :
  RoomsCarousel.on_keydown Examples.desktop ArrowLeft Examples.rooms_desktop
  = (Normal tt, Examples.rooms_desktop, [PreventDefault]).
Proof.
  refine (proj2 (proj2 (proj2 (proj2
    (proj2 (arrow_keys Examples.desktop Examples.rooms_desktop
              (Examples.layout 5 300 0 1620 960) _) _)))) _).
  - reflexivity.
  - split; reflexivity.
  - vm_compute. discriminate.
Defined.

(** ** Touch gestures *)

















Lemma amenities_goToNext_normal (s : AmenitiesCarousel.t) (l : Layout) :
  AmenitiesCarousel.carousel s = Some l -> cards l <> [] ->
  completion (AmenitiesCarousel.goToNext s) = Normal tt /\
  AmenitiesCarousel.swipe (state_of (AmenitiesCarousel.goToNext s))
  = AmenitiesCarousel.swipe s.
Proof.
  intros Hl Hne. destruct (cards l) as [|w tl] eqn:Hw; [congruence|].
  rewrite AmenitiesFacts.amenities_goToNext_eq. destruct (_ <? _); [|split; reflexivity].
  rewrite (AmenitiesFacts.amenities_updateCarousel_eq
             (AmenitiesCarousel.set_currentIndex _ s) l w tl Hl Hw).
  split; reflexivity.
Qed.

Lemma amenities_goToPrevious_normal (s : AmenitiesCarousel.t) (l : Layout) :
  AmenitiesCarousel.carousel s = Some l -> cards l <> [] ->
  completion (AmenitiesCarousel.goToPrevious s) = Normal tt /\
  AmenitiesCarousel.swipe (state_of (AmenitiesCarousel.goToPrevious s))
  = AmenitiesCarousel.swipe s.
Proof.
  intros Hl Hne. destruct (cards l) as [|w tl] eqn:Hw; [congruence|].
  rewrite AmenitiesFacts.amenities_goToPrevious_eq. destruct (_ >? _); [|split; reflexivity].
  rewrite (AmenitiesFacts.amenities_updateCarousel_eq
             (AmenitiesCarousel.set_currentIndex _ s) l w tl Hl Hw).
  split; reflexivity.
Qed.


Lemma amenities_touchend_after (m : M AmenitiesCarousel.t unit) (s : AmenitiesCarousel.t) :
  completion (m s) = Normal tt ->
  (m ;; s' <- get ;;
   modify (AmenitiesCarousel.set_swipe (touchend_reset (AmenitiesCarousel.swipe s')))) s
  = (Normal tt,
     AmenitiesCarousel.set_swipe (touchend_reset (AmenitiesCarousel.swipe (state_of (m s))))
       (state_of (m s)),
     effects (m s)).
Proof.
  intros H. unfold bind at 1. destruct (m s) as [[c s1] e1]. cbn in H. subst c.
  rewrite bind_get. cbn. now rewrite app_nil_r.
Qed.



(** ** The two instances on the page *)

Lemma run_amenities_rooms (m : M AmenitiesCarousel.t unit) (p : App.Page) :
  App.rooms (App.run_amenities m p) = App.rooms p.
Proof.
  unfold App.run_amenities. destruct (App.amenities p) as [a|]; [|reflexivity].
  destruct (m a) as [[c a'] es]. reflexivity.
Qed.

Lemma run_rooms_ret (p : App.Page) : App.rooms (App.run_rooms (ret tt) p) = App.rooms p.
Proof. reflexivity. Qed.

Lemma run_amenities_ret (p : App.Page) :
  App.amenities (App.run_amenities (ret tt) p) = App.amenities p.
Proof.
  unfold App.run_amenities. destruct (App.amenities p) eqn:E; cbn; congruence.
Qed.

(** ** The flag is always cleared *)

Module SettleFacts.
Import App Invariants Settle.

Lemma rooms_goto_arms (s : RoomsCarousel.t) (i : Z) (o : Owner) (now : Z) :
  rooms_ok s ->
  new_timers o now
    (effects (RoomsCarousel.updateCarousel (RoomsCarousel.set_currentIndex i s)))
  = [(now + 500, o)].
Proof.
  intros ((l & Hl & Hne) & _). destruct (cards l) as [|w tl] eqn:Hw; [congruence|].
  rewrite (RoomsFacts.updateCarousel_eq (RoomsCarousel.set_currentIndex i s) l w tl Hl Hw).
  reflexivity.
Qed.

Lemma rooms_arms_goToNext :
  arms RoomsCarousel.isScrolling rooms_ok RoomsCarousel.goToNext.
Proof.
  intros s o now Hok. rewrite RoomsFacts.goToNext_eq.
  destruct (_ <? _); [right; now apply rooms_goto_arms | left; split; reflexivity].
Qed.

Lemma rooms_arms_goToPrevious :
  arms RoomsCarousel.isScrolling rooms_ok RoomsCarousel.goToPrevious.
Proof.
  intros s o now Hok. rewrite RoomsFacts.goToPrevious_eq.
  destruct (_ >? _); [right; now apply rooms_goto_arms | left; split; reflexivity].
Qed.

Lemma rooms_arms_ret : arms RoomsCarousel.isScrolling rooms_ok (ret tt).
Proof. intros s o now _. left. split; reflexivity. Qed.

Lemma rooms_arms_syncWithScroll :
  arms RoomsCarousel.isScrolling rooms_ok RoomsCarousel.syncWithScroll.
Proof.
  intros s o now ((l & Hl & Hne) & _). destruct (cards l) as [|w tl] eqn:Hw; [congruence|].
  rewrite (RoomsFacts.syncWithScroll_eq s l w tl Hl Hw). left.
  destruct (RoomsCarousel.isScrolling s) eqn:E; [split; [exact E | reflexivity]|].
  destruct (_ =? _); split; try reflexivity; exact E.
Qed.

Lemma rooms_arms_on_touchstart (x y : Q) :
  arms RoomsCarousel.isScrolling rooms_ok (RoomsCarousel.on_touchstart x y).
Proof.
  intros s o now _. left. unfold RoomsCarousel.on_touchstart. rewrite bind_get.
  split; reflexivity.
Qed.

Lemma rooms_arms_on_touchmove (x y : Q) (c : bool) :
  arms RoomsCarousel.isScrolling rooms_ok (RoomsCarousel.on_touchmove x y c).
Proof.
  intros s o now _. left. unfold RoomsCarousel.on_touchmove. rewrite bind_get.
  destruct (touchmove x y c (RoomsCarousel.swipe s)) as [g prevented].
  rewrite bind_modify. destruct prevented; split; reflexivity.
Qed.

Lemma rooms_arms_then_reset (m : M RoomsCarousel.t unit) :
  arms RoomsCarousel.isScrolling rooms_ok m ->
  arms RoomsCarousel.isScrolling rooms_ok
    (m ;; s' <- get ;;
     modify (RoomsCarousel.set_swipe (touchend_reset (RoomsCarousel.swipe s')))).
Proof.
  intros Hm s o now Hok. specialize (Hm s o now Hok). unfold bind.
  destruct (m s) as [[[[]|e] s1] e1];
    cbn [state_of effects fst snd get modify RoomsCarousel.isScrolling
         RoomsCarousel.set_swipe app] in *; [|exact Hm].
  rewrite app_nil_r. exact Hm.
Qed.

Lemma rooms_arms_on_touchend (x : Q) :
  arms RoomsCarousel.isScrolling rooms_ok (RoomsCarousel.on_touchend x).
Proof.
  intros s o now Hok. unfold RoomsCarousel.on_touchend. rewrite bind_get.
  apply rooms_arms_then_reset; [|exact Hok].
  destruct (touchend_verdict x (RoomsCarousel.swipe s));
    [apply rooms_arms_goToNext | apply rooms_arms_goToPrevious | apply rooms_arms_ret].
Qed.

Lemma rooms_arms_after_prevent (m : M RoomsCarousel.t unit) :
  arms RoomsCarousel.isScrolling rooms_ok m ->
  arms RoomsCarousel.isScrolling rooms_ok (emit PreventDefault ;; m).
Proof. intros Hm s o now Hok. rewrite bind_emit. cbn. now apply Hm. Qed.

Lemma rooms_arms_on_keydown (w : Window) (k : Key) :
  arms RoomsCarousel.isScrolling rooms_ok (RoomsCarousel.on_keydown w k).
Proof.
  intros s o now Hok. pose proof Hok as ((l & Hl & _) & _).
  unfold RoomsCarousel.on_keydown. rewrite bind_get, Hl. cbn [the_carousel].
  rewrite bind_ret. destruct (negb _); [left; split; reflexivity|].
  destruct k;
    [apply rooms_arms_after_prevent; [apply rooms_arms_goToPrevious|]
    | apply rooms_arms_after_prevent; [apply rooms_arms_goToNext|]
    | left; split; reflexivity]; exact Hok.
Qed.

Lemma new_timers_dot_listeners (o : Owner) (now : Z) (from : nat) (n : Z)
    (es : list Effect) :
  new_timers o now (RoomsCarousel.dot_listeners from n ++ es) = new_timers o now es.
Proof.
  unfold new_timers, RoomsCarousel.dot_listeners. rewrite flat_map_app.
  induction (seq 0 (Z.to_nat n)) as [|i rest IH]; [reflexivity|exact IH].
Qed.

Lemma rooms_arms_on_resize (w : Window) :
  arms RoomsCarousel.isScrolling rooms_ok (RoomsCarousel.on_resize w).
Proof.
  intros s o now Hok. pose proof Hok as ((l & Hl & Hne) & _ & (ds & Hds & _) & _).
  destruct (cards l) as [|cw tl] eqn:Hw; [congruence|].
  rewrite (RoomsSetup.on_resize_eq w s l cw tl ds Hl Hw Hds).
  destruct (Bool.eqb _ _); [left; split; reflexivity | right].
  cbn [effects snd]. rewrite new_timers_dot_listeners. reflexivity.
Qed.

Lemma rooms_arms_dot_click (j : nat) :
  arms RoomsCarousel.isScrolling rooms_ok (RoomsCarousel.dot_click j).
Proof.
  intros s o now Hok. unfold RoomsCarousel.dot_click. rewrite bind_get.
  destruct (RoomsCarousel.dotsContainer s) as [ds|]; [|left; split; reflexivity].
  destruct (nth_error ds j) as [d|]; [|left; split; reflexivity].
  right. rewrite RoomsFacts.goToSlide_eq. now apply rooms_goto_arms.
Qed.

Lemma rooms_arms_listener (w : Window) (tgt : Target) (e : Event) :
  arms RoomsCarousel.isScrolling rooms_ok (RoomsCarousel.listener w tgt e).
Proof.
  destruct tgt, e; cbn [RoomsCarousel.listener];
    first [ apply rooms_arms_ret | apply rooms_arms_goToPrevious
          | apply rooms_arms_goToNext | apply rooms_arms_syncWithScroll
          | apply rooms_arms_on_touchstart | apply rooms_arms_on_touchmove
          | apply rooms_arms_on_touchend | apply rooms_arms_on_keydown
          | apply rooms_arms_on_resize | apply rooms_arms_dot_click ].
Qed.

Lemma amenities_goto_arms (s : AmenitiesCarousel.t) (i : Z) (o : Owner) (now : Z) :
  amenities_ok s ->
  new_timers o now
    (effects (AmenitiesCarousel.updateCarousel (AmenitiesCarousel.set_currentIndex i s)))
  = [(now + 500, o)].
Proof.
  intros ((l & Hl & Hne) & _). destruct (cards l) as [|w tl] eqn:Hw; [congruence|].
  rewrite (AmenitiesFacts.amenities_updateCarousel_eq
             (AmenitiesCarousel.set_currentIndex i s) l w tl Hl Hw).
  reflexivity.
Qed.

Lemma amenities_arms_goToNext :
  arms AmenitiesCarousel.isScrolling amenities_ok AmenitiesCarousel.goToNext.
Proof.
  intros s o now Hok. rewrite AmenitiesFacts.amenities_goToNext_eq.
  destruct (_ <? _); [right; now apply amenities_goto_arms | left; split; reflexivity].
Qed.

Lemma amenities_arms_goToPrevious :
  arms AmenitiesCarousel.isScrolling amenities_ok AmenitiesCarousel.goToPrevious.
Proof.
  intros s o now Hok. rewrite AmenitiesFacts.amenities_goToPrevious_eq.
  destruct (_ >? _); [right; now apply amenities_goto_arms | left; split; reflexivity].
Qed.

Lemma amenities_arms_ret : arms AmenitiesCarousel.isScrolling amenities_ok (ret tt).
Proof. intros s o now _. left. split; reflexivity. Qed.

Lemma amenities_arms_syncWithScroll :
  arms AmenitiesCarousel.isScrolling amenities_ok AmenitiesCarousel.syncWithScroll.
Proof.
  intros s o now ((l & Hl & Hne) & _). destruct (cards l) as [|w tl] eqn:Hw; [congruence|].
  left. destruct (AmenitiesCarousel.isMobile s) eqn:Hm.
  - rewrite (AmenitiesFacts.syncWithScroll_mobile s l w tl Hl Hw Hm).
    destruct (AmenitiesCarousel.isScrolling s) eqn:E; [split; [exact E | reflexivity]|].
    destruct (_ =? _); split; try reflexivity; exact E.
  - rewrite (AmenitiesFacts.syncWithScroll_desktop s l Hl Hm).
    destruct (AmenitiesCarousel.isScrolling s) eqn:E; [split; [exact E | reflexivity]|].
    destruct (_ =? _); split; try reflexivity; exact E.
Qed.

Lemma amenities_arms_on_touchstart (x y : Q) :
  arms AmenitiesCarousel.isScrolling amenities_ok (AmenitiesCarousel.on_touchstart x y).
Proof.
  intros s o now _. left. unfold AmenitiesCarousel.on_touchstart. rewrite bind_get.
  split; reflexivity.
Qed.

Lemma amenities_arms_on_touchmove (x y : Q) (c : bool) :
  arms AmenitiesCarousel.isScrolling amenities_ok (AmenitiesCarousel.on_touchmove x y c).
Proof.
  intros s o now _. left. unfold AmenitiesCarousel.on_touchmove. rewrite bind_get.
  destruct (touchmove x y c (AmenitiesCarousel.swipe s)) as [g prevented].
  rewrite bind_modify. destruct prevented; split; reflexivity.
Qed.

Lemma amenities_arms_on_touchend (x : Q) :
  arms AmenitiesCarousel.isScrolling amenities_ok (AmenitiesCarousel.on_touchend x).
Proof.
  intros s o now Hok. unfold AmenitiesCarousel.on_touchend. rewrite bind_get.
  assert (Hm : arms AmenitiesCarousel.isScrolling amenities_ok
                 match touchend_verdict x (AmenitiesCarousel.swipe s) with
                 | SwipeNext => AmenitiesCarousel.goToNext
                 | SwipePrevious => AmenitiesCarousel.goToPrevious
                 | NoSwipe => ret tt
                 end)
    by (destruct (touchend_verdict x (AmenitiesCarousel.swipe s));
        [apply amenities_arms_goToNext | apply amenities_arms_goToPrevious
        | apply amenities_arms_ret]).
  specialize (Hm s o now Hok). unfold bind.
  destruct (match touchend_verdict x (AmenitiesCarousel.swipe s) with
            | SwipeNext => AmenitiesCarousel.goToNext
            | SwipePrevious => AmenitiesCarousel.goToPrevious
            | NoSwipe => ret tt
            end s) as [[[[]|e] s1] e1];
    cbn [state_of effects fst snd get modify AmenitiesCarousel.isScrolling
         AmenitiesCarousel.set_swipe app] in *; [|exact Hm].
  rewrite app_nil_r. exact Hm.
Qed.

Lemma amenities_arms_on_resize (w : Window) :
  arms AmenitiesCarousel.isScrolling amenities_ok (AmenitiesCarousel.on_resize w).
Proof.
  intros s o now Hok.
  unfold AmenitiesCarousel.on_resize. rewrite bind_get, bind_modify, bind_get.
  cbn [AmenitiesCarousel.isMobile AmenitiesCarousel.set_isMobile].
  destruct (Bool.eqb _ _); cbn [negb]; [left; split; reflexivity|].
  right. rewrite bind_modify.
  pose proof Hok as ((l & Hl & Hne) & _). destruct (cards l) as [|cw tl] eqn:Hw; [congruence|].
  erewrite AmenitiesFacts.amenities_updateCarousel_eq; [|exact Hl|exact Hw]. reflexivity.
Qed.

Lemma amenities_arms_listener (w : Window) (tgt : Target) (e : Event) :
  arms AmenitiesCarousel.isScrolling amenities_ok (AmenitiesCarousel.listener w tgt e).
Proof.
  destruct tgt, e; cbn [AmenitiesCarousel.listener];
    first [ apply amenities_arms_ret | apply amenities_arms_goToPrevious
          | apply amenities_arms_goToNext | apply amenities_arms_syncWithScroll
          | apply amenities_arms_on_touchstart | apply amenities_arms_on_touchmove
          | apply amenities_arms_on_touchend | apply amenities_arms_on_resize ].
Qed.

End SettleFacts.

Module SettlePage.
Import App Invariants Settle.

Lemma run_rooms_settles (m : M RoomsCarousel.t unit) (p : Page) :
  arms RoomsCarousel.isScrolling rooms_ok m -> rooms_ok (rooms p) ->
  settles p -> settles (run_rooms m p).
Proof.
  intros Hm Hok (Hf & Hr & Ha). specialize (Hm (rooms p) OwnerRooms (clock p) Hok).
  unfold run_rooms. destruct (m (rooms p)) as [[c r] es].
  cbn [state_of effects fst snd] in Hm.
  split; [|split].
  - intros due o Hin. cbn [timers clock] in *. apply in_app_or in Hin.
    destruct Hin as [Hin|Hin]; [exact (Hf due o Hin)|].
    destruct Hm as [[_ Hm]|Hm]; rewrite Hm in Hin; [contradiction|].
    destruct Hin as [Hin|[]]. injection Hin as <- <-. lia.
  - intros Hflag. cbn [timers rooms] in *.
    destruct Hm as [[Hsame Hm]|Hm].
    + rewrite Hsame in Hflag. destruct (Hr Hflag) as (due & Hin).
      exists due. apply in_or_app. now left.
    + exists (clock p + 500). apply in_or_app. right. rewrite Hm. now left.
  - intros a Hsome Hflag. cbn [timers amenities] in *.
    destruct (Ha a Hsome Hflag) as (due & Hin). exists due. apply in_or_app. now left.
Qed.

Lemma run_amenities_settles (m : M AmenitiesCarousel.t unit) (p : Page) :
  arms AmenitiesCarousel.isScrolling amenities_ok m ->
  (forall a, amenities p = Some a -> amenities_ok a) ->
  settles p -> settles (run_amenities m p).
Proof.
  intros Hm Hok (Hf & Hr & Ha). unfold run_amenities.
  destruct (amenities p) as [a0|] eqn:Ea; [|split; [exact Hf|split; [exact Hr|]]].
  - specialize (Hm a0 OwnerAmenities (clock p) (Hok a0 eq_refl)).
    destruct (m a0) as [[c a1] es]. cbn [state_of effects fst snd] in Hm.
    split; [|split].
    + intros due o Hin. cbn [timers clock] in *. apply in_app_or in Hin.
      destruct Hin as [Hin|Hin]; [exact (Hf due o Hin)|].
      destruct Hm as [[_ Hm]|Hm]; rewrite Hm in Hin; [contradiction|].
      destruct Hin as [Hin|[]]. injection Hin as <- <-. lia.
    + intros Hflag. cbn [timers rooms] in *. destruct (Hr Hflag) as (due & Hin).
      exists due. apply in_or_app. now left.
    + intros a Hsome Hflag. cbn [timers amenities] in *. injection Hsome as <-.
      destruct Hm as [[Hsame Hm]|Hm].
      * rewrite Hsame in Hflag. destruct (Ha a0 Ea Hflag) as (due & Hin).
        exists due. apply in_or_app. now left.
      * exists (clock p + 500). apply in_or_app. right. rewrite Hm. now left.
  - intros a Hsome. rewrite Ea in Hsome. discriminate.
Qed.

Lemma dispatch_settles (tgt : Target) (e : Event) (p : Page) :
  page_ok p -> settles p -> settles (dispatch tgt e p).
Proof.
  intros Hp Hs. unfold dispatch.
  set (p1 := if registered OwnerRooms tgt (type_of e) (listeners p)
             then run_rooms (RoomsCarousel.listener (window p) tgt e) p else p).
  assert (H1 : page_ok p1 /\ settles p1).
  { subst p1. destruct (registered OwnerRooms _ _ _); [|now split]. split.
    - apply PageInvariant.run_rooms_ok; [apply RoomsSetup.keeps_listener | exact Hp].
    - apply run_rooms_settles; [apply SettleFacts.rooms_arms_listener | apply Hp | exact Hs]. }
  destruct H1 as [Hp1 Hs1].
  destruct (registered OwnerAmenities _ _ _); [|exact Hs1].
  apply run_amenities_settles; [apply SettleFacts.amenities_arms_listener | | exact Hs1].
  intros a Ha. destruct Hp1 as [_ (a' & Ha' & Hok)]. congruence.
Qed.

Lemma fire_amenities (q : Page) (tm : Z * Owner) :
  amenities (fire q tm)
  = (if Owner_beq OwnerAmenities (snd tm)
     then option_map (AmenitiesCarousel.set_isScrolling false) (amenities q)
     else amenities q).
Proof.
  unfold fire. destruct (snd tm); cbn [Owner_beq].
  - apply Registry.run_rooms_amenities.
  - unfold run_amenities. destruct (amenities q) eqn:E; cbn; [reflexivity | exact E].
Qed.

Lemma fold_fire_amenities (tms : list (Z * Owner)) (q : Page) :
  amenities (fold_left fire tms q)
  = (if existsb (fun tm => Owner_beq OwnerAmenities (snd tm)) tms
     then option_map (AmenitiesCarousel.set_isScrolling false) (amenities q)
     else amenities q).
Proof.
  revert q. induction tms as [|tm tms IH]; intros q; cbn [fold_left existsb];
    [reflexivity|].
  rewrite IH, fire_amenities.
  destruct (Owner_beq OwnerAmenities (snd tm)); cbn [orb]; [|reflexivity].
  destruct (existsb _ tms); [|reflexivity].
  destruct (amenities q); reflexivity.
Qed.

(** The amenities fields after time has moved to [now]. *)
Lemma elapse_amenities (now : Z) (q : Page) :
  amenities (elapse_to now q)
  = (if existsb (amenities_due now) (timers q)
     then option_map (AmenitiesCarousel.set_isScrolling false) (amenities q)
     else amenities q).
Proof.
  unfold elapse_to. rewrite fold_fire_amenities, TimerFacts.existsb_filter. reflexivity.
Qed.

Lemma not_due_kept (now : Z) (tms : list (Z * Owner)) (due : Z) (o : Owner)
    (f : Z * Owner -> bool) :
  (forall tm, f tm = App.due now tm && Owner_beq o (snd tm)) ->
  existsb f tms = false -> In (due, o) tms ->
  In (due, o) (filter (fun tm => negb (App.due now tm)) tms).
Proof.
  intros Hf Hnone Hin. apply filter_In. split; [exact Hin|].
  destruct (App.due now (due, o)) eqn:E; [|reflexivity].
  assert (existsb f tms = true); [|congruence].
  apply existsb_exists. exists (due, o). split; [exact Hin|].
  rewrite Hf, E. cbn. destruct o; reflexivity.
Qed.

Lemma elapse_settles (now : Z) (p : Page) :
  clock p <= now -> settles p -> settles (elapse_to now p).
Proof.
  intros Hnow (Hf & Hr & Ha). split; [|split].
  - intros due o Hin. rewrite TimerFacts.elapse_timers in Hin.
    rewrite TimerFacts.elapse_clock. apply filter_In in Hin. destruct Hin as [Hin Hnd].
    specialize (Hf due o Hin). unfold App.due in Hnd. cbn in Hnd.
    destruct (Z.leb_spec due now); [discriminate | lia].
  - unfold rooms_armed. rewrite TimerFacts.elapse_rooms, TimerFacts.elapse_timers.
    destruct (existsb (Notions.rooms_due now) (timers p)) eqn:E; [discriminate|].
    intros Hflag. destruct (Hr Hflag) as (due & Hin). exists due.
    apply (not_due_kept now _ due OwnerRooms (Notions.rooms_due now)); auto.
  - intros a Hsome Hflag. rewrite elapse_amenities in Hsome.
    rewrite TimerFacts.elapse_timers.
    destruct (existsb (amenities_due now) (timers p)) eqn:E.
    + destruct (amenities p); [|discriminate]. injection Hsome as <-. discriminate.
    + destruct (Ha a Hsome Hflag) as (due & Hin). exists due.
      apply (not_due_kept now _ due OwnerAmenities (amenities_due now)); auto.
Qed.

Lemma step_settles (p : Page) (i : Input) :
  page_ok p -> settles p -> settles (step p i).
Proof.
  intros Hp Hs. destruct i as [tgt e|j|dt|w|l|l]; cbn [step].
  - now apply dispatch_settles.
  - now apply dispatch_settles.
  - apply elapse_settles; [lia | exact Hs].
  - exact Hs.
  - destruct Hs as (Hf & Hr & Ha). split; [exact Hf|]. split; [exact Hr | exact Ha].
  - destruct Hs as (Hf & Hr & Ha). split; [exact Hf|]. split; [exact Hr|].
    intros a Hsome Hflag. cbn [set_amenities amenities timers] in *.
    destruct (amenities p) as [a0|] eqn:Ea; [|discriminate].
    cbn in Hsome. injection Hsome as <-. exact (Ha a0 Ea Hflag).
Qed.

Lemma run_settles (inputs : list Input) (p : Page) :
  Forall shows_a_card inputs -> page_ok p -> settles p ->
  page_ok (run p inputs) /\ settles (run p inputs).
Proof.
  revert p. induction inputs as [|i inputs IH]; intros p Hall Hp Hs; cbn; [now split|].
  inversion Hall as [|? ? Hi Hrest]; subst.
  apply IH; [exact Hrest | now apply PageInvariant.step_ok | now apply step_settles].
Qed.

Lemma initializeModules_settles (m : Markup) :
  markup_ok m -> settles (initializeModules m).
Proof.
  intros ((lr & Hlr & Hn) & Hd & (la & Hla & Hne)).
  destruct (PageInvariant.cards_cons lr 1 Hn) as (wr & tr & Hwr).
  destruct (cards la) as [|wa ta] eqn:Hwa; [congruence|].
  unfold initializeModules, RoomsCarousel.new, AmenitiesCarousel.new.
  rewrite Hlr, Hd, Hla.
  erewrite RoomsSetup.init_eq; [|reflexivity|exact Hwr].
  erewrite AmenitiesFacts.amenities_init_eq; [|reflexivity|exact Hwa].
  cbn [RoomsCarousel.dotsContainer RoomsCarousel.fields].
  rewrite SettleFacts.new_timers_dot_listeners.
  assert (T : forall la0 ra0 la1 ra1,
    new_timers OwnerRooms 0
      ((if present (la0 : option bool)
        then [AddEventListener RoomsLeftArrow TClick] else [])
       ++ (if present (ra0 : option bool)
           then [AddEventListener RoomsRightArrow TClick] else [])
       ++ [AddEventListener RoomsCarouselEl TScroll;
           AddEventListener RoomsCarouselEl TTouchStart;
           AddEventListener RoomsCarouselEl TTouchMove;
           AddEventListener RoomsCarouselEl TTouchEnd;
           AddEventListener Document TKeyDown;
           AddEventListener WindowObj TResize;
           ScrollTo ((wr + RoomsCarousel.gap) * 0); UpdateUI 0; SetTimeout 500])
    ++ new_timers OwnerAmenities 0
      ((if present (la1 : option bool)
        then [AddEventListener AmenitiesLeftArrow TClick] else [])
       ++ (if present (ra1 : option bool)
           then [AddEventListener AmenitiesRightArrow TClick] else [])
       ++ [AddEventListener AmenitiesCarouselEl TScroll;
           AddEventListener AmenitiesCarouselEl TTouchStart;
           AddEventListener AmenitiesCarouselEl TTouchMove;
           AddEventListener AmenitiesCarouselEl TTouchEnd;
           AddEventListener WindowObj TResize;
           ScrollTo ((wa + AmenitiesCarousel.gap) * 0); UpdateUI 0; SetTimeout 500])
    = [(500, OwnerRooms); (500, OwnerAmenities)]).
  { intros [|] [|] [|] [|]; reflexivity. }
  split; [|split].
  - intros due o Hin. cbn [timers clock RoomsCarousel.fields AmenitiesCarousel.fields
      RoomsCarousel.currentIndex AmenitiesCarousel.currentIndex
      RoomsCarousel.leftArrow RoomsCarousel.rightArrow
      AmenitiesCarousel.leftArrow AmenitiesCarousel.rightArrow] in Hin.
    rewrite T in Hin. cbn [clock].
    destruct Hin as [Hin|[Hin|[]]]; injection Hin as <- <-; lia.
  - intros _. exists 500. cbn [timers RoomsCarousel.fields AmenitiesCarousel.fields
      RoomsCarousel.currentIndex AmenitiesCarousel.currentIndex
      RoomsCarousel.leftArrow RoomsCarousel.rightArrow
      AmenitiesCarousel.leftArrow AmenitiesCarousel.rightArrow].
    rewrite T. now left.
  - intros a _ _. exists 500. cbn [timers RoomsCarousel.fields AmenitiesCarousel.fields
      RoomsCarousel.currentIndex AmenitiesCarousel.currentIndex
      RoomsCarousel.leftArrow RoomsCarousel.rightArrow
      AmenitiesCarousel.leftArrow AmenitiesCarousel.rightArrow].
    rewrite T. right. now left.
Qed.

End SettlePage.

(** X11: the [isScrolling] guard never sticks on a well-formed page.  When
    both containers are in the document with cards (rooms at least two,
    amenities at least one) and the dots container is present, then after
    every sequence of inputs every pending timer is due within 500 ms, and
    500 ms after the last input [isScrolling] is false in both instances
    and no timer is pending.  The inputs are the calls of the listeners
    ([App.Input]), not the raw events: the scroll listener is called when
    [throttle] lets an event through, the resize listener when [debounce]
    calls it, once the resize events have paused for 250 ms; the 500 ms
    count from that call. *)
Theorem isScrolling_is_cleared (m : App.Markup) (inputs : list App.Input) :
  Invariants.markup_ok m -> Forall App.shows_a_card inputs ->
  let p := App.run (App.initializeModules m) inputs in
  let q := App.elapse_to (App.clock p + 500) p in
  Settle.timers_fresh p /\
  App.timers q = [] /\
  RoomsCarousel.isScrolling (App.rooms q) = false /\
  exists a, App.amenities q = Some a /\ AmenitiesCarousel.isScrolling a = false.
Proof.
  intros Hm Hin p q.
  destruct (SettlePage.run_settles inputs (App.initializeModules m) Hin
              (PageInvariant.initializeModules_ok m Hm)
              (SettlePage.initializeModules_settles m Hm)) as [Hp (Hf & Hr & Ha)].
  fold p in Hp, Hf, Hr, Ha.
  split; [exact Hf|]. split; [|split].
  - subst q. rewrite TimerFacts.elapse_timers.
    assert (G : forall tms, (forall due o, In (due, o) tms -> due <= App.clock p + 500) ->
              filter (fun tm => negb (App.due (App.clock p + 500) tm)) tms = []).
    { induction tms as [|[due o] tms IH]; intros H; [reflexivity|].
      cbn [filter]. unfold App.due at 1. cbn [fst].
      destruct (Z.leb_spec due (App.clock p + 500)) as [_|Hlt].
      - cbn [negb]. apply IH. intros d o' Hd. apply (H d o'). now right.
      - specialize (H due o (or_introl eq_refl)). lia. }
    apply G. intros due o Hd. apply (Hf due o Hd).
  - subst q. rewrite TimerFacts.elapse_rooms.
    destruct (existsb _ _) eqn:E; [reflexivity|].
    destruct (RoomsCarousel.isScrolling (App.rooms p)) eqn:Hflag; [|reflexivity].
    destruct (Hr Hflag) as (due & Hd).
    assert (existsb (Notions.rooms_due (App.clock p + 500)) (App.timers p) = true);
      [|congruence].
    apply existsb_exists. exists (due, OwnerRooms). split; [exact Hd|].
    unfold Notions.rooms_due, App.due. cbn. rewrite andb_true_r. apply Z.leb_le.
    apply (Hf due OwnerRooms Hd).
  - destruct Hp as [_ (a & Hsome & _)]. subst q. rewrite SettlePage.elapse_amenities, Hsome.
    destruct (existsb _ _) eqn:E.
    + eexists. split; [reflexivity|]. reflexivity.
    + exists a. split; [reflexivity|].
      destruct (AmenitiesCarousel.isScrolling a) eqn:Hflag; [|reflexivity].
      destruct (Ha a Hsome Hflag) as (due & Hd).
      assert (existsb (Settle.amenities_due (App.clock p + 500)) (App.timers p) = true);
        [|congruence].
      apply existsb_exists. exists (due, OwnerAmenities). split; [exact Hd|].
      unfold Settle.amenities_due, App.due. cbn. rewrite andb_true_r. apply Z.leb_le.
      apply (Hf due OwnerAmenities Hd).
Qed.

Lemma isScrolling_is_cleared_witness :
  let p := App.run (App.initializeModules (Examples.markup Examples.desktop))
             [App.Fire RoomsRightArrow Click; App.Elapse 300;
              App.Fire RoomsRightArrow Click; App.Elapse 100;
              App.Fire AmenitiesRightArrow Click] in
  RoomsCarousel.isScrolling (App.rooms p) = true /\
  RoomsCarousel.isScrolling (App.rooms (App.elapse_to (App.clock p + 500) p)) = false.
Proof.
  intros p. split; [reflexivity|].
  refine (proj1 (proj2 (proj2
    (isScrolling_is_cleared (Examples.markup Examples.desktop)
       [App.Fire RoomsRightArrow Click; App.Elapse 300;
        App.Fire RoomsRightArrow Click; App.Elapse 100;
        App.Fire AmenitiesRightArrow Click] _ _)))).
  - split; [|split].
    + eexists. split; [reflexivity|]. cbn. lia.
    + reflexivity.
    + eexists. split; [reflexivity|]. discriminate.
  - repeat constructor.
Defined.

(** ** Listeners and absent containers *)

Module Inert.
Import App Notions.

Lemma pending_other_owner (o o' : Owner) (now : Z) (es : list Effect) :
  Owner_beq o o' = false -> pending o (new_timers o' now es) = [].
Proof.
  intros Ho. unfold pending, new_timers.
  induction es as [|e es IH]; [reflexivity|].
  cbn [flat_map]. rewrite filter_app, map_app, IH, app_nil_r.
  destruct e; try reflexivity. cbn. now rewrite Ho.
Qed.

Lemma run_amenities_pending_rooms (m : M AmenitiesCarousel.t unit) (p : Page) :
  pending OwnerRooms (timers (run_amenities m p)) = pending OwnerRooms (timers p).
Proof.
  unfold run_amenities. destruct (amenities p) as [a|]; [|reflexivity].
  destruct (m a) as [[c a'] es]. cbn [timers].
  rewrite TimerFacts.pending_app, pending_other_owner by reflexivity. apply app_nil_r.
Qed.

Lemma run_rooms_pending_amenities (m : M RoomsCarousel.t unit) (p : Page) :
  pending OwnerAmenities (timers (run_rooms m p)) = pending OwnerAmenities (timers p).
Proof.
  unfold run_rooms. destruct (m (rooms p)) as [[c r] es]. cbn [timers].
  rewrite TimerFacts.pending_app, pending_other_owner by reflexivity. apply app_nil_r.
Qed.

Lemma pending_none_amenities_due (now : Z) (l : list (Z * Owner)) :
  pending OwnerAmenities l = [] -> existsb (Settle.amenities_due now) l = false.
Proof.
  unfold pending, Settle.amenities_due.
  induction l as [|x l IH]; cbn [filter map existsb]; [reflexivity|].
  destruct (Owner_beq OwnerAmenities (snd x)) eqn:E; cbn [filter map]; [discriminate|].
  intros H. rewrite andb_false_r. now apply IH.
Qed.

Lemma rooms_relayout_absent (l : Layout) (s : RoomsCarousel.t) :
  RoomsCarousel.carousel s = None -> RoomsCarousel.relayout l s = s.
Proof. destruct s as [c ? ? ? ? ? ? ? ?]. cbn. intros ->. reflexivity. Qed.

Lemma amenities_relayout_absent (l : Layout) (s : AmenitiesCarousel.t) :
  AmenitiesCarousel.carousel s = None -> AmenitiesCarousel.relayout l s = s.
Proof. destruct s as [c ? ? ? ? ? ? ?]. cbn. intros ->. reflexivity. Qed.

Lemma dot_click_no_dots (j : nat) (s : RoomsCarousel.t) :
  RoomsCarousel.dotsContainer s = None \/ RoomsCarousel.dotsContainer s = Some [] ->
  RoomsCarousel.dot_click j s = (Normal tt, s, []).
Proof.
  intros [H|H]; unfold RoomsCarousel.dot_click; rewrite bind_get, H; [reflexivity|].
  destruct j; reflexivity.
Qed.

(** What stays true of a page whose rooms container is absent. *)
Lemma rooms_inert_step (r0 : RoomsCarousel.t) (p : Page) (i : Input) :
  RoomsCarousel.carousel r0 = None ->
  RoomsCarousel.dotsContainer r0 = None \/ RoomsCarousel.dotsContainer r0 = Some [] ->
  (rooms p = r0 /\
   (forall tgt ty, registered OwnerRooms tgt ty (listeners p) = false) /\
   pending OwnerRooms (timers p) = []) ->
  rooms (step p i) = r0 /\
  (forall tgt ty, registered OwnerRooms tgt ty (listeners (step p i)) = false) /\
  pending OwnerRooms (timers (step p i)) = [].
Proof.
  intros Hc Hd (Hr & Hl & Ht).
  split; [|split; [intros tgt ty;
                   rewrite Registry.step_grows, (Registry.added_unregistered p i (Hl _ _)),
                     app_nil_r; apply Hl|]].
  - destruct i as [tgt e|j|dt|w|l|l]; cbn [step].
    + unfold dispatch. rewrite Hl.
      destruct (registered OwnerAmenities _ _ _); rewrite ?run_amenities_rooms; exact Hr.
    + unfold dispatch. rewrite Hl.
      destruct (registered OwnerAmenities _ _ _); rewrite ?run_amenities_rooms; exact Hr.
    + rewrite TimerFacts.elapse_rooms, (TimerFacts.pending_none_due _ _ Ht). exact Hr.
    + exact Hr.
    + cbn. rewrite Hr. now apply rooms_relayout_absent.
    + exact Hr.
  - destruct i as [tgt e|j|dt|w|l|l]; cbn [step].
    + unfold dispatch. rewrite Hl.
      destruct (registered OwnerAmenities _ _ _);
        rewrite ?run_amenities_pending_rooms; exact Ht.
    + unfold dispatch. rewrite Hl.
      destruct (registered OwnerAmenities _ _ _);
        rewrite ?run_amenities_pending_rooms; exact Ht.
    + rewrite TimerFacts.elapse_timers. now apply TimerFacts.pending_none_filter.
    + exact Ht.
    + exact Ht.
    + exact Ht.
Qed.

Lemma amenities_inert_step (a0 : option AmenitiesCarousel.t) (p : Page) (i : Input) :
  (forall a, a0 = Some a -> AmenitiesCarousel.carousel a = None) ->
  (amenities p = a0 /\
   (forall tgt ty, registered OwnerAmenities tgt ty (listeners p) = false) /\
   pending OwnerAmenities (timers p) = []) ->
  amenities (step p i) = a0 /\
  (forall tgt ty, registered OwnerAmenities tgt ty (listeners (step p i)) = false) /\
  pending OwnerAmenities (timers (step p i)) = [].
Proof.
  intros Hc (Hr & Hl & Ht).
  split; [|split; [intros tgt ty;
                   rewrite Registry.step_grows, Registry.registered_app, Hl;
                   apply (Registry.dot_registration_not_registered _ _ _ _
                            (Registry.added_dots p i)); left; reflexivity|]].
  - destruct i as [tgt e|j|dt|w|l|l]; cbn [step].
    + unfold dispatch. rewrite Hl.
      destruct (registered OwnerRooms _ _ _); rewrite ?Registry.run_rooms_amenities; exact Hr.
    + unfold dispatch. rewrite Hl.
      destruct (registered OwnerRooms _ _ _); rewrite ?Registry.run_rooms_amenities; exact Hr.
    + rewrite SettlePage.elapse_amenities, (pending_none_amenities_due _ _ Ht). exact Hr.
    + exact Hr.
    + exact Hr.
    + cbn. rewrite Hr. destruct a0 as [a|]; [|reflexivity]. cbn.
      now rewrite (amenities_relayout_absent l a (Hc a eq_refl)).
  - destruct i as [tgt e|j|dt|w|l|l]; cbn [step].
    + unfold dispatch. rewrite Hl.
      destruct (registered OwnerRooms _ _ _);
        rewrite ?run_rooms_pending_amenities; exact Ht.
    + unfold dispatch. rewrite Hl.
      destruct (registered OwnerRooms _ _ _);
        rewrite ?run_rooms_pending_amenities; exact Ht.
    + rewrite TimerFacts.elapse_timers. now apply TimerFacts.pending_none_filter.
    + exact Ht.
    + exact Ht.
    + exact Ht.
Qed.

Lemma rooms_inert_run (r0 : RoomsCarousel.t) (inputs : list Input) (p : Page) :
  RoomsCarousel.carousel r0 = None ->
  RoomsCarousel.dotsContainer r0 = None \/ RoomsCarousel.dotsContainer r0 = Some [] ->
  (rooms p = r0 /\
   (forall tgt ty, registered OwnerRooms tgt ty (listeners p) = false) /\
   pending OwnerRooms (timers p) = []) ->
  rooms (run p inputs) = r0.
Proof.
  intros Hc Hd. revert p. induction inputs as [|i inputs IH]; intros p H; cbn.
  - apply H.
  - apply IH. now apply rooms_inert_step.
Qed.

Lemma amenities_inert_run (a0 : option AmenitiesCarousel.t) (inputs : list Input) (p : Page) :
  (forall a, a0 = Some a -> AmenitiesCarousel.carousel a = None) ->
  (amenities p = a0 /\
   (forall tgt ty, registered OwnerAmenities tgt ty (listeners p) = false) /\
   pending OwnerAmenities (timers p) = []) ->
  amenities (run p inputs) = a0.
Proof.
  intros Hc. revert p. induction inputs as [|i inputs IH]; intros p H; cbn.
  - apply H.
  - apply IH. now apply amenities_inert_step.
Qed.

End Inert.

(** X12: a carousel whose container is not in the document is inert.
    With no rooms container (and no indicator buttons in the markup) the
    rooms constructor returns without registering a listener, and after
    every sequence of events the rooms instance still has the fields the
    constructor gave it.  The same holds for the amenities instance when
    the amenities container is missing. *)
Theorem absent_container_is_inert (m : App.Markup) (inputs : list App.Input) :
  (App.roomsCarousel m = None ->
   App.carouselDots m = None \/ App.carouselDots m = Some [] ->
   App.rooms (App.run (App.initializeModules m) inputs)
   = RoomsCarousel.fields None (App.carousel_arrow_left m) (App.carousel_arrow_right m)
       (App.carouselDots m) (App.viewport m)) /\
  (App.amenitiesCarousel m = None ->
   App.amenities (App.run (App.initializeModules m) inputs)
   = App.amenities (App.initializeModules m) /\
   forall a, App.amenities (App.initializeModules m) = Some a ->
     a = AmenitiesCarousel.fields None (App.amenities_arrow_left m)
           (App.amenities_arrow_right m) (App.viewport m)).
Proof.
  split.
  - intros Hc Hd. apply Inert.rooms_inert_run; [reflexivity | exact Hd |].
    unfold App.initializeModules, RoomsCarousel.new. rewrite Hc.
    cbn [RoomsCarousel.init RoomsCarousel.fields bind get RoomsCarousel.carousel ret].
    destruct (AmenitiesCarousel.new _ _ _ _) as [[c a] ea].
    cbn [App.rooms App.listeners App.timers App.new_listeners App.new_timers flat_map app].
    split; [reflexivity|]. split.
    + intros tgt ty. now apply Registry.other_owner_not_registered.
    + now apply Inert.pending_other_owner.
  - intros Hc.
    assert (Ha : AmenitiesCarousel.new None (App.amenities_arrow_left m)
                   (App.amenities_arrow_right m) (App.viewport m)
                 = (Normal tt,
                    AmenitiesCarousel.fields None (App.amenities_arrow_left m)
                      (App.amenities_arrow_right m) (App.viewport m), []))
      by reflexivity.
    split.
    + apply Inert.amenities_inert_run.
      * unfold App.initializeModules. rewrite Hc, Ha.
        destruct (RoomsCarousel.new _ _ _ _ _) as [[[[]|e] r] er]; cbn [App.amenities];
          intros a E; [injection E as <-; reflexivity | discriminate].
      * unfold App.initializeModules. rewrite Hc, Ha.
        destruct (RoomsCarousel.new _ _ _ _ _) as [[[[]|e] r] er];
          cbn [App.amenities App.listeners App.timers App.new_listeners App.new_timers
               flat_map];
          rewrite ?app_nil_r;
          (split; [reflexivity|]; split;
           [intros tgt ty; now apply Registry.other_owner_not_registered
           | now apply Inert.pending_other_owner]).
    + unfold App.initializeModules. rewrite Hc, Ha.
      destruct (RoomsCarousel.new _ _ _ _ _) as [[[[]|e] r] er]; cbn [App.amenities];
        intros a E; [injection E as <-; reflexivity | discriminate].
Qed.

Lemma absent_container_is_inert_witness :
  let m := {| App.roomsCarousel := None;
              App.carousel_arrow_left := Some false;
              App.carousel_arrow_right := Some false;
              App.carouselDots := Some [];
              App.amenitiesCarousel := Some (Examples.layout 8 200 0 1740 860);
              App.amenities_arrow_left := Some false;
              App.amenities_arrow_right := Some false;
              App.viewport := Examples.desktop |} in
  RoomsCarousel.currentIndex
    (App.rooms (App.run (App.initializeModules m)
                  [App.Fire RoomsRightArrow Click; App.Fire Document (KeyDown ArrowRight);
                   App.DotClick 0; App.Fire WindowObj Resize])) = 0.
Proof.
  intros m.
  rewrite (proj1 (absent_container_is_inert m
                    [App.Fire RoomsRightArrow Click; App.Fire Document (KeyDown ArrowRight);
                     App.DotClick 0; App.Fire WindowObj Resize]) eq_refl
             (or_intror eq_refl)).
  reflexivity.
Defined.

Lemma new_listeners_app (o : Owner) (es1 es2 : list Effect) :
  App.new_listeners o (es1 ++ es2) = App.new_listeners o es1 ++ App.new_listeners o es2.
Proof. unfold App.new_listeners. apply flat_map_app. Qed.

Lemma new_listeners_dot_listeners (from : nat) (n : Z) :
  App.new_listeners OwnerRooms (RoomsCarousel.dot_listeners from n)
  = Notions.dot_registrations from n.
Proof.
  unfold App.new_listeners, RoomsCarousel.dot_listeners, Notions.dot_registrations.
  induction (seq 0 (Z.to_nat n)) as [|i rest IH]; [reflexivity|].
  cbn [map flat_map app]. now rewrite IH.
Qed.

(** The registrations of the resize listener of the rooms instance. *)
Lemma on_resize_registrations (w : Window) (s : RoomsCarousel.t) :
  App.new_listeners OwnerRooms (effects (RoomsCarousel.on_resize w s))
  = if Bool.eqb (RoomsCarousel.isMobile s) (innerWidth w <=? 768) then []
    else match RoomsCarousel.dotsContainer s with
         | Some _ =>
             Notions.dot_registrations 0
               (RoomsCarousel.numDots (RoomsCarousel.set_isMobile (innerWidth w <=? 768) s))
         | None => []
         end.
Proof.
  unfold RoomsCarousel.on_resize. rewrite bind_get, bind_modify, bind_get.
  cbn [RoomsCarousel.isMobile RoomsCarousel.set_isMobile].
  destruct (Bool.eqb (RoomsCarousel.isMobile s) (innerWidth w <=? 768)); cbn [negb];
    [reflexivity|].
  cbn [RoomsCarousel.dotsContainer RoomsCarousel.set_isMobile].
  destruct (RoomsCarousel.dotsContainer s) as [ds|]; [|reflexivity].
  rewrite bind_modify, (bind_det _ _ _ _ _ _ (RoomsSetup.createDots_eq _)).
  cbn [RoomsCarousel.dotsContainer RoomsCarousel.set_dotsContainer app length effects snd].
  rewrite new_listeners_app, new_listeners_dot_listeners.
  rewrite bind_modify.
  rewrite (Registry.quiet_registers_nothing OwnerRooms _
             (ListenerFacts.rooms_updateCarousel _)).
  apply app_nil_r.
Qed.

(** The registrations of the two constructors. *)
Lemma initializeModules_listeners
    (m : App.Markup) (lr : Layout) (wr : Z) (tr : list Z) (ds : list RoomsCarousel.Dot)
    (la : Layout) (wa : Z) (ta : list Z) :
  App.roomsCarousel m = Some lr -> cards lr = wr :: tr ->
  App.carouselDots m = Some ds ->
  App.amenitiesCarousel m = Some la -> cards la = wa :: ta ->
  App.listeners (App.initializeModules m)
  = Notions.dot_registrations (length ds)
      (RoomsCarousel.numDots (App.rooms (App.initializeModules m)))
    ++ (if present (App.carousel_arrow_left m)
        then [(OwnerRooms, RoomsLeftArrow, TClick)] else [])
    ++ (if present (App.carousel_arrow_right m)
        then [(OwnerRooms, RoomsRightArrow, TClick)] else [])
    ++ [(OwnerRooms, RoomsCarouselEl, TScroll);
        (OwnerRooms, RoomsCarouselEl, TTouchStart);
        (OwnerRooms, RoomsCarouselEl, TTouchMove);
        (OwnerRooms, RoomsCarouselEl, TTouchEnd);
        (OwnerRooms, Document, TKeyDown);
        (OwnerRooms, WindowObj, TResize)]
    ++ (if present (App.amenities_arrow_left m)
        then [(OwnerAmenities, AmenitiesLeftArrow, TClick)] else [])
    ++ (if present (App.amenities_arrow_right m)
        then [(OwnerAmenities, AmenitiesRightArrow, TClick)] else [])
    ++ [(OwnerAmenities, AmenitiesCarouselEl, TScroll);
        (OwnerAmenities, AmenitiesCarouselEl, TTouchStart);
        (OwnerAmenities, AmenitiesCarouselEl, TTouchMove);
        (OwnerAmenities, AmenitiesCarouselEl, TTouchEnd);
        (OwnerAmenities, WindowObj, TResize)].
Proof.
  intros Hlr Hwr Hds Hla Hwa.
  unfold App.initializeModules, RoomsCarousel.new, AmenitiesCarousel.new.
  rewrite Hlr, Hds, Hla.
  erewrite RoomsSetup.init_eq; [|reflexivity|exact Hwr].
  erewrite AmenitiesFacts.amenities_init_eq; [|reflexivity|exact Hwa].
  cbn [App.listeners App.rooms RoomsCarousel.fields AmenitiesCarousel.fields
       RoomsCarousel.leftArrow RoomsCarousel.rightArrow RoomsCarousel.dotsContainer
       AmenitiesCarousel.leftArrow AmenitiesCarousel.rightArrow].
  rewrite new_listeners_app, new_listeners_dot_listeners, <- app_assoc. f_equal.
  destruct (App.carousel_arrow_left m), (App.carousel_arrow_right m),
    (App.amenities_arrow_left m), (App.amenities_arrow_right m); reflexivity.
Qed.

(** X13: which listeners the two carousels register, and when.  The
    constructors register, for two containers that hold a card: a click
    listener on each indicator button [createDots] makes, a click listener
    per arrow button that exists, then scroll, touchstart, touchmove and
    touchend on the container, keydown on the document (rooms only) and
    resize on the window, first for the rooms instance, then for the
    amenities instance.  Afterwards the only input that adds a listener is
    a resize event that reaches the rooms instance and crosses 768px while
    the dots container is there: it adds a click listener on each indicator
    button of the new mode.  So after every sequence of inputs the
    registrations are the constructors' followed by click listeners on
    indicator buttons. *)
Theorem only_dot_listeners_are_added
    (m : App.Markup) (inputs : list App.Input)
    (lr : Layout) (wr : Z) (tr : list Z) (ds : list RoomsCarousel.Dot)
    (la : Layout) (wa : Z) (ta : list Z) :
  (exists extra,
     App.listeners (App.run (App.initializeModules m) inputs)
     = App.listeners (App.initializeModules m) ++ extra
     /\ Forall Notions.dot_registration extra) /\
  (forall p i, i <> App.Fire WindowObj Resize ->
     App.listeners (App.step p i) = App.listeners p) /\
  (forall p,
     App.listeners (App.step p (App.Fire WindowObj Resize))
     = App.listeners p
       ++ (if App.registered OwnerRooms WindowObj TResize (App.listeners p)
              && negb (Bool.eqb (RoomsCarousel.isMobile (App.rooms p))
                         (innerWidth (App.window p) <=? 768))
              && present (RoomsCarousel.dotsContainer (App.rooms p))
           then Notions.dot_registrations 0
                  (RoomsCarousel.numDots
                     (RoomsCarousel.set_isMobile (innerWidth (App.window p) <=? 768)
                        (App.rooms p)))
           else [])) /\
  (App.roomsCarousel m = Some lr -> cards lr = wr :: tr ->
   App.carouselDots m = Some ds ->
   App.amenitiesCarousel m = Some la -> cards la = wa :: ta ->
   App.listeners (App.initializeModules m)
   = Notions.dot_registrations (length ds)
       (RoomsCarousel.numDots (App.rooms (App.initializeModules m)))
     ++ (if present (App.carousel_arrow_left m)
         then [(OwnerRooms, RoomsLeftArrow, TClick)] else [])
     ++ (if present (App.carousel_arrow_right m)
         then [(OwnerRooms, RoomsRightArrow, TClick)] else [])
     ++ [(OwnerRooms, RoomsCarouselEl, TScroll);
         (OwnerRooms, RoomsCarouselEl, TTouchStart);
         (OwnerRooms, RoomsCarouselEl, TTouchMove);
         (OwnerRooms, RoomsCarouselEl, TTouchEnd);
         (OwnerRooms, Document, TKeyDown);
         (OwnerRooms, WindowObj, TResize)]
     ++ (if present (App.amenities_arrow_left m)
         then [(OwnerAmenities, AmenitiesLeftArrow, TClick)] else [])
     ++ (if present (App.amenities_arrow_right m)
         then [(OwnerAmenities, AmenitiesRightArrow, TClick)] else [])
     ++ [(OwnerAmenities, AmenitiesCarouselEl, TScroll);
         (OwnerAmenities, AmenitiesCarouselEl, TTouchStart);
         (OwnerAmenities, AmenitiesCarouselEl, TTouchMove);
         (OwnerAmenities, AmenitiesCarouselEl, TTouchEnd);
         (OwnerAmenities, WindowObj, TResize)]).
Proof.
  split; [apply Registry.run_grows|]. split; [|split].
  - intros p i Hi. rewrite Registry.step_grows.
    destruct i as [tgt e|j|dt|w|l|l]; cbn [Notions.added]; try apply app_nil_r.
    destruct tgt, e; try apply app_nil_r. congruence.
  - intros p. rewrite Registry.step_grows. cbn [Notions.added]. f_equal.
    destruct (App.registered OwnerRooms WindowObj TResize (App.listeners p));
      [|reflexivity].
    rewrite on_resize_registrations. cbn [andb].
    destruct (Bool.eqb _ _); cbn [negb andb]; [reflexivity|].
    destruct (RoomsCarousel.dotsContainer (App.rooms p)); reflexivity.
  - apply initializeModules_listeners.
Qed.

Lemma only_dot_listeners_are_added_witness :
  App.listeners (App.initializeModules (Examples.markup Examples.desktop))
  = [(OwnerRooms, RoomsDot 0, TClick); (OwnerRooms, RoomsDot 1, TClick);
     (OwnerRooms, RoomsDot 2, TClick); (OwnerRooms, RoomsDot 3, TClick);
     (OwnerRooms, RoomsLeftArrow, TClick); (OwnerRooms, RoomsRightArrow, TClick);
     (OwnerRooms, RoomsCarouselEl, TScroll);
     (OwnerRooms, RoomsCarouselEl, TTouchStart);
     (OwnerRooms, RoomsCarouselEl, TTouchMove);
     (OwnerRooms, RoomsCarouselEl, TTouchEnd);
     (OwnerRooms, Document, TKeyDown); (OwnerRooms, WindowObj, TResize);
     (OwnerAmenities, AmenitiesLeftArrow, TClick);
     (OwnerAmenities, AmenitiesRightArrow, TClick);
     (OwnerAmenities, AmenitiesCarouselEl, TScroll);
     (OwnerAmenities, AmenitiesCarouselEl, TTouchStart);
     (OwnerAmenities, AmenitiesCarouselEl, TTouchMove);
     (OwnerAmenities, AmenitiesCarouselEl, TTouchEnd);
     (OwnerAmenities, WindowObj, TResize)].
Proof.
  rewrite (proj2 (proj2 (proj2
    (only_dot_listeners_are_added (Examples.markup Examples.desktop) []
       (Examples.layout 5 300 0 1620 960) 300 [300; 300; 300; 300] []
       (Examples.layout 8 200 0 1740 860) 200 [200; 200; 200; 200; 200; 200; 200])))
    eq_refl eq_refl eq_refl eq_refl eq_refl).
  reflexivity.
Defined.

(** ** Clicks on the indicators *)

Module DotFacts.
Import App Invariants Notions.

Lemma same_mode_ret {A} (a : A) : same_mode (ret a).
Proof. intros s. reflexivity. Qed.

Lemma same_mode_get : same_mode get.
Proof. intros s. reflexivity. Qed.

Lemma same_mode_throw {A} (e : JsError) : same_mode (A := A) (throw e).
Proof. intros s. reflexivity. Qed.

Lemma same_mode_emit (e : Effect) : same_mode (emit e).
Proof. intros s. reflexivity. Qed.

Lemma same_mode_modify (f : RoomsCarousel.t -> RoomsCarousel.t) :
  (forall s, mode_of (f s) = mode_of s) -> same_mode (modify f).
Proof. intros H s. apply H. Qed.

Lemma same_mode_bind {A B} (m : M RoomsCarousel.t A) (k : A -> M RoomsCarousel.t B) :
  same_mode m -> (forall a, same_mode (k a)) -> same_mode (bind m k).
Proof.
  intros Hm Hk s. specialize (Hm s). unfold bind.
  destruct (m s) as [[[a|e] s1] e1]; cbn in *; [|exact Hm].
  specialize (Hk a s1). destruct (k a s1) as [[r s2] e2]; cbn in *. congruence.
Qed.

Lemma same_mode_when (b : bool) (m : M RoomsCarousel.t unit) :
  same_mode m -> same_mode (when b m).
Proof. intros Hm. destruct b; [exact Hm | apply same_mode_ret]. Qed.

Lemma same_mode_the_carousel (c : option Layout) : same_mode (the_carousel c).
Proof. destruct c; [apply same_mode_ret | apply same_mode_throw]. Qed.

Lemma same_mode_first_offsetWidth (l : Layout) : same_mode (first_offsetWidth l).
Proof.
  unfold first_offsetWidth. destruct (cards l); [apply same_mode_throw | apply same_mode_ret].
Qed.

Create HintDb mode.
#[export] Hint Resolve same_mode_ret same_mode_get same_mode_throw same_mode_emit
  same_mode_when same_mode_the_carousel same_mode_first_offsetWidth : mode.

Ltac mode_step :=
  first
    [ apply same_mode_bind; [|intros ?]
    | apply same_mode_when
    | apply same_mode_modify; intros ?; reflexivity
    | solve [auto with mode]
    | match goal with
      | |- same_mode (match ?x with _ => _ end) => destruct x
      end ].

Ltac mode := cbv zeta; repeat mode_step.

Lemma mode_updateUI : same_mode RoomsCarousel.updateUI.
Proof. unfold RoomsCarousel.updateUI. mode. Qed.
#[export] Hint Resolve mode_updateUI : mode.

Lemma mode_updateCarousel : same_mode RoomsCarousel.updateCarousel.
Proof. unfold RoomsCarousel.updateCarousel. mode. Qed.
#[export] Hint Resolve mode_updateCarousel : mode.

Lemma mode_goToNext : same_mode RoomsCarousel.goToNext.
Proof. unfold RoomsCarousel.goToNext. mode. Qed.

Lemma mode_goToPrevious : same_mode RoomsCarousel.goToPrevious.
Proof. unfold RoomsCarousel.goToPrevious. mode. Qed.

Lemma mode_goToSlide (i : Z) : same_mode (RoomsCarousel.goToSlide i).
Proof. unfold RoomsCarousel.goToSlide. mode. Qed.
#[export] Hint Resolve mode_goToNext mode_goToPrevious mode_goToSlide : mode.

Lemma mode_syncWithScroll : same_mode RoomsCarousel.syncWithScroll.
Proof. unfold RoomsCarousel.syncWithScroll. mode. Qed.

Lemma mode_on_touchstart x y : same_mode (RoomsCarousel.on_touchstart x y).
Proof. unfold RoomsCarousel.on_touchstart. mode. Qed.

Lemma mode_on_touchmove x y c : same_mode (RoomsCarousel.on_touchmove x y c).
Proof. unfold RoomsCarousel.on_touchmove. mode. Qed.

Lemma mode_on_touchend x : same_mode (RoomsCarousel.on_touchend x).
Proof. unfold RoomsCarousel.on_touchend. mode. Qed.

Lemma mode_on_keydown w k : same_mode (RoomsCarousel.on_keydown w k).
Proof. unfold RoomsCarousel.on_keydown. mode. Qed.

Lemma mode_dot_click j : same_mode (RoomsCarousel.dot_click j).
Proof. unfold RoomsCarousel.dot_click. mode. Qed.

(** Every listener of the rooms instance but the resize listener leaves
    the mode and the room count alone. *)
Lemma mode_listener w tgt e :
  (tgt = WindowObj -> e <> Resize) -> same_mode (RoomsCarousel.listener w tgt e).
Proof.
  intros H. destruct tgt, e; cbn [RoomsCarousel.listener];
    first [ apply same_mode_ret | apply mode_goToPrevious | apply mode_goToNext
          | apply mode_syncWithScroll | apply mode_on_touchstart
          | apply mode_on_touchmove | apply mode_on_touchend
          | apply mode_on_keydown | apply mode_dot_click
          | exfalso; now apply H ].
Qed.

Lemma numDots_mode (s s' : RoomsCarousel.t) :
  mode_of s' = mode_of s -> RoomsCarousel.numDots s' = RoomsCarousel.numDots s.
Proof.
  unfold mode_of, RoomsCarousel.numDots. intros E. injection E as -> ->. reflexivity.
Qed.

Lemma registered_dot_registrations (j : nat) (n : Z) :
  Z.of_nat j < n ->
  registered OwnerRooms (RoomsDot j) TClick (dot_registrations 0 n) = true.
Proof.
  intros Hj. unfold registered, dot_registrations. apply existsb_exists.
  exists (OwnerRooms, RoomsDot j, TClick). split.
  - apply in_map_iff. exists j. split; [reflexivity|]. apply in_seq. lia.
  - cbn. rewrite Nat.eqb_refl. reflexivity.
Qed.

Lemma dispatch_rooms (tgt : Target) (e : Event) (p : Page) :
  rooms (dispatch tgt e p)
  = if registered OwnerRooms tgt (type_of e) (listeners p)
    then state_of (RoomsCarousel.listener (window p) tgt e (rooms p))
    else rooms p.
Proof.
  unfold dispatch.
  assert (H : rooms (if registered OwnerRooms tgt (type_of e) (listeners p)
                     then run_rooms (RoomsCarousel.listener (window p) tgt e) p else p)
              = if registered OwnerRooms tgt (type_of e) (listeners p)
                then state_of (RoomsCarousel.listener (window p) tgt e (rooms p))
                else rooms p).
  { destruct (registered OwnerRooms _ _ _); [|reflexivity].
    unfold run_rooms. destruct (RoomsCarousel.listener _ _ _ _) as [[c r] es]. reflexivity. }
  destruct (registered OwnerAmenities _ _ _); [|exact H].
  rewrite run_amenities_rooms. exact H.
Qed.

Lemma grown (p q : Page) (extra : list (Owner * Target * EventType)) :
  listeners q = listeners p ++ extra ->
  RoomsCarousel.numDots (rooms q) = RoomsCarousel.numDots (rooms p) ->
  dots_registered p -> dots_registered q.
Proof.
  intros El En Hp j Hj. rewrite El, Registry.registered_app, Hp; [reflexivity|].
  now rewrite <- En.
Qed.

Lemma dispatch_dots (tgt : Target) (e : Event) (p : Page) :
  page_ok p -> dots_registered p -> dots_registered (dispatch tgt e p).
Proof.
  intros Hok Hp.
  pose proof (Registry.dispatch_grows tgt e p) as El.
  pose proof (dispatch_rooms tgt e p) as Er.
  destruct (registered OwnerRooms tgt (type_of e) (listeners p)) eqn:Hreg.
  2:{ apply (grown p _ _ El); [now rewrite Er | exact Hp]. }
  assert (Hres : (tgt = WindowObj /\ e = Resize) \/ (tgt = WindowObj -> e <> Resize)).
  { destruct tgt; try (right; discriminate).
    destruct e; try (right; discriminate). left. split; reflexivity. }
  destruct Hres as [[-> ->]|Hn].
  - (* the resize listener *)
    cbn [RoomsCarousel.listener added type_of] in *. rewrite Hreg in El.
    destruct Hok as [Hr _]. pose proof Hr as ((l & Hl & Hne) & _ & (ds & Hds & _) & _).
    destruct (cards l) as [|cw tl] eqn:Hw; [congruence|].
    rewrite on_resize_registrations, Hds in El.
    rewrite (RoomsSetup.on_resize_eq (window p) (rooms p) l cw tl ds Hl Hw Hds) in Er.
    destruct (Bool.eqb _ _) eqn:Eb.
    + apply eqb_prop in Eb. apply (grown p _ _ El); [|exact Hp].
      rewrite Er. cbn [state_of fst snd]. rewrite <- Eb. now rewrite set_isMobile_same.
    + intros j Hj. rewrite El, Registry.registered_app.
      rewrite (registered_dot_registrations j); [apply orb_true_r|].
      rewrite Er in Hj. exact Hj.
  - apply (grown p _ _ El); [|exact Hp]. rewrite Er.
    apply numDots_mode, mode_listener, Hn.
Qed.

Lemma step_dots (p : Page) (i : Input) :
  page_ok p -> dots_registered p -> dots_registered (step p i).
Proof.
  intros Hok Hp. destruct i as [tgt e|j|dt|w|l|l]; cbn [step].
  - now apply dispatch_dots.
  - now apply dispatch_dots.
  - apply (grown p _ _ (Registry.step_grows p (Elapse dt))); [|exact Hp].
    cbn [step]. rewrite TimerFacts.elapse_rooms. now destruct (existsb _ _).
  - apply (grown p _ _ (Registry.step_grows p (Viewport w))); [reflexivity | exact Hp].
  - apply (grown p _ _ (Registry.step_grows p (RoomsLayout l))); [reflexivity | exact Hp].
  - apply (grown p _ _ (Registry.step_grows p (AmenitiesLayout l)));
      [reflexivity | exact Hp].
Qed.

Lemma run_dots (inputs : list Input) (p : Page) :
  Forall shows_a_card inputs -> page_ok p -> dots_registered p ->
  dots_registered (run p inputs).
Proof.
  revert p. induction inputs as [|i inputs IH]; intros p Hall Hok Hp; cbn; [exact Hp|].
  inversion Hall as [|? ? Hi Hrest]; subst.
  apply IH; [exact Hrest | now apply PageInvariant.step_ok | now apply step_dots].
Qed.

Lemma initializeModules_dots (m : Markup) :
  markup_ok m -> dots_registered (initializeModules m).
Proof.
  intros ((lr & Hlr & Hn) & Hd & (la & Hla & Hne)).
  destruct (PageInvariant.cards_cons lr 1 Hn) as (wr & tr & Hwr).
  destruct (cards la) as [|wa ta] eqn:Hwa; [congruence|].
  intros j Hj.
  rewrite (initializeModules_listeners m lr wr tr [] la wa ta Hlr Hwr Hd Hla Hwa).
  rewrite Registry.registered_app. cbn [length].
  now rewrite (registered_dot_registrations j).
Qed.

(** The button [j] the mode asks for is in the container and passes [j]. *)
Lemma dot_present (s : RoomsCarousel.t) (j : nat) :
  rooms_ok s -> Z.of_nat j < RoomsCarousel.numDots s ->
  exists ds d, RoomsCarousel.dotsContainer s = Some ds /\ nth_error ds j = Some d
               /\ RoomsCarousel.slide d = Z.of_nat j.
Proof.
  intros (_ & _ & (ds & Hds & Hsl) & _) Hj.
  assert (Hlen : length ds = Z.to_nat (RoomsCarousel.numDots s)).
  { rewrite <- (length_map RoomsCarousel.slide), Hsl, length_map, length_seq. reflexivity. }
  destruct (nth_error ds j) as [d|] eqn:E.
  - exists ds, d. split; [exact Hds|]. split; [exact E|].
    apply (proj1 (RoomsSetup.dot_slide s ds j d (ex_intro _ ds (conj Hds Hsl)) Hds E)).
  - apply nth_error_None in E. lia.
Qed.

End DotFacts.

(** X10: a click on an indicator reaches [goToSlide].  On a well-formed
    page (both containers in the document with cards, rooms at least two,
    the dots container present and empty in the markup) and after every
    sequence of inputs, each of the buttons the current mode asks for has
    the click listener [createDots] registered on it, the [j]-th button is
    in the container, and a click on it does what [goToSlide(j)] does:
    afterwards [currentIndex = j]. *)
Theorem indicator_click_goes_to_slide
    (m : App.Markup) (inputs : list App.Input) (j : nat) :
  Invariants.markup_ok m -> Forall App.shows_a_card inputs ->
  let p := App.run (App.initializeModules m) inputs in
  Z.of_nat j < RoomsCarousel.numDots (App.rooms p) ->
  App.registered OwnerRooms (RoomsDot j) TClick (App.listeners p) = true /\
  (exists ds d, RoomsCarousel.dotsContainer (App.rooms p) = Some ds
                /\ nth_error ds j = Some d /\ RoomsCarousel.slide d = Z.of_nat j) /\
  App.rooms (App.step p (App.DotClick j))
  = state_of (RoomsCarousel.goToSlide (Z.of_nat j) (App.rooms p)) /\
  RoomsCarousel.currentIndex (App.rooms (App.step p (App.DotClick j))) = Z.of_nat j.
Proof.
  intros Hm Hin p Hj.
  pose proof (PageInvariant.run_ok inputs (App.initializeModules m) Hin
                (PageInvariant.initializeModules_ok m Hm)) as Hok.
  pose proof (DotFacts.run_dots inputs (App.initializeModules m) Hin
                (PageInvariant.initializeModules_ok m Hm)
                (DotFacts.initializeModules_dots m Hm)) as Hd.
  fold p in Hok, Hd.
  pose proof (Hd j Hj) as Hreg.
  destruct (DotFacts.dot_present (App.rooms p) j (proj1 Hok) Hj) as (ds & d & Hds & Hnth & Hs).
  assert (E : App.rooms (App.step p (App.DotClick j))
              = state_of (RoomsCarousel.goToSlide (Z.of_nat j) (App.rooms p))).
  { cbn [App.step]. rewrite DotFacts.dispatch_rooms. cbn [type_of]. rewrite Hreg.
    cbn [RoomsCarousel.listener]. unfold RoomsCarousel.dot_click.
    rewrite bind_get, Hds, Hnth, Hs. reflexivity. }
  split; [exact Hreg|]. split; [exists ds, d; repeat split; assumption|].
  split; [exact E|]. rewrite E.
  destruct Hok as [((l & Hl & Hne) & _) _].
  destruct (cards l) as [|w tl] eqn:Hw; [congruence|].
  rewrite RoomsFacts.goToSlide_eq.
  rewrite (RoomsFacts.updateCarousel_eq
             (RoomsCarousel.set_currentIndex (Z.of_nat j) (App.rooms p)) l w tl Hl Hw).
  reflexivity.
Qed.

Lemma indicator_click_goes_to_slide_witness :
  let p := App.run (App.initializeModules (Examples.markup Examples.desktop))
             [App.Fire RoomsRightArrow Click; App.Viewport Examples.phone;
              App.Fire WindowObj Resize; App.Elapse 600] in
  RoomsCarousel.numDots (App.rooms p) = 5 /\
  RoomsCarousel.currentIndex (App.rooms (App.step p (App.DotClick 4))) = 4.
Proof.
  intros p. split; [reflexivity|].
  refine (proj2 (proj2 (proj2
    (indicator_click_goes_to_slide (Examples.markup Examples.desktop)
       [App.Fire RoomsRightArrow Click; App.Viewport Examples.phone;
        App.Fire WindowObj Resize; App.Elapse 600] 4 _ _ _)))).
  - split; [|split].
    + eexists. split; [reflexivity|]. cbn. lia.
    + reflexivity.
    + eexists. split; [reflexivity|]. discriminate.
  - repeat constructor.
  - reflexivity.
Defined.

(* ================================================================== *)
(** * The utility functions *)

(** ** throttle *)

Lemma throttle_step_passes {S A} (func : A -> M S unit) (limit dt : Z) (a : A)
    (th : Throttle.t S) :
  completion (func a (Throttle.target th)) = Normal tt ->
  Throttle.inThrottle (Throttle.elapse dt th) = false ->
  Throttle.resets (Throttle.elapse dt th) = [] ->
  let th' := Throttle.call func limit a (Throttle.elapse dt th) in
  Throttle.inThrottle th' = true /\
  Throttle.resets th' = [Throttle.now th' - 0 + limit] /\
  Throttle.target th' = state_of (func a (Throttle.target th)).
Proof.
  intros Hn Hf Hr th'. subst th'. unfold Throttle.call. rewrite Hf. cbn [negb].
  change (Throttle.target (Throttle.elapse dt th)) with (Throttle.target th) in *.
  destruct (func a (Throttle.target th)) as [[[[]|e] s'] es]; [|discriminate].
  rewrite Hr. cbn. repeat split. f_equal. lia.
Qed.

Lemma throttle_run_passed {S A} (func : A -> M S unit) (limit : Z)
    (calls : list (Z * A)) (I : S -> Prop) :
  (forall a s, I s -> completion (func a s) = Normal tt /\ I (state_of (func a s))) ->
  forall (since : option Z) (th : Throttle.t S),
  I (Throttle.target th) ->
  match since with
  | None => Throttle.inThrottle th = false /\ Throttle.resets th = []
  | Some e => Throttle.inThrottle th = true /\
              Throttle.resets th = [Throttle.now th - e + limit] /\
              0 <= e /\ (e < limit \/ e = 0)
  end ->
  Throttle.target (Throttle.run func limit calls th)
  = Throttle.applied func (Throttle.passed limit since calls) (Throttle.target th).
Proof.
  intros Hn. induction calls as [|[dt a] calls IH]; intros since th Hi Hinv; [reflexivity|].
  unfold Throttle.run in *. cbn [fold_left fst snd Throttle.passed].
  destruct (Hn a (Throttle.target th) Hi) as [Hna Hia].
  destruct since as [e|].
  - destruct Hinv as (Hf & Hr & He & Hlim).
    destruct (Z.ltb_spec (e + Z.max 0 dt) limit) as [Hlt|Hge].
    + assert (E : Throttle.call func limit a (Throttle.elapse dt th) = Throttle.elapse dt th).
      { unfold Throttle.call, Throttle.elapse. cbn [Throttle.inThrottle]. rewrite Hr, Hf.
        cbn [existsb]. destruct (Z.leb_spec (Throttle.now th - e + limit)
                                   (Throttle.now th + Z.max 0 dt)); [lia|]. reflexivity. }
      rewrite E. rewrite (IH (Some (e + Z.max 0 dt))); [reflexivity | exact Hi |].
      unfold Throttle.elapse. cbn [Throttle.inThrottle Throttle.resets Throttle.now].
      rewrite Hr, Hf. cbn [existsb filter].
      destruct (Z.leb_spec (Throttle.now th - e + limit) (Throttle.now th + Z.max 0 dt));
        [lia|]. cbn [orb negb]. repeat split; try lia. f_equal. lia.
    + destruct (throttle_step_passes func limit dt a th Hna) as (H1 & H2 & H3).
      * unfold Throttle.elapse. cbn [Throttle.inThrottle]. rewrite Hr. cbn [existsb].
        destruct (Z.leb_spec (Throttle.now th - e + limit) (Throttle.now th + Z.max 0 dt));
          [reflexivity | lia].
      * unfold Throttle.elapse. cbn [Throttle.resets]. rewrite Hr. cbn [filter].
        destruct (Z.leb_spec (Throttle.now th - e + limit) (Throttle.now th + Z.max 0 dt));
          [reflexivity | lia].
      * rewrite (IH (Some 0));
          [| rewrite H3; exact Hia | repeat split; try assumption; lia].
        rewrite H3. reflexivity.
  - destruct Hinv as (Hf & Hr).
    destruct (throttle_step_passes func limit dt a th Hna) as (H1 & H2 & H3).
    + unfold Throttle.elapse. cbn [Throttle.inThrottle]. now rewrite Hr, Hf.
    + unfold Throttle.elapse. cbn [Throttle.resets]. now rewrite Hr.
    + rewrite (IH (Some 0));
        [| rewrite H3; exact Hia | repeat split; try assumption; lia].
      rewrite H3. reflexivity.
Qed.

(** X14: what [throttle(func, limit)] lets through, for a callee that does
    not throw (on the fields [I] describes): of a series of calls the
    callee sees the first one and then exactly those that come at least
    [limit] ms after the last call it saw; the calls in between are
    dropped, not queued. *)
Theorem throttle_lets_through {S A} (func : A -> M S unit) (limit : Z)
    (calls : list (Z * A)) (I : S -> Prop) (s : S) :
  I s ->
  (forall a s0, I s0 -> completion (func a s0) = Normal tt /\ I (state_of (func a s0))) ->
  Throttle.target (Throttle.run func limit calls (Throttle.fresh s))
  = Throttle.applied func (Throttle.passed limit None calls) s.
Proof.
  intros Hs Hn.
  apply (throttle_run_passed func limit calls I Hn None (Throttle.fresh s) Hs).
  split; reflexivity.
Qed.

Lemma throttle_lets_through_witness :
  Throttle.target
    (Throttle.run (fun (a : Z) => modify (fun log => log ++ [a])) 100
       [(0, 1); (30, 2); (60, 3); (10, 4); (250, 5); (99, 6)] (Throttle.fresh []))
  = [1; 4; 5].
Proof.
  rewrite (throttle_lets_through (fun (a : Z) => modify (fun log => log ++ [a])) 100
             [(0, 1); (30, 2); (60, 3); (10, 4); (250, 5); (99, 6)] (fun _ => True) []).
  - reflexivity.
  - exact I.
  - intros a s0 _. split; [reflexivity | exact I].
Defined.

(** X15: a callee that throws does not start the throttle window, since
    [inThrottle] is set only after [func.apply] returned: while every call
    of the callee throws (on the fields [I] describes), every call of the
    throttled function reaches it, however close the calls are, and no
    timer is ever armed. *)
Theorem throttle_of_throwing_callee {S A} (func : A -> M S unit) (limit : Z)
    (calls : list (Z * A)) (I : S -> Prop) (s : S) :
  I s ->
  (forall a s0, I s0 ->
     (exists e, completion (func a s0) = Throw e) /\ I (state_of (func a s0))) ->
  let th := Throttle.run func limit calls (Throttle.fresh s) in
  Throttle.target th = Throttle.applied func (map snd calls) s /\
  Throttle.inThrottle th = false /\ Throttle.resets th = [].
Proof.
  intros Hs Ht.
  assert (G : forall th0, I (Throttle.target th0) ->
    Throttle.inThrottle th0 = false -> Throttle.resets th0 = [] ->
    let th := Throttle.run func limit calls th0 in
    Throttle.target th = Throttle.applied func (map snd calls) (Throttle.target th0) /\
    Throttle.inThrottle th = false /\ Throttle.resets th = []).
  { induction calls as [|[dt a] calls IH]; intros th0 Hi Hf Hr; [now repeat split|].
    unfold Throttle.run in *. cbn [fold_left map fst snd Throttle.applied].
    set (th1 := Throttle.call func limit a (Throttle.elapse dt th0)).
    assert (H1 : Throttle.inThrottle th1 = false /\ Throttle.resets th1 = [] /\
                 Throttle.target th1 = state_of (func a (Throttle.target th0))).
    { subst th1. unfold Throttle.call, Throttle.elapse.
      cbn [Throttle.inThrottle Throttle.target Throttle.resets Throttle.now].
      rewrite Hr, Hf. cbn [existsb negb filter].
      destruct (Ht a (Throttle.target th0) Hi) as [(e & He) _].
      destruct (func a (Throttle.target th0)) as [[[[]|e'] s'] es]; [discriminate|].
      repeat split. }
    destruct H1 as (F1 & R1 & T1).
    assert (I1 : I (Throttle.target th1)) by (rewrite T1; apply Ht, Hi).
    destruct (IH th1 I1 F1 R1) as (G1 & G2 & G3). rewrite T1 in G1.
    repeat split; assumption. }
  apply G; [exact Hs | reflexivity | reflexivity].
Qed.

Lemma throttle_of_throwing_callee_witness :
  Throttle.inThrottle
    (Throttle.run (fun _ : unit => RoomsCarousel.syncWithScroll) 100
       [(0, tt); (5, tt); (5, tt)] (Throttle.fresh Examples.rooms_empty)) = false.
Proof.
  refine (proj1 (proj2
    (throttle_of_throwing_callee (fun _ : unit => RoomsCarousel.syncWithScroll) 100
       [(0, tt); (5, tt); (5, tt)] (fun s0 => s0 = Examples.rooms_empty)
       Examples.rooms_empty eq_refl _))).
  intros _ s0 ->. split; [exists TypeError|]; reflexivity.
Defined.

(** ** debounce *)

Lemma clearTimeout_nil {A} (h : option nat) : Debounce.clearTimeout h (@nil (Debounce.Timer A)) = [].
Proof. destruct h; reflexivity. Qed.

(** Time passes while one timer is pending. *)
Lemma debounce_elapse_one {S A} (func : A -> M S unit) (dt : Z) (d : Debounce.t S A)
    (tm : Debounce.Timer A) :
  Debounce.pending d = [tm] -> Debounce.timeout d = Some (Debounce.id tm) ->
  Debounce.elapse func dt d
  = (if Debounce.due tm <=? Debounce.now d + Z.max 0 dt
     then {| Debounce.timeout := Debounce.timeout d; Debounce.pending := [];
             Debounce.next_id := Debounce.next_id d;
             Debounce.now := Debounce.now d + Z.max 0 dt;
             Debounce.target := state_of (func (Debounce.args tm) (Debounce.target d)) |}
     else {| Debounce.timeout := Debounce.timeout d; Debounce.pending := [tm];
             Debounce.next_id := Debounce.next_id d;
             Debounce.now := Debounce.now d + Z.max 0 dt;
             Debounce.target := Debounce.target d |}).
Proof.
  intros Hp Ht. unfold Debounce.elapse. rewrite Hp. cbn [fold_left].
  unfold Debounce.fire. cbn [Debounce.now Debounce.pending].
  destruct (Debounce.due tm <=? Debounce.now d + Z.max 0 dt); cbn [andb]; [|reflexivity].
  unfold Debounce.is_pending. cbn [existsb]. rewrite Nat.eqb_refl. cbn [orb].
  unfold Debounce.later, Debounce.remove. cbn [filter Debounce.pending Debounce.timeout
    Debounce.target Debounce.next_id Debounce.now].
  rewrite Nat.eqb_refl. cbn [negb]. now rewrite clearTimeout_nil.
Qed.

Lemma debounce_elapse_none {S A} (func : A -> M S unit) (dt : Z) (d : Debounce.t S A) :
  Debounce.pending d = [] ->
  Debounce.elapse func dt d
  = {| Debounce.timeout := Debounce.timeout d; Debounce.pending := [];
       Debounce.next_id := Debounce.next_id d;
       Debounce.now := Debounce.now d + Z.max 0 dt;
       Debounce.target := Debounce.target d |}.
Proof. intros Hp. unfold Debounce.elapse. rewrite Hp. reflexivity. Qed.

Lemma debounce_run_flushed {S A} (func : A -> M S unit) (wait : Z)
    (calls : list (Z * A)) :
  forall (prev : option A) (d : Debounce.t S A),
  match prev with
  | None => Debounce.pending d = []
  | Some b => exists i,
      Debounce.timeout d = Some i /\
      Debounce.pending d
      = [{| Debounce.id := i; Debounce.due := Debounce.now d + wait; Debounce.args := b |}]
  end ->
  let d' := Debounce.elapse func wait (Debounce.run func wait calls d) in
  Debounce.target d'
  = Throttle.applied func (Debounce.flushed wait prev calls) (Debounce.target d) /\
  Debounce.pending d' = [].
Proof.
  induction calls as [|[dt a] calls IH]; intros prev d Hinv.
  - cbn [Debounce.run fold_left Debounce.flushed]. destruct prev as [b|].
    + destruct Hinv as (i & Ht & Hp).
      rewrite (debounce_elapse_one func wait d _ Hp Ht). cbn [Debounce.due].
      destruct (Z.leb_spec (Debounce.now d + wait) (Debounce.now d + Z.max 0 wait)); [|lia].
      split; reflexivity.
    + rewrite (debounce_elapse_none func wait d Hinv). split; reflexivity.
  - unfold Debounce.run in *. cbn [fold_left fst snd Debounce.flushed].
    destruct prev as [b|].
    + destruct Hinv as (i & Ht & Hp).
      rewrite (debounce_elapse_one func dt d _ Hp Ht). cbn [Debounce.due Debounce.args].
      destruct (Z.leb_spec (Debounce.now d + wait) (Debounce.now d + Z.max 0 dt)) as [Hle|Hgt].
      * destruct (Z.leb_spec wait (Z.max 0 dt)); [|lia].
        match goal with |- context [fold_left _ calls ?d1] =>
          destruct (IH (Some a) d1) as [I1 I2] end.
        { eexists. split; [reflexivity|]. unfold Debounce.call.
          cbn [Debounce.pending Debounce.timeout Debounce.now Debounce.next_id].
          rewrite clearTimeout_nil. reflexivity. }
        split; [|exact I2]. rewrite I1. reflexivity.
      * destruct (Z.leb_spec wait (Z.max 0 dt)); [lia|].
        match goal with |- context [fold_left _ calls ?d1] =>
          destruct (IH (Some a) d1) as [I1 I2] end.
        { eexists. split; [reflexivity|]. unfold Debounce.call.
          cbn [Debounce.pending Debounce.timeout Debounce.now Debounce.next_id].
          rewrite Ht. cbn [Debounce.clearTimeout filter Debounce.id].
          rewrite Nat.eqb_refl. reflexivity. }
        split; [|exact I2]. rewrite I1. reflexivity.
    + rewrite (debounce_elapse_none func dt d Hinv).
      match goal with |- context [fold_left _ calls ?d1] =>
        destruct (IH (Some a) d1) as [I1 I2] end.
      { eexists. split; [reflexivity|]. unfold Debounce.call.
        cbn [Debounce.pending Debounce.timeout Debounce.now Debounce.next_id].
        rewrite clearTimeout_nil. reflexivity. }
      split; [|exact I2]. rewrite I1. reflexivity.
Qed.

(** X16: what [debounce(func, wait)] lets through.  Once [wait] ms have
    passed after a series of calls, the callee has been called exactly with
    the arguments of each call that was not followed by another call within
    [wait] ms, in order, and no timer is pending: a call made within [wait]
    ms of the previous one replaces it. *)
Theorem debounce_lets_through {S A} (func : A -> M S unit) (wait : Z)
    (calls : list (Z * A)) (s : S) :
  let d := Debounce.elapse func wait
             (Debounce.run func wait calls (Debounce.fresh s)) in
  Debounce.target d = Throttle.applied func (Debounce.flushed wait None calls) s /\
  Debounce.pending d = [].
Proof.
  apply (debounce_run_flushed func wait calls None (Debounce.fresh s)). reflexivity.
Qed.

Lemma last_cons_default {A} (a b : A) (l : list A) : last (a :: l) b = last l a.
Proof.
  revert a b. induction l as [|c l IH]; intros a b; [reflexivity|].
  change (last (a :: c :: l) b) with (last (c :: l) b).
  now rewrite (IH c b), (IH c a).
Qed.

Lemma flushed_burst {A} (wait : Z) (calls : list (Z * A)) (b : A) :
  Forall (fun c => Z.max 0 (fst c) < wait) calls ->
  Debounce.flushed wait (Some b) calls = [last (map snd calls) b].
Proof.
  revert b. induction calls as [|[dt a] calls IH]; intros b Hall; [reflexivity|].
  inversion Hall as [|? ? Hc Hrest]; subst. cbn [fst] in Hc.
  cbn [Debounce.flushed]. destruct (Z.leb_spec wait (Z.max 0 dt)); [lia|].
  rewrite (IH a Hrest). cbn [map snd]. now rewrite last_cons_default.
Qed.

Lemma debounce_run_burst {S A} (func : A -> M S unit) (wait : Z)
    (calls : list (Z * A)) :
  Forall (fun c => Z.max 0 (fst c) < wait) calls ->
  forall (b : A) (d : Debounce.t S A) (i : nat),
  Debounce.timeout d = Some i ->
  Debounce.pending d
  = [{| Debounce.id := i; Debounce.due := Debounce.now d + wait; Debounce.args := b |}] ->
  let d' := Debounce.run func wait calls d in
  Debounce.target d' = Debounce.target d /\
  exists j, Debounce.timeout d' = Some j /\
    Debounce.pending d'
    = [{| Debounce.id := j; Debounce.due := Debounce.now d' + wait;
          Debounce.args := last (map snd calls) b |}].
Proof.
  induction calls as [|[dt a] calls IH]; intros Hall b d i Ht Hp.
  - cbn. split; [reflexivity|]. exists i. split; assumption.
  - inversion Hall as [|? ? Hc Hrest]; subst. cbn [fst] in Hc.
    unfold Debounce.run in *. cbn [fold_left fst snd].
    rewrite (debounce_elapse_one func dt d _ Hp Ht). cbn [Debounce.due].
    destruct (Z.leb_spec (Debounce.now d + wait) (Debounce.now d + Z.max 0 dt)); [lia|].
    match goal with |- context [fold_left _ calls ?d1] =>
      destruct (IH Hrest a d1 (Debounce.next_id d)) as [I1 (j & I2 & I3)] end.
    + reflexivity.
    + unfold Debounce.call.
      cbn [Debounce.pending Debounce.timeout Debounce.now Debounce.next_id].
      rewrite Ht. cbn [Debounce.clearTimeout filter Debounce.id].
      rewrite Nat.eqb_refl. reflexivity.
    + split; [exact I1|]. exists j. split; [exact I2|]. rewrite I3.
      cbn [map snd]. now rewrite last_cons_default.
Qed.

(** X17: a burst collapses to one call.  When each call of a series comes
    less than [wait] ms after the one before, the callee has not been
    called when the series ends, exactly one timer is pending, due [wait]
    ms after the last call and holding the last call's arguments; the
    callee is still untouched any time before that, and once [wait] ms
    have passed it has been called once, with the last call's arguments. *)
Theorem debounce_burst {S A} (func : A -> M S unit) (wait : Z)
    (dt0 : Z) (a0 : A) (calls : list (Z * A)) (s : S) :
  Forall (fun c => Z.max 0 (fst c) < wait) calls ->
  let d := Debounce.run func wait ((dt0, a0) :: calls) (Debounce.fresh s) in
  let final := last (map snd calls) a0 in
  Debounce.target d = s /\
  map (fun tm => (Debounce.due tm, Debounce.args tm)) (Debounce.pending d)
  = [(Debounce.now d + wait, final)] /\
  (forall dt, Z.max 0 dt < wait ->
     Debounce.target (Debounce.elapse func dt d) = s) /\
  (forall dt, wait <= Z.max 0 dt ->
     Debounce.target (Debounce.elapse func dt d) = state_of (func final s) /\
     Debounce.pending (Debounce.elapse func dt d) = []).
Proof.
  intros Hall d final.
  set (d1 := Debounce.call wait a0 (Debounce.elapse func dt0 (Debounce.fresh s))).
  assert (Hd : d = Debounce.run func wait calls d1) by reflexivity.
  destruct (debounce_run_burst func wait calls Hall a0 d1 0%nat eq_refl eq_refl)
    as [T (j & Ht & Hp)].
  fold final in Hp. rewrite <- Hd in T, Ht, Hp. clearbody d.
  change (Debounce.target d1) with s in T.
  split; [exact T|]. split; [rewrite Hp; reflexivity|]. split.
  - intros dt Hdt. rewrite (debounce_elapse_one func dt d _ Hp Ht). cbn [Debounce.due].
    destruct (Z.leb_spec (Debounce.now d + wait) (Debounce.now d + Z.max 0 dt)); [lia|].
    exact T.
  - intros dt Hdt. rewrite (debounce_elapse_one func dt d _ Hp Ht).
    cbn [Debounce.due Debounce.args].
    destruct (Z.leb_spec (Debounce.now d + wait) (Debounce.now d + Z.max 0 dt)); [|lia].
    cbn. rewrite T. split; reflexivity.
Qed.

Lemma debounce_burst_witness :
  let d := Debounce.run (fun a : Z => modify (fun log => log ++ [a])) 250
             [(0, 1); (50, 2); (50, 3); (50, 4); (50, 5); (50, 6); (50, 7); (50, 8);
              (50, 9); (50, 10)] (Debounce.fresh []) in
  Debounce.now d = 450 /\
  Debounce.target (Debounce.elapse (fun a : Z => modify (fun log => log ++ [a])) 249 d) = [] /\
  Debounce.target (Debounce.elapse (fun a : Z => modify (fun log => log ++ [a])) 250 d) = [10].
Proof.
  intros d.
  destruct (debounce_burst (fun a : Z => modify (fun log => log ++ [a])) 250 0 1
              [(50, 2); (50, 3); (50, 4); (50, 5); (50, 6); (50, 7); (50, 8);
               (50, 9); (50, 10)] []) as (_ & _ & Hbefore & Hafter).
  - repeat constructor.
  - split; [reflexivity|]. split.
    + apply Hbefore. reflexivity.
    + apply Hafter. discriminate.
Defined.

(** ** [RoomImageZoom] *)

Module ZoomFacts.
Import RoomImageZoom.

Lemma count_cleared (l : list bool) : count (map (fun _ => false) l) = 0%nat.
Proof. induction l as [|x l IH]; [reflexivity|exact IH]. Qed.

Lemma count_set_false (i : nat) (l : list bool) :
  (count (set_zoom i false l) <= count l)%nat.
Proof.
  revert i. induction l as [|x l IH]; intros i; [cbn; lia|].
  destruct i as [|j].
  - unfold count. cbn [set_zoom filter]. destruct x; cbn [length]; lia.
  - unfold count in *. cbn [set_zoom filter]. specialize (IH j).
    destruct x; cbn [length]; lia.
Qed.

Lemma count_set_true_cleared (i : nat) (l : list bool) :
  (count (set_zoom i true (map (fun _ => false) l)) <= 1)%nat.
Proof.
  revert i. induction l as [|x l IH]; intros i; [cbn; lia|].
  destruct i as [|j].
  - unfold count. cbn [map set_zoom filter length]. fold (count (map (fun _ => false) l)).
    rewrite count_cleared. lia.
  - unfold count in *. cbn [map set_zoom filter]. apply IH.
Qed.

Lemma count_fold_fire (tms : list (Z * nat)) (l : list bool) :
  (count (fold_left fire tms l) <= count l)%nat.
Proof.
  revert l. induction tms as [|tm tms IH]; intros l; [apply Nat.le_refl|].
  cbn [fold_left]. etransitivity; [apply IH|]. apply count_set_false.
Qed.

Lemma length_set_zoom (i : nat) (b : bool) (l : list bool) :
  length (set_zoom i b l) = length l.
Proof.
  revert i. induction l as [|x l IH]; intros i; [reflexivity|].
  destruct i; cbn [set_zoom length]; [reflexivity|now rewrite IH].
Qed.

Lemma length_fold_fire (tms : list (Z * nat)) (l : list bool) :
  length (fold_left fire tms l) = length l.
Proof.
  revert l. induction tms as [|tm tms IH]; intros l; [reflexivity|].
  cbn [fold_left]. rewrite IH. apply length_set_zoom.
Qed.

Lemma length_step (z : t) (inp : Input) : length (zoomed (step z inp)) = length (zoomed z).
Proof.
  destruct inp as [i c|dt]; cbn [step].
  - unfold click. destruct (negb (i <? length (zoomed z))%nat); [reflexivity|].
    destruct c; [reflexivity|].
    destruct (negb (nth i (zoomed z) false)); cbn [zoomed].
    + now rewrite length_set_zoom, length_map.
    + apply length_map.
  - cbn [elapse zoomed]. apply length_fold_fire.
Qed.

Lemma length_run (inputs : list Input) (z : t) :
  length (zoomed (run inputs z)) = length (zoomed z).
Proof.
  revert z. induction inputs as [|inp inputs IH]; intros z; [reflexivity|].
  unfold run in *. cbn [fold_left]. rewrite IH. apply length_step.
Qed.

Lemma nth_set_zoom (i j : nat) (b : bool) (l : list bool) :
  nth j (set_zoom i b l) false
  = if Nat.eqb i j && Nat.ltb i (length l) then b else nth j l false.
Proof.
  revert i j. induction l as [|x l IH]; intros i j.
  - cbn [set_zoom length]. destruct (Nat.eqb i j); cbn [andb]; [|reflexivity].
    destruct j; reflexivity.
  - destruct i as [|i], j as [|j]; cbn [set_zoom nth length Nat.eqb andb]; try reflexivity.
    rewrite IH. reflexivity.
Qed.

Lemma nth_cleared (j : nat) (l : list bool) : nth j (map (fun _ => false) l) false = false.
Proof.
  revert j. induction l as [|x l IH]; intros j; destruct j; cbn; auto.
Qed.

(** A zoom that survives a round of timers had no timer in that round. *)
Lemma nth_fold_fire (tms : list (Z * nat)) (l : list bool) (i : nat) :
  nth i (fold_left fire tms l) false = true ->
  nth i l false = true /\ forall due, ~ In (due, i) tms.
Proof.
  revert l. induction tms as [|[d k] tms IH]; intros l H.
  - split; [exact H|]. intros due [].
  - cbn [fold_left] in H. destruct (IH _ H) as [H1 H2].
    unfold fire in H1. cbn [snd] in H1. rewrite nth_set_zoom in H1.
    destruct (Nat.eqb_spec k i) as [->|Hne]; cbn [andb] in H1.
    + destruct (Nat.ltb_spec i (length l)) as [Hlt|Hge]; [discriminate|].
      rewrite nth_overflow in H1 by lia. discriminate.
    + split; [exact H1|]. intros due [E|Hin].
      * inversion E; subst. now apply Hne.
      * exact (H2 due Hin).
Qed.

Lemma covered_step (z : t) (inp : Input) : covered z -> covered (step z inp).
Proof.
  intros Hc. destruct inp as [i c|dt]; cbn [step].
  - unfold click. destruct (Nat.ltb_spec i (length (zoomed z))) as [Hlt|Hge]; cbn [negb];
      [|exact Hc].
    destruct c; [exact Hc|].
    destruct (nth i (zoomed z) false); cbn [negb].
    + intros j Hj. cbn [zoomed] in Hj. rewrite nth_cleared in Hj. discriminate.
    + intros j Hj. cbn [zoomed timers now] in *. rewrite nth_set_zoom, nth_cleared in Hj.
      destruct (Nat.eqb_spec i j) as [->|Hne]; cbn [andb] in Hj.
      * exists (now z + 2000). split; [|lia]. apply in_or_app. right. now left.
      * discriminate.
  - intros i Hi. cbn [elapse zoomed timers now] in *.
    destruct (nth_fold_fire _ _ _ Hi) as [H1 H2].
    destruct (Hc i H1) as (due & Hin & Hdue).
    exists due. split; [|lia]. apply filter_In. split; [exact Hin|].
    cbn [fst]. destruct (Z.leb_spec due (now z + Z.max 0 dt)) as [Hle|Hgt]; [|reflexivity].
    exfalso. apply (H2 due). apply filter_In. split; [exact Hin|].
    cbn [fst]. now apply Z.leb_le.
Qed.

Lemma covered_run (inputs : list Input) (z : t) : covered z -> covered (run inputs z).
Proof.
  revert z. induction inputs as [|inp inputs IH]; intros z Hc; [exact Hc|].
  unfold run in *. cbn [fold_left]. apply IH. now apply covered_step.
Qed.

Lemma count_step (z : t) (inp : Input) :
  (count (zoomed z) <= 1 -> count (zoomed (step z inp)) <= 1)%nat.
Proof.
  intros H. destruct inp as [i c|dt]; cbn [step].
  - unfold click. destruct (negb (i <? length (zoomed z))%nat); [exact H|].
    destruct c; [exact H|].
    destruct (negb (nth i (zoomed z) false)); cbn [zoomed].
    + apply count_set_true_cleared.
    + rewrite count_cleared. lia.
  - cbn [elapse zoomed]. etransitivity; [apply count_fold_fire|exact H].
Qed.

Lemma all_false (l : list bool) :
  (forall i, nth i l false = false) -> l = repeat false (length l).
Proof.
  induction l as [|x l IH]; intros H; [reflexivity|].
  cbn [length repeat]. f_equal.
  - exact (H 0%nat).
  - apply IH. intros i. exact (H (Datatypes.S i)).
Qed.

Lemma click_zooms (i : nat) (z : t) :
  (i < length (zoomed z))%nat -> nth i (zoomed z) false = false ->
  click i false z
  = {| zoomed := set_zoom i true (map (fun _ => false) (zoomed z));
       timers := timers z ++ [(now z + 2000, i)];
       now := now z |}.
Proof.
  intros Hi Hz. unfold click.
  destruct (Nat.ltb_spec i (length (zoomed z))); [|lia]. cbn [negb]. now rewrite Hz.
Qed.

Lemma click_unzooms (i : nat) (z : t) :
  (i < length (zoomed z))%nat -> nth i (zoomed z) false = true ->
  click i false z
  = {| zoomed := map (fun _ => false) (zoomed z); timers := timers z; now := now z |}.
Proof.
  intros Hi Hz. unfold click.
  destruct (Nat.ltb_spec i (length (zoomed z))); [|lia]. cbn [negb]. now rewrite Hz.
Qed.

Lemma elapse_none_due (dt : Z) (z : t) :
  Forall (fun tm => now z + Z.max 0 dt < fst tm) (timers z) ->
  elapse dt z
  = {| zoomed := zoomed z; timers := timers z; now := now z + Z.max 0 dt |}.
Proof.
  intros H. unfold elapse.
  assert (E1 : forall tms : list (Z * nat),
             Forall (fun tm => now z + Z.max 0 dt < fst tm) tms ->
             filter (fun tm => fst tm <=? now z + Z.max 0 dt) tms = []).
  { induction 1 as [|tm tms Htm _ IH]; [reflexivity|]. cbn [filter].
    destruct (Z.leb_spec (fst tm) (now z + Z.max 0 dt)); [lia|exact IH]. }
  assert (E2 : forall tms : list (Z * nat),
             Forall (fun tm => now z + Z.max 0 dt < fst tm) tms ->
             filter (fun tm => negb (fst tm <=? now z + Z.max 0 dt)) tms = tms).
  { induction 1 as [|tm tms Htm _ IH]; [reflexivity|]. cbn [filter].
    destruct (Z.leb_spec (fst tm) (now z + Z.max 0 dt)); [lia|]. cbn [negb]. now rewrite IH. }
  now rewrite (E1 _ H), (E2 _ H).
Qed.

Lemma nth_zoomed (i : nat) (l : list bool) :
  (i < length l)%nat -> nth i (set_zoom i true l) false = true.
Proof.
  intros Hi. rewrite nth_set_zoom, Nat.eqb_refl.
  destruct (Nat.ltb_spec i (length l)); [reflexivity|lia].
Qed.

End ZoomFacts.

(** X18: at most one room image is zoomed.  When at most one image has the
    [zoom-active] class, this stays so whatever is clicked and however much
    time passes; and a click that reaches the listener of an image leaves
    that image as the only one zoomed when it was not zoomed before, and no
    image zoomed when it was. *)
Theorem at_most_one_zoomed (inputs : list RoomImageZoom.Input) (z : RoomImageZoom.t) :
  (RoomImageZoom.count (RoomImageZoom.zoomed z) <= 1)%nat ->
  (RoomImageZoom.count (RoomImageZoom.zoomed (RoomImageZoom.run inputs z)) <= 1)%nat /\
  forall i j, (i < length (RoomImageZoom.zoomed z))%nat ->
    nth j (RoomImageZoom.zoomed (RoomImageZoom.click i false z)) false
    = Nat.eqb i j && negb (nth i (RoomImageZoom.zoomed z) false).
Proof.
  intros H. split.
  - revert z H. induction inputs as [|inp inputs IH]; intros z H; [exact H|].
    unfold RoomImageZoom.run in *. cbn [fold_left]. apply IH.
    now apply ZoomFacts.count_step.
  - intros i j Hi. unfold RoomImageZoom.click.
    destruct (Nat.ltb_spec i (length (RoomImageZoom.zoomed z))) as [Hlt|Hge]; [|lia].
    cbn [negb]. destruct (nth i (RoomImageZoom.zoomed z) false); cbn [negb RoomImageZoom.zoomed].
    + rewrite ZoomFacts.nth_cleared. now rewrite andb_false_r.
    + rewrite ZoomFacts.nth_set_zoom, ZoomFacts.nth_cleared, length_map.
      destruct (Nat.ltb_spec i (length (RoomImageZoom.zoomed z))); [|lia].
      rewrite andb_true_r. destruct (Nat.eqb i j); reflexivity.
Qed.

Lemma at_most_one_zoomed_witness :
  (RoomImageZoom.count
     (RoomImageZoom.zoomed
        (RoomImageZoom.run
           [RoomImageZoom.Click 0 false; RoomImageZoom.Wait 300;
            RoomImageZoom.Click 2 false; RoomImageZoom.Click 1 true]
           (RoomImageZoom.fresh 3))) <= 1)%nat.
Proof.
  apply (at_most_one_zoomed _ (RoomImageZoom.fresh 3)). cbn. lia.
Defined.

(** X19: a zoom never lasts.  On a page where every zoomed image has its
    auto-remove timer pending (as right after [init] with no image zoomed),
    whatever is clicked and however the clicks are timed, no image is
    zoomed once 2000 ms have passed without a click. *)
Theorem zoom_is_removed (inputs : list RoomImageZoom.Input) (z : RoomImageZoom.t) :
  RoomImageZoom.covered z ->
  RoomImageZoom.zoomed (RoomImageZoom.elapse 2000 (RoomImageZoom.run inputs z))
  = repeat false (length (RoomImageZoom.zoomed z)).
Proof.
  intros Hc. pose proof (ZoomFacts.covered_run inputs z Hc) as Hr.
  rewrite <- (ZoomFacts.length_run inputs z).
  set (z' := RoomImageZoom.run inputs z) in *.
  rewrite <- (ZoomFacts.length_step z' (RoomImageZoom.Wait 2000)).
  apply ZoomFacts.all_false. intros i. cbn [RoomImageZoom.step].
  destruct (nth i (RoomImageZoom.zoomed (RoomImageZoom.elapse 2000 z')) false) eqn:E;
    [|reflexivity].
  exfalso. cbn [RoomImageZoom.elapse RoomImageZoom.zoomed] in E.
  destruct (ZoomFacts.nth_fold_fire _ _ _ E) as [H1 H2].
  destruct (Hr i H1) as (due & Hin & Hdue).
  apply (H2 due). apply filter_In. split; [exact Hin|]. cbn [fst].
  apply Z.leb_le. lia.
Qed.

Lemma zoom_is_removed_witness :
  RoomImageZoom.zoomed
    (RoomImageZoom.elapse 2000
       (RoomImageZoom.run
          [RoomImageZoom.Click 0 false; RoomImageZoom.Wait 1900;
           RoomImageZoom.Click 1 false; RoomImageZoom.Wait 1999;
           RoomImageZoom.Click 2 false]
          (RoomImageZoom.fresh 3)))
  = [false; false; false].
Proof.
  apply (zoom_is_removed _ (RoomImageZoom.fresh 3)).
  intros i Hi. cbn [RoomImageZoom.fresh RoomImageZoom.zoomed] in Hi.
  destruct i as [|[|[|i]]]; cbn in Hi; try discriminate; destruct i; discriminate.
Defined.

(** X20: an auto-remove timer is never cancelled, so it can end a later
    zoom of the same image early.  Zoom an image, click it again [a] ms
    later to unzoom it, and zoom it once more [b] ms after that, with
    [a + b < 2000]: the image is zoomed then, and it loses the zoom
    [2000 - a - b] ms later, when the timer of the first click fires. *)
Theorem stale_timer_ends_zoom_early (i : nat) (a b : Z) (z : RoomImageZoom.t) :
  (i < length (RoomImageZoom.zoomed z))%nat ->
  nth i (RoomImageZoom.zoomed z) false = false ->
  RoomImageZoom.timers z = [] ->
  0 <= a -> 0 <= b -> a + b < 2000 ->
  let clicks := [RoomImageZoom.Click i false; RoomImageZoom.Wait a;
                 RoomImageZoom.Click i false; RoomImageZoom.Wait b;
                 RoomImageZoom.Click i false] in
  nth i (RoomImageZoom.zoomed (RoomImageZoom.run clicks z)) false = true /\
  (forall dt, dt < 2000 - a - b ->
     nth i (RoomImageZoom.zoomed
              (RoomImageZoom.elapse dt (RoomImageZoom.run clicks z))) false = true) /\
  nth i (RoomImageZoom.zoomed
           (RoomImageZoom.elapse (2000 - a - b) (RoomImageZoom.run clicks z))) false
  = false.
Proof.
  intros Hi Hz Ht Ha Hb Hab clicks. subst clicks.
  unfold RoomImageZoom.run. cbn [fold_left RoomImageZoom.step].
  set (n := RoomImageZoom.now z).
  set (l0 := map (fun _ : bool => false) (RoomImageZoom.zoomed z)).
  assert (L0 : length l0 = length (RoomImageZoom.zoomed z)) by apply length_map.
  assert (C0 : map (fun _ : bool => false) (RoomImageZoom.set_zoom i true l0) = l0).
  { subst l0. clear. revert i.
    induction (RoomImageZoom.zoomed z) as [|x l IH]; intros i; [reflexivity|].
    destruct i; cbn [map RoomImageZoom.set_zoom]; f_equal; [now rewrite map_map|apply IH]. }
  assert (C1 : map (fun _ : bool => false) l0 = l0) by (subst l0; now rewrite map_map).
  assert (Hon : nth i (RoomImageZoom.set_zoom i true l0) false = true)
    by (apply ZoomFacts.nth_zoomed; lia).
  assert (E1 : RoomImageZoom.click i false z
               = {| RoomImageZoom.zoomed := RoomImageZoom.set_zoom i true l0;
                    RoomImageZoom.timers := [(n + 2000, i)];
                    RoomImageZoom.now := n |}).
  { rewrite (ZoomFacts.click_zooms i z Hi Hz), Ht. reflexivity. }
  rewrite E1.
  rewrite (ZoomFacts.elapse_none_due a)
    by (cbn [RoomImageZoom.timers RoomImageZoom.now];
        repeat (apply Forall_cons; [cbn [fst]; lia|]); apply Forall_nil).
  cbn [RoomImageZoom.zoomed RoomImageZoom.timers RoomImageZoom.now].
  rewrite (ZoomFacts.click_unzooms i {| RoomImageZoom.zoomed := RoomImageZoom.set_zoom i true l0 |})
    by (cbn [RoomImageZoom.zoomed];
        first [now rewrite ZoomFacts.length_set_zoom, L0 | exact Hon]).
  cbn [RoomImageZoom.zoomed RoomImageZoom.timers RoomImageZoom.now]. rewrite C0.
  rewrite (ZoomFacts.elapse_none_due b)
    by (cbn [RoomImageZoom.timers RoomImageZoom.now];
        repeat (apply Forall_cons; [cbn [fst]; lia|]); apply Forall_nil).
  cbn [RoomImageZoom.zoomed RoomImageZoom.timers RoomImageZoom.now].
  rewrite (ZoomFacts.click_zooms i {| RoomImageZoom.zoomed := l0 |})
    by (cbn [RoomImageZoom.zoomed];
        first [now rewrite L0 | apply ZoomFacts.nth_cleared]).
  cbn [RoomImageZoom.zoomed RoomImageZoom.timers RoomImageZoom.now app]. rewrite C1.
  split; [exact Hon|]. split.
  - intros dt Hdt.
    rewrite (ZoomFacts.elapse_none_due dt)
      by (cbn [RoomImageZoom.timers RoomImageZoom.now];
          repeat (apply Forall_cons; [cbn [fst]; lia|]); apply Forall_nil).
    exact Hon.
  - cbn [RoomImageZoom.elapse RoomImageZoom.zoomed RoomImageZoom.timers RoomImageZoom.now
         filter fst].
    destruct (Z.leb_spec (n + 2000) (n + Z.max 0 a + Z.max 0 b + Z.max 0 (2000 - a - b)));
      [|lia].
    match goal with |- context [if ?c then _ else _] => destruct c end;
      cbn [fold_left]; unfold RoomImageZoom.fire; cbn [snd];
      rewrite ?ZoomFacts.nth_set_zoom, ?ZoomFacts.length_set_zoom, L0;
      rewrite Nat.eqb_refl;
      (destruct (Nat.ltb_spec i (length (RoomImageZoom.zoomed z))); [reflexivity|lia]).
Qed.

Lemma stale_timer_ends_zoom_early_witness :
  nth 1 (RoomImageZoom.zoomed
           (RoomImageZoom.elapse 499
              (RoomImageZoom.run
                 [RoomImageZoom.Click 1 false; RoomImageZoom.Wait 1000;
                  RoomImageZoom.Click 1 false; RoomImageZoom.Wait 500;
                  RoomImageZoom.Click 1 false] (RoomImageZoom.fresh 3))))
      false = true /\
  nth 1 (RoomImageZoom.zoomed
           (RoomImageZoom.elapse 500
              (RoomImageZoom.run
                 [RoomImageZoom.Click 1 false; RoomImageZoom.Wait 1000;
                  RoomImageZoom.Click 1 false; RoomImageZoom.Wait 500;
                  RoomImageZoom.Click 1 false] (RoomImageZoom.fresh 3))))
      false = false.
Proof.
  destruct (stale_timer_ends_zoom_early 1 1000 500 (RoomImageZoom.fresh 3))
    as (_ & Hbefore & Hat);
    [cbn; lia|reflexivity|reflexivity|lia|lia|lia|].
  split; [apply Hbefore; reflexivity|exact Hat].
Defined.

(** ** [LoadingScreen] *)

Module LoadingFacts.
Import LoadingScreen.

Lemma pick_none (tms : list (Z * Task)) : pick tms = None -> tms = [].
Proof.
  destruct tms as [|x tms]; [reflexivity|]. cbn [pick].
  destruct (pick tms) as [[? ?]|]; [destruct (_ <=? _)|]; discriminate.
Qed.

Lemma pick_weight (tms : list (Z * Task)) (tm : Z * Task) (rest : list (Z * Task)) :
  pick tms = Some (tm, rest) ->
  weight tms = (match snd tm with Hide => 2 | Remove => 1 end + weight rest)%nat.
Proof.
  revert tm rest. induction tms as [|x tms IH]; intros tm rest H; [discriminate|].
  cbn [pick] in H. destruct (pick tms) as [[tm' rest']|].
  - specialize (IH tm' rest' eq_refl).
    destruct (fst x <=? fst tm'); inversion H; subst; clear H.
    + reflexivity.
    + cbn [weight fold_right] in *. fold (weight tms). fold (weight rest'). rewrite IH. lia.
  - inversion H; subst. reflexivity.
Qed.

Lemma pick_least (tms : list (Z * Task)) (tm : Z * Task) (rest : list (Z * Task)) :
  pick tms = Some (tm, rest) -> Forall (fun x => fst tm <= fst x) tms.
Proof.
  revert tm rest. induction tms as [|x tms IH]; intros tm rest H; [discriminate|].
  cbn [pick] in H. destruct (pick tms) as [[tm' rest']|] eqn:E.
  - specialize (IH tm' rest' eq_refl).
    destruct (Z.leb_spec (fst x) (fst tm')); inversion H; subst; clear H.
    + constructor; [lia|]. eapply Forall_impl; [|exact IH]. cbn beta. intros; lia.
    + constructor; [lia|exact IH].
  - inversion H; subst. rewrite (pick_none _ E). constructor; [lia|constructor].
Qed.

Lemma weight_app (a b : list (Z * Task)) : weight (a ++ b) = (weight a + weight b)%nat.
Proof.
  induction a as [|x a IH]; [reflexivity|].
  cbn [app weight fold_right] in *. fold (weight (a ++ b)). fold (weight a). rewrite IH. lia.
Qed.

Lemma weight_run_task (tk : Task) (l : t) :
  (weight (timers (run_task tk l)) + 1
   <= match tk with Hide => 2 | Remove => 1 end + weight (timers l))%nat.
Proof.
  destruct tk; cbn [run_task]; unfold hide, remove.
  - destruct (loadingScreen l) as [sc|]; [|lia].
    destruct (negb (hidden sc)); [|lia]. cbn [timers]. rewrite weight_app. cbn. lia.
  - destruct (loadingScreen l) as [sc|]; [|lia]. destruct (attached sc); cbn [timers]; lia.
Qed.

Lemma now_run_task (tk : Task) (l : t) : now (run_task tk l) = now l.
Proof.
  destruct tk; cbn [run_task]; unfold hide, remove;
    destruct (loadingScreen l) as [sc|]; try reflexivity.
  - destruct (negb (hidden sc)); reflexivity.
  - destruct (attached sc); reflexivity.
Qed.

(** The fuel of [elapse] is enough: when the loop stops, the clock is at
    the limit and no timer that is left is due. *)
Lemma elapse_to_done (fuel : nat) (limit : Z) (l : t) :
  (weight (timers l) < fuel)%nat -> now l <= limit ->
  now (elapse_to fuel limit l) = limit /\
  Forall (fun tm => limit < fst tm) (timers (elapse_to fuel limit l)).
Proof.
  revert l. induction fuel as [|fuel IH]; intros l Hw Hn; [lia|].
  cbn [elapse_to]. destruct (pick (timers l)) as [[tm rest]|] eqn:E.
  - destruct (Z.leb_spec (fst tm) limit) as [Hle|Hgt].
    + apply IH.
      * pose proof (pick_weight _ _ _ E) as W.
        pose proof (weight_run_task (snd tm)
                      {| loadingScreen := loadingScreen l; timers := rest;
                         now := Z.max (now l) (fst tm) |}) as R.
        cbn [timers] in R. lia.
      * rewrite now_run_task. cbn [now]. lia.
    + cbn [now timers]. split; [lia|].
      eapply Forall_impl; [|exact (pick_least _ _ _ E)]. cbn beta. intros; lia.
  - cbn [now timers]. split; [lia|]. rewrite (pick_none _ E). constructor.
Qed.

Lemma pick_sub (tms : list (Z * Task)) (tm : Z * Task) (rest : list (Z * Task)) :
  pick tms = Some (tm, rest) -> In tm tms /\ incl rest tms.
Proof.
  revert tm rest. induction tms as [|x tms IH]; intros tm rest H; [discriminate|].
  cbn [pick] in H. destruct (pick tms) as [[tm' rest']|].
  - destruct (IH tm' rest' eq_refl) as [I1 I2].
    destruct (fst x <=? fst tm'); inversion H; subst; clear H.
    + split; [now left|]. intros y Hy. now right.
    + split; [now right|]. intros y [<-|Hy]; [now left|right; now apply I2].
  - inversion H; subst. split; [now left|]. intros y Hy. now right.
Qed.

(** With nothing to hide, the timer loop leaves the screen alone and arms
    no removal. *)
Lemma guard_elapse_to (fuel : nat) (limit : Z) (l : t) :
  nothing_to_hide (loadingScreen l) = true ->
  Forall (fun tm => snd tm = Hide) (timers l) ->
  loadingScreen (elapse_to fuel limit l) = loadingScreen l /\
  Forall (fun tm => snd tm = Hide) (timers (elapse_to fuel limit l)).
Proof.
  revert l. induction fuel as [|fuel IH]; intros l Hn Ht; [now split|].
  cbn [elapse_to]. destruct (pick (timers l)) as [[tm rest]|] eqn:E; [|now split].
  destruct (fst tm <=? limit); [|now split].
  destruct (pick_sub _ _ _ E) as [Hin Hsub].
  assert (Hrest : Forall (fun tm0 => snd tm0 = Hide) rest).
  { apply Forall_forall. intros y Hy. rewrite Forall_forall in Ht. apply Ht, Hsub, Hy. }
  rewrite Forall_forall in Ht. rewrite (Ht tm Hin). cbn [run_task].
  unfold hide. cbn [loadingScreen timers now].
  destruct (loadingScreen l) as [sc|] eqn:Es.
  - cbn [nothing_to_hide] in Hn. rewrite Hn. cbn [negb].
    destruct (IH {| loadingScreen := Some sc; timers := rest;
                    now := Z.max (now l) (fst tm) |}) as [I1 I2]; [exact Hn|exact Hrest|].
    split; [exact I1|exact I2].
  - destruct (IH {| loadingScreen := None; timers := rest;
                    now := Z.max (now l) (fst tm) |}) as [I1 I2];
      [reflexivity|exact Hrest|].
    split; [exact I1|exact I2].
Qed.

Lemma guard_step (l : t) (inp : Input) :
  nothing_to_hide (loadingScreen l) = true ->
  Forall (fun tm => snd tm = Hide) (timers l) ->
  loadingScreen (step l inp) = loadingScreen l /\
  Forall (fun tm => snd tm = Hide) (timers (step l inp)).
Proof.
  intros Hn Ht. destruct inp as [|dt]; cbn [step].
  - cbn [on_load loadingScreen timers]. split; [reflexivity|].
    apply Forall_app. split; [exact Ht|]. now constructor.
  - now apply guard_elapse_to.
Qed.

Lemma no_removals (tms : list (Z * Task)) :
  Forall (fun tm => snd tm = Hide) tms ->
  filter (fun tm => match snd tm with Hide => false | Remove => true end) tms = [].
Proof.
  induction 1 as [|tm tms Htm _ IH]; [reflexivity|]. cbn [filter]. now rewrite Htm.
Qed.

End LoadingFacts.

(** Runs the timer loop on a state given in closed form, splitting on the
    order of the due times. *)
Ltac loading_run :=
  unfold LoadingScreen.new, LoadingScreen.shown, LoadingScreen.elapse,
    LoadingScreen.pending_removals, LoadingScreen.pending_hides;
  repeat first
    [ progress cbn [LoadingScreen.elapse_to LoadingScreen.pick LoadingScreen.timers
                    LoadingScreen.now LoadingScreen.loadingScreen fst snd
                    LoadingScreen.run_task LoadingScreen.hide LoadingScreen.remove
                    LoadingScreen.on_load LoadingScreen.weight fold_right Nat.add
                    LoadingScreen.hidden LoadingScreen.attached negb andb app
                    filter map]
    | match goal with
      | |- context [Z.max ?a ?b] =>
          first [rewrite (Z.max_r a b) by lia | rewrite (Z.max_l a b) by lia]
      | |- context [Z.min ?a ?b] =>
          first [rewrite (Z.min_r a b) by lia | rewrite (Z.min_l a b) by lia]
      | |- context [Z.add 0 ?b] => rewrite (Z.add_0_l b)
      | |- context [Z.leb ?a ?b] => destruct (Z.leb_spec a b); try lia
      | |- context [Z.ltb ?a ?b] => destruct (Z.ltb_spec a b); try lia
      end ].

(** X21: the loading screen goes once.  With the [load] event [L] ms after
    the constructor, the screen gets the [hidden] class at
    [min (L + 1200) 3500] ms, whichever of the two [hide] timers fires
    first, and leaves the document 800 ms later; the second [hide] arms no
    second removal.  At any time [t] after the [load] event the state is
    given in closed form.  Without a [load] event the fallback hides the
    screen at 3500 ms. *)
Theorem loading_screen_goes_once (L t : Z) :
  0 <= L <= t ->
  let l := LoadingScreen.elapse (t - L)
             (LoadingScreen.on_load
                (LoadingScreen.elapse L
                   (LoadingScreen.new (Some LoadingScreen.shown)))) in
  let T := Z.min (L + 1200) 3500 in
  LoadingScreen.loadingScreen l
  = Some {| LoadingScreen.hidden := T <=? t;
            LoadingScreen.attached := negb (T + 800 <=? t) |} /\
  LoadingScreen.pending_removals l
  = (if (T <=? t) && (t <? T + 800) then [T + 800] else []) /\
  LoadingScreen.pending_hides l = filter (fun due => t <? due) [3500; L + 1200] /\
  LoadingScreen.now l = t /\
  LoadingScreen.loadingScreen
    (LoadingScreen.elapse t (LoadingScreen.new (Some LoadingScreen.shown)))
  = Some {| LoadingScreen.hidden := 3500 <=? t;
            LoadingScreen.attached := negb (4300 <=? t) |}.
Proof.
  intros H l T. subst l T.
  destruct (Z.le_gt_cases 3500 (L + 1200)) as [HT|HT].
  - rewrite (Z.min_r (L + 1200) 3500) by lia.
    repeat split; loading_run; first [reflexivity | lia].
  - rewrite (Z.min_l (L + 1200) 3500) by lia.
    repeat split; loading_run; first [reflexivity | lia].
Qed.

Lemma loading_screen_goes_once_witness :
  LoadingScreen.loadingScreen
    (LoadingScreen.elapse 2000
       (LoadingScreen.on_load
          (LoadingScreen.elapse 1000 (LoadingScreen.new (Some LoadingScreen.shown)))))
  = Some {| LoadingScreen.hidden := true; LoadingScreen.attached := false |} /\
  LoadingScreen.pending_hides
    (LoadingScreen.elapse 2000
       (LoadingScreen.on_load
          (LoadingScreen.elapse 1000 (LoadingScreen.new (Some LoadingScreen.shown)))))
  = [3500].
Proof.
  destruct (loading_screen_goes_once 1000 3000) as (H1 & _ & H3 & _); [lia|].
  split; [exact H1|exact H3].
Defined.

(** X22: the guard of [hide].  When the page has no [#loadingScreen], or
    the element carries the [hidden] class from the start, nothing ever
    happens to it: whenever the [load] event and the timers come, the
    element is as it was, still in the document, and no removal is
    pending. *)
Theorem hidden_screen_stays (sc : option LoadingScreen.Screen)
    (inputs : list LoadingScreen.Input) :
  LoadingScreen.nothing_to_hide sc = true ->
  LoadingScreen.loadingScreen (LoadingScreen.run inputs (LoadingScreen.new sc)) = sc /\
  LoadingScreen.pending_removals (LoadingScreen.run inputs (LoadingScreen.new sc)) = [].
Proof.
  intros Hn.
  assert (G : forall l,
             LoadingScreen.nothing_to_hide (LoadingScreen.loadingScreen l) = true ->
             Forall (fun tm => snd tm = LoadingScreen.Hide) (LoadingScreen.timers l) ->
             LoadingScreen.loadingScreen (LoadingScreen.run inputs l)
             = LoadingScreen.loadingScreen l /\
             Forall (fun tm => snd tm = LoadingScreen.Hide)
               (LoadingScreen.timers (LoadingScreen.run inputs l))).
  { induction inputs as [|inp inputs IH]; intros l H1 H2; [now split|].
    unfold LoadingScreen.run in *. cbn [fold_left].
    destruct (LoadingFacts.guard_step l inp H1 H2) as [S1 S2].
    destruct (IH (LoadingScreen.step l inp)) as [I1 I2];
      [now rewrite S1|exact S2|].
    split; [now rewrite I1|exact I2]. }
  destruct (G (LoadingScreen.new sc)) as [G1 G2];
    [exact Hn|repeat constructor|].
  split; [exact G1|]. unfold LoadingScreen.pending_removals.
  now rewrite (LoadingFacts.no_removals _ G2).
Qed.

Lemma hidden_screen_stays_witness :
  LoadingScreen.loadingScreen
    (LoadingScreen.run
       [LoadingScreen.Wait 1000; LoadingScreen.Load; LoadingScreen.Wait 5000]
       (LoadingScreen.new
          (Some {| LoadingScreen.hidden := true; LoadingScreen.attached := true |})))
  = Some {| LoadingScreen.hidden := true; LoadingScreen.attached := true |}.
Proof.
  apply (hidden_screen_stays
           (Some {| LoadingScreen.hidden := true; LoadingScreen.attached := true |})).
  reflexivity.
Defined.

(** ** [Navigation] *)

Module NavigationFacts.
Import Navigation.



Lemma toggleMenu_eq (m : Menu) (h a : bool) :
  hamburger m = Some h -> navMenu m = Some a ->
  toggleMenu m
  = (Normal tt,
     {| hamburger := Some (negb h); navMenu := Some (negb a);
        menu_open := negb (menu_open m); closers := closers m;
        adders := if negb a then adders m ++ [now m + 100] else adders m;
        now := now m |}, []).
Proof.
  intros Hh Ha. unfold toggleMenu. rewrite bind_get, Hh, bind_modify.
  cbn [set_hamburger navMenu]. rewrite Ha, !bind_modify.
  destruct a; reflexivity.
Qed.

Lemma closeMenu_eq (m : Menu) (h a : bool) :
  hamburger m = Some h -> navMenu m = Some a ->
  closeMenu m
  = (Normal tt,
     {| hamburger := Some false; navMenu := Some false; menu_open := false;
        closers := closers m; adders := adders m; now := now m |}, []).
Proof.
  intros Hh Ha. unfold closeMenu. rewrite bind_get, Hh, bind_modify.
  cbn [set_hamburger navMenu]. rewrite Ha, !bind_modify. reflexivity.
Qed.

(** A click inside the menu or the hamburger changes nothing. *)
Lemma document_click_inside (in_menu in_hamburger : bool) (m : Menu) :
  in_menu || in_hamburger = true -> document_click in_menu in_hamburger m = m.
Proof.
  intros H. unfold document_click.
  assert (E : forall m0, state_of (closeOnClickOutside in_menu in_hamburger m0) = m0).
  { intros m0. unfold closeOnClickOutside. rewrite bind_get.
    destruct (navMenu m0); [|reflexivity].
    destruct in_menu; cbn [negb]; [reflexivity|].
    destruct (hamburger m0); [|reflexivity].
    cbn [orb] in H. rewrite H. reflexivity. }
  induction (closers m) as [|k IH]; [reflexivity|].
  rewrite Nat.iter_succ, IH. apply E.
Qed.

(** A click outside runs every listener: the menu is closed and the
    listeners are gone. *)
Lemma document_click_outside (m : Menu) (h a : bool) :
  hamburger m = Some h -> navMenu m = Some a ->
  document_click false false m
  = if Nat.eqb (closers m) 0 then m
    else {| hamburger := Some false; navMenu := Some false; menu_open := false;
            closers := 0; adders := adders m; now := now m |}.
Proof.
  intros Hh Ha. unfold document_click.
  assert (E : forall m0 h0 a0, hamburger m0 = Some h0 -> navMenu m0 = Some a0 ->
            state_of (closeOnClickOutside false false m0)
            = {| hamburger := Some false; navMenu := Some false; menu_open := false;
                 closers := Nat.pred (closers m0); adders := adders m0; now := now m0 |}).
  { intros m0 h0 a0 H1 H2. unfold closeOnClickOutside. rewrite bind_get, H2.
    cbn [negb]. rewrite H1. cbn [when]. unfold bind.
    rewrite (closeMenu_eq m0 h0 a0 H1 H2). reflexivity. }
  assert (G : forall k m0 h0 a0, hamburger m0 = Some h0 -> navMenu m0 = Some a0 ->
            Nat.iter (Datatypes.S k)
              (fun m1 => state_of (closeOnClickOutside false false m1)) m0
            = {| hamburger := Some false; navMenu := Some false; menu_open := false;
                 closers := Nat.iter (Datatypes.S k) Nat.pred (closers m0);
                 adders := adders m0; now := now m0 |}).
  { induction k as [|k IH]; intros m0 h0 a0 H1 H2.
    - cbn [Nat.iter nat_rect]. apply (E m0 h0 a0 H1 H2).
    - rewrite Nat.iter_succ, (IH m0 h0 a0 H1 H2).
      erewrite E; [|reflexivity|reflexivity]. cbn [closers adders now].
      now rewrite (Nat.iter_succ (Datatypes.S k)). }
  destruct (closers m) as [|k] eqn:Ec; [reflexivity|].
  cbn [Nat.eqb]. rewrite (G k m h a Hh Ha), Ec. f_equal.
  clear. assert (P : forall j n, (n <= j)%nat -> Nat.iter j Nat.pred n = 0%nat).
  { induction j as [|j IH]; intros n Hn; [cbn; lia|].
    rewrite Nat.iter_succ_r. apply IH. lia. }
  apply P. lia.
Qed.

Lemma on_escape_eq (m : Menu) (b : bool) :
  hamburger m = Some b -> navMenu m = Some b -> menu_open m = b ->
  state_of (on_escape m)
  = {| hamburger := Some false; navMenu := Some false; menu_open := false;
       closers := closers m; adders := adders m; now := now m |}.
Proof.
  intros Hh Ha Ho. unfold on_escape. rewrite bind_get, Ha.
  destruct b; cbn [when].
  - now rewrite (closeMenu_eq m true true Hh Ha).
  - cbn [ret state_of fst snd]. destruct m. cbn in *. now subst.
Qed.

(** One input, on a page whose three classes agree. *)
Lemma step_eq (m : Menu) (inp : Input) :
  in_step m ->
  step m inp
  = match inp with
    | ClickHamburger =>
        {| hamburger := Some (negb (menu_open m)); navMenu := Some (negb (menu_open m));
           menu_open := negb (menu_open m); closers := closers m;
           adders := if negb (menu_open m) then adders m ++ [now m + 100] else adders m;
           now := now m |}
    | ClickElsewhere in_menu =>
        if in_menu || Nat.eqb (closers m) 0 then m
        else {| hamburger := Some false; navMenu := Some false; menu_open := false;
                closers := 0; adders := adders m; now := now m |}
    | Escape =>
        {| hamburger := Some false; navMenu := Some false; menu_open := false;
           closers := closers m; adders := adders m; now := now m |}
    | Wait dt => elapse dt m
    end.
Proof.
  intros [Hh Ha]. destruct inp as [|in_menu| |dt]; cbn [step].
  - rewrite Hh, (toggleMenu_eq m _ _ Hh Ha). cbn [state_of fst snd].
    now rewrite document_click_inside.
  - destruct in_menu; cbn [orb].
    + now rewrite document_click_inside.
    + apply (document_click_outside m _ _ Hh Ha).
  - apply (on_escape_eq m (menu_open m) Hh Ha eq_refl).
  - reflexivity.
Qed.

Lemma in_step_step (m : Menu) (inp : Input) : in_step m -> in_step (step m inp).
Proof.
  intros H. rewrite (step_eq m inp H). destruct H as [Hh Ha].
  destruct inp as [|in_menu| |dt]; try (split; reflexivity).
  - destruct (in_menu || Nat.eqb (closers m) 0); split; assumption || reflexivity.
  - split; assumption.
Qed.

Lemma in_step_run (inputs : list Input) (m : Menu) : in_step m -> in_step (run inputs m).
Proof.
  revert m. induction inputs as [|inp inputs IH]; intros m H; [exact H|].
  unfold run in *. cbn [fold_left]. apply IH. now apply in_step_step.
Qed.

Lemma filter_split_length (p : Z -> bool) (l : list Z) :
  (length (filter p l) + length (filter (fun x => negb (p x)) l) = length l)%nat.
Proof.
  induction l as [|x l IH]; [reflexivity|]. cbn [filter].
  destruct (p x); cbn [negb length]; lia.
Qed.

Lemma closable_step (m : Menu) (inp : Input) :
  in_step m -> closable m -> closable (step m inp).
Proof.
  intros H [C1 C2]. rewrite (step_eq m inp H).
  destruct inp as [|in_menu| |dt].
  - split; cbn [menu_open closers adders now].
    + intros Hneg. destruct (menu_open m); cbn [negb] in *.
      * discriminate.
      * rewrite length_app. cbn [length]. lia.
    + destruct (negb (menu_open m)); [|exact C2].
      apply Forall_app. split; [exact C2|]. constructor; [lia|constructor].
  - destruct (in_menu || Nat.eqb (closers m) 0); [now split|].
    split; cbn [menu_open closers adders now]; [discriminate|exact C2].
  - split; cbn [menu_open closers adders now]; [discriminate|exact C2].
  - split; cbn [elapse menu_open closers adders now].
    + intros Ho. specialize (C1 Ho).
      pose proof (filter_split_length (fun due => due <=? now m + Z.max 0 dt) (adders m)).
      lia.
    + apply Forall_forall. intros due Hin. apply filter_In in Hin.
      destruct Hin as [Hin _]. rewrite Forall_forall in C2. specialize (C2 due Hin). lia.
Qed.

Lemma closable_run (inputs : list Input) (m : Menu) :
  in_step m -> closable m -> closable (run inputs m).
Proof.
  revert m. induction inputs as [|inp inputs IH]; intros m H C; [exact C|].
  unfold run in *. cbn [fold_left]. apply IH.
  - now apply in_step_step.
  - now apply closable_step.
Qed.

Lemma run_app (a b : list Input) (m : Menu) : run (a ++ b) m = run b (run a m).
Proof. apply fold_left_app. Qed.

End NavigationFacts.


(** X24: the three classes of the mobile menu stay in step.  On a page
    that has [#hamburger] and [#navMenu], when the [active] class of both
    and the [menu-open] class of the body agree, they agree after any
    series of hamburger clicks, other clicks, Escape keys and timers. *)
Theorem menu_classes_stay_in_step (inputs : list Navigation.Input) (m : Navigation.Menu) :
  Navigation.in_step m ->
  Navigation.hamburger (Navigation.run inputs m)
  = Some (Navigation.menu_open (Navigation.run inputs m)) /\
  Navigation.navMenu (Navigation.run inputs m)
  = Some (Navigation.menu_open (Navigation.run inputs m)).
Proof. intros H. exact (NavigationFacts.in_step_run inputs m H). Qed.

Lemma menu_classes_stay_in_step_witness :
  Navigation.hamburger
    (Navigation.run [Navigation.ClickHamburger; Navigation.Wait 40; Navigation.Escape;
                     Navigation.ClickHamburger] Navigation.closed)
  = Some (Navigation.menu_open
            (Navigation.run [Navigation.ClickHamburger; Navigation.Wait 40;
                             Navigation.Escape; Navigation.ClickHamburger]
               Navigation.closed)).
Proof.
  apply (menu_classes_stay_in_step _ Navigation.closed). split; reflexivity.
Defined.

(** X25: a click outside closes the menu.  Whatever happened before, once
    100 ms have passed a click outside the menu and the hamburger leaves
    the menu closed, with all three classes off, no [closeOnClickOutside]
    listener registered and none to come. *)
Theorem outside_click_closes (inputs : list Navigation.Input) (m : Navigation.Menu) :
  Navigation.in_step m -> Navigation.closable m ->
  Navigation.run (inputs ++ [Navigation.Wait 100; Navigation.ClickElsewhere false]) m
  = {| Navigation.hamburger := Some false; Navigation.navMenu := Some false;
       Navigation.menu_open := false; Navigation.closers := 0; Navigation.adders := [];
       Navigation.now := Navigation.now (Navigation.run inputs m) + 100 |}.
Proof.
  intros H C. rewrite NavigationFacts.run_app.
  pose proof (NavigationFacts.in_step_run inputs m H) as H'.
  pose proof (NavigationFacts.closable_run inputs m H C) as [C1 C2].
  set (m' := Navigation.run inputs m) in *.
  unfold Navigation.run. cbn [fold_left].
  assert (Hw : Navigation.in_step (Navigation.step m' (Navigation.Wait 100)))
    by now apply NavigationFacts.in_step_step.
  rewrite (NavigationFacts.step_eq _ (Navigation.ClickElsewhere false) Hw).
  cbn [orb Navigation.step Navigation.elapse Navigation.closers Navigation.adders
       Navigation.now] in *.
  assert (F1 : filter (fun due => negb (due <=? Navigation.now m' + Z.max 0 100))
                 (Navigation.adders m') = []).
  { clear - C2. induction C2 as [|due l Hd _ IH]; [reflexivity|]. cbn [filter].
    destruct (Z.leb_spec due (Navigation.now m' + Z.max 0 100)); [exact IH|lia]. }
  assert (F2 : filter (fun due => due <=? Navigation.now m' + Z.max 0 100)
                 (Navigation.adders m') = Navigation.adders m').
  { clear - C2. induction C2 as [|due l Hd _ IH]; [reflexivity|]. cbn [filter].
    destruct (Z.leb_spec due (Navigation.now m' + Z.max 0 100)); [now rewrite IH|lia]. }
  rewrite F1, F2. destruct H' as [Hh Ha].
  destruct (Nat.eqb_spec (Navigation.closers m' + length (Navigation.adders m')) 0)
    as [E0|Ne]; [|reflexivity].
  destruct (Navigation.menu_open m') eqn:Eo.
  - specialize (C1 eq_refl). lia.
  - unfold Navigation.elapse. now rewrite F1, F2, E0, Hh, Ha, Eo.
Qed.

Lemma outside_click_closes_witness :
  Navigation.menu_open
    (Navigation.run
       ([Navigation.ClickHamburger; Navigation.Wait 100; Navigation.ClickHamburger;
         Navigation.ClickHamburger]
        ++ [Navigation.Wait 100; Navigation.ClickElsewhere false]) Navigation.closed)
  = false.
Proof.
  rewrite (outside_click_closes _ Navigation.closed).
  - reflexivity.
  - split; reflexivity.
  - split; [discriminate|constructor].
Defined.

(** X26: the [closeOnClickOutside] listeners pile up.  A listener is taken
    off the document only by a click outside.  Each time the menu is
    opened with the hamburger, left open for at least 100 ms and closed
    with the Escape key, one more listener stays registered: after [n]
    such rounds there are [n] more, and the menu is closed. *)
Theorem closers_pile_up (n : nat) (dt : Z) (m : Navigation.Menu) :
  Navigation.in_step m -> Navigation.menu_open m = false -> Navigation.adders m = [] ->
  100 <= dt ->
  Navigation.run (Navigation.cycles n dt) m
  = {| Navigation.hamburger := Some false; Navigation.navMenu := Some false;
       Navigation.menu_open := false;
       Navigation.closers := Navigation.closers m + n;
       Navigation.adders := [];
       Navigation.now := Navigation.now m + Z.of_nat n * dt |}.
Proof.
  intros H Ho Had Hdt. revert m H Ho Had.
  induction n as [|n IH]; intros m H Ho Had.
  - cbn [Navigation.cycles Navigation.run fold_left]. destruct H as [Hh Ha].
    rewrite Ho in *. destruct m; cbn in *; subst. f_equal; [lia|lia].
  - cbn [Navigation.cycles]. rewrite NavigationFacts.run_app.
    unfold Navigation.open_and_escape, Navigation.run at 2. cbn [fold_left].
    rewrite (NavigationFacts.step_eq m Navigation.ClickHamburger H), Ho, Had.
    cbn [negb app].
    match goal with |- context [Navigation.step ?m1 (Navigation.Wait dt)] =>
      assert (H1 : Navigation.in_step m1) by (split; reflexivity) end.
    rewrite (NavigationFacts.step_eq _ (Navigation.Wait dt) H1).
    unfold Navigation.elapse.
    cbn [Navigation.elapse Navigation.closers Navigation.adders Navigation.now
         Navigation.hamburger Navigation.navMenu Navigation.menu_open filter].
    destruct (Z.leb_spec (Navigation.now m + 100) (Navigation.now m + Z.max 0 dt)); [|lia].
    cbn [negb length].
    match goal with |- context [Navigation.step ?m2 Navigation.Escape] =>
      assert (H2 : Navigation.in_step m2) by (split; reflexivity) end.
    rewrite (NavigationFacts.step_eq _ Navigation.Escape H2).
    cbn [Navigation.closers Navigation.adders Navigation.now].
    rewrite IH; [|split; reflexivity|reflexivity|reflexivity].
    cbn [Navigation.closers Navigation.now]. f_equal; lia.
Qed.

Lemma closers_pile_up_witness :
  Navigation.closers (Navigation.run (Navigation.cycles 3 150) Navigation.closed) = 3%nat.
Proof.
  rewrite (closers_pile_up 3 150 Navigation.closed).
  - reflexivity.
  - split; reflexivity.
  - reflexivity.
  - reflexivity.
  - lia.
Defined.

(** X27: a click outside comes too early within 100 ms.  The listener that
    closes the menu is added 100 ms after the menu was opened: with no
    listener left from before, a click outside less than 100 ms after the
    hamburger click leaves the menu open, and from 100 ms on it closes
    it. *)
Theorem early_outside_click_is_ignored (dt : Z) (m : Navigation.Menu) :
  Navigation.in_step m -> Navigation.menu_open m = false ->
  Navigation.closers m = 0%nat -> Navigation.adders m = [] ->
  Navigation.menu_open
    (Navigation.run [Navigation.ClickHamburger; Navigation.Wait dt;
                     Navigation.ClickElsewhere false] m)
  = (dt <? 100).
Proof.
  intros H Ho Hc Had. unfold Navigation.run. cbn [fold_left].
  rewrite (NavigationFacts.step_eq m Navigation.ClickHamburger H), Ho, Had, Hc.
  cbn [negb app].
  match goal with |- context [Navigation.step ?m1 (Navigation.Wait dt)] =>
    assert (H1 : Navigation.in_step m1) by (split; reflexivity) end.
  rewrite (NavigationFacts.step_eq _ (Navigation.Wait dt) H1).
  unfold Navigation.elapse.
  cbn [Navigation.elapse Navigation.closers Navigation.adders Navigation.now
       Navigation.hamburger Navigation.navMenu Navigation.menu_open filter].
  destruct (Z.leb_spec (Navigation.now m + 100) (Navigation.now m + Z.max 0 dt));
    destruct (Z.ltb_spec dt 100); try lia; cbn [negb length Nat.add].
  - match goal with |- context [Navigation.step ?m2 _] =>
      assert (Hs : Navigation.in_step m2) by (split; reflexivity) end.
    rewrite (NavigationFacts.step_eq _ (Navigation.ClickElsewhere false) Hs). reflexivity.
  - match goal with |- context [Navigation.step ?m2 _] =>
      assert (Hs : Navigation.in_step m2) by (split; reflexivity) end.
    rewrite (NavigationFacts.step_eq _ (Navigation.ClickElsewhere false) Hs). reflexivity.
Qed.

Lemma early_outside_click_is_ignored_witness :
  Navigation.menu_open
    (Navigation.run [Navigation.ClickHamburger; Navigation.Wait 99;
                     Navigation.ClickElsewhere false] Navigation.closed)
  = true.
Proof.
  apply (early_outside_click_is_ignored 99 Navigation.closed);
    [split; reflexivity|reflexivity|reflexivity|reflexivity].
Defined.
